(** * Mushroom Garden: the fungus simulation core

    A shallow embedding of the simulation core of the repository
    (src/fungus-sim/Dna.ts, Energy.ts, Cell.ts, Fungus.ts and
    SimulationEngine.ts) together with the properties the specification
    states about it.

    Numbers.  A TypeScript [number] is modelled as an exact rational [Q]:
    [Math.floor], [Math.round], [Math.min], [Math.abs] and [Math.sign] are
    the exact functions, and the rounding of IEEE doubles is not modelled.
    Grid coordinates and organism identifiers are integers ([Z]).
    Equality of numbers is [Qeq], written [==].

    Maps.  The engine iterates over its JavaScript [Map]s in insertion
    order, so they are association lists with the insertion-order
    behaviour of [Map.set] and [Map.delete] written out.

    Randomness.  [Math.random()] reads the next value of an explicit tape
    of rationals in the interval from 0 (included) to 1 (excluded). *)

From Stdlib Require Import ZArith QArith Qround Qabs Qminmax Lqa Lia List Bool.
From Stdlib Require Import Permutation Sorted.
From Stdlib Require String.
Import ListNotations.

Local Open Scope Q_scope.

(** ** JavaScript [Math] on exact rationals *)

Module JsMath.

Definition floor (x : Q) : Q := inject_Z (Qfloor x).

(** [Math.round] rounds to the nearest integer, halves upwards. *)
Definition round (x : Q) : Q := floor (x + (1 # 2)).

Definition min (x y : Q) : Q := Qmin x y.

Definition min3 (x y z : Q) : Q := Qmin (Qmin x y) z.

Definition max (x y : Q) : Q := Qmax x y.

Definition abs (x : Q) : Q := Qabs x.

Definition sign (x : Q) : Q :=
  match x ?= 0 with
  | Lt => -(1)
  | Eq => 0
  | Gt => 1
  end.

(** [Number.isInteger]. *)
Definition isInteger (x : Q) : bool := Qeq_bool (floor x) x.

(** [a === b] and the order tests on numbers. *)
Definition eqb (x y : Q) : bool := Qeq_bool x y.
Definition leb (x y : Q) : bool := Qle_bool x y.
Definition ltb (x y : Q) : bool := negb (Qle_bool y x).

End JsMath.

Arguments JsMath.floor : simpl never.
Arguments JsMath.round : simpl never.
Arguments JsMath.min : simpl never.
Arguments JsMath.min3 : simpl never.
Arguments JsMath.max : simpl never.
Arguments JsMath.abs : simpl never.
Arguments JsMath.sign : simpl never.
Arguments JsMath.eqb : simpl never.
Arguments JsMath.leb : simpl never.
Arguments JsMath.ltb : simpl never.

(** ** Energy.ts: energy kinds, wallets and accumulators *)

Inductive EnergyType : Type :=
  | SUN_UNIT
  | SOIL_UNIT
  | NUTRITION_UNIT.

(** [EnergyWallet] is a [Map<EnergyType, number>].  Every wallet of the
    program is made by [createEmpty], which sets the three keys; [get]
    reads a missing key as 0, so a wallet is its three counts. *)
Record EnergyWallet : Type := mkWallet {
  sunUnits : Q;
  soilUnits : Q;
  nutritionUnits : Q
}.

Module EnergyWalletHelper.

Definition createEmpty : EnergyWallet := mkWallet 0 0 0.

Definition get (wallet : EnergyWallet) (type : EnergyType) : Q :=
  match type with
  | SUN_UNIT => sunUnits wallet
  | SOIL_UNIT => soilUnits wallet
  | NUTRITION_UNIT => nutritionUnits wallet
  end.

(** [wallet.set(type, v)] of the underlying map. *)
Definition put (wallet : EnergyWallet) (type : EnergyType) (v : Q)
  : EnergyWallet :=
  match type with
  | SUN_UNIT => mkWallet v (soilUnits wallet) (nutritionUnits wallet)
  | SOIL_UNIT => mkWallet (sunUnits wallet) v (nutritionUnits wallet)
  | NUTRITION_UNIT => mkWallet (sunUnits wallet) (soilUnits wallet) v
  end.

Definition set (wallet : EnergyWallet) (type : EnergyType) (amount : Q)
  : EnergyWallet :=
  put wallet type (JsMath.max 0 (JsMath.floor amount)).

Definition getTotalUnits (wallet : EnergyWallet) : Q :=
  sunUnits wallet + soilUnits wallet + nutritionUnits wallet.

(** [add] returns the wallet after the call and the amount added. *)
Definition add (wallet : EnergyWallet) (type : EnergyType) (amount : Q)
    (maxCapacity : option Q) : EnergyWallet * Q :=
  let current := get wallet type in
  let toAdd := JsMath.floor amount in
  match maxCapacity with
  | Some cap =>
      let totalUnits := getTotalUnits wallet in
      let available := cap - totalUnits in
      let actualAdd := JsMath.min toAdd available in
      (put wallet type (current + actualAdd), actualAdd)
  | None => (put wallet type (current + toAdd), toAdd)
  end.

Definition remove (wallet : EnergyWallet) (type : EnergyType) (amount : Q)
  : EnergyWallet * Q :=
  let current := get wallet type in
  let toRemove := JsMath.floor amount in
  let actualRemove := JsMath.min toRemove current in
  (put wallet type (current - actualRemove), actualRemove).

Definition has (wallet : EnergyWallet) (type : EnergyType) (amount : Q)
  : bool :=
  JsMath.leb (JsMath.floor amount) (get wallet type).

(** [transfer] returns both wallets after the call and the amount that
    reached the destination.  The two wallets are distinct objects. *)
Definition transfer (fromWallet toWallet : EnergyWallet) (type : EnergyType)
    (amount : Q) (toMaxCapacity : option Q)
  : EnergyWallet * EnergyWallet * Q :=
  let '(from1, removed) := remove fromWallet type amount in
  let '(to1, added) := add toWallet type removed toMaxCapacity in
  let from2 :=
    if JsMath.ltb added removed
    then fst (add from1 type (removed - added) None)
    else from1 in
  (from2, to1, added).

(** No kind of the wallet has a negative count. *)
Definition nonNegative (wallet : EnergyWallet) : Prop :=
  forall type, 0 <= get wallet type.

(** Every count of the wallet is a whole number of units. *)
Definition wholeUnits (wallet : EnergyWallet) : Prop :=
  forall type, JsMath.isInteger (get wallet type) = true.

(** The capacity handed to [add], when there is one, is a whole number and
    the wallet does not already hold more than it. *)
Definition fitsCapacity (wallet : EnergyWallet) (maxCapacity : option Q)
  : Prop :=
  match maxCapacity with
  | Some cap => JsMath.isInteger cap = true /\ getTotalUnits wallet <= cap
  | None => True
  end.

End EnergyWalletHelper.

(** [EnergyAccumulator]: the state is the accumulated value.  The sum of
    [add] is exact here; the code adds doubles, so that ten times 0.1
    leave 0.9999999999999999 in the accumulator of the code and 1 in this
    one, and the units of a frame can differ by one between the two. *)
Module EnergyAccumulator.

Definition t : Type := Q.

Definition create : t := 0.

Definition add (acc : t) (amount : Q) : t := acc + amount.

(** [extractUnits] returns the accumulator after the call and the units. *)
Definition extractUnits (acc : t) : t * Q :=
  let units := JsMath.floor acc in
  (acc - units, units).

End EnergyAccumulator.

(** ** Math.random *)

(** The outcomes of the successive calls of [Math.random()]: each call
    takes the head of the tape.  A value outside the half-open unit
    interval is not an outcome of [Math.random], and an empty tape means
    that the outcome of a call was not given; both make the reading fail. *)
Module Random.

Definition Tape : Type := list Q.

Definition unit_interval (r : Q) : bool :=
  JsMath.leb 0 r && JsMath.ltb r 1.

Definition random (tape : Tape) : option (Q * Tape) :=
  match tape with
  | [] => None
  | r :: rest => if unit_interval r then Some (r, rest) else None
  end.

(** [Math.floor(Math.random() * n)] as an array index. *)
Definition scaled (r : Q) (n : Q) : Q := JsMath.floor (r * n).

Definition index (r : Q) (n : Z) : nat :=
  Z.to_nat (Qfloor (r * inject_Z n)).

(** Every value of the tape is an outcome of [Math.random]. *)
Definition validTape (tape : Tape) : bool := forallb unit_interval tape.

(** No two successive values of the tape select the same one of [n]
    indices, so a loop that draws again on a repeated index stops at its
    first test. *)
Fixpoint spacedTape (n : Z) (tape : Tape) : bool :=
  match tape with
  | [] => true
  | r :: rest =>
      match rest with
      | [] => true
      | r' :: _ => negb (Nat.eqb (index r' n) (index r n))
      end && spacedTape n rest
  end.

End Random.

(** ** Dna.ts *)

Record Dna : Type := mkDna {
  green : Q;
  red : Q;
  brown : Q;
  yellow : Q;
  pink : Q;
  blue : Q;
  purple : Q
}.

(** The trait names that [normalize] hands to [getTraitValue] and
    [setTraitValue]; the source uses the seven string literals. *)
Inductive TraitName : Type :=
  | Tgreen
  | Tred
  | Tbrown
  | Tyellow
  | Tpink
  | Tblue
  | Tpurple.

Module DnaOps.

Section Statics.

(** [Dna.TOTAL_POINTS] is a static field that the control panel reassigns
    while the simulation runs; its value at the time of a call is a
    parameter of the call. *)
Variable TOTAL_POINTS : Q.

Definition MAX_TRAIT_VALUE : Q := 100.

Definition getTotal (d : Dna) : Q :=
  green d + red d + brown d + yellow d + pink d + blue d + purple d.

Definition getTraitValue (d : Dna) (name : TraitName) : Q :=
  match name with
  | Tgreen => green d
  | Tred => red d
  | Tbrown => brown d
  | Tyellow => yellow d
  | Tpink => pink d
  | Tblue => blue d
  | Tpurple => purple d
  end.

Definition setTraitValue (d : Dna) (name : TraitName) (value : Q) : Dna :=
  match name with
  | Tgreen => mkDna value (red d) (brown d) (yellow d) (pink d) (blue d) (purple d)
  | Tred => mkDna (green d) value (brown d) (yellow d) (pink d) (blue d) (purple d)
  | Tbrown => mkDna (green d) (red d) value (yellow d) (pink d) (blue d) (purple d)
  | Tyellow => mkDna (green d) (red d) (brown d) value (pink d) (blue d) (purple d)
  | Tpink => mkDna (green d) (red d) (brown d) (yellow d) value (blue d) (purple d)
  | Tblue => mkDna (green d) (red d) (brown d) (yellow d) (pink d) value (purple d)
  | Tpurple => mkDna (green d) (red d) (brown d) (yellow d) (pink d) (blue d) value
  end.

(** The same function applied to each of the seven fields. *)
Definition mapTraits (f : Q -> Q) (d : Dna) : Dna :=
  mkDna (f (green d)) (f (red d)) (f (brown d)) (f (yellow d))
        (f (pink d)) (f (blue d)) (f (purple d)).

(** [traits.sort((a, b) => a.value - b.value)]: ascending by value, and
    stable, so entries of equal value keep their order. *)
Fixpoint insertTrait (entry : TraitName * Q) (sorted : list (TraitName * Q))
  : list (TraitName * Q) :=
  match sorted with
  | [] => [entry]
  | e :: rest =>
      if JsMath.ltb (snd entry) (snd e)
      then entry :: e :: rest
      else e :: insertTrait entry rest
  end.

Definition sortTraits (traits : list (TraitName * Q))
  : list (TraitName * Q) :=
  fold_left (fun sorted entry => insertTrait entry sorted) traits [].

(** The loop of [normalize] that hands the difference out; it returns the
    traits and what remains of the difference. *)
Fixpoint distribute (traits : list (TraitName * Q)) (d : Dna) (remaining : Q)
  : Dna * Q :=
  match traits with
  | [] => (d, remaining)
  | trait :: rest =>
      if JsMath.eqb remaining 0 then (d, remaining)
      else
        let currentValue := getTraitValue d (fst trait) in
        let availableSpace := MAX_TRAIT_VALUE - currentValue in
        let toAdd :=
          JsMath.min (JsMath.abs remaining) availableSpace
          * JsMath.sign remaining in
        distribute rest
          (setTraitValue d (fst trait) (currentValue + toAdd))
          (remaining - toAdd)
  end.

Definition traitEntries (d : Dna) : list (TraitName * Q) :=
  [ (Tgreen, green d); (Tred, red d); (Tbrown, brown d);
    (Tyellow, yellow d); (Tpink, pink d); (Tblue, blue d);
    (Tpurple, purple d) ].

(** [normalize].  The quotients and products are exact here.  In the code
    they are doubles: the seven sevenths of the all-zero case sum to
    250.00000000000003 when [TOTAL_POINTS] is 250, and a scaled value
    that lies next to a half can be rounded to the other side.  From the
    rounding on, the code works on whole numbers as this function does. *)
Definition normalize (d : Dna) : Dna :=
  let total := getTotal d in
  if JsMath.eqb total 0 then
    let perTrait := JsMath.min (TOTAL_POINTS / 7) MAX_TRAIT_VALUE in
    mkDna perTrait perTrait perTrait perTrait perTrait perTrait perTrait
  else if negb (JsMath.eqb total TOTAL_POINTS) then
    let scale := TOTAL_POINTS / total in
    let scaled := mapTraits (fun v => JsMath.round (v * scale)) d in
    let capped := mapTraits (fun v => JsMath.min v MAX_TRAIT_VALUE) scaled in
    let cappedTotal := getTotal capped in
    let diff := TOTAL_POINTS - cappedTotal in
    if negb (JsMath.eqb diff 0) then
      let traits := sortTraits (traitEntries capped) in
      fst (distribute traits capped diff)
    else capped
  else d.

(** [new Dna(green, red, brown, yellow, pink, blue, purple)]. *)
Definition create (green red brown yellow pink blue purple : Q) : Dna :=
  normalize (mkDna green red brown yellow pink blue purple).

(** [new Dna()] with the default arguments of the constructor. *)
Definition createDefault : Dna := create 15 10 15 15 15 15 15.

Definition clone (d : Dna) : Dna :=
  create (green d) (red d) (brown d) (yellow d) (pink d) (blue d) (purple d).

(** *** mutate *)

(** The local array [traits] of [mutate]. *)
Definition traitArray (d : Dna) : list Q :=
  [green d; red d; brown d; yellow d; pink d; blue d; purple d].

Definition readTrait (traits : list Q) (i : nat) : Q := nth i traits 0.

Fixpoint writeTrait (traits : list Q) (i : nat) (v : Q) : list Q :=
  match traits, i with
  | [], _ => []
  | _ :: rest, O => v :: rest
  | t :: rest, S j => t :: writeTrait rest j v
  end.

(** [while (toIndex === fromIndex) toIndex = Math.floor(Math.random() * 7)]. *)
Fixpoint redrawTarget (fromIndex toIndex : nat) (tape : Random.Tape)
  : option (nat * Random.Tape) :=
  if Nat.eqb toIndex fromIndex then
    match tape with
    | [] => None
    | r :: rest =>
        if Random.unit_interval r
        then redrawTarget fromIndex (Random.index r 7) rest
        else None
    end
  else Some (toIndex, tape).

(** One round of the [for] loop of [mutate]. *)
Definition mutationRound (maxChange : Q) (traits : list Q)
    (tape : Random.Tape) : option (list Q * Random.Tape) :=
  match Random.random tape with
  | None => None
  | Some (r1, tape1) =>
      let fromIndex := Random.index r1 7 in
      match Random.random tape1 with
      | None => None
      | Some (r2, tape2) =>
          match redrawTarget fromIndex (Random.index r2 7) tape2 with
          | None => None
          | Some (toIndex, tape3) =>
              if JsMath.leb MAX_TRAIT_VALUE (readTrait traits toIndex)
              then Some (traits, tape3)
              else
                match Random.random tape3 with
                | None => None
                | Some (r3, tape4) =>
                    let transferAmount := Random.scaled r3 maxChange + 1 in
                    let actualTransfer :=
                      JsMath.min3 transferAmount
                        (readTrait traits fromIndex)
                        (MAX_TRAIT_VALUE - readTrait traits toIndex) in
                    let traits1 :=
                      writeTrait traits fromIndex
                        (readTrait traits fromIndex - actualTransfer) in
                    let traits2 :=
                      writeTrait traits1 toIndex
                        (readTrait traits1 toIndex + actualTransfer) in
                    Some (traits2, tape4)
                end
          end
      end
  end.

Fixpoint mutationRounds (numMutations : nat) (maxChange : Q)
    (traits : list Q) (tape : Random.Tape)
  : option (list Q * Random.Tape) :=
  match numMutations with
  | O => Some (traits, tape)
  | S n =>
      match mutationRound maxChange traits tape with
      | None => None
      | Some (traits1, tape1) => mutationRounds n maxChange traits1 tape1
      end
  end.

(** [mutate] returns the new [Dna] and the rest of the tape. *)
Definition mutate (d : Dna) (mutationStrength : Q) (tape : Random.Tape)
  : option (Dna * Random.Tape) :=
  let maxChange := JsMath.floor (TOTAL_POINTS * mutationStrength) in
  let traits := traitArray d in
  match Random.random tape with
  | None => None
  | Some (r0, tape0) =>
      let numMutations := (Random.index r0 3 + 1)%nat in
      match mutationRounds numMutations maxChange traits tape0 with
      | None => None
      | Some (traits1, tape1) =>
          Some (create (readTrait traits1 0) (readTrait traits1 1)
                       (readTrait traits1 2) (readTrait traits1 3)
                       (readTrait traits1 4) (readTrait traits1 5)
                       (readTrait traits1 6), tape1)
      end
  end.

End Statics.

End DnaOps.

(** ** JavaScript [Map] with insertion order *)

Module JsMap.

Section WithKey.

Variables K V : Type.
Variable keyEqb : K -> K -> bool.

Definition t : Type := list (K * V).

Fixpoint get (k : K) (m : t) : option V :=
  match m with
  | [] => None
  | (k', v) :: rest => if keyEqb k k' then Some v else get k rest
  end.

Definition has (k : K) (m : t) : bool :=
  match get k m with
  | Some _ => true
  | None => false
  end.

(** [m.set(k, v)]: an existing key keeps its place, a new key goes last. *)
Fixpoint set (k : K) (v : V) (m : t) : t :=
  match m with
  | [] => [(k, v)]
  | (k', v') :: rest =>
      if keyEqb k k' then (k, v) :: rest else (k', v') :: set k v rest
  end.

Fixpoint delete (k : K) (m : t) : t :=
  match m with
  | [] => []
  | (k', v') :: rest =>
      if keyEqb k k' then rest else (k', v') :: delete k rest
  end.

Definition keys (m : t) : list K := map fst m.

Definition values (m : t) : list V := map snd m.

End WithKey.

Arguments get {K V} keyEqb k m.
Arguments has {K V} keyEqb k m.
Arguments set {K V} keyEqb k v m.
Arguments delete {K V} keyEqb k m.
Arguments keys {K V} m.
Arguments values {K V} m.

End JsMap.

(** ** Grid positions *)

(** The key [`${x},${y}`] of a position. *)
Definition Pos : Type := (Z * Z)%type.

Definition posEqb (p q : Pos) : bool :=
  Z.eqb (fst p) (fst q) && Z.eqb (snd p) (snd q).

(** ** Fungus.ts *)

(** A [Fungus] object has three read-only fields and a private map of its
    cells.  A cell refers to its fungus; the reference is modelled by the
    read-only fields, and the map of each fungus is kept by the engine
    state, next to the fungus (see [SimulationEngine.FungusEntry]). *)
Module Fungus.

Record t : Type := mk {
  id : Z;
  dna : Dna;
  generation : Z
}.

End Fungus.

(** ** Cell.ts *)

Module Cell.

(** The maps [energyGainedThisFrame], [energyConsumedThisFrame] and the
    two breakdowns, and the four [...RateThisFrame] fields, are written
    for the display only and read by nothing in the simulation; they are
    left out. *)
Record t : Type := mk {
  x : Z;
  y : Z;
  fungus : Fungus.t;
  energyWallet : EnergyWallet;
  maxEnergyCapacity : Q;
  metabolismAccumulator : EnergyAccumulator.t;
  soilAbsorptionAccumulator : EnergyAccumulator.t;
  photosynthesisAccumulator : EnergyAccumulator.t;
  parasitismAccumulator : EnergyAccumulator.t;
  alive : bool;
  hasMushroom : bool;
  mushroomGrowth : Q
}.

Definition withWallet (c : t) (w : EnergyWallet) : t :=
  mk (x c) (y c) (fungus c) w (maxEnergyCapacity c)
     (metabolismAccumulator c) (soilAbsorptionAccumulator c)
     (photosynthesisAccumulator c) (parasitismAccumulator c)
     (alive c) (hasMushroom c) (mushroomGrowth c).

Definition withParasitismAccumulator (c : t) (a : EnergyAccumulator.t) : t :=
  mk (x c) (y c) (fungus c) (energyWallet c) (maxEnergyCapacity c)
     (metabolismAccumulator c) (soilAbsorptionAccumulator c)
     (photosynthesisAccumulator c) a
     (alive c) (hasMushroom c) (mushroomGrowth c).

Definition withMushroom (c : t) (has : bool) (growth : Q) : t :=
  mk (x c) (y c) (fungus c) (energyWallet c) (maxEnergyCapacity c)
     (metabolismAccumulator c) (soilAbsorptionAccumulator c)
     (photosynthesisAccumulator c) (parasitismAccumulator c)
     (alive c) has growth.

(** [updateMaxEnergy]: 300 at pink 0, 3000 at pink 100.  The product is
    exact here; the double of the code is a whole number for every whole
    pink from 0 to 100 but 55, 56 and 57 (1838.9999999999998 at 57), and
    the constructor floors what it stores: at pink 57 a new cell holds
    1838 units at most. *)
Definition updateMaxEnergy (f : Fungus.t) : Q :=
  let pinkRatio := pink (Fungus.dna f) / 100 in
  300 + pinkRatio * 2700.

(** [new Cell(x, y, fungus, initialEnergy)]. *)
Definition create (x y : Z) (fungus : Fungus.t) (initialEnergy : Q) : t :=
  let maxEnergyCapacity := updateMaxEnergy fungus in
  let initial := JsMath.min (JsMath.floor initialEnergy) maxEnergyCapacity in
  mk x y fungus
     (EnergyWalletHelper.set EnergyWalletHelper.createEmpty
        NUTRITION_UNIT initial)
     maxEnergyCapacity
     EnergyAccumulator.create EnergyAccumulator.create
     EnergyAccumulator.create EnergyAccumulator.create
     true false 0.

Definition getEnergy (c : t) : Q :=
  EnergyWalletHelper.getTotalUnits (energyWallet c).

Definition getEnergyOfType (c : t) (type : EnergyType) : Q :=
  EnergyWalletHelper.get (energyWallet c) type.

Definition getMaxEnergy (c : t) : Q := maxEnergyCapacity c.

Definition getEnergyRatio (c : t) : Q := getEnergy c / maxEnergyCapacity c.

Definition isAlive (c : t) : bool := alive c.

Definition die (c : t) : t :=
  mk (x c) (y c) (fungus c) EnergyWalletHelper.createEmpty
     (maxEnergyCapacity c)
     (metabolismAccumulator c) (soilAbsorptionAccumulator c)
     (photosynthesisAccumulator c) (parasitismAccumulator c)
     false (hasMushroom c) (mushroomGrowth c).

(** [addEnergy] returns the cell after the call and the amount added. *)
Definition addEnergy (c : t) (amount : Q) (type : EnergyType) : t * Q :=
  let '(wallet, actualAdded) :=
    EnergyWalletHelper.add (energyWallet c) type amount
      (Some (maxEnergyCapacity c)) in
  (withWallet c wallet, actualAdded).

(** [addEnergyFromSource] differs from [addEnergy] by the entry it writes
    in the display breakdown. *)
Definition addEnergyFromSource (c : t) (amount : Q) (type : EnergyType)
  : t * Q :=
  addEnergy c amount type.

(** [removeEnergy] returns the cell after the call and the amount removed;
    a cell left without any energy dies. *)
Definition removeEnergy (c : t) (amount : Q) (type : EnergyType) : t * Q :=
  let '(wallet, actualRemoved) :=
    EnergyWalletHelper.remove (energyWallet c) type amount in
  let c1 := withWallet c wallet in
  let c2 := if JsMath.eqb (getEnergy c1) 0 then die c1 else c1 in
  (c2, actualRemoved).

Definition removeEnergyForPurpose (c : t) (amount : Q) (type : EnergyType)
  : t * Q :=
  removeEnergy c amount type.

Definition isFull (c : t) : Q :=
  let total := getEnergy c in
  if JsMath.leb (maxEnergyCapacity c) total
  then total - maxEnergyCapacity c
  else 0.

Definition getEnergyDeficit (c : t) : Q := maxEnergyCapacity c - getEnergy c.

Definition startMushroom (c : t) : t := withMushroom c true 0.

(** [growMushroom]; the sum is exact here and a double in the code. *)
Definition growMushroom (c : t) (amount : Q) : t :=
  if hasMushroom c
  then withMushroom c true (JsMath.min 1 (mushroomGrowth c + amount))
  else c.

Definition isMushroomMature (c : t) : bool :=
  hasMushroom c && JsMath.leb 1 (mushroomGrowth c).

Definition removeMushroom (c : t) : t := withMushroom c false 0.

Definition getPositionKey (c : t) : Pos := (x c, y c).

End Cell.

(** ** SimulationEngine.ts *)

Module Spore.

Record t : Type := mk {
  x : Z;
  y : Z;
  dna : Dna;
  lifetime : Q;
  parentFungusId : Z
}.

Definition withLifetime (s : t) (l : Q) : t :=
  mk (x s) (y s) (dna s) l (parentFungusId s).

(** [spore.lifetime -= deltaTime]. *)
Definition age (deltaTime : Q) (s : t) : t :=
  withLifetime s (lifetime s - deltaTime).

End Spore.

(** The garden as the engine sees it: [getTile] succeeds inside the square
    of side [size], and a tile carries its [isEmpty] flag.  The soil
    ledger of a tile is used by soil absorption only and is left out. *)
Module Garden.

Record t : Type := mk {
  size : Z;
  isEmpty : Pos -> bool
}.

(** [getTile(x, y)] is [null] outside the grid. *)
Definition hasTile (g : t) (x y : Z) : bool :=
  negb ((x <? 0)%Z || (x >=? size g)%Z || (y <? 0)%Z || (y >=? size g)%Z).

(** [tile.isEmpty = b] for the tile at [(x, y)], when there is one. *)
Definition setIsEmpty (g : t) (x y : Z) (b : bool) : t :=
  if hasTile g x y
  then mk (size g) (fun p => if posEqb p (x, y) then b else isEmpty g p)
  else g.

End Garden.

Module SimulationEngine.

(** A fungus of the engine's [fungi] map together with the keys of its
    private [cells] map, in insertion order.  The values of that map are
    the engine's own cell objects at those keys. *)
Record FungusEntry : Type := mkEntry {
  fungus : Fungus.t;
  cellKeys : list Pos
}.

(** The engine state: the two maps, the spore array, the garden, the
    value of [config.gridSize], the static counter [Fungus.nextId], and
    the public parameters that the modelled methods read. *)
Record t : Type := mk {
  fungi : JsMap.t Z FungusEntry;
  cells : JsMap.t Pos Cell.t;
  spores : list Spore.t;
  garden : Garden.t;
  gridSize : Z;
  nextId : Z;
  maxParasitismRate : Q;
  expansionEnergyCost : Q;
  mushroomEnergyCost : Q
}.

Definition withFungi (st : t) (f : JsMap.t Z FungusEntry) : t :=
  mk f (cells st) (spores st) (garden st) (gridSize st) (nextId st)
     (maxParasitismRate st) (expansionEnergyCost st) (mushroomEnergyCost st).

Definition withCells (st : t) (c : JsMap.t Pos Cell.t) : t :=
  mk (fungi st) c (spores st) (garden st) (gridSize st) (nextId st)
     (maxParasitismRate st) (expansionEnergyCost st) (mushroomEnergyCost st).

Definition withSpores (st : t) (s : list Spore.t) : t :=
  mk (fungi st) (cells st) s (garden st) (gridSize st) (nextId st)
     (maxParasitismRate st) (expansionEnergyCost st) (mushroomEnergyCost st).

Definition withGarden (st : t) (g : Garden.t) : t :=
  mk (fungi st) (cells st) (spores st) g (gridSize st) (nextId st)
     (maxParasitismRate st) (expansionEnergyCost st) (mushroomEnergyCost st).

Definition withNextId (st : t) (n : Z) : t :=
  mk (fungi st) (cells st) (spores st) (garden st) (gridSize st) n
     (maxParasitismRate st) (expansionEnergyCost st) (mushroomEnergyCost st).

(** [new Fungus(dna, generation)] takes the next identifier. *)
Definition newFungus (st : t) (dna : Dna) (generation : Z) : t * Fungus.t :=
  (withNextId st (nextId st + 1)%Z, Fungus.mk (nextId st) dna generation).

(** [this.fungi.set(fungus.id, fungus)] for a fungus just made, whose
    private map is empty. *)
Definition registerFungus (st : t) (f : Fungus.t) : t :=
  withFungi st (JsMap.set Z.eqb (Fungus.id f) (mkEntry f []) (fungi st)).

(** [new SimulationEngine(garden, config)] with the initial values of the
    public parameters. *)
Definition create (size : Z) : t :=
  mk [] [] [] (Garden.mk size (fun _ => true)) size 0 10 400 500.

Definition getCellAt (st : t) (x y : Z) : option Cell.t :=
  JsMap.get posEqb (x, y) (cells st).

(** [fungus.addCell(cell)] and [fungus.removeCell(cell)] on the private
    map of the fungus with identifier [fid]. *)
Definition keyAdd (key : Pos) (keys : list Pos) : list Pos :=
  if existsb (posEqb key) keys then keys else keys ++ [key].

Definition keyRemove (key : Pos) (keys : list Pos) : list Pos :=
  filter (fun k => negb (posEqb key k)) keys.

Definition updateFungusCells (st : t) (fid : Z)
    (f : list Pos -> list Pos) : t :=
  match JsMap.get Z.eqb fid (fungi st) with
  | Some e =>
      withFungi st
        (JsMap.set Z.eqb fid (mkEntry (fungus e) (f (cellKeys e))) (fungi st))
  | None => st
  end.

Definition addCell (st : t) (cell : Cell.t) : t :=
  let key := Cell.getPositionKey cell in
  let st1 := withCells st (JsMap.set posEqb key cell (cells st)) in
  let st2 := updateFungusCells st1 (Fungus.id (Cell.fungus cell)) (keyAdd key) in
  withGarden st2 (Garden.setIsEmpty (garden st2) (Cell.x cell) (Cell.y cell) false).

Definition removeCell (st : t) (cell : Cell.t) : t :=
  let key := Cell.getPositionKey cell in
  let st1 := withCells st (JsMap.delete posEqb key (cells st)) in
  let st2 :=
    updateFungusCells st1 (Fungus.id (Cell.fungus cell)) (keyRemove key) in
  withGarden st2 (Garden.setIsEmpty (garden st2) (Cell.x cell) (Cell.y cell) true).

(** The cell object at [key] takes the state [cell]. *)
Definition storeCell (st : t) (cell : Cell.t) : t :=
  withCells st (JsMap.set posEqb (Cell.getPositionKey cell) cell (cells st)).

Definition adjacentOffsets : list (Z * Z) :=
  [ (-1, 0); (1, 0); (0, -1); (0, 1);
    (-1, -1); (-1, 1); (1, -1); (1, 1) ]%Z.

Definition cardinalOffsets : list (Z * Z) :=
  [ (-1, 0); (1, 0); (0, -1); (0, 1) ]%Z.

Definition getAdjacentCells (st : t) (cell : Cell.t) : list Cell.t :=
  flat_map
    (fun d =>
       match getCellAt st (Cell.x cell + fst d) (Cell.y cell + snd d) with
       | Some neighbor => if Cell.isAlive neighbor then [neighbor] else []
       | None => []
       end)
    adjacentOffsets.

Definition getEmptyAdjacentPositions (st : t) (cell : Cell.t) : list Pos :=
  flat_map
    (fun d =>
       let x := (Cell.x cell + fst d)%Z in
       let y := (Cell.y cell + snd d)%Z in
       if ((x <? 0) || (y <? 0) || (x >=? gridSize st) || (y >=? gridSize st))%Z
       then []
       else if Garden.hasTile (garden st) x y
               && Garden.isEmpty (garden st) (x, y)
               && negb (JsMap.has posEqb (x, y) (cells st))
            then [(x, y)]
            else [])
    cardinalOffsets.

Definition sameFungus (a b : Cell.t) : bool :=
  Z.eqb (Fungus.id (Cell.fungus a)) (Fungus.id (Cell.fungus b)).

(** *** Energy conversion *)

Definition applyEnergyConversion (cell : Cell.t) : Cell.t :=
  let wallet := Cell.energyWallet cell in
  let sunUnits := EnergyWalletHelper.get wallet SUN_UNIT in
  let soilUnits := EnergyWalletHelper.get wallet SOIL_UNIT in
  if JsMath.ltb 0 sunUnits then
    let c1 := fst (Cell.removeEnergy cell sunUnits SUN_UNIT) in
    fst (Cell.addEnergy c1 sunUnits NUTRITION_UNIT)
  else if JsMath.ltb 0 soilUnits then
    let c1 := fst (Cell.removeEnergy cell soilUnits SOIL_UNIT) in
    fst (Cell.addEnergy c1 soilUnits NUTRITION_UNIT)
  else cell.

(** *** Parasitism *)

(** The loop of [applyParasitism] over the neighbours of other fungi: it
    returns the parasite and the neighbours after the loop and
    [totalDrainedThisFrame].  The neighbours are distinct objects, and
    none of them is the parasite. *)
Fixpoint drainNeighbors (cell : Cell.t) (nonRelatives : list Cell.t)
    (continuousDrainPerNeighbor : Q) : Cell.t * list Cell.t * Q :=
  match nonRelatives with
  | [] => (cell, [], 0)
  | neighbor :: rest =>
      let acc :=
        EnergyAccumulator.add (Cell.parasitismAccumulator cell)
          continuousDrainPerNeighbor in
      let '(acc1, drainUnits) := EnergyAccumulator.extractUnits acc in
      let cell1 := Cell.withParasitismAccumulator cell acc1 in
      let '(cell2, neighbor1, drained) :=
        if JsMath.ltb 0 drainUnits then
          let '(n1, drained) :=
            Cell.removeEnergyForPurpose neighbor drainUnits NUTRITION_UNIT in
          if JsMath.ltb 0 drained
          then (fst (Cell.addEnergyFromSource cell1 drained NUTRITION_UNIT),
                n1, drained)
          else (cell1, n1, drained)
        else (cell1, neighbor, 0) in
      let '(cell3, rest1, total) :=
        drainNeighbors cell2 rest continuousDrainPerNeighbor in
      (cell3, neighbor1 :: rest1, drained + total)
  end.

Definition nonRelativesOf (st : t) (cell : Cell.t) : list Cell.t :=
  filter (fun n => negb (sameFungus n cell)) (getAdjacentCells st cell).

Definition applyParasitism (st : t) (cell : Cell.t) (deltaTime : Q) : t :=
  let redRatio := red (Fungus.dna (Cell.fungus cell)) / 100 in
  if JsMath.leb redRatio 0 then st
  else
    let nonRelatives := nonRelativesOf st cell in
    match nonRelatives with
    | [] => st
    | _ :: _ =>
        let drainRatePerNeighbor := redRatio * maxParasitismRate st in
        let continuousDrainPerNeighbor := drainRatePerNeighbor * deltaTime in
        let '(cell1, neighbors1, _) :=
          drainNeighbors cell nonRelatives continuousDrainPerNeighbor in
        storeCell (fold_left storeCell neighbors1 st) cell1
    end.

(** *** Growth and reproduction *)

(** [attemptExpansion] and [attemptReproduction].  The cost is the floor
    of an exact product here; the product of the code is a double, and
    its floor is one less where the exact product is a whole number that
    the double falls short of (79 for 80 at blue 100 and an expansion
    cost of 400). *)
Definition attemptExpansion (st : t) (cell : Cell.t) (tape : Random.Tape)
  : option (t * bool * Random.Tape) :=
  let blueRatio := blue (Fungus.dna (Cell.fungus cell)) / 100 in
  let costMultiplier := 1 - blueRatio * (8 # 10) in
  let actualCost := JsMath.floor (expansionEnergyCost st * costMultiplier) in
  let nutritionUnits := Cell.getEnergyOfType cell NUTRITION_UNIT in
  if JsMath.ltb nutritionUnits actualCost then Some (st, false, tape)
  else
    let emptyPositions := getEmptyAdjacentPositions st cell in
    match emptyPositions with
    | [] => Some (st, false, tape)
    | _ :: _ =>
        match Random.random tape with
        | None => None
        | Some (r, tape1) =>
            let pos :=
              nth (Random.index r (Z.of_nat (length emptyPositions)))
                  emptyPositions (0, 0)%Z in
            let cell1 :=
              fst (Cell.removeEnergyForPurpose cell actualCost
                     NUTRITION_UNIT) in
            let st1 := storeCell st cell1 in
            let startingEnergy := JsMath.floor (actualCost * (1 # 2)) in
            let newCell :=
              Cell.create (fst pos) (snd pos) (Cell.fungus cell)
                startingEnergy in
            Some (addCell st1 newCell, true, tape1)
        end
    end.

Definition attemptReproduction (st : t) (cell : Cell.t) : t * bool :=
  if Cell.hasMushroom cell then (st, false)
  else
    let purpleRatio := purple (Fungus.dna (Cell.fungus cell)) / 100 in
    let costMultiplier := 1 - purpleRatio * (8 # 10) in
    let actualCost := JsMath.floor (mushroomEnergyCost st * costMultiplier) in
    let nutritionUnits := Cell.getEnergyOfType cell NUTRITION_UNIT in
    if JsMath.ltb nutritionUnits actualCost then (st, false)
    else
      let cell1 :=
        fst (Cell.removeEnergyForPurpose cell actualCost NUTRITION_UNIT) in
      (storeCell st (Cell.startMushroom cell1), true).

(** The two tests of the growth pass of [update]. *)
Definition expansionGate (st : t) (cell : Cell.t) : bool :=
  let blueRatio := blue (Fungus.dna (Cell.fungus cell)) / 100 in
  let expansionCostMultiplier := 1 - blueRatio * 1 in
  let expansionCost := expansionEnergyCost st * expansionCostMultiplier in
  JsMath.leb (expansionCost * (12 # 10)) (Cell.getEnergy cell).

Definition reproductionGate (st : t) (cell : Cell.t) : bool :=
  let purpleRatio := purple (Fungus.dna (Cell.fungus cell)) / 100 in
  let mushroomCostMultiplier := 1 - purpleRatio * 1 in
  let mushroomCost := mushroomEnergyCost st * mushroomCostMultiplier in
  negb (Cell.hasMushroom cell)
  && JsMath.leb (mushroomCost * (12 # 10)) (Cell.getEnergy cell).

(** The body of the growth pass for the cell object at [key]. *)
Definition growthStep (st : t) (key : Pos) (tape : Random.Tape)
  : option (t * Random.Tape) :=
  match JsMap.get posEqb key (cells st) with
  | None => Some (st, tape)
  | Some cell =>
      if negb (Cell.isAlive cell) then Some (st, tape)
      else
        let expanded :=
          if expansionGate st cell
          then attemptExpansion st cell tape
          else Some (st, false, tape) in
        match expanded with
        | None => None
        | Some (st1, _, tape1) =>
            match JsMap.get posEqb key (cells st1) with
            | None => Some (st1, tape1)
            | Some cell1 =>
                if reproductionGate st1 cell1
                then Some (fst (attemptReproduction st1 cell1), tape1)
                else Some (st1, tape1)
            end
        end
  end.

(** The shuffle of the growth pass, from index [i] down to 1. *)
Definition swap (arr : list Pos) (i j : nat) : list Pos :=
  match nth_error arr i, nth_error arr j with
  | Some a, Some b =>
      let put (k : nat) (v : Pos) (l : list Pos) :=
        firstn k l ++ v :: skipn (S k) l in
      put j a (put i b arr)
  | _, _ => arr
  end.

Fixpoint shuffleFrom (i : nat) (arr : list Pos) (tape : Random.Tape)
  : option (list Pos * Random.Tape) :=
  match i with
  | O => Some (arr, tape)
  | S i' =>
      match Random.random tape with
      | None => None
      | Some (r, tape1) =>
          let j := Random.index r (Z.of_nat (i + 1)) in
          shuffleFrom i' (swap arr i j) tape1
      end
  end.

Fixpoint growthLoop (order : list Pos) (st : t) (tape : Random.Tape)
  : option (t * Random.Tape) :=
  match order with
  | [] => Some (st, tape)
  | key :: rest =>
      match growthStep st key tape with
      | None => None
      | Some (st1, tape1) => growthLoop rest st1 tape1
      end
  end.

(** Step 4 of [update]. *)
Definition growthPass (st : t) (tape : Random.Tape)
  : option (t * Random.Tape) :=
  let cellsArray := JsMap.keys (cells st) in
  match shuffleFrom (length cellsArray - 1) cellsArray tape with
  | None => None
  | Some (order, tape1) => growthLoop order st tape1
  end.

(** *** Spores *)

Definition germinateSpore (st : t) (spore : Spore.t) : t :=
  let '(st1, newF) := newFungus st (Spore.dna spore) 0 in
  let st2 := registerFungus st1 newF in
  let firstCell := Cell.create (Spore.x spore) (Spore.y spore) newF 50 in
  addCell st2 firstCell.

(** Whether the spore, its lifetime already reduced, germinates now. *)
Definition germinates (st : t) (spore : Spore.t) : bool :=
  Garden.hasTile (garden st) (Spore.x spore) (Spore.y spore)
  && negb (JsMap.has posEqb (Spore.x spore, Spore.y spore) (cells st))
  && JsMath.ltb 0 (Spore.lifetime spore).

(** The loop of [updateSpores]: the state and [remainingSpores]. *)
Fixpoint sporeLoop (pending : list Spore.t) (deltaTime : Q) (st : t)
    (remainingSpores : list Spore.t) : t * list Spore.t :=
  match pending with
  | [] => (st, remainingSpores)
  | spore :: rest =>
      let spore1 := Spore.age deltaTime spore in
      if germinates st spore1 then
        sporeLoop rest deltaTime (germinateSpore st spore1) remainingSpores
      else if JsMath.ltb 0 (Spore.lifetime spore1) then
        sporeLoop rest deltaTime st (remainingSpores ++ [spore1])
      else
        sporeLoop rest deltaTime st remainingSpores
  end.

Definition updateSpores (st : t) (deltaTime : Q) : t :=
  let '(st1, remainingSpores) := sporeLoop (spores st) deltaTime st [] in
  withSpores st1 remainingSpores.

(** [createFungus(x, y, dna)] with the trait vector given. *)
Definition createFungus (st : t) (x y : Z) (dna : Dna)
  : t * option Fungus.t :=
  if negb (Garden.hasTile (garden st) x y
           && Garden.isEmpty (garden st) (x, y))
  then (st, None)
  else
    let '(st1, f) := newFungus st dna 0 in
    let st2 := registerFungus st1 f in
    let firstCell := Cell.create x y f 50 in
    (addCell st2 firstCell, Some f).

(** *** Splitting *)

Definition fungusCellsOf (st : t) (fid : Z) : list Cell.t :=
  filter (fun c => Z.eqb (Fungus.id (Cell.fungus c)) fid)
         (JsMap.values (cells st)).

Definition visitedHas (key : Pos) (visited : list Pos) : bool :=
  existsb (posEqb key) visited.

(** The inner [for] of the flood fill: neighbours not yet visited are
    marked and queued. *)
Fixpoint visitNeighbors (neighbors : list Cell.t) (visited : list Pos)
    (queue : list Cell.t) : list Pos * list Cell.t :=
  match neighbors with
  | [] => (visited, queue)
  | neighbor :: rest =>
      let neighborKey := Cell.getPositionKey neighbor in
      if visitedHas neighborKey visited
      then visitNeighbors rest visited queue
      else visitNeighbors rest (visited ++ [neighborKey]) (queue ++ [neighbor])
  end.

(** The [while] of the flood fill; every round takes one cell off the
    queue, and [fuel] bounds the number of rounds. *)
Fixpoint floodFill (fuel : nat) (st : t) (fid : Z) (queue : list Cell.t)
    (visited : list Pos) (group : list Cell.t)
  : option (list Cell.t * list Pos) :=
  match queue with
  | [] => Some (group, visited)
  | cell :: rest =>
      match fuel with
      | O => None
      | S fuel' =>
          let neighbors :=
            filter (fun n => Z.eqb (Fungus.id (Cell.fungus n)) fid)
                   (getAdjacentCells st cell) in
          let '(visited1, queue1) := visitNeighbors neighbors visited rest in
          floodFill fuel' st fid queue1 visited1 (group ++ [cell])
      end
  end.

Fixpoint findGroups (fuel : nat) (st : t) (fid : Z)
    (fungusCells : list Cell.t) (visited : list Pos)
    (groups : list (list Cell.t)) : option (list (list Cell.t)) :=
  match fungusCells with
  | [] => Some groups
  | startCell :: rest =>
      let key := Cell.getPositionKey startCell in
      if visitedHas key visited
      then findGroups fuel st fid rest visited groups
      else
        match floodFill fuel st fid [startCell] (visited ++ [key]) [] with
        | None => None
        | Some (group, visited1) =>
            findGroups fuel st fid rest visited1 (groups ++ [group])
        end
  end.

(** [groups.sort((a, b) => b.length - a.length)]: longest first, stable. *)
Fixpoint insertGroup (g : list Cell.t) (sorted : list (list Cell.t))
  : list (list Cell.t) :=
  match sorted with
  | [] => [g]
  | h :: rest =>
      if (length h <? length g)%nat
      then g :: h :: rest
      else h :: insertGroup g rest
  end.

Definition sortGroups (groups : list (list Cell.t)) : list (list Cell.t) :=
  fold_left (fun sorted g => insertGroup g sorted) groups [].

(** The new cell of the innermost loop: same position and energy, for
    the new fungus, with the mushroom of the old cell. *)
Definition recreate (newF : Fungus.t) (oldCell : Cell.t) : Cell.t :=
  let newCell :=
    Cell.create (Cell.x oldCell) (Cell.y oldCell) newF
      (Cell.getEnergy oldCell) in
  if Cell.hasMushroom oldCell
  then Cell.withMushroom (Cell.startMushroom newCell) true
         (Cell.mushroomGrowth oldCell)
  else newCell.

(** The body of the innermost loop: the old cell is removed and the new
    cell is added at its position. *)
Definition rehomeCell (newF : Fungus.t) (st : t) (oldCell : Cell.t) : t :=
  let st1 := removeCell st oldCell in
  addCell st1 (recreate newF oldCell).

Section Split.

Variable TOTAL_POINTS : Q.

(** One round of [for (let i = 1; i < groups.length; i++)]. *)
Definition splitGroup (f : Fungus.t) (st : t) (group : list Cell.t) : t :=
  let '(st1, newF) :=
    newFungus st (DnaOps.clone TOTAL_POINTS (Fungus.dna f))
      (Fungus.generation f) in
  let st2 := registerFungus st1 newF in
  fold_left (rehomeCell newF) group st2.

(** The body of the loop over the fungi. *)
Definition splitFungus (st : t) (f : Fungus.t) : option t :=
  let fungusCells := fungusCellsOf st (Fungus.id f) in
  if (length fungusCells <=? 1)%nat then Some st
  else
    match findGroups (length (cells st)) st (Fungus.id f) fungusCells [] []
    with
    | None => None
    | Some groups =>
        if (1 <? length groups)%nat
        then Some (fold_left (splitGroup f) (tl (sortGroups groups)) st)
        else Some st
    end.

(** [for (const fungus of this.fungi.values())]: the iterator of a map
    also visits the entries added while it runs, so the loop goes by
    position until it passes the end; [fuel] bounds its rounds. *)
Fixpoint splitLoop (fuel : nat) (st : t) (i : nat) : option t :=
  match nth_error (fungi st) i with
  | None => Some st
  | Some (_, entry) =>
      match fuel with
      | O => None
      | S fuel' =>
          match splitFungus st (fungus entry) with
          | None => None
          | Some st1 => splitLoop fuel' st1 (S i)
          end
      end
  end.

Definition splitDisconnectedFungi (st : t) : option t :=
  splitLoop (length (fungi st) + length (cells st)) st 0.

End Split.

End SimulationEngine.

(** ** Vocabulary of the statements *)

Module Measures.

(** The Nutrition held by a list of cells. *)
Definition sumNutrition (l : list Cell.t) : Q :=
  fold_right (fun c acc => Cell.getEnergyOfType c NUTRITION_UNIT + acc) 0 l.

(** The length of a list as a number. *)
Definition count {A : Type} (l : list A) : Q :=
  inject_Z (Z.of_nat (length l)).

(** The fungus that the engine's map holds under an identifier. *)
Definition fungusAt (st : SimulationEngine.t) (fid : Z) : option Fungus.t :=
  option_map SimulationEngine.fungus
    (JsMap.get Z.eqb fid (SimulationEngine.fungi st)).

End Measures.

Arguments Measures.sumNutrition : simpl never.
Arguments Measures.count : simpl never.

(** ** Organisms and connected components *)

Module Connectivity.
Import SimulationEngine.

(** The identifier of the fungus a cell belongs to. *)
Definition cid (c : Cell.t) : Z := Fungus.id (Cell.fungus c).

Definition posOf (c : Cell.t) : Pos := Cell.getPositionKey c.

(** Every cell of the map is alive and stored under its own position. *)
Definition storedAlive (st : SimulationEngine.t) : Prop :=
  forall k c, JsMap.get posEqb k (cells st) = Some c ->
    posOf c = k /\ Cell.alive c = true.

(** The neighbours that the flood fill looks at: the adjacent cells of the
    fungus [g]. *)
Definition neighborsIn (st : SimulationEngine.t) (g : Z) (c : Cell.t)
  : list Cell.t :=
  filter (fun n => Z.eqb (Fungus.id (Cell.fungus n)) g)
         (getAdjacentCells st c).

(** The identifier of the fungus that owns the cell at a position. *)
Definition ownerAt (st : SimulationEngine.t) (p : Pos) : option Z :=
  option_map cid (JsMap.get posEqb p (cells st)).

(** [q] is one of the eight neighbours of [p]. *)
Definition adjacent (p q : Pos) : bool :=
  existsb (fun d => posEqb q (fst p + fst d, snd p + snd d)%Z)
          adjacentOffsets.

(** [q] can be reached from [p] through cells of the fungus [g], each next
    to the one before in the eight-neighbourhood. *)
Inductive connected (st : SimulationEngine.t) (g : Z) (p : Pos)
  : Pos -> Prop :=
  | connected_refl :
      ownerAt st p = Some g -> connected st g p p
  | connected_step (q r : Pos) :
      connected st g p q ->
      ownerAt st r = Some g ->
      adjacent q r = true ->
      connected st g p r.

(** The fungi of the engine's map, in the order of the map, each under
    its key. *)
Definition headers (st : SimulationEngine.t) : list (Z * Fungus.t) :=
  map (fun ke => (fst ke, fungus (snd ke))) (fungi st).

(** The number of cells of a fungus. *)
Definition sizeOf (st : SimulationEngine.t) (g : Z) : nat :=
  length (fungusCellsOf st g).

(** The state that the split pass starts from: the cell map has one live
    cell per key, stored under its own position, whose fungus is the one
    the fungus map holds under its identifier; the fungus map has one
    fungus per key, stored under its own identifier, and that identifier
    was already taken from the counter. *)
Record wellFormed (st : SimulationEngine.t) : Prop := mkWellFormed {
  wf_cell_keys : NoDup (JsMap.keys (cells st));
  wf_cells :
    forall k c, In (k, c) (cells st) ->
      Cell.getPositionKey c = k /\
      Cell.alive c = true /\
      Measures.fungusAt st (cid c) = Some (Cell.fungus c);
  wf_fungus_keys : NoDup (map fst (headers st));
  wf_fungi :
    forall k f, In (k, f) (headers st) ->
      Fungus.id f = k /\ (k < nextId st)%Z
}.

(** The fungi that a split of [f] adds to the map when it makes [k] of
    them, the first with the identifier [n]. *)
Definition newFungi (T : Q) (f : Fungus.t) (n : Z) (k : nat)
  : list (Z * Fungus.t) :=
  map (fun j =>
         let i := (n + Z.of_nat j)%Z in
         (i, Fungus.mk i (DnaOps.clone T (Fungus.dna f))
               (Fungus.generation f)))
      (seq 0 k).

(** What one round of the loop over the fungi does, for the fungus [f]:
    the state stays well formed, [k] new fungi are added at the end of the
    map, the cells of other fungi and the empty positions are left as
    they are, every cell of [f] stays as it is or becomes a cell of one of
    the new fungi, recreated there, two cells of [f] end in the same
    fungus exactly when they were connected, the fungus that keeps the
    identifier of [f] is at least as large as each of the others, some
    cell keeps that identifier, and every new fungus has a cell. *)
Record splitStep (T : Q) (st st' : SimulationEngine.t) (f : Fungus.t)
    (k : nat) : Prop := mkSplitStep {
  ss_wf : wellFormed st';
  ss_nextId : nextId st' = (nextId st + Z.of_nat k)%Z;
  ss_headers :
    headers st' = headers st ++ newFungi T f (nextId st) k;
  ss_other :
    forall p c, JsMap.get posEqb p (cells st) = Some c ->
      cid c <> Fungus.id f ->
      JsMap.get posEqb p (cells st') = Some c;
  ss_none :
    forall p, JsMap.get posEqb p (cells st) = None ->
      JsMap.get posEqb p (cells st') = None;
  ss_own :
    forall p c, JsMap.get posEqb p (cells st) = Some c ->
      cid c = Fungus.id f ->
      exists c', JsMap.get posEqb p (cells st') = Some c' /\
        (c' = c \/
         exists n, (nextId st <= n < nextId st')%Z /\
           c' = recreate
                  (Fungus.mk n (DnaOps.clone T (Fungus.dna f))
                     (Fungus.generation f)) c);
  ss_components :
    forall p q, ownerAt st p = Some (Fungus.id f) ->
      ownerAt st q = Some (Fungus.id f) ->
      (ownerAt st' p = ownerAt st' q <-> connected st (Fungus.id f) p q);
  ss_largest :
    forall p q h, ownerAt st p = Some (Fungus.id f) ->
      ownerAt st q = Some (Fungus.id f) ->
      ownerAt st' p = Some (Fungus.id f) ->
      ownerAt st' q = Some h ->
      (sizeOf st' h <= sizeOf st' (Fungus.id f))%nat;
  ss_keeps :
    forall p, ownerAt st p = Some (Fungus.id f) ->
      exists q, ownerAt st q = Some (Fungus.id f) /\
                ownerAt st' q = Some (Fungus.id f);
  ss_new :
    forall n, (nextId st <= n < nextId st')%Z ->
      exists p, ownerAt st p = Some (Fungus.id f) /\
                ownerAt st' p = Some n
}.

(** What a whole pass does to the state [st]: the result is well formed;
    no cell appears where there was none; the cell at a position is the
    cell that was there, or the cell recreated from it for a fungus made
    in the pass, which the fungus map holds, with the cloned trait vector
    and the generation of the fungus of the old cell; cells of different
    fungi never end in one fungus; two cells of one fungus end in the same
    fungus exactly when a path through cells of that fungus joined them;
    and among the cells of one fungus some keep its identifier, in a
    fungus that ends at least as large as every other fungus its cells
    end in. *)
Record splitOutcome (T : Q) (st st' : SimulationEngine.t) : Prop :=
  mkSplitOutcome {
  so_wf : wellFormed st';
  so_empty :
    forall p, JsMap.get posEqb p (cells st) = None ->
      JsMap.get posEqb p (cells st') = None;
  so_cells :
    forall p c, JsMap.get posEqb p (cells st) = Some c ->
      exists c', JsMap.get posEqb p (cells st') = Some c' /\
        (c' = c \/
         exists n, (nextId st <= n < nextId st')%Z /\
           let newF :=
             Fungus.mk n (DnaOps.clone T (Fungus.dna (Cell.fungus c)))
                       (Fungus.generation (Cell.fungus c)) in
           Measures.fungusAt st' n = Some newF /\
           c' = recreate newF c);
  so_apart :
    forall p q h, ownerAt st' p = Some h -> ownerAt st' q = Some h ->
      ownerAt st p = ownerAt st q;
  so_components :
    forall g p q, ownerAt st p = Some g -> ownerAt st q = Some g ->
      (ownerAt st' p = ownerAt st' q <-> connected st g p q);
  so_largest :
    forall g p, ownerAt st p = Some g ->
      exists q, ownerAt st q = Some g /\ ownerAt st' q = Some g /\
        forall r h, ownerAt st r = Some g -> ownerAt st' r = Some h ->
          (sizeOf st' h <= sizeOf st' g)%nat
}.

End Connectivity.

(** ** States used as examples *)

Module Examples.
Import SimulationEngine.

(** The state of the examples: a fungus with red 100 and pink 0, whose
    single cell at (5, 5) starts with [energy] units, next to a cell of
    another fungus at (6, 5) that holds 50 units. *)
Definition parasiteDna : Dna := mkDna 50 100 50 50 0 0 0.

Definition hostDna : Dna := mkDna 50 0 50 50 0 50 50.

Definition parasiteCell (energy : Q) : Cell.t :=
  Cell.create 5 5 (Fungus.mk 0 parasiteDna 0) energy.

Definition hostCell : Cell.t := Cell.create 6 5 (Fungus.mk 1 hostDna 0) 50.

Definition parasiteState (energy : Q) : SimulationEngine.t :=
  let st1 := registerFungus (SimulationEngine.create 20)
               (Fungus.mk 0 parasiteDna 0) in
  let st2 := registerFungus st1 (Fungus.mk 1 hostDna 0) in
  addCell (addCell st2 (parasiteCell energy)) hostCell.

(** The same parasite, holding [energy] of its 300 units, between three
    cells of the other fungus at (4, 5), (6, 5) and (5, 6) that hold 50
    units each. *)
Definition swarmHosts : list Cell.t :=
  map (fun p => Cell.create (fst p) (snd p) (Fungus.mk 1 hostDna 0) 50)
      [(4, 5); (6, 5); (5, 6)]%Z.

Definition swarmState (energy : Q) : SimulationEngine.t :=
  let st1 := registerFungus (SimulationEngine.create 20)
               (Fungus.mk 0 parasiteDna 0) in
  let st2 := registerFungus st1 (Fungus.mk 1 hostDna 0) in
  fold_left addCell swarmHosts (addCell st2 (parasiteCell energy)).

(** A fungus with blue 50 whose single cell at (5, 5) holds 250 units of
    Nutrition, in an otherwise empty garden. *)
Definition growerDna : Dna := mkDna 50 0 50 50 50 50 0.

Definition growerCell : Cell.t :=
  Cell.create 5 5 (Fungus.mk 0 growerDna 0) 250.

Definition growerState : SimulationEngine.t :=
  addCell (registerFungus (SimulationEngine.create 20)
             (Fungus.mk 0 growerDna 0))
          growerCell.

(** The expansion cost with the reduction of at most 80 percent. *)
Definition reducedExpansionCost (st : SimulationEngine.t) (cell : Cell.t)
  : Q :=
  expansionEnergyCost st
  * (1 - blue (Fungus.dna (Cell.fungus cell)) / 100 * (8 # 10)).

(** A spore with ten seconds left that lands on the occupied tile (5, 5). *)
Definition waitingSpore : Spore.t := Spore.mk 5 5 growerDna 10 0.

Definition sporeState : SimulationEngine.t :=
  withSpores growerState [waitingSpore].

(** One fungus with seven cells in two groups: five cells in a row from
    (0, 0) to (4, 1), and two cells at (7, 0) and (8, 1). *)
Definition colonyDna : Dna := mkDna 50 50 50 50 0 50 0.

Definition colonyFungus : Fungus.t := Fungus.mk 0 colonyDna 0.

Definition colonyState : SimulationEngine.t :=
  fold_left
    (fun st p =>
       addCell st (Cell.create (fst p) (snd p) colonyFungus
                     (inject_Z (fst p) + 10)))
    [(0, 0); (1, 0); (2, 0); (7, 0); (3, 0); (8, 1); (4, 1)]%Z
    (withNextId (registerFungus (SimulationEngine.create 20) colonyFungus) 1).

(** A fungus made while [Dna.TOTAL_POINTS] was 250, with two cells side
    by side and a third one apart, each holding 2000 units; the total was
    lowered to 100 afterwards. *)
Definition staleDna : Dna := mkDna 25 25 25 25 100 25 25.

Definition staleFungus : Fungus.t := Fungus.mk 0 staleDna 0.

Definition staleState : SimulationEngine.t :=
  fold_left
    (fun st p => addCell st (Cell.create (fst p) (snd p) staleFungus 2000))
    [(0, 0); (1, 0); (5, 5)]%Z
    (withNextId (registerFungus (SimulationEngine.create 20) staleFungus) 1).

(** A fungus with two cells apart from each other that hold energy of
    all three kinds; the one at (5, 5) carries a half-grown mushroom. *)
Definition mixedState : SimulationEngine.t :=
  fold_left addCell
    [ Cell.mk 0 0 colonyFungus (mkWallet 1 2 3) 300 0 0 0 0 true false 0;
      Cell.mk 5 5 colonyFungus (mkWallet 3 4 5) 300 0 0 0 0 true true (1 # 2) ]
    (withNextId (registerFungus (SimulationEngine.create 20) colonyFungus) 1).

End Examples.
(** * The rest of the simulation core *)

(** ** Energy.ts: wallets as plain objects *)

Module EnergyWalletObject.
Import String.StringSyntax.
Local Open Scope string_scope.

(** A plain object [Record<string, number>]: its entries, in the order
    of [Object.entries]. *)
Definition PlainObject : Type := list (String.string * Q).

Definition typeName (type : EnergyType) : String.string :=
  match type with
  | SUN_UNIT => "SUN_UNIT"
  | SOIL_UNIT => "SOIL_UNIT"
  | NUTRITION_UNIT => "NUTRITION_UNIT"
  end.

(** [Object.values(EnergyType).includes(type)], with the kind it names. *)
Definition typeOfName (name : String.string) : option EnergyType :=
  if String.eqb name "SUN_UNIT" then Some SUN_UNIT
  else if String.eqb name "SOIL_UNIT" then Some SOIL_UNIT
  else if String.eqb name "NUTRITION_UNIT" then Some NUTRITION_UNIT
  else None.

(** [clone]: the entries of the wallet are set, one by one, in a new map. *)
Definition clone (wallet : EnergyWallet) : EnergyWallet :=
  fold_left
    (fun newWallet type =>
       EnergyWalletHelper.put newWallet type
         (EnergyWalletHelper.get wallet type))
    [SUN_UNIT; SOIL_UNIT; NUTRITION_UNIT]
    (mkWallet 0 0 0).

Definition toObject (wallet : EnergyWallet) : PlainObject :=
  map (fun type => (typeName type, EnergyWalletHelper.get wallet type))
      [SUN_UNIT; SOIL_UNIT; NUTRITION_UNIT].

(** [fromObject]: the entries that name a kind are floored and stored;
    unlike [set], nothing is raised to zero. *)
Definition fromObject (obj : PlainObject) : EnergyWallet :=
  fold_left
    (fun wallet entry =>
       match typeOfName (fst entry) with
       | Some type =>
           EnergyWalletHelper.put wallet type (JsMath.floor (snd entry))
       | None => wallet
       end)
    obj EnergyWalletHelper.createEmpty.

End EnergyWalletObject.

(** ** Cell.ts: cells in good order *)

Module CellUse.

(** [growMushroom(amount)] called in [n] successive frames. *)
Definition growFrames (n : nat) (amount : Q) (c : Cell.t) : Cell.t :=
  Nat.iter n (fun cell => Cell.growMushroom cell amount) c.

(** A cell in good order: its counts are whole and not negative, its
    capacity is a whole number, and it holds no more than its capacity. *)
Definition inOrder (c : Cell.t) : Prop :=
  EnergyWalletHelper.nonNegative (Cell.energyWallet c) /\
  EnergyWalletHelper.wholeUnits (Cell.energyWallet c) /\
  JsMath.isInteger (Cell.maxEnergyCapacity c) = true /\
  Cell.getEnergy c <= Cell.maxEnergyCapacity c.

End CellUse.

(** ** Dna.ts: trait vectors within bounds, and their colour *)

Module DnaUse.

(** A trait vector as the documentation of [Dna] wants it: every trait
    is a whole number from 0 to [MAX_TRAIT_VALUE]. *)
Definition withinBounds (d : Dna) : Prop :=
  forall name,
    0 <= DnaOps.getTraitValue d name /\
    DnaOps.getTraitValue d name <= DnaOps.MAX_TRAIT_VALUE /\
    JsMath.isInteger (DnaOps.getTraitValue d name) = true.

(** One entry of the array of [mutate] within those bounds, and the sum
    of the array. *)
Definition okTrait (v : Q) : Prop :=
  0 <= v /\ v <= DnaOps.MAX_TRAIT_VALUE /\ JsMath.isInteger v = true.

Definition sumTraits (l : list Q) : Q := fold_right Qplus 0 l.

(** [getDominantColor].  When the three components sum to zero the scale
    [255 / total] is no number that a rational stands for, and neither is
    the colour: there is no result then.  The scale and the products are
    exact here; with the doubles of the code a numerator can be one less
    where the exact product is a whole number. *)
Definition getDominantColor (d : Dna) : option (Q * Q * Q) :=
  let r := (red d + pink d) / 2 in
  let g := (green d + yellow d) / 2 in
  let b := (blue d + purple d + brown d) / 3 in
  let total := r + g + b in
  if JsMath.eqb total 0 then None
  else
    let scale := 255 / total in
    Some (JsMath.floor (r * scale) / 255,
          JsMath.floor (g * scale) / 255,
          JsMath.floor (b * scale) / 255).

End DnaUse.

(** ** SimulationEngine.ts: the rest of the engine *)

Module EngineUse.
Import SimulationEngine Connectivity.

(** The Chebyshev and the Manhattan distance of two positions. *)
Definition chebyshev (p q : Pos) : Z :=
  Z.max (Z.abs (fst q - fst p)) (Z.abs (snd q - snd p)).

Definition manhattan (p q : Pos) : Z :=
  (Z.abs (fst q - fst p) + Z.abs (snd q - snd p))%Z.

(** Every cell of the map is stored under its own position. *)
Definition storedAtOwnKey (st : SimulationEngine.t) : Prop :=
  forall k c, JsMap.get posEqb k (cells st) = Some c -> posOf c = k.

(** [fungus.getCellCount()]: the size of the private map. *)
Definition getCellCount (e : FungusEntry) : nat := length (cellKeys e).

(** [removeDeadCells]: the dead cells are collected and removed, then the
    fungi whose private map is empty are collected and deleted. *)
Definition removeDeadCells (st : SimulationEngine.t) : SimulationEngine.t :=
  let deadCells :=
    filter (fun cell => negb (Cell.isAlive cell)) (JsMap.values (cells st)) in
  let st1 := fold_left removeCell deadCells st in
  let deadFungi :=
    map fst
      (filter (fun ke => Nat.eqb (getCellCount (snd ke)) 0) (fungi st1)) in
  withFungi st1
    (fold_left (fun m id => JsMap.delete Z.eqb id m) deadFungi (fungi st1)).

(** The engine's books agree: the cell map has one cell per key, stored
    under its own position on a tile of the garden, and its fungus is the
    one that the fungus map holds under its identifier; a tile is marked
    empty exactly when the cell map has no cell there; the fungus map has
    one fungus per key, made before the next identifier, and the private
    map of a fungus has exactly the positions of its cells. *)
Record orderly (st : SimulationEngine.t) : Prop := mkOrderly {
  ord_cell_keys : NoDup (JsMap.keys (cells st));
  ord_cells : forall k c, JsMap.get posEqb k (cells st) = Some c ->
      posOf c = k /\
      Garden.hasTile (garden st) (fst k) (snd k) = true /\
      Measures.fungusAt st (cid c) = Some (Cell.fungus c);
  ord_tiles : forall p, Garden.hasTile (garden st) (fst p) (snd p) = true ->
      Garden.isEmpty (garden st) p = negb (JsMap.has posEqb p (cells st));
  ord_fungus_keys : NoDup (JsMap.keys (fungi st));
  ord_fungi : forall k e, JsMap.get Z.eqb k (fungi st) = Some e ->
      Fungus.id (fungus e) = k /\ (k < nextId st)%Z /\
      NoDup (cellKeys e) /\
      forall p, In p (cellKeys e) <-> ownerAt st p = Some k
}.

End EngineUse.

(** ** States for the examples of the growth pass *)

Module EngineExamples.
Import SimulationEngine Examples.

(** A garden of 20 by 20 tiles with one fungus, founded at (5, 5). *)
Definition foundedState : SimulationEngine.t :=
  fst (createFungus (SimulationEngine.create 20) 5 5 growerDna).

(** The same with 250 units of Nutrition in the cell. *)
Definition richState : SimulationEngine.t := storeCell foundedState growerCell.

(** The founded state with four spores: one on the occupied tile, two on
    the free tile (7, 7), and one with half a second left. *)
Definition sporeField : SimulationEngine.t :=
  withSpores foundedState
    [ waitingSpore; Spore.mk 7 7 hostDna 10 0; Spore.mk 7 7 growerDna 10 0;
      Spore.mk 8 8 hostDna (1 # 2) 0 ].

End EngineExamples.

(** ** SimulationEngine.ts: energy sharing *)

Module Sharing.
Import SimulationEngine.

(** The keys at which [getAdjacentCells] finds the neighbours that the
    filter [n.fungus.id === cell.fungus.id] keeps.  The neighbours are
    the cell objects of the map at these keys, and the pass changes them
    in place. *)
Definition neighborKeys (st : SimulationEngine.t) (cell : Cell.t)
  : list Pos :=
  flat_map
    (fun d =>
       let k := (Cell.x cell + fst d, Cell.y cell + snd d)%Z in
       match JsMap.get posEqb k (cells st) with
       | Some neighbor =>
           if Cell.isAlive neighbor && sameFungus neighbor cell
           then [k] else []
       | None => []
       end)
    adjacentOffsets.

(** The cell object at [key] takes the state [f cell]. *)
Definition updateAt (st : SimulationEngine.t) (key : Pos)
    (f : Cell.t -> Cell.t) : SimulationEngine.t :=
  match JsMap.get posEqb key (cells st) with
  | Some cell => withCells st (JsMap.set posEqb key (f cell) (cells st))
  | None => st
  end.

(** The body of the loop that pushes the surplus of the cell at [key]. *)
Definition pushOne (key : Pos) (sharePerNeighbor : Q)
    (st : SimulationEngine.t) (neighborKey : Pos) : SimulationEngine.t :=
  match JsMap.get posEqb neighborKey (cells st) with
  | None => st
  | Some neighbor =>
      let transferred :=
        JsMath.min sharePerNeighbor (Cell.getEnergyDeficit neighbor) in
      let st1 :=
        updateAt st key
          (fun cell => fst (Cell.removeEnergy cell transferred
                              NUTRITION_UNIT)) in
      updateAt st1 neighborKey
        (fun n => fst (Cell.addEnergy n transferred NUTRITION_UNIT))
  end.

(** The body of the loop that pulls energy for the cell at [key]. *)
Definition pullOne (key : Pos) (pullPerNeighbor : Q)
    (st : SimulationEngine.t) (neighborKey : Pos) : SimulationEngine.t :=
  match JsMap.get posEqb neighborKey (cells st) with
  | None => st
  | Some neighbor =>
      if JsMath.ltb (1 # 2) (Cell.getEnergyRatio neighbor) then
        let transferred :=
          JsMath.min pullPerNeighbor (Cell.getEnergy neighbor * (1 # 10)) in
        let st1 :=
          updateAt st neighborKey
            (fun n => fst (Cell.removeEnergy n transferred NUTRITION_UNIT)) in
        updateAt st1 key
          (fun cell => fst (Cell.addEnergy cell transferred NUTRITION_UNIT))
      else st
  end.

(** The body of the loop of [performEnergySharing] for the cell object at
    [key]; [energySharingRate] is the public parameter of the engine. *)
Definition shareStep (energySharingRate deltaTime : Q)
    (st : SimulationEngine.t) (key : Pos) : SimulationEngine.t :=
  match JsMap.get posEqb key (cells st) with
  | None => st
  | Some cell =>
      if negb (Cell.isAlive cell) then st
      else
        let neighbors := neighborKeys st cell in
        match neighbors with
        | [] => st
        | _ :: _ =>
            let count := inject_Z (Z.of_nat (length neighbors)) in
            let energyRatio := Cell.getEnergyRatio cell in
            let st1 :=
              if JsMath.ltb (9 # 10) energyRatio then
                let surplus := Cell.isFull cell in
                if JsMath.ltb 0 surplus then
                  let sharePerNeighbor := surplus * (1 # 2) / count in
                  fold_left (pushOne key sharePerNeighbor) neighbors st
                else st
              else st in
            if JsMath.ltb energyRatio (2 # 10) then
              match JsMap.get posEqb key (cells st1) with
              | None => st1
              | Some cell1 =>
                  let needed := Cell.getEnergyDeficit cell1 in
                  let pullRate := energySharingRate * deltaTime in
                  let pullPerNeighbor :=
                    JsMath.min pullRate needed / count in
                  fold_left (pullOne key pullPerNeighbor) neighbors st1
              end
            else st1
        end
  end.

(** Step 5 of [update]. *)
Definition performEnergySharing (energySharingRate deltaTime : Q)
    (st : SimulationEngine.t) : SimulationEngine.t :=
  fold_left (shareStep energySharingRate deltaTime)
    (JsMap.keys (cells st)) st.

(** What the pass may do to a cell: it stays where it is, in its fungus,
    with its capacity, its mushroom and its life, in good order, and it
    keeps its energy or at least nine twentieths of its capacity. *)
Definition keepsUp (c c' : Cell.t) : Prop :=
  Cell.getPositionKey c' = Cell.getPositionKey c /\
  Cell.fungus c' = Cell.fungus c /\
  Cell.maxEnergyCapacity c' = Cell.maxEnergyCapacity c /\
  Cell.hasMushroom c' = Cell.hasMushroom c /\
  Cell.alive c' = Cell.alive c /\
  CellUse.inOrder c' /\
  JsMath.min (Cell.getEnergy c) ((9 # 20) * Cell.maxEnergyCapacity c)
  <= Cell.getEnergy c'.

(** Every cell of the map is in good order, with a capacity above zero. *)
Definition allInOrder (st : SimulationEngine.t) : Prop :=
  forall k c, JsMap.get posEqb k (cells st) = Some c ->
    CellUse.inOrder c /\ 0 < Cell.maxEnergyCapacity c.

(** The map after some rounds of the pass: the same keys, and every cell
    has kept up. *)
Definition follows (st st' : SimulationEngine.t) : Prop :=
  JsMap.keys (cells st') = JsMap.keys (cells st) /\
  forall k c, JsMap.get posEqb k (cells st) = Some c ->
    exists c', JsMap.get posEqb k (cells st') = Some c' /\ keepsUp c c'.

End Sharing.

(** ** States for the examples of the sharing pass *)

Module SharingExamples.
Import SimulationEngine Examples EngineExamples.

(** The founded state with a second cell of the same fungus at (6, 5)
    that holds 1000 units; the capacity of both cells is 1650. *)
Definition sharingState : SimulationEngine.t :=
  addCell foundedState (Cell.create 6 5 (Fungus.mk 0 growerDna 0) 1000).

(** A starving cell next to a cell of its fungus that holds 1000 units of
    Soil and no Nutrition. *)
Definition starvingCell : Cell.t :=
  Cell.mk 5 5 (Fungus.mk 0 growerDna 0) (mkWallet 0 0 50) 1650
    0 0 0 0 true false 0.

Definition soilRichCell : Cell.t :=
  Cell.mk 6 5 (Fungus.mk 0 growerDna 0) (mkWallet 0 1000 0) 1650
    0 0 0 0 true false 0.

Definition soilRichState : SimulationEngine.t :=
  withCells (SimulationEngine.create 20)
    [ ((5, 5)%Z, starvingCell); ((6, 5)%Z, soilRichCell) ].

End SharingExamples.

(** ** SimulationEngine.ts: the second half of a frame *)

Module FrameTail.
Import SimulationEngine.

(** Steps 4 to 8 of [update], in the order of the source: the growth
    pass, the sharing pass, the spores, the removal of the dead and the
    split pass.  [energySharingRate] is the public parameter of the
    engine and [TOTAL_POINTS] the value of [Dna.TOTAL_POINTS]. *)
Definition updateFromGrowth (TOTAL_POINTS energySharingRate deltaTime : Q)
    (st : SimulationEngine.t) (tape : Random.Tape)
  : option (SimulationEngine.t * Random.Tape) :=
  match growthPass st tape with
  | None => None
  | Some (st1, tape1) =>
      let st2 := Sharing.performEnergySharing energySharingRate deltaTime st1 in
      let st3 := updateSpores st2 deltaTime in
      let st4 := EngineUse.removeDeadCells st3 in
      match splitDisconnectedFungi TOTAL_POINTS st4 with
      | None => None
      | Some st5 => Some (st5, tape1)
      end
  end.

End FrameTail.

(** ** Tile.ts and the energy that a cell takes in *)

Module Tile.

Record t : Type := mk {
  x : Z;
  y : Z;
  energyWallet : EnergyWallet;
  soilEnergyAccumulator : EnergyAccumulator.t;
  isEmpty : bool;
  occupiedBy : option String.string
}.

Definition withWallet (tile : t) (w : EnergyWallet) : t :=
  mk (x tile) (y tile) w (soilEnergyAccumulator tile) (isEmpty tile)
     (occupiedBy tile).

Definition getTotalEnergy (tile : t) : Q :=
  EnergyWalletHelper.getTotalUnits (energyWallet tile).

(** [addEnergy] returns the tile after the call and [actualAmount]. *)
Definition addEnergy (tile : t) (amount maxCapacity : Q) (type : EnergyType)
  : t * Q :=
  let totalUnits := EnergyWalletHelper.getTotalUnits (energyWallet tile) in
  let availableSpace := maxCapacity - totalUnits in
  let actualAmount := JsMath.min (JsMath.floor amount) availableSpace in
  if JsMath.ltb 0 actualAmount
  then (withWallet tile
          (fst (EnergyWalletHelper.add (energyWallet tile) type
                  actualAmount None)),
        actualAmount)
  else (tile, actualAmount).

(** [removeEnergy] returns the tile after the call and the amount
    removed. *)
Definition removeEnergy (tile : t) (amount : Q) (type : EnergyType)
  : t * Q :=
  let '(w, removed) :=
    EnergyWalletHelper.remove (energyWallet tile) type amount in
  (withWallet tile w, removed).

End Tile.

Module Intake.

Definition withSoilAbsorptionAccumulator (c : Cell.t)
    (a : EnergyAccumulator.t) : Cell.t :=
  Cell.mk (Cell.x c) (Cell.y c) (Cell.fungus c) (Cell.energyWallet c)
    (Cell.maxEnergyCapacity c) (Cell.metabolismAccumulator c) a
    (Cell.photosynthesisAccumulator c) (Cell.parasitismAccumulator c)
    (Cell.alive c) (Cell.hasMushroom c) (Cell.mushroomGrowth c).

Definition withPhotosynthesisAccumulator (c : Cell.t)
    (a : EnergyAccumulator.t) : Cell.t :=
  Cell.mk (Cell.x c) (Cell.y c) (Cell.fungus c) (Cell.energyWallet c)
    (Cell.maxEnergyCapacity c) (Cell.metabolismAccumulator c)
    (Cell.soilAbsorptionAccumulator c) a (Cell.parasitismAccumulator c)
    (Cell.alive c) (Cell.hasMushroom c) (Cell.mushroomGrowth c).

(** [applyPhotosynthesis]; [maxPhotosynthesisRate] is the public
    parameter of the engine.  The absorption and the accumulator are
    exact here and doubles in the code, so the units of a frame can
    differ by one between the two. *)
Definition applyPhotosynthesis (maxPhotosynthesisRate : Q) (cell : Cell.t)
    (deltaTime sunEnergyPerTile : Q) : Cell.t :=
  if JsMath.leb sunEnergyPerTile 0 then cell
  else
    let greenRatio := green (Fungus.dna (Cell.fungus cell)) / 100 in
    let maxAbsorptionRate := greenRatio * maxPhotosynthesisRate in
    let absorptionRate := JsMath.min maxAbsorptionRate sunEnergyPerTile in
    let continuousAbsorption := absorptionRate * deltaTime in
    let acc :=
      EnergyAccumulator.add (Cell.photosynthesisAccumulator cell)
        continuousAbsorption in
    let '(acc1, absorptionUnits) := EnergyAccumulator.extractUnits acc in
    let cell1 := withPhotosynthesisAccumulator cell acc1 in
    if JsMath.ltb 0 absorptionUnits
    then fst (Cell.addEnergyFromSource cell1 absorptionUnits SUN_UNIT)
    else cell1.

(** [applySoilAbsorption] for the cell and the tile under it, [None]
    when [getTile] finds no tile; [maxSoilAbsorptionRate] is the public
    parameter of the engine. *)
Definition applySoilAbsorption (maxSoilAbsorptionRate : Q)
    (tile : option Tile.t) (cell : Cell.t) (deltaTime : Q)
  : option Tile.t * Cell.t :=
  match tile with
  | None => (None, cell)
  | Some tile0 =>
      if JsMath.leb (Tile.getTotalEnergy tile0) 0 then (Some tile0, cell)
      else
        let brownRatio := brown (Fungus.dna (Cell.fungus cell)) / 100 in
        let maxAbsorptionRate := brownRatio * maxSoilAbsorptionRate in
        let maxAbsorption := maxAbsorptionRate * deltaTime in
        let acc :=
          EnergyAccumulator.add (Cell.soilAbsorptionAccumulator cell)
            maxAbsorption in
        let '(acc1, absorptionUnits) := EnergyAccumulator.extractUnits acc in
        let cell1 := withSoilAbsorptionAccumulator cell acc1 in
        if JsMath.ltb 0 absorptionUnits then
          let '(tile1, energyTaken) :=
            Tile.removeEnergy tile0 absorptionUnits SOIL_UNIT in
          if JsMath.ltb 0 energyTaken
          then (Some tile1,
                fst (Cell.addEnergyFromSource cell1 energyTaken SOIL_UNIT))
          else (Some tile1, cell1)
        else (Some tile0, cell1)
  end.

End Intake.
(** * Properties *)

(** ** Facts about the [Math] functions *)

Module JsMathFacts.
Import JsMath.

Lemma eqb_spec (x y : Q) : reflect (x == y) (eqb x y).
Proof.
  unfold eqb. destruct (Qeq_bool x y) eqn:E; constructor.
  - now apply Qeq_bool_iff.
  - intro H. apply Qeq_bool_iff in H. congruence.
Qed.

Lemma leb_spec (x y : Q) : reflect (x <= y) (leb x y).
Proof.
  unfold leb. destruct (Qle_bool x y) eqn:E; constructor.
  - now apply Qle_bool_iff.
  - intro H. apply Qle_bool_iff in H. congruence.
Qed.

Lemma ltb_spec (x y : Q) : reflect (x < y) (ltb x y).
Proof.
  unfold ltb. destruct (leb_spec y x) as [H|H]; unfold leb in *.
  - destruct (Qle_bool y x) eqn:E; simpl; constructor; try lra.
    apply Qle_bool_iff in H. congruence.
  - destruct (Qle_bool y x) eqn:E; simpl; constructor; try lra.
    apply Qle_bool_iff in E. contradiction.
Qed.

Lemma floor_le (x : Q) : floor x <= x.
Proof. apply Qfloor_le. Qed.

Lemma floor_gt (x : Q) : x - 1 < floor x.
Proof.
  unfold floor. pose proof (Qlt_floor x) as H.
  rewrite inject_Z_plus in H. change (inject_Z 1) with 1 in H.
  set (f := inject_Z (Qfloor x)) in *. lra.
Qed.

Lemma floor_inject (z : Z) : floor (inject_Z z) = inject_Z z.
Proof. unfold floor. now rewrite Qfloor_Z. Qed.

Lemma floor_nonneg (x : Q) : 0 <= x -> 0 <= floor x.
Proof.
  intro H. unfold floor.
  change 0 with (inject_Z 0). rewrite <- Zle_Qle.
  rewrite <- (Qfloor_Z 0). now apply Qfloor_resp_le.
Qed.

Lemma min_cases (x y : Q) :
  (x <= y /\ min x y = x) \/ (y < x /\ min x y = y).
Proof.
  unfold min, Qmin, GenericMinMax.gmin.
  destruct (Qcompare_spec x y) as [H|H|H].
  - left. split; [lra | reflexivity].
  - left. split; [lra | reflexivity].
  - right. split; [lra | reflexivity].
Qed.

End JsMathFacts.

(** A tactic that splits on every [Math.min] of the goal and hypotheses. *)
Ltac split_min :=
  repeat match goal with
  | |- context [JsMath.min ?a ?b] =>
      let H := fresh "Hmin" in
      let E := fresh "Emin" in
      destruct (JsMathFacts.min_cases a b) as [[H E]|[H E]];
      rewrite E in *; clear E
  | _ : context [JsMath.min ?a ?b] |- _ =>
      let H := fresh "Hmin" in
      let E := fresh "Emin" in
      destruct (JsMathFacts.min_cases a b) as [[H E]|[H E]];
      rewrite E in *; clear E
  end.


(** ** Integers among the rationals *)

Module IntegerFacts.
Import JsMath JsMathFacts.

Lemma isInteger_iff (x : Q) :
  isInteger x = true <-> exists z : Z, x == inject_Z z.
Proof.
  unfold isInteger, floor. split.
  - intro H. apply Qeq_bool_iff in H. exists (Qfloor x). now symmetry.
  - intros [z Hz]. apply Qeq_bool_iff.
    rewrite Hz at 1. rewrite Qfloor_Z. now symmetry.
Qed.

Lemma floor_of_integer (x : Q) : isInteger x = true -> floor x == x.
Proof. unfold isInteger. intro H. now apply Qeq_bool_iff in H. Qed.

Lemma isInteger_inject (z : Z) : isInteger (inject_Z z) = true.
Proof. apply isInteger_iff. now exists z. Qed.

Lemma isInteger_floor (x : Q) : isInteger (floor x) = true.
Proof. apply isInteger_inject. Qed.

Lemma isInteger_plus (x y : Q) :
  isInteger x = true -> isInteger y = true -> isInteger (x + y) = true.
Proof.
  rewrite !isInteger_iff. intros [a Ha] [b Hb]. exists (a + b)%Z.
  rewrite inject_Z_plus, Ha, Hb. reflexivity.
Qed.

Lemma isInteger_minus (x y : Q) :
  isInteger x = true -> isInteger y = true -> isInteger (x - y) = true.
Proof.
  rewrite !isInteger_iff. intros [a Ha] [b Hb]. exists (a - b)%Z.
  unfold Z.sub. rewrite inject_Z_plus, inject_Z_opp, Ha, Hb. reflexivity.
Qed.

Lemma isInteger_min (x y : Q) :
  isInteger x = true -> isInteger y = true -> isInteger (min x y) = true.
Proof. intros Hx Hy. destruct (min_cases x y) as [[_ E]|[_ E]]; now rewrite E. Qed.

Lemma isInteger_ext (x y : Q) :
  x == y -> isInteger x = true -> isInteger y = true.
Proof.
  rewrite !isInteger_iff. intros E [z Hz]. exists z. now rewrite <- E.
Qed.

End IntegerFacts.

(** ** The energy wallet *)

Module EnergyFacts.
Import JsMath JsMathFacts IntegerFacts EnergyWalletHelper.

Lemma get_put_same (w : EnergyWallet) (t : EnergyType) (v : Q) :
  get (put w t v) t = v.
Proof. now destruct t. Qed.

Lemma get_put_other (w : EnergyWallet) (t u : EnergyType) (v : Q) :
  t <> u -> get (put w t v) u = get w u.
Proof. destruct t, u; simpl; congruence. Qed.

Lemma total_put (w : EnergyWallet) (t : EnergyType) (v : Q) :
  getTotalUnits (put w t v) == getTotalUnits w - get w t + v.
Proof. destruct t; unfold getTotalUnits; simpl; lra. Qed.

Lemma EnergyType_eq_dec (t u : EnergyType) : {t = u} + {t <> u}.
Proof. decide equality. Qed.

Lemma nonNegative_put (w : EnergyWallet) (t : EnergyType) (v : Q) :
  nonNegative w -> 0 <= v -> nonNegative (put w t v).
Proof.
  intros Hw Hv u. destruct (EnergyType_eq_dec t u) as [->|Hne].
  - now rewrite get_put_same.
  - rewrite get_put_other by assumption. apply Hw.
Qed.

Lemma nonNegative_total (w : EnergyWallet) (t : EnergyType) :
  nonNegative w -> get w t <= getTotalUnits w.
Proof.
  intro Hw. pose proof (Hw SUN_UNIT). pose proof (Hw SOIL_UNIT).
  pose proof (Hw NUTRITION_UNIT).
  destruct t; unfold getTotalUnits; simpl in *; lra.
Qed.

Lemma wholeUnits_total (w : EnergyWallet) :
  wholeUnits w -> isInteger (getTotalUnits w) = true.
Proof.
  intro Hw. unfold getTotalUnits.
  repeat apply isInteger_plus;
    [apply (Hw SUN_UNIT) | apply (Hw SOIL_UNIT) | apply (Hw NUTRITION_UNIT)].
Qed.

(** What [remove] takes: at most the stock, and a whole non-negative
    number when the stock is one and the request is not negative. *)
Lemma remove_amount (w : EnergyWallet) (t : EnergyType) (amount : Q) :
  nonNegative w -> wholeUnits w -> 0 <= amount ->
  let removed := snd (remove w t amount) in
  0 <= removed /\ removed <= get w t /\ isInteger removed = true.
Proof.
  intros Hn Hi Ha. simpl. pose proof (floor_nonneg amount Ha) as Hf.
  pose proof (Hn t) as Hc. repeat split.
  - split_min; lra.
  - split_min; lra.
  - apply isInteger_min; [apply isInteger_floor | apply Hi].
Qed.

(** [transfer] moves [added] units: the source loses them, the destination
    gains them, whatever was removed in between. *)
Lemma transfer_moves (fromW toW : EnergyWallet) (t : EnergyType)
    (amount : Q) (cap : option Q) :
  nonNegative fromW -> wholeUnits fromW -> wholeUnits toW ->
  0 <= amount -> fitsCapacity toW cap ->
  let '(from2, to2, added) := transfer fromW toW t amount cap in
  from2 = put fromW t (get from2 t) /\
  to2 = put toW t (get to2 t) /\
  get from2 t == get fromW t - added /\
  get to2 t == get toW t + added /\
  0 <= added /\ added <= get fromW t.
Proof.
  intros Hn Hi Hti Ha Hcap.
  destruct (remove_amount fromW t amount Hn Hi Ha) as (Hr0 & Hr1 & Hr2).
  simpl in Hr0, Hr1, Hr2.
  unfold transfer, remove.
  set (removed := min (floor amount) (get fromW t)) in *.
  pose proof (floor_of_integer removed Hr2) as Hfl.
  unfold add. destruct cap as [c|].
  - destruct Hcap as [Hc1 Hc2].
    set (added := min (floor removed) (c - getTotalUnits toW)).
    assert (Hadd : 0 <= added /\ added <= removed /\ isInteger added = true).
    { unfold added. repeat split.
      - split_min; lra.
      - split_min; lra.
      - apply isInteger_min; [apply isInteger_floor|].
        apply isInteger_minus; [assumption | now apply wholeUnits_total]. }
    destruct Hadd as (Ha0 & Ha1 & Ha2).
    destruct (ltb_spec added removed) as [Hlt|Hge]; simpl.
    + rewrite !get_put_same.
      assert (Hfl2 : floor (removed - added) == removed - added).
      { apply floor_of_integer. now apply isInteger_minus. }
      repeat split; try lra; destruct t; reflexivity.
    + rewrite !get_put_same.
      repeat split; try lra; destruct t; reflexivity.
  - destruct (ltb_spec (floor removed) removed) as [Hlt|Hge]; simpl.
    + lra.
    + rewrite !get_put_same.
      repeat split; try lra; destruct t; reflexivity.
Qed.

(** For two wallets holding whole, non-negative counts, a non-negative
    requested amount and a destination capacity that is either absent or
    a whole number not below what the destination already holds,
    [transfer] leaves the sum of the two totals unchanged and leaves no
    kind of either wallet negative. *)
Theorem transfer_conserves_energy (fromW toW : EnergyWallet)
    (t : EnergyType) (amount : Q) (cap : option Q) :
  nonNegative fromW -> wholeUnits fromW ->
  nonNegative toW -> wholeUnits toW ->
  0 <= amount -> fitsCapacity toW cap ->
  let '(from2, to2, added) := transfer fromW toW t amount cap in
  getTotalUnits from2 + getTotalUnits to2
    == getTotalUnits fromW + getTotalUnits toW /\
  nonNegative from2 /\ nonNegative to2.
Proof.
  intros Hfn Hfi Htn Hti Ha Hcap.
  pose proof (transfer_moves fromW toW t amount cap Hfn Hfi Hti Ha Hcap) as H.
  destruct (transfer fromW toW t amount cap) as [[from2 to2] added].
  destruct H as (Ef & Et & Hf & Ht & H0 & H1).
  pose proof (Htn t) as Htt.
  split; [|split].
  - rewrite Ef, Et, !total_put. lra.
  - rewrite Ef. apply nonNegative_put; [assumption | lra].
  - rewrite Et. apply nonNegative_put; [assumption | lra].
Qed.

Lemma transfer_conserves_energy_witness :
  let '(from2, to2, added) :=
    transfer (mkWallet 0 5 2) (mkWallet 1 4 0) SOIL_UNIT (7 # 2) (Some 7) in
  getTotalUnits from2 + getTotalUnits to2
    == getTotalUnits (mkWallet 0 5 2) + getTotalUnits (mkWallet 1 4 0) /\
  nonNegative from2 /\ nonNegative to2.
Proof.
  apply (transfer_conserves_energy
           (mkWallet 0 5 2) (mkWallet 1 4 0) SOIL_UNIT (7 # 2) (Some 7)).
  - intros []; simpl; lra.
  - intros []; reflexivity.
  - intros []; simpl; lra.
  - intros []; reflexivity.
  - lra.
  - split; [reflexivity | unfold getTotalUnits; simpl; lra].
Defined.

(** [transfer] between wallets of whole counts, with a capacity that is
    absent or a whole number, leaves the sum of the two totals as it was,
    whatever the sign of the amount and of the counts and however full
    the destination is: what does not reach the destination goes back to
    the source. *)
Lemma transfer_conserves_total (fromW toW : EnergyWallet) (t : EnergyType)
    (amount : Q) (cap : option Q) :
  wholeUnits fromW -> wholeUnits toW ->
  match cap with Some c => isInteger c = true | None => True end ->
  let '(from2, to2, added) := transfer fromW toW t amount cap in
  getTotalUnits from2 + getTotalUnits to2
    == getTotalUnits fromW + getTotalUnits toW.
Proof.
  intros Hfi Hti Hcap.
  unfold transfer, remove.
  set (removed := min (floor amount) (get fromW t)).
  assert (Hr : isInteger removed = true)
    by (apply isInteger_min; [apply isInteger_floor | apply Hfi]).
  pose proof (floor_of_integer removed Hr) as Hfl.
  unfold add. destruct cap as [c|].
  - set (added := min (floor removed) (c - getTotalUnits toW)).
    assert (Ha : isInteger added = true).
    { apply isInteger_min; [apply isInteger_floor|].
      apply isInteger_minus; [assumption | now apply wholeUnits_total]. }
    assert (Hle : added <= removed) by (unfold added; split_min; lra).
    destruct (ltb_spec added removed) as [Hlt|Hge]; simpl.
    + rewrite !get_put_same.
      assert (Hfl2 : floor (removed - added) == removed - added).
      { apply floor_of_integer. now apply isInteger_minus. }
      rewrite !total_put, !get_put_same. lra.
    + rewrite !total_put. lra.
  - destruct (ltb_spec (floor removed) removed) as [Hlt|Hge]; simpl.
    + lra.
    + rewrite !total_put. lra.
Qed.

(** C4.  A destination that already holds more than the capacity passed
    to [transfer] absorbs a negative amount, and its count of the
    transferred kind drops below zero.  Here the source holds 5 Sun, the
    destination 1 Sun and 10 Soil, and the capacity is 3: [add] puts
    min(5, 3 - 11) = -8 units, so the destination is left with -7 Sun and
    the source, refunded 13, with 13.  The two totals still sum to 16. *)
Lemma transfer_negative_count_counterexample :
  let fromW := mkWallet 5 0 0 in
  let toW := mkWallet 1 10 0 in
  let '(from2, to2, added) := transfer fromW toW SUN_UNIT 5 (Some 3) in
  nonNegative fromW /\ nonNegative toW /\
  added == -(8) /\
  get from2 SUN_UNIT == 13 /\
  get to2 SUN_UNIT == -(7) /\ ~ nonNegative to2 /\
  getTotalUnits from2 + getTotalUnits to2
    == getTotalUnits fromW + getTotalUnits toW.
Proof.
  simpl. repeat split.
  - intros []; simpl; lra.
  - intros []; simpl; lra.
  - intro H. specialize (H SUN_UNIT). revert H. vm_compute. intro H. now apply H.
Qed.

(** A negative requested amount is taken as it is: [remove] adds to the
    source and [add] takes from the destination. *)
Lemma transfer_negative_amount_example :
  let '(from2, to2, added) :=
    transfer (mkWallet 0 0 4) (mkWallet 0 0 0) NUTRITION_UNIT (-(3)) None in
  get from2 NUTRITION_UNIT == 7 /\ get to2 NUTRITION_UNIT == -(3).
Proof. vm_compute. split; reflexivity. Qed.

(** With a capacity that is not a whole number the refund is rounded down
    and part of a unit disappears. *)
Lemma transfer_fractional_capacity_example :
  let fromW := mkWallet 0 0 5 in
  let toW := mkWallet 0 0 0 in
  let '(from2, to2, added) :=
    transfer fromW toW NUTRITION_UNIT 5 (Some (7 # 2)) in
  getTotalUnits from2 + getTotalUnits to2 == 9 # 2.
Proof. vm_compute. reflexivity. Qed.

End EnergyFacts.


(** ** The trait vector *)

Module DnaFacts.
Import JsMath JsMathFacts IntegerFacts DnaOps.

Lemma TraitName_eq_dec (n m : TraitName) : {n = m} + {n <> m}.
Proof. decide equality. Qed.

Lemma getTrait_set_same (d : Dna) (n : TraitName) (v : Q) :
  getTraitValue (setTraitValue d n v) n = v.
Proof. now destruct n. Qed.

Lemma getTrait_set_other (d : Dna) (n m : TraitName) (v : Q) :
  n <> m -> getTraitValue (setTraitValue d n v) m = getTraitValue d m.
Proof. destruct n, m; simpl; congruence. Qed.

Lemma getTotal_set (d : Dna) (n : TraitName) (v : Q) :
  getTotal (setTraitValue d n v) == getTotal d - getTraitValue d n + v.
Proof. destruct n; unfold getTotal; simpl; lra. Qed.

Lemma getTotal_names (d : Dna) :
  getTotal d =
  getTraitValue d Tgreen + getTraitValue d Tred + getTraitValue d Tbrown
  + getTraitValue d Tyellow + getTraitValue d Tpink + getTraitValue d Tblue
  + getTraitValue d Tpurple.
Proof. reflexivity. Qed.

Definition allNames : list TraitName :=
  [Tgreen; Tred; Tbrown; Tyellow; Tpink; Tblue; Tpurple].

Lemma allNames_complete (n : TraitName) : In n allNames.
Proof. destruct n; simpl; tauto. Qed.

Lemma allNames_NoDup : NoDup allNames.
Proof.
  unfold allNames.
  repeat (constructor; [simpl; intuition discriminate|]). constructor.
Qed.

(** *** The sort only reorders *)

Lemma insertTrait_perm (e : TraitName * Q) (l : list (TraitName * Q)) :
  Permutation (insertTrait e l) (e :: l).
Proof.
  induction l as [|a l IH]; simpl.
  - reflexivity.
  - destruct (ltb (snd e) (snd a)).
    + reflexivity.
    + rewrite IH. apply perm_swap.
Qed.

Lemma sortTraits_perm (l : list (TraitName * Q)) :
  Permutation (sortTraits l) l.
Proof.
  unfold sortTraits.
  assert (H : forall acc, Permutation
            (fold_left (fun sorted entry => insertTrait entry sorted) l acc)
            (l ++ acc)).
  { induction l as [|a l IH]; intro acc; simpl.
    - reflexivity.
    - rewrite IH. rewrite insertTrait_perm. symmetry. apply Permutation_middle. }
  rewrite H. now rewrite app_nil_r.
Qed.

Lemma sorted_names (d : Dna) :
  Permutation (map fst (sortTraits (traitEntries d))) allNames.
Proof.
  change allNames with (map fst (traitEntries d)).
  apply Permutation_map, sortTraits_perm.
Qed.

(** *** The distribution loop *)

Lemma sign_pos (x : Q) : 0 < x -> sign x = 1.
Proof.
  intro H. unfold sign. destruct (Qcompare_spec x 0); try lra. reflexivity.
Qed.

Lemma sign_neg (x : Q) : x < 0 -> sign x = -(1).
Proof.
  intro H. unfold sign. destruct (Qcompare_spec x 0); try lra. reflexivity.
Qed.

Lemma abs_pos (x : Q) : 0 <= x -> abs x == x.
Proof. intro H. unfold abs. now apply Qabs_pos. Qed.

Lemma abs_neg (x : Q) : x <= 0 -> abs x == - x.
Proof. intro H. unfold abs. now apply Qabs_neg. Qed.

Lemma distribute_zero (l : list (TraitName * Q)) (d : Dna) (r : Q) :
  r == 0 -> distribute l d r = (d, r).
Proof.
  intro Hz. destruct l as [|e l]; simpl; [reflexivity|].
  destruct (eqb_spec r 0); [reflexivity | contradiction].
Qed.

(** The loop keeps [total + remaining] unchanged. *)
Lemma distribute_total (l : list (TraitName * Q)) :
  forall (d : Dna) (remaining : Q),
  getTotal (fst (distribute l d remaining)) + snd (distribute l d remaining)
  == getTotal d + remaining.
Proof.
  induction l as [|e l IH]; intros d remaining; simpl.
  - reflexivity.
  - destruct (eqb_spec remaining 0) as [E|E]; simpl.
    + reflexivity.
    + rewrite IH, getTotal_set. lra.
Qed.

(** A positive difference is handed out until it is used up or every
    trait visited stands at the cap. *)
Lemma distribute_fill (l : list (TraitName * Q)) :
  forall (d : Dna) (remaining : Q),
  NoDup (map fst l) ->
  0 <= remaining ->
  (forall n, getTraitValue d n <= MAX_TRAIT_VALUE) ->
  let d' := fst (distribute l d remaining) in
  let remaining' := snd (distribute l d remaining) in
  0 <= remaining' /\
  (forall n, getTraitValue d' n <= MAX_TRAIT_VALUE) /\
  (forall n, ~ In n (map fst l) -> getTraitValue d' n = getTraitValue d n) /\
  (remaining' == 0 \/
   forall n, In n (map fst l) -> getTraitValue d' n == MAX_TRAIT_VALUE).
Proof.
  induction l as [|e l IH]; intros d remaining Hnd Hrem Hcap; simpl.
  - repeat split; try assumption. right. intros n [].
  - destruct (eqb_spec remaining 0) as [E|E]; simpl.
    + repeat split; try assumption. now left.
    + inversion Hnd as [|? ? Hnotin Hnd']; subst.
      assert (Hpos : 0 < remaining) by lra.
      set (cur := getTraitValue d (fst e)).
      set (toAdd := min (abs remaining) (MAX_TRAIT_VALUE - cur) * sign remaining).
      pose proof (Hcap (fst e)) as Hcur. fold cur in Hcur.
      assert (HtoAdd : toAdd == min remaining (MAX_TRAIT_VALUE - cur) \/ False).
      { left. unfold toAdd. rewrite (sign_pos _ Hpos).
        pose proof (abs_pos remaining Hrem) as Ha.
        destruct (min_cases (abs remaining) (MAX_TRAIT_VALUE - cur))
          as [[H1 E1]|[H1 E1]]; rewrite E1;
        destruct (min_cases remaining (MAX_TRAIT_VALUE - cur))
          as [[H2 E2]|[H2 E2]]; rewrite E2; lra. }
      destruct HtoAdd as [HtoAdd|[]].
      assert (Hbound : 0 <= toAdd /\ toAdd <= remaining
                       /\ toAdd <= MAX_TRAIT_VALUE - cur
                       /\ (toAdd == remaining \/ toAdd == MAX_TRAIT_VALUE - cur)).
      { rewrite HtoAdd.
        destruct (min_cases remaining (MAX_TRAIT_VALUE - cur))
          as [[H2 E2]|[H2 E2]]; rewrite E2;
          (split; [lra | split; [lra | split; [lra |]]]);
          [left | right]; reflexivity. }
      destruct Hbound as (Hb0 & Hb1 & Hb2 & Hb3).
      set (d1 := setTraitValue d (fst e) (cur + toAdd)).
      assert (Hcap1 : forall n, getTraitValue d1 n <= MAX_TRAIT_VALUE).
      { intro n. unfold d1. destruct (TraitName_eq_dec (fst e) n) as [<-|Hne].
        - rewrite getTrait_set_same. lra.
        - rewrite getTrait_set_other by assumption. apply Hcap. }
      assert (Hrem1 : 0 <= remaining - toAdd) by lra.
      destruct (IH d1 (remaining - toAdd) Hnd' Hrem1 Hcap1)
        as (I0 & I1 & I2 & I3).
      repeat split; try assumption.
      * intros n Hn. rewrite I2 by tauto. unfold d1.
        apply getTrait_set_other. tauto.
      * destruct I3 as [I3|I3]; [now left|].
        destruct Hb3 as [Hb3|Hb3].
        -- left.
           assert (Hz : remaining - toAdd == 0) by lra.
           rewrite (distribute_zero l d1 _ Hz). exact Hz.
        -- right. intros n [Hn|Hn].
           ++ subst n. rewrite I2 by assumption. unfold d1.
              rewrite getTrait_set_same. lra.
           ++ now apply I3.
Qed.

(** A negative difference is taken back, from each trait visited by as
    much as its distance to the cap, until it is used up. *)
Lemma distribute_drain (l : list (TraitName * Q)) :
  forall (d : Dna) (remaining : Q),
  NoDup (map fst l) ->
  remaining <= 0 ->
  (forall n, getTraitValue d n <= MAX_TRAIT_VALUE) ->
  let d' := fst (distribute l d remaining) in
  let remaining' := snd (distribute l d remaining) in
  remaining' <= 0 /\
  (forall n, ~ In n (map fst l) -> getTraitValue d' n = getTraitValue d n) /\
  (remaining' == 0 \/
   forall n, In n (map fst l) ->
     getTraitValue d' n == 2 * getTraitValue d n - MAX_TRAIT_VALUE).
Proof.
  induction l as [|e l IH]; intros d remaining Hnd Hrem Hcap; simpl.
  - repeat split; try assumption. right. intros n [].
  - destruct (eqb_spec remaining 0) as [E|E]; simpl.
    + repeat split; try assumption. now left.
    + inversion Hnd as [|? ? Hnotin Hnd']; subst.
      assert (Hneg : remaining < 0) by lra.
      set (cur := getTraitValue d (fst e)).
      set (toAdd := min (abs remaining) (MAX_TRAIT_VALUE - cur) * sign remaining).
      pose proof (Hcap (fst e)) as Hcur. fold cur in Hcur.
      assert (Hbound : toAdd <= 0 /\ remaining <= toAdd
                       /\ cur - MAX_TRAIT_VALUE <= toAdd
                       /\ (toAdd == remaining \/ toAdd == cur - MAX_TRAIT_VALUE)).
      { unfold toAdd. rewrite (sign_neg _ Hneg).
        pose proof (abs_neg remaining Hrem) as Ha.
        destruct (min_cases (abs remaining) (MAX_TRAIT_VALUE - cur))
          as [[H1 E1]|[H1 E1]]; rewrite E1;
          (split; [lra | split; [lra | split; [lra |]]]);
          [left | right]; lra. }
      destruct Hbound as (Hb0 & Hb1 & Hb2 & Hb3).
      set (d1 := setTraitValue d (fst e) (cur + toAdd)).
      assert (Hcap1 : forall n, getTraitValue d1 n <= MAX_TRAIT_VALUE).
      { intro n. unfold d1. destruct (TraitName_eq_dec (fst e) n) as [<-|Hne].
        - rewrite getTrait_set_same. lra.
        - rewrite getTrait_set_other by assumption. apply Hcap. }
      assert (Hrem1 : remaining - toAdd <= 0) by lra.
      destruct (IH d1 (remaining - toAdd) Hnd' Hrem1 Hcap1) as (I0 & I2 & I3).
      repeat split; try assumption.
      * intros n Hn. rewrite I2 by tauto. unfold d1.
        apply getTrait_set_other. tauto.
      * destruct I3 as [I3|I3]; [now left|].
        destruct Hb3 as [Hb3|Hb3].
        -- left.
           assert (Hz : remaining - toAdd == 0) by lra.
           rewrite (distribute_zero l d1 _ Hz). exact Hz.
        -- right. intros n [Hn|Hn].
           ++ subst n. rewrite I2 by assumption. unfold d1.
              rewrite getTrait_set_same. fold cur. lra.
           ++ rewrite (I3 n Hn). unfold d1.
              rewrite getTrait_set_other; [reflexivity|].
              intro Heq. subst n. contradiction.
Qed.

(** *** The constructor *)

Section Normalize.

Variable TOTAL_POINTS : Q.

(** The cap leaves room for the total: with the cap at 100 the total is
    at most 693. *)
Hypothesis total_fits : TOTAL_POINTS + 7 <= 7 * MAX_TRAIT_VALUE.

Lemma round_le (x : Q) : round x <= x + (1 # 2).
Proof. unfold round. apply floor_le. Qed.

Lemma getTotal_mapTraits_le (f g : Q -> Q) (d : Dna) :
  (forall v, f v <= g v) ->
  getTotal (mapTraits f d) <= getTotal (mapTraits g d).
Proof.
  intro H. unfold getTotal, mapTraits; simpl.
  pose proof (H (green d)). pose proof (H (red d)). pose proof (H (brown d)).
  pose proof (H (yellow d)). pose proof (H (pink d)). pose proof (H (blue d)).
  pose proof (H (purple d)). lra.
Qed.

Lemma getTraitValue_mapTraits (f : Q -> Q) (d : Dna) (n : TraitName) :
  getTraitValue (mapTraits f d) n = f (getTraitValue d n).
Proof. now destruct n. Qed.

Lemma scaled_total_le (d : Dna) :
  ~ getTotal d == 0 ->
  getTotal (mapTraits
              (fun v => round (v * (TOTAL_POINTS / getTotal d))) d)
  <= TOTAL_POINTS + (7 # 2).
Proof.
  intro Hnz. set (scale := TOTAL_POINTS / getTotal d).
  assert (Hs : getTotal d * scale == TOTAL_POINTS).
  { unfold scale. field. exact Hnz. }
  eapply Qle_trans.
  - apply (getTotal_mapTraits_le _ (fun v => v * scale + (1 # 2))).
    intro v. apply round_le.
  - unfold getTotal, mapTraits; simpl.
    assert (Hsum : green d * scale + red d * scale + brown d * scale
                   + yellow d * scale + pink d * scale + blue d * scale
                   + purple d * scale == getTotal d * scale)
      by (unfold getTotal; ring).
    lra.
Qed.

(** Whatever seven numbers the constructor is given, the traits it stores
    sum to [TOTAL_POINTS]. *)
Lemma normalize_total (d : Dna) :
  getTotal (normalize TOTAL_POINTS d) == TOTAL_POINTS.
Proof.
  unfold normalize. unfold MAX_TRAIT_VALUE in total_fits.
  destruct (eqb_spec (getTotal d) 0) as [Hz|Hnz].
  - unfold getTotal; simpl.
    destruct (min_cases (TOTAL_POINTS / 7) MAX_TRAIT_VALUE) as [[H E]|[H E]];
      rewrite E; unfold MAX_TRAIT_VALUE in *.
    + field.
    + assert (TOTAL_POINTS / 7 <= 99).
      { apply Qle_shift_div_r; lra. }
      lra.
  - destruct (eqb_spec (getTotal d) TOTAL_POINTS) as [Ht|Hnt]; simpl.
    + exact Ht.
    + set (scaled := mapTraits
                       (fun v => round (v * (TOTAL_POINTS / getTotal d))) d).
      set (capped := mapTraits (fun v => min v MAX_TRAIT_VALUE) scaled).
      assert (Hscaled : getTotal scaled <= TOTAL_POINTS + (7 # 2))
        by (apply scaled_total_le; exact Hnz).
      assert (Hle : getTotal capped <= getTotal scaled).
      { unfold capped.
        eapply Qle_trans.
        - apply (getTotal_mapTraits_le _ (fun v => v)).
          intro v. split_min; lra.
        - unfold getTotal, mapTraits; simpl. lra. }
      assert (Hcap : forall n, getTraitValue capped n <= MAX_TRAIT_VALUE).
      { intro n. unfold capped. rewrite getTraitValue_mapTraits.
        split_min; lra. }
      destruct (eqb_spec (TOTAL_POINTS - getTotal capped) 0) as [Hd|Hd]; simpl.
      * lra.
      * set (l := sortTraits (traitEntries capped)).
        pose proof (sorted_names capped) as Hperm. fold l in Hperm.
        assert (Hnd : NoDup (map fst l)).
        { apply (Permutation_NoDup (Permutation_sym Hperm)), allNames_NoDup. }
        assert (Hin : forall n, In n (map fst l)).
        { intro n. apply (Permutation_in _ (Permutation_sym Hperm)).
          apply allNames_complete. }
        pose proof (distribute_total l capped (TOTAL_POINTS - getTotal capped))
          as Htot.
        destruct (Qlt_le_dec 0 (TOTAL_POINTS - getTotal capped)) as [Hpos|Hneg].
        -- destruct (distribute_fill l capped _ Hnd (Qlt_le_weak _ _ Hpos) Hcap)
             as (F0 & _ & _ & F3).
           destruct F3 as [F3|F3]; [lra|].
           rewrite getTotal_names in Htot at 1.
           rewrite (F3 Tgreen), (F3 Tred), (F3 Tbrown), (F3 Tyellow),
             (F3 Tpink), (F3 Tblue), (F3 Tpurple) in Htot by apply Hin.
           unfold MAX_TRAIT_VALUE in *. lra.
        -- destruct (distribute_drain l capped _ Hnd Hneg Hcap)
             as (F0 & _ & F3).
           destruct F3 as [F3|F3]; [lra|].
           set (res := distribute l capped (TOTAL_POINTS - getTotal capped))
             in *.
           pose proof Htot as Htot'.
           rewrite getTotal_names in Htot' at 1.
           rewrite (F3 Tgreen), (F3 Tred), (F3 Tbrown), (F3 Tyellow),
             (F3 Tpink), (F3 Tblue), (F3 Tpurple) in Htot' by apply Hin.
           rewrite getTotal_names in Htot', Hle.
           unfold MAX_TRAIT_VALUE in *.
           assert (Hz : snd res == 0) by lra.
           lra.
Qed.

End Normalize.

(** *** mutate returns *)

Lemma validTape_skipn (k : nat) (tape : Random.Tape) :
  Random.validTape tape = true -> Random.validTape (skipn k tape) = true.
Proof.
  revert tape. induction k as [|k IH]; intros tape H; simpl.
  - exact H.
  - destruct tape as [|r rest]; [reflexivity|].
    simpl in H. apply andb_true_iff in H. apply IH, H.
Qed.

Lemma spacedTape_skipn (n : Z) (k : nat) (tape : Random.Tape) :
  Random.spacedTape n tape = true ->
  Random.spacedTape n (skipn k tape) = true.
Proof.
  revert tape. induction k as [|k IH]; intros tape H; simpl.
  - exact H.
  - destruct tape as [|r rest]; [reflexivity|].
    simpl in H. apply andb_true_iff in H. apply IH, H.
Qed.

Lemma index_below (r : Q) (n : Z) :
  Random.unit_interval r = true -> (0 < n)%Z ->
  (Random.index r n < Z.to_nat n)%nat.
Proof.
  unfold Random.unit_interval, Random.index. intros H Hn.
  apply andb_true_iff in H. destruct H as [H0 H1].
  destruct (leb_spec 0 r) as [H0'|]; [|discriminate].
  destruct (ltb_spec r 1) as [H1'|]; [|discriminate].
  assert (Hnq : 0 < inject_Z n).
  { change 0 with (inject_Z 0). now rewrite <- Zlt_Qlt. }
  assert (Hlo : (0 <= Qfloor (r * inject_Z n))%Z).
  { rewrite <- (Qfloor_Z 0). apply Qfloor_resp_le.
    change (inject_Z 0) with 0. apply Qmult_le_0_compat; lra. }
  assert (Hhi : (Qfloor (r * inject_Z n) < n)%Z).
  { rewrite Zlt_Qlt. eapply Qle_lt_trans; [apply Qfloor_le|].
    setoid_replace (inject_Z n) with (1 * inject_Z n) at 2 by ring.
    apply Qmult_lt_compat_r; assumption. }
  lia.
Qed.

Section MutateReturns.

Variable TOTAL_POINTS : Q.

Lemma mutationRound_returns (maxChange : Q) (traits : list Q)
    (tape : Random.Tape) :
  Random.validTape tape = true ->
  Random.spacedTape 7 tape = true ->
  (3 <= length tape)%nat ->
  exists traits' k, (k <= 3)%nat /\
    mutationRound maxChange traits tape = Some (traits', skipn k tape).
Proof.
  intros Hv Hs Hlen.
  destruct tape as [|r1 [|r2 [|r3 rest]]]; simpl in Hlen; try lia.
  simpl in Hv, Hs.
  apply andb_true_iff in Hv. destruct Hv as [V1 Hv].
  apply andb_true_iff in Hv. destruct Hv as [V2 Hv].
  apply andb_true_iff in Hv. destruct Hv as [V3 _].
  apply andb_true_iff in Hs. destruct Hs as [S1 _].
  unfold mutationRound, Random.random. cbv beta iota.
  rewrite V1. cbv beta iota. rewrite V2. cbv beta iota.
  apply negb_true_iff in S1. cbn [redrawTarget]. rewrite S1.
  destruct (leb MAX_TRAIT_VALUE
              (readTrait traits (Random.index r2 7))).
  - exists traits, 2%nat. split; [lia | reflexivity].
  - rewrite V3. eexists; exists 3%nat. split; [lia | reflexivity].
Qed.

Lemma mutationRounds_returns (n : nat) (maxChange : Q) :
  forall (traits : list Q) (tape : Random.Tape),
  Random.validTape tape = true ->
  Random.spacedTape 7 tape = true ->
  (3 * n <= length tape)%nat ->
  exists result, mutationRounds n maxChange traits tape = Some result.
Proof.
  induction n as [|n IH]; intros traits tape Hv Hs Hlen; simpl.
  - eexists; reflexivity.
  - destruct (mutationRound_returns maxChange traits tape Hv Hs)
      as (traits' & k & Hk & E); [lia|].
    rewrite E. apply IH.
    + now apply validTape_skipn.
    + now apply spacedTape_skipn.
    + rewrite length_skipn. lia.
Qed.

(** On a tape of ten or more outcomes in which no index is drawn twice in
    succession, [mutate] returns. *)
Lemma mutate_returns (d : Dna) (mutationStrength : Q) (tape : Random.Tape) :
  Random.validTape tape = true ->
  Random.spacedTape 7 tape = true ->
  (10 <= length tape)%nat ->
  exists result, mutate TOTAL_POINTS d mutationStrength tape = Some result.
Proof.
  intros Hv Hs Hlen. destruct tape as [|r0 rest]; simpl in Hlen; [lia|].
  simpl in Hv. apply andb_true_iff in Hv. destruct Hv as [V0 Hv].
  assert (Hs' : Random.spacedTape 7 rest = true).
  { simpl in Hs. apply andb_true_iff in Hs. apply Hs. }
  unfold mutate, Random.random. cbv beta iota. rewrite V0. cbv beta iota zeta.
  pose proof (index_below r0 3 V0 eq_refl) as Hidx.
  destruct (mutationRounds_returns (Random.index r0 3 + 1)
              (floor (TOTAL_POINTS * mutationStrength))
              (traitArray d) rest Hv Hs') as [[traits1 tape1] E].
  { change (Z.to_nat 3) with 3%nat in Hidx. lia. }
  rewrite E. eexists; reflexivity.
Qed.

End MutateReturns.

(** *** The constructor on particular inputs *)

(** C1.  The constructor called with the non-negative integers
    (1, 1, 1, 1, 0, 0, 0) while [TOTAL_POINTS] is 250: each 1 is scaled to
    62.5 and rounded to 63, the rounded values sum to 252, and the
    difference of -2 is taken from the lowest trait, which is 0.  The
    stored traits sum to 250, but pink is -2. *)
Theorem constructor_overshoot_negative_trait :
  let d := create 250 1 1 1 1 0 0 0 in
  green d == 63 /\ red d == 63 /\ brown d == 63 /\ yellow d == 63 /\
  pink d == -(2) /\ blue d == 0 /\ purple d == 0 /\
  pink d < 0 /\ getTotal d == 250.
Proof. vm_compute. repeat split; reflexivity. Qed.

(** Raw values that already sum to [TOTAL_POINTS] are stored as they are,
    also above [MAX_TRAIT_VALUE]. *)
Lemma constructor_exact_total_skips_cap :
  let d := create 250 250 0 0 0 0 0 0 in
  green d == 250 /\ MAX_TRAIT_VALUE < green d.
Proof. vm_compute. split; reflexivity. Qed.

(** Seven zeros give seven times a seventh of [TOTAL_POINTS], which is not
    a whole number when [TOTAL_POINTS] is 250. *)
Lemma constructor_all_zero_fractional :
  let d := create 250 0 0 0 0 0 0 0 in
  green d == 250 / 7 /\ isInteger (green d) = false /\ getTotal d == 250.
Proof. vm_compute. repeat split; reflexivity. Qed.

(** The sum, on the other hand, is right for every input. *)
Lemma constructor_total (T g r b y p bl pu : Q) :
  T + 7 <= 7 * MAX_TRAIT_VALUE ->
  getTotal (create T g r b y p bl pu) == T.
Proof. intro H. unfold create. now apply normalize_total. Qed.

(** *** Mutation *)

(** C8.  While the cap leaves room for [TOTAL_POINTS], every result of
    [mutate] sums to [TOTAL_POINTS], for every trait vector, every
    mutation strength and every outcome of the random draws; and [mutate]
    does return a result on every tape of ten or more outcomes that never
    selects the same trait twice in succession. *)
Theorem mutate_conserves_total (T : Q) (v : Dna) (s : Q) :
  T + 7 <= 7 * MAX_TRAIT_VALUE ->
  (forall tape v' tape',
     mutate T v s tape = Some (v', tape') -> getTotal v' == T) /\
  (forall tape,
     Random.validTape tape = true ->
     Random.spacedTape 7 tape = true ->
     (10 <= length tape)%nat ->
     exists v' tape',
       mutate T v s tape = Some (v', tape') /\ getTotal v' == T).
Proof.
  intro Hfit.
  assert (Hsum : forall tape v' tape',
            mutate T v s tape = Some (v', tape') -> getTotal v' == T).
  { intros tape v' tape' E. unfold mutate in E.
    destruct (Random.random tape) as [[r0 tape0]|]; [|discriminate].
    destruct (mutationRounds _ _ _ tape0) as [[traits1 tape1]|];
      [|discriminate].
    injection E as <- _. now apply constructor_total. }
  split; [exact Hsum|].
  intros tape Hv Hs Hlen.
  destruct (mutate_returns T v s tape Hv Hs Hlen) as [[v' tape'] E].
  exists v', tape'. split; [exact E | exact (Hsum _ _ _ E)].
Qed.

Lemma mutate_conserves_total_witness :
  250 + 7 <= 7 * MAX_TRAIT_VALUE /\
  exists v' tape',
    mutate 250 (mkDna 50 50 50 50 50 0 0) (15 # 100)
      [1 # 2; 0; 1 # 7; 1 # 2; 6 # 7; 3 # 7; 1 # 3; 0; 1 # 2; 0]
    = Some (v', tape') /\ getTotal v' == 250.
Proof.
  assert (Hfit : 250 + 7 <= 7 * MAX_TRAIT_VALUE) by (vm_compute; discriminate).
  split; [exact Hfit|].
  apply (proj2 (mutate_conserves_total 250 (mkDna 50 50 50 50 50 0 0)
                  (15 # 100) Hfit)).
  - reflexivity.
  - reflexivity.
  - simpl. lia.
Defined.

End DnaFacts.

(** ** Cells *)

Module CellFacts.
Import JsMath JsMathFacts IntegerFacts EnergyWalletHelper EnergyFacts.

Lemma nonNegative_fields (w : EnergyWallet) :
  nonNegative w -> 0 <= sunUnits w /\ 0 <= soilUnits w /\ 0 <= nutritionUnits w.
Proof.
  intro H. repeat split;
    [apply (H SUN_UNIT) | apply (H SOIL_UNIT) | apply (H NUTRITION_UNIT)].
Qed.

Lemma wholeUnits_fields (w : EnergyWallet) :
  wholeUnits w ->
  floor (sunUnits w) == sunUnits w /\ floor (soilUnits w) == soilUnits w /\
  floor (nutritionUnits w) == nutritionUnits w.
Proof.
  intro H. repeat split; apply floor_of_integer;
    [apply (H SUN_UNIT) | apply (H SOIL_UNIT) | apply (H NUTRITION_UNIT)].
Qed.

Ltac case_eqb E :=
  match goal with
  | |- context [eqb ?a ?b] => destruct (eqb_spec a b) as [E|E]
  end.

Ltac open_cell c :=
  destruct c as [cx cy cf [wsun wsoil wnut] ccap am asl aph apa cal chm cmg];
  unfold Cell.getEnergyOfType, Cell.getEnergy, getTotalUnits in *;
  simpl in *.



End CellFacts.

(** ** Parasitism *)

Module ParasitismFacts.
Import JsMath JsMathFacts IntegerFacts EnergyWalletHelper EnergyFacts CellFacts.
Import Measures SimulationEngine Examples.

Lemma floor_comp (x y : Q) : x == y -> floor x == floor y.
Proof. intro H. unfold floor. now rewrite H. Qed.

Lemma floor_mono (x y : Q) : x <= y -> floor x <= floor y.
Proof.
  intro H. unfold floor. rewrite <- Zle_Qle. now apply Qfloor_resp_le.
Qed.

Lemma floor_add_int (x : Q) (z : Z) :
  floor (x + inject_Z z) == floor x + inject_Z z.
Proof.
  unfold floor. rewrite <- inject_Z_plus. apply inject_Z_injective.
  apply Z.le_antisymm.
  - assert (H : inject_Z (Qfloor (x + inject_Z z)) < inject_Z (Qfloor x + z + 1)).
    { eapply Qle_lt_trans; [apply Qfloor_le|].
      pose proof (Qlt_floor x) as H. rewrite !inject_Z_plus in *.
      change (inject_Z 1) with 1 in *. lra. }
    rewrite <- Zlt_Qlt in H. lia.
  - rewrite <- (Qfloor_Z (Qfloor x + z)). apply Qfloor_resp_le.
    rewrite inject_Z_plus. pose proof (Qfloor_le x). lra.
Qed.

Lemma floor_sub_floor (x y : Q) : floor (x - floor y) == floor x - floor y.
Proof.
  transitivity (floor (x + inject_Z (- Qfloor y))).
  - apply floor_comp. unfold floor. rewrite inject_Z_opp. ring.
  - rewrite floor_add_int, inject_Z_opp. unfold floor. ring.
Qed.

Lemma count_cons {A : Type} (a : A) (l : list A) :
  count (a :: l) == count l + 1.
Proof.
  unfold count. simpl length. rewrite Nat2Z.inj_succ. unfold Z.succ.
  rewrite inject_Z_plus. reflexivity.
Qed.

Lemma sumNutrition_cons (v : Cell.t) (l : list Cell.t) :
  sumNutrition (v :: l)
  = Cell.getEnergyOfType v NUTRITION_UNIT + sumNutrition l.
Proof. reflexivity. Qed.

Lemma count_nonneg {A : Type} (l : list A) : 0 <= count l.
Proof.
  unfold count. change 0 with (inject_Z 0). rewrite <- Zle_Qle. lia.
Qed.

(** The loop over the neighbours: what it drains, the accumulator it
    leaves, and where the drained units go, when every neighbour holds at
    least one unit more than a round can ask for.  The parasite keeps its
    capacity, its Sun and its Soil; when it holds no more than its
    capacity, its Nutrition grows by what the loop drains or by the room
    it has, whichever is smaller. *)
Lemma drainNeighbors_drains (c : Q) (victims : list Cell.t) :
  0 <= c ->
  forall cell : Cell.t,
  0 <= Cell.parasitismAccumulator cell < 1 ->
  (forall v, In v victims ->
     nonNegative (Cell.energyWallet v) /\
     floor c + 1 <= Cell.getEnergyOfType v NUTRITION_UNIT) ->
  let '(cell', victims', total) := drainNeighbors cell victims c in
  total + Cell.parasitismAccumulator cell'
    == Cell.parasitismAccumulator cell + count victims * c /\
  0 <= Cell.parasitismAccumulator cell' < 1 /\
  sumNutrition victims' == sumNutrition victims - total /\
  0 <= total /\
  Cell.maxEnergyCapacity cell' = Cell.maxEnergyCapacity cell /\
  Cell.getEnergyOfType cell' SUN_UNIT = Cell.getEnergyOfType cell SUN_UNIT /\
  Cell.getEnergyOfType cell' SOIL_UNIT = Cell.getEnergyOfType cell SOIL_UNIT /\
  (Cell.getEnergy cell <= Cell.maxEnergyCapacity cell ->
   Cell.getEnergyOfType cell' NUTRITION_UNIT
   == Cell.getEnergyOfType cell NUTRITION_UNIT
      + min total (Cell.maxEnergyCapacity cell - Cell.getEnergy cell)).
Proof.
  intro Hc. induction victims as [|v rest IH]; intros cell Hacc Hv.
  - simpl. unfold count, sumNutrition; simpl. destruct Hacc.
    change (inject_Z 0) with 0.
    repeat split; try lra; try reflexivity.
    intro Hroom. split_min; lra.
  - assert (Hv0 := Hv v (or_introl eq_refl)).
    destruct Hv0 as [Hvn Hvs].
    destruct (nonNegative_fields _ Hvn) as (V1 & V2 & V3).
    assert (Hrest : forall v0, In v0 rest ->
              nonNegative (Cell.energyWallet v0) /\
              floor c + 1 <= Cell.getEnergyOfType v0 NUTRITION_UNIT)
      by (intros v0 Hin; apply Hv; now right).
    clear Hv Hvn.
    pose proof (count_cons v rest) as Hk.
    pose proof (count_nonneg rest) as Hk0.
    remember (count (v :: rest)) as K eqn:HK. clear HK.
    simpl drainNeighbors.
    destruct v as [vx vy vf [vsun vsoil vnut] vcap va1 va2 va3 va4 val vhm vmg].
    destruct cell as [cx cy cf [wsun wsoil wnut] ccap a1 a2 a3 acc cal chm cmg].
    unfold Cell.getEnergy, Cell.getEnergyOfType, getTotalUnits in *.
    unfold EnergyAccumulator.add, EnergyAccumulator.extractUnits.
    unfold Cell.removeEnergyForPurpose, Cell.removeEnergy,
      Cell.addEnergyFromSource, Cell.addEnergy.
    simpl in *.
    set (u := floor (acc + c)) in *.
    assert (Hu0 : 0 <= u) by (apply floor_nonneg; lra).
    assert (Hui : floor u == u) by (apply floor_of_integer, isInteger_floor).
    assert (Hule : u <= floor c + 1).
    { unfold u. change 1 with (inject_Z 1).
      rewrite <- floor_add_int. apply floor_mono.
      change (inject_Z 1) with 1. lra. }
    assert (Hle_u : u <= acc + c) by apply floor_le.
    assert (Hgt_u : acc + c - 1 < u) by apply floor_gt.
    assert (HKc : K * c == count rest * c + c) by (rewrite Hk; ring).
    destruct (ltb_spec 0 u) as [Hpos|Hzero].
    + destruct (min_cases (floor u) vnut) as [[M1 E1]|[M1 E1]]; [|lra].
      rewrite E1.
      destruct (ltb_spec 0 (floor u)) as [_|Hn]; [|lra].
      assert (Hffu : floor (floor u) == u)
        by (rewrite (floor_comp _ _ Hui); exact Hui).
      simpl.
      match goal with
      | |- context [drainNeighbors ?c2 rest c] => set (cell2 := c2)
      end.
      assert (IH2 := IH cell2). simpl in IH2.
      assert (R1 : 0 <= acc + c - u < 1) by (split; lra).
      specialize (IH2 R1 Hrest).
      destruct (drainNeighbors cell2 rest c) as [[cell3 rest1] tot].
      destruct IH2 as (I1 & I2 & I3 & I4 & I5 & I6 & I7 & I8).
      rewrite !sumNutrition_cons. simpl.
      rewrite I5, I6, I7.
      split; [lra|]. split; [exact I2|].
      split.
      { case_eqb Ez; unfold Cell.getEnergyOfType; simpl; lra. }
      split; [lra|].
      split; [reflexivity|]. split; [reflexivity|]. split; [reflexivity|].
      intro Hroom.
      assert (Hroom2 :
                wsun + wsoil
                + (wnut + min (floor (floor u)) (ccap - (wsun + wsoil + wnut)))
                <= ccap) by (split_min; lra).
      specialize (I8 Hroom2). rewrite I8.
      split_min; lra.
    + assert (Hu : u == 0) by lra.
      match goal with
      | |- context [drainNeighbors ?c2 rest c] => set (cell2 := c2)
      end.
      assert (IH2 := IH cell2). simpl in IH2.
      assert (R1 : 0 <= acc + c - u < 1) by (split; lra).
      specialize (IH2 R1 Hrest).
      destruct (drainNeighbors cell2 rest c) as [[cell3 rest1] tot].
      destruct IH2 as (I1 & I2 & I3 & I4 & I5 & I6 & I7 & I8).
      rewrite !sumNutrition_cons. simpl.
      rewrite I5, I6, I7.
      split; [lra|]. split; [exact I2|].
      split; [unfold Cell.getEnergyOfType; simpl; lra|].
      split; [lra|].
      split; [reflexivity|]. split; [reflexivity|]. split; [reflexivity|].
      intro Hroom. specialize (I8 Hroom). rewrite I8.
      split_min; lra.
Qed.



(** Three neighbours, a drain of 2.5 units per neighbour and a parasite
    with room for 4 units: the loop takes 2, 3 and 2 units, 7 in all, and
    the parasite gains 4. *)
Lemma parasitism_three_neighbours_example :
  let cell := parasiteCell 296 in
  let '(cell', victims', total) := drainNeighbors cell swarmHosts (5 # 2) in
  total == 7 /\
  map (fun v => Cell.getEnergyOfType v NUTRITION_UNIT) victims'
  = [48; 47; 48] /\
  Cell.getEnergyOfType cell' NUTRITION_UNIT == 300 /\
  Cell.parasitismAccumulator cell' == 1 # 2.
Proof. vm_compute. repeat split. Qed.


End ParasitismFacts.

(** ** Growth *)

Module GrowthFacts.
Import JsMath JsMathFacts EnergyWalletHelper Measures SimulationEngine Examples.

(** What the test of the growth pass compares: the whole energy of the
    cell, all kinds together, with 1.2 times the cost reduced by
    [blue / 100] in full. *)
Lemma expansionGate_spec (st : SimulationEngine.t) (cell : Cell.t) :
  expansionGate st cell = true <->
  expansionEnergyCost st
    * (1 - blue (Fungus.dna (Cell.fungus cell)) / 100 * 1) * (12 # 10)
  <= Cell.getEnergy cell.
Proof.
  unfold expansionGate.
  destruct (leb_spec
              (expansionEnergyCost st
               * (1 - blue (Fungus.dna (Cell.fungus cell)) / 100 * 1)
               * (12 # 10))
              (Cell.getEnergy cell)) as [H|H]; split; intro H';
    try assumption; try reflexivity; try discriminate; contradiction.
Qed.

(** C2.  The cell of [growerState] holds 250 units of Nutrition and its
    fungus has blue 50, so the reduced expansion cost is 240 and 1.2 times
    it is 288.  The test of the growth pass takes the cost with the full
    reduction, 200, passes at 240, and the expansion is carried out: 240
    units are debited and the new cell at (4, 5) starts with 120. *)
Theorem expansion_gate_uses_full_reduction :
  Cell.getEnergyOfType growerCell NUTRITION_UNIT == 250 /\
  reducedExpansionCost growerState growerCell == 240 /\
  Cell.getEnergyOfType growerCell NUTRITION_UNIT
    < (12 # 10) * reducedExpansionCost growerState growerCell /\
  expansionGate growerState growerCell = true /\
  exists st' parent child,
    growthStep growerState (5, 5)%Z [0] = Some (st', []) /\
    getCellAt st' 5 5 = Some parent /\
    getCellAt st' 4 5 = Some child /\
    Cell.getEnergyOfType parent NUTRITION_UNIT == 250 - 240 /\
    Cell.getEnergyOfType child NUTRITION_UNIT == 120.
Proof.
  split; [reflexivity|]. split; [reflexivity|].
  split; [vm_compute; reflexivity|]. split; [reflexivity|].
  eexists. eexists. eexists.
  split; [vm_compute; reflexivity|].
  split; [vm_compute; reflexivity|].
  split; [vm_compute; reflexivity|].
  split; vm_compute; reflexivity.
Qed.

End GrowthFacts.

(** ** Maps *)

Module JsMapFacts.

Section WithKey.

Variables K V : Type.
Variable keyEqb : K -> K -> bool.
Hypothesis keyEqb_eq : forall a b, keyEqb a b = true <-> a = b.

Lemma keyEqb_refl (k : K) : keyEqb k k = true.
Proof. now apply keyEqb_eq. Qed.

Lemma keyEqb_neq (a b : K) : a <> b -> keyEqb a b = false.
Proof.
  intro H. destruct (keyEqb a b) eqn:E; [|reflexivity].
  apply keyEqb_eq in E. contradiction.
Qed.

Lemma get_set_same (k : K) (v : V) (m : JsMap.t K V) :
  JsMap.get keyEqb k (JsMap.set keyEqb k v m) = Some v.
Proof.
  induction m as [|[k' v'] m IH]; simpl.
  - now rewrite keyEqb_refl.
  - destruct (keyEqb k k') eqn:E; simpl.
    + now rewrite keyEqb_refl.
    + now rewrite E.
Qed.

Lemma get_set_other (k k' : K) (v : V) (m : JsMap.t K V) :
  k' <> k ->
  JsMap.get keyEqb k' (JsMap.set keyEqb k v m) = JsMap.get keyEqb k' m.
Proof.
  intro Hne. induction m as [|[k0 v0] m IH]; simpl.
  - now rewrite keyEqb_neq.
  - destruct (keyEqb k k0) eqn:E; simpl.
    + apply keyEqb_eq in E. subst k0. now rewrite !keyEqb_neq.
    + now rewrite IH.
Qed.

Lemma get_delete_other (k k' : K) (m : JsMap.t K V) :
  k' <> k ->
  JsMap.get keyEqb k' (JsMap.delete keyEqb k m) = JsMap.get keyEqb k' m.
Proof.
  intro Hne. induction m as [|[k0 v0] m IH]; simpl.
  - reflexivity.
  - destruct (keyEqb k k0) eqn:E; simpl.
    + apply keyEqb_eq in E. subst k0. now rewrite keyEqb_neq.
    + now rewrite IH.
Qed.

Lemma has_set (k k' : K) (v : V) (m : JsMap.t K V) :
  JsMap.has keyEqb k' m = true ->
  JsMap.has keyEqb k' (JsMap.set keyEqb k v m) = true.
Proof.
  unfold JsMap.has. intro H.
  destruct (keyEqb k' k) eqn:E.
  - apply keyEqb_eq in E. subst k'. now rewrite get_set_same.
  - rewrite get_set_other; [assumption|].
    intro Heq. subst k'. rewrite keyEqb_refl in E. discriminate.
Qed.

End WithKey.

Lemma posEqb_eq (p q : Pos) : posEqb p q = true <-> p = q.
Proof.
  unfold posEqb. destruct p as [a b], q as [c d]; simpl.
  rewrite andb_true_iff, !Z.eqb_eq. split.
  - intros [-> ->]. reflexivity.
  - intro H. now inversion H.
Qed.

Lemma Zeqb_eq (a b : Z) : Z.eqb a b = true <-> a = b.
Proof. apply Z.eqb_eq. Qed.

End JsMapFacts.

(** ** Spores *)

Module SporeFacts.
Import JsMath JsMathFacts JsMapFacts Measures SimulationEngine Examples.

Lemma cells_updateFungusCells (st : SimulationEngine.t) (fid : Z)
    (f : list Pos -> list Pos) :
  cells (updateFungusCells st fid f) = cells st.
Proof.
  unfold updateFungusCells. now destruct (JsMap.get Z.eqb fid (fungi st)).
Qed.

Lemma nextId_updateFungusCells (st : SimulationEngine.t) (fid : Z)
    (f : list Pos -> list Pos) :
  nextId (updateFungusCells st fid f) = nextId st.
Proof.
  unfold updateFungusCells. now destruct (JsMap.get Z.eqb fid (fungi st)).
Qed.

Lemma cells_addCell (st : SimulationEngine.t) (cell : Cell.t) :
  cells (addCell st cell)
  = JsMap.set posEqb (Cell.getPositionKey cell) cell (cells st).
Proof.
  cbv beta iota zeta delta [addCell]. simpl cells.
  now rewrite cells_updateFungusCells.
Qed.

Lemma nextId_addCell (st : SimulationEngine.t) (cell : Cell.t) :
  nextId (addCell st cell) = nextId st.
Proof.
  cbv beta iota zeta delta [addCell]. simpl nextId.
  now rewrite nextId_updateFungusCells.
Qed.

Lemma cells_germinateSpore (st : SimulationEngine.t) (spore : Spore.t) :
  cells (germinateSpore st spore)
  = JsMap.set posEqb (Spore.x spore, Spore.y spore)
      (Cell.create (Spore.x spore) (Spore.y spore)
         (Fungus.mk (nextId st) (Spore.dna spore) 0) 50)
      (cells st).
Proof.
  cbv beta iota zeta delta [germinateSpore newFungus].
  now rewrite cells_addCell.
Qed.

Lemma nextId_germinateSpore (st : SimulationEngine.t) (spore : Spore.t) :
  nextId (germinateSpore st spore) = (nextId st + 1)%Z.
Proof.
  cbv beta iota zeta delta [germinateSpore newFungus].
  now rewrite nextId_addCell.
Qed.

Lemma occupied_never_germinates (st : SimulationEngine.t) (s : Spore.t) :
  JsMap.has posEqb (Spore.x s, Spore.y s) (cells st) = true ->
  germinates st s = false.
Proof.
  intro H. unfold germinates. rewrite H. simpl.
  now rewrite andb_false_r.
Qed.

Lemma sporeLoop_keeps (deltaTime : Q) (pending : list Spore.t) :
  forall (st : SimulationEngine.t) (remaining : list Spore.t),
  (forall s, In s remaining ->
     In s (snd (sporeLoop pending deltaTime st remaining))) /\
  (forall s, In s pending ->
     JsMap.has posEqb (Spore.x s, Spore.y s) (cells st) = true ->
     0 < Spore.lifetime s - deltaTime ->
     In (Spore.age deltaTime s) (snd (sporeLoop pending deltaTime st remaining))).
Proof.
  induction pending as [|p rest IH]; intros st remaining; simpl.
  - split; [tauto | intros s []].
  - destruct (germinates st (Spore.age deltaTime p)) eqn:G.
    + destruct (IH (germinateSpore st (Spore.age deltaTime p)) remaining)
        as [I1 I2].
      split; [exact I1|].
      intros s [->|Hin] Hocc Hpos.
      * rewrite occupied_never_germinates in G by exact Hocc. discriminate.
      * apply I2; try assumption.
        rewrite cells_germinateSpore.
        apply (has_set _ _ posEqb posEqb_eq). exact Hocc.
    + destruct (ltb_spec 0 (Spore.lifetime p - deltaTime)) as [L|L].
      * destruct (IH st (remaining ++ [Spore.age deltaTime p])) as [I1 I2].
        split.
        -- intros s Hs. apply I1, in_or_app. now left.
        -- intros s [->|Hin] Hocc Hpos.
           ++ apply I1, in_or_app. right. now left.
           ++ now apply I2.
      * destruct (IH st remaining) as [I1 I2].
        split; [exact I1|].
        intros s [->|Hin] Hocc Hpos.
        -- contradiction.
        -- now apply I2.
Qed.

Lemma sporeLoop_kept (deltaTime : Q) (pending : list Spore.t) :
  forall (st : SimulationEngine.t) (remaining : list Spore.t) (s' : Spore.t),
  In s' (snd (sporeLoop pending deltaTime st remaining)) ->
  In s' remaining \/
  (0 < Spore.lifetime s' /\
   exists s, In s pending /\ s' = Spore.age deltaTime s).
Proof.
  induction pending as [|p rest IH]; intros st remaining s'; simpl.
  - tauto.
  - destruct (germinates st (Spore.age deltaTime p)).
    + intro H. destruct (IH _ _ _ H) as [I|(I1 & s & I2 & I3)];
        [now left | right; split; [exact I1 | exists s; tauto]].
    + destruct (ltb_spec 0 (Spore.lifetime p - deltaTime)) as [L|L].
      * intro H. destruct (IH _ _ _ H) as [I|(I1 & s & I2 & I3)].
        -- apply in_app_or in I. destruct I as [I|[<-|[]]]; [now left|].
           right. split; [exact L | exists p; tauto].
        -- right; split; [exact I1 | exists s; tauto].
      * intro H. destruct (IH _ _ _ H) as [I|(I1 & s & I2 & I3)];
          [now left | right; split; [exact I1 | exists s; tauto]].
Qed.

(** Every spore is kept, or germinates and takes an identifier, or is
    dropped. *)
Lemma sporeLoop_count (deltaTime : Q) (pending : list Spore.t) :
  forall (st : SimulationEngine.t) (remaining : list Spore.t),
  (Z.of_nat (length (snd (sporeLoop pending deltaTime st remaining)))
   + (nextId (fst (sporeLoop pending deltaTime st remaining)) - nextId st)
   <= Z.of_nat (length remaining) + Z.of_nat (length pending))%Z.
Proof.
  induction pending as [|p rest IH]; intros st remaining; simpl length.
  - simpl. lia.
  - simpl sporeLoop. destruct (germinates st (Spore.age deltaTime p)).
    + specialize (IH (germinateSpore st (Spore.age deltaTime p)) remaining).
      rewrite nextId_germinateSpore in IH. lia.
    + destruct (ltb 0 (Spore.lifetime p - deltaTime)).
      * specialize (IH st (remaining ++ [Spore.age deltaTime p])).
        rewrite length_app in IH. simpl length in IH. lia.
      * specialize (IH st remaining). lia.
Qed.

(** What the spore step does with the spores that do not germinate: a
    spore whose target tile holds a cell is kept, its lifetime reduced by
    the time step, whenever the reduced lifetime is positive; every spore
    that is kept has a positive lifetime and is the aged copy of a spore
    of the step before; and the spores kept and the germinations together
    are no more than the spores there were, so a spore that germinates is
    not kept. *)
Theorem spores_on_occupied_tiles_wait (st : SimulationEngine.t)
    (deltaTime : Q) :
  let st' := updateSpores st deltaTime in
  (forall s, In s (spores st) ->
     JsMap.has posEqb (Spore.x s, Spore.y s) (cells st) = true ->
     0 < Spore.lifetime s - deltaTime ->
     In (Spore.age deltaTime s) (spores st')) /\
  (forall s', In s' (spores st') ->
     0 < Spore.lifetime s' /\
     exists s, In s (spores st) /\ s' = Spore.age deltaTime s) /\
  (Z.of_nat (length (spores st')) + (nextId st' - nextId st)
   <= Z.of_nat (length (spores st)))%Z.
Proof.
  intro st'. subst st'. unfold updateSpores.
  pose proof (sporeLoop_keeps deltaTime (spores st) st []) as [_ K].
  pose proof (sporeLoop_kept deltaTime (spores st) st []) as P.
  pose proof (sporeLoop_count deltaTime (spores st) st []) as C.
  destruct (sporeLoop (spores st) deltaTime st []) as [st1 remaining].
  simpl in *. repeat split.
  - exact K.
  - destruct (P s' H) as [[]|[L _]]. exact L.
  - destruct (P s' H) as [[]|[_ E]]. exact E.
  - exact C.
Qed.

Lemma spores_on_occupied_tiles_wait_witness :
  JsMap.has posEqb (5, 5)%Z (cells sporeState) = true /\
  0 < Spore.lifetime waitingSpore - 1 /\
  In (Spore.age 1 waitingSpore) (spores (updateSpores sporeState 1)).
Proof.
  split; [reflexivity|]. split; [reflexivity|].
  apply (proj1 (spores_on_occupied_tiles_wait sporeState 1) waitingSpore).
  - now left.
  - reflexivity.
  - reflexivity.
Defined.


End SporeFacts.

(** ** Generations and rehomed cells *)

Module LineageFacts.
Import JsMath JsMathFacts JsMapFacts Measures SimulationEngine SporeFacts.

Lemma fungusAt_updateFungusCells (st : SimulationEngine.t) (fid : Z)
    (f : list Pos -> list Pos) (i : Z) :
  fungusAt (updateFungusCells st fid f) i = fungusAt st i.
Proof.
  unfold fungusAt, updateFungusCells.
  destruct (JsMap.get Z.eqb fid (fungi st)) as [e|] eqn:E; [|reflexivity].
  simpl. destruct (Z.eq_dec i fid) as [->|Hne].
  - rewrite (get_set_same _ _ Z.eqb Zeqb_eq), E. reflexivity.
  - now rewrite (get_set_other _ _ Z.eqb Zeqb_eq) by assumption.
Qed.

Lemma fungusAt_addCell (st : SimulationEngine.t) (cell : Cell.t) (i : Z) :
  fungusAt (addCell st cell) i = fungusAt st i.
Proof.
  cbv beta iota zeta delta [addCell].
  unfold fungusAt at 1. simpl fungi.
  fold (fungusAt
          (updateFungusCells
             (withCells st
                (JsMap.set posEqb (Cell.getPositionKey cell) cell (cells st)))
             (Fungus.id (Cell.fungus cell))
             (keyAdd (Cell.getPositionKey cell))) i).
  now rewrite fungusAt_updateFungusCells.
Qed.

Lemma fungusAt_removeCell (st : SimulationEngine.t) (cell : Cell.t) (i : Z) :
  fungusAt (removeCell st cell) i = fungusAt st i.
Proof.
  cbv beta iota zeta delta [removeCell].
  unfold fungusAt at 1. simpl fungi.
  fold (fungusAt
          (updateFungusCells
             (withCells st
                (JsMap.delete posEqb (Cell.getPositionKey cell) (cells st)))
             (Fungus.id (Cell.fungus cell))
             (keyRemove (Cell.getPositionKey cell))) i).
  now rewrite fungusAt_updateFungusCells.
Qed.

Lemma fungusAt_registerFungus (st : SimulationEngine.t) (f : Fungus.t)
    (i : Z) :
  fungusAt (registerFungus st f) i
  = if Z.eqb i (Fungus.id f) then Some f else fungusAt st i.
Proof.
  unfold fungusAt, registerFungus. simpl.
  destruct (Z.eqb i (Fungus.id f)) eqn:E.
  - apply Z.eqb_eq in E. subst i.
    now rewrite (get_set_same _ _ Z.eqb Zeqb_eq).
  - apply Z.eqb_neq in E.
    now rewrite (get_set_other _ _ Z.eqb Zeqb_eq) by assumption.
Qed.

Lemma fungusAt_germinateSpore (st : SimulationEngine.t) (spore : Spore.t)
    (i : Z) :
  fungusAt (germinateSpore st spore) i
  = if Z.eqb i (nextId st)
    then Some (Fungus.mk (nextId st) (Spore.dna spore) 0)
    else fungusAt st i.
Proof.
  cbv beta iota zeta delta [germinateSpore newFungus].
  rewrite fungusAt_addCell, fungusAt_registerFungus. reflexivity.
Qed.

Lemma fungusAt_rehomeCell (newF : Fungus.t) (st : SimulationEngine.t)
    (oldCell : Cell.t) (i : Z) :
  fungusAt (rehomeCell newF st oldCell) i = fungusAt st i.
Proof.
  unfold rehomeCell. now rewrite fungusAt_addCell, fungusAt_removeCell.
Qed.

Lemma fungusAt_rehome_all (newF : Fungus.t) (group : list Cell.t) :
  forall (st : SimulationEngine.t) (i : Z),
  fungusAt (fold_left (rehomeCell newF) group st) i = fungusAt st i.
Proof.
  induction group as [|c rest IH]; intros st i; simpl.
  - reflexivity.
  - now rewrite IH, fungusAt_rehomeCell.
Qed.

Lemma fungusAt_sporeLoop (deltaTime : Q) (pending : list Spore.t) :
  forall (st : SimulationEngine.t) (remaining : list Spore.t) (i : Z)
         (f : Fungus.t),
  fungusAt (fst (sporeLoop pending deltaTime st remaining)) i = Some f ->
  fungusAt st i = Some f \/ Fungus.generation f = 0%Z.
Proof.
  induction pending as [|p rest IH]; intros st remaining i f; simpl.
  - now left.
  - destruct (germinates st (Spore.age deltaTime p)).
    + intro H. destruct (IH _ _ _ _ H) as [I|I]; [|now right].
      rewrite fungusAt_germinateSpore in I.
      destruct (Z.eqb i (nextId st)); [|now left].
      injection I as <-. now right.
    + destruct (ltb 0 (Spore.lifetime p - deltaTime)); apply IH.
Qed.

(** C10.  The fungus that [germinateSpore] creates has generation 0 and
    the trait vector of the spore, whatever the generation of the fungus
    that released the spore, and its first cell belongs to it; after the
    spore step every fungus of the engine is one that was there before or
    has generation 0; and the fungus that a split creates has the
    generation of the fungus it splits from. *)
Theorem germinated_fungus_generation_zero :
  (forall (st : SimulationEngine.t) (spore : Spore.t),
     let newF := Fungus.mk (nextId st) (Spore.dna spore) 0 in
     fungusAt (germinateSpore st spore) (nextId st) = Some newF /\
     exists c,
       getCellAt (germinateSpore st spore) (Spore.x spore) (Spore.y spore)
       = Some c /\ Cell.fungus c = newF) /\
  (forall (st : SimulationEngine.t) (deltaTime : Q) (i : Z) (f : Fungus.t),
     fungusAt (updateSpores st deltaTime) i = Some f ->
     fungusAt st i = Some f \/ Fungus.generation f = 0%Z) /\
  (forall (T : Q) (f : Fungus.t) (st : SimulationEngine.t)
          (group : list Cell.t),
     fungusAt (splitGroup T f st group) (nextId st)
     = Some (Fungus.mk (nextId st) (DnaOps.clone T (Fungus.dna f))
               (Fungus.generation f))).
Proof.
  split; [|split].
  - intros st spore newF. split.
    + rewrite fungusAt_germinateSpore, Z.eqb_refl. reflexivity.
    + unfold getCellAt. rewrite cells_germinateSpore.
      rewrite (get_set_same _ _ posEqb posEqb_eq).
      eexists. split; reflexivity.
  - intros st deltaTime i f. unfold updateSpores.
    pose proof (fungusAt_sporeLoop deltaTime (spores st) st [] i f) as H.
    destruct (sporeLoop (spores st) deltaTime st []) as [st1 remaining].
    exact H.
  - intros T f st group.
    cbv beta iota zeta delta [splitGroup newFungus].
    rewrite fungusAt_rehome_all, fungusAt_registerFungus.
    simpl. now rewrite Z.eqb_refl.
Qed.

End LineageFacts.

(** ** Removing a cell *)

Module RehomeFacts.
Import JsMath JsMathFacts IntegerFacts JsMapFacts EnergyWalletHelper.
Import EnergyFacts CellFacts Measures SimulationEngine SporeFacts.

Lemma cells_removeCell (st : SimulationEngine.t) (cell : Cell.t) :
  cells (removeCell st cell)
  = JsMap.delete posEqb (Cell.getPositionKey cell) (cells st).
Proof.
  cbv beta iota zeta delta [removeCell]. simpl cells.
  now rewrite cells_updateFungusCells.
Qed.

Lemma max_cases (x y : Q) :
  (y <= x /\ max x y = x) \/ (x < y /\ max x y = y).
Proof.
  unfold max, Qmax, GenericMinMax.gmax.
  destruct (Qcompare_spec x y) as [H|H|H].
  - left. split; [lra | reflexivity].
  - right. split; [lra | reflexivity].
  - left. split; [lra | reflexivity].
Qed.

End RehomeFacts.

(** ** More on maps *)

Module JsMapMore.
Import JsMapFacts.

Section WithKey.

Variables K V : Type.
Variable keyEqb : K -> K -> bool.
Hypothesis keyEqb_eq : forall a b, keyEqb a b = true <-> a = b.

Let refl := keyEqb_refl K keyEqb keyEqb_eq.
Let neq := keyEqb_neq K keyEqb keyEqb_eq.

Lemma get_In (k : K) (v : V) (m : JsMap.t K V) :
  JsMap.get keyEqb k m = Some v -> In (k, v) m.
Proof.
  induction m as [|[k' v'] m IH]; simpl; [discriminate|].
  destruct (keyEqb k k') eqn:E.
  - apply keyEqb_eq in E. subst k'. intros [= ->]. now left.
  - intro H. right. now apply IH.
Qed.

Lemma In_get (k : K) (v : V) (m : JsMap.t K V) :
  NoDup (JsMap.keys m) -> In (k, v) m -> JsMap.get keyEqb k m = Some v.
Proof.
  induction m as [|[k' v'] m IH]; simpl; [tauto|].
  intros Hnd [H|H].
  - injection H as -> ->. now rewrite refl.
  - inversion Hnd as [|? ? Hnotin Hnd']; subst.
    destruct (keyEqb k k') eqn:E.
    + apply keyEqb_eq in E. subst k'. exfalso. apply Hnotin.
      apply (in_map fst) in H. exact H.
    + now apply IH.
Qed.

Lemma get_None_keys (k : K) (m : JsMap.t K V) :
  JsMap.get keyEqb k m = None <-> ~ In k (JsMap.keys m).
Proof.
  induction m as [|[k' v'] m IH]; simpl.
  - tauto.
  - destruct (keyEqb k k') eqn:E.
    + apply keyEqb_eq in E. subst k'. split; [discriminate | tauto].
    + rewrite IH. split.
      * intros H [H'|H']; [|tauto]. subst k'. rewrite refl in E. discriminate.
      * tauto.
Qed.

Lemma get_Some_keys (k : K) (m : JsMap.t K V) :
  (exists v, JsMap.get keyEqb k m = Some v) <-> In k (JsMap.keys m).
Proof.
  split.
  - intros [v H]. apply get_In in H. apply (in_map fst) in H. exact H.
  - intro H. destruct (JsMap.get keyEqb k m) as [v|] eqn:E.
    + now exists v.
    + apply get_None_keys in E. contradiction.
Qed.

Lemma keys_set_in (k : K) (v : V) (m : JsMap.t K V) (k' : K) :
  In k' (JsMap.keys (JsMap.set keyEqb k v m)) <->
  k' = k \/ In k' (JsMap.keys m).
Proof.
  induction m as [|[k0 v0] m IH]; simpl.
  - intuition.
  - destruct (keyEqb k k0) eqn:E; simpl.
    + apply keyEqb_eq in E. subst k0. intuition.
    + rewrite IH. intuition.
Qed.

Lemma keys_delete_in (k : K) (m : JsMap.t K V) (k' : K) :
  NoDup (JsMap.keys m) ->
  (In k' (JsMap.keys (JsMap.delete keyEqb k m)) <->
   k' <> k /\ In k' (JsMap.keys m)).
Proof.
  induction m as [|[k0 v0] m IH]; simpl; intro Hnd.
  - tauto.
  - inversion Hnd as [|? ? Hnotin Hnd']; subst.
    destruct (keyEqb k k0) eqn:E; simpl.
    + apply keyEqb_eq in E. subst k0. split.
      * intro H. split; [|tauto]. intros ->. contradiction.
      * intros [H1 [H2|H2]]; [congruence | exact H2].
    + rewrite (IH Hnd'). split.
      * intros [->|[H1 H2]]; [|tauto].
        split; [|tauto]. intros ->. rewrite refl in E. discriminate.
      * intros [H1 [H2|H2]]; [now left | right; tauto].
Qed.

Lemma NoDup_keys_set (k : K) (v : V) (m : JsMap.t K V) :
  NoDup (JsMap.keys m) -> NoDup (JsMap.keys (JsMap.set keyEqb k v m)).
Proof.
  induction m as [|[k0 v0] m IH]; simpl; intro Hnd.
  - constructor; [tauto | constructor].
  - inversion Hnd as [|? ? Hnotin Hnd']; subst.
    destruct (keyEqb k k0) eqn:E; simpl.
    + apply keyEqb_eq in E. subst k0. now constructor.
    + constructor; [|now apply IH].
      intro H. apply keys_set_in in H. destruct H as [->|H]; [|tauto].
      rewrite refl in E. discriminate.
Qed.

Lemma NoDup_keys_delete (k : K) (m : JsMap.t K V) :
  NoDup (JsMap.keys m) -> NoDup (JsMap.keys (JsMap.delete keyEqb k m)).
Proof.
  induction m as [|[k0 v0] m IH]; simpl; intro Hnd.
  - constructor.
  - inversion Hnd as [|? ? Hnotin Hnd']; subst.
    destruct (keyEqb k k0) eqn:E; simpl; [assumption|].
    constructor; [|now apply IH].
    intro H. apply keys_delete_in in H; tauto.
Qed.

Lemma get_delete_same (k : K) (m : JsMap.t K V) :
  NoDup (JsMap.keys m) -> JsMap.get keyEqb k (JsMap.delete keyEqb k m) = None.
Proof.
  intro Hnd. apply get_None_keys. intro H.
  apply keys_delete_in in H; tauto.
Qed.

(** A key that is new goes to the end of the map. *)
Lemma set_new_key (k : K) (v : V) (m : JsMap.t K V) :
  ~ In k (JsMap.keys m) -> JsMap.set keyEqb k v m = m ++ [(k, v)].
Proof.
  induction m as [|[k0 v0] m IH]; simpl; intro H; [reflexivity|].
  destruct (keyEqb k k0) eqn:E.
  - apply keyEqb_eq in E. subst k0. tauto.
  - rewrite IH by tauto. reflexivity.
Qed.

(** A key that is there keeps its place. *)
Lemma keys_set_old (k : K) (v : V) (m : JsMap.t K V) :
  In k (JsMap.keys m) ->
  JsMap.keys (JsMap.set keyEqb k v m) = JsMap.keys m.
Proof.
  induction m as [|[k0 v0] m IH]; simpl; intro H; [tauto|].
  destruct (keyEqb k k0) eqn:E; simpl.
  - apply keyEqb_eq in E. now subst k0.
  - f_equal. apply IH. destruct H as [->|H]; [|exact H].
    rewrite refl in E. discriminate.
Qed.

End WithKey.

End JsMapMore.

(** ** Neighbours *)

Module NeighborFacts.
Import JsMapFacts JsMapMore Measures SimulationEngine Connectivity.

Lemma wellFormed_storedAlive (st : SimulationEngine.t) :
  wellFormed st -> storedAlive st.
Proof.
  intros Hwf k c H. apply (get_In _ _ posEqb posEqb_eq) in H.
  destruct (wf_cells st Hwf k c H) as (H1 & H2 & _). now split.
Qed.

Lemma adjacent_iff (p q : Pos) :
  adjacent p q = true <->
  exists d, In d adjacentOffsets /\ q = (fst p + fst d, snd p + snd d)%Z.
Proof.
  unfold adjacent. rewrite existsb_exists. split.
  - intros [d [Hd E]]. apply posEqb_eq in E. now exists d.
  - intros [d [Hd E]]. exists d. split; [exact Hd|]. now apply posEqb_eq.
Qed.

Lemma adjacent_sym (p q : Pos) : adjacent p q = true -> adjacent q p = true.
Proof.
  rewrite !adjacent_iff. intros [d [Hd E]]. subst q.
  exists (- fst d, - snd d)%Z. split.
  - simpl in Hd.
    repeat (destruct Hd as [<-|Hd]; [simpl; tauto|]). destruct Hd.
  - destruct p as [a b]. simpl. f_equal; lia.
Qed.

Lemma getAdjacentCells_In (st : SimulationEngine.t) (c n : Cell.t) :
  In n (getAdjacentCells st c) <->
  exists d, In d adjacentOffsets /\
    getCellAt st (Cell.x c + fst d) (Cell.y c + snd d) = Some n /\
    Cell.alive n = true.
Proof.
  unfold getAdjacentCells. rewrite in_flat_map. split.
  - intros [d [Hd H]]. exists d. split; [exact Hd|].
    destruct (getCellAt st _ _) as [m|]; [|destruct H].
    unfold Cell.isAlive in H. destruct (Cell.alive m) eqn:A; [|destruct H].
    destruct H as [<-|[]]. now split.
  - intros [d [Hd [H A]]]. exists d. split; [exact Hd|].
    rewrite H. unfold Cell.isAlive. rewrite A. now left.
Qed.

Section Neighbors.

Variable st : SimulationEngine.t.
Hypothesis Hstored : storedAlive st.
Variable g : Z.

Lemma neighborsIn_sound (c n : Cell.t) :
  In n (neighborsIn st g c) ->
  JsMap.get posEqb (posOf n) (cells st) = Some n /\
  cid n = g /\ adjacent (posOf c) (posOf n) = true.
Proof.
  unfold neighborsIn. rewrite filter_In, getAdjacentCells_In.
  intros [[d [Hd [H A]]] E]. apply Z.eqb_eq in E.
  unfold getCellAt in H. destruct (Hstored _ _ H) as [P _].
  rewrite P. split; [exact H|]. split; [exact E|].
  apply adjacent_iff. exists d. split; [exact Hd|]. reflexivity.
Qed.

Lemma neighborsIn_complete (c n : Cell.t) (q : Pos) :
  adjacent (posOf c) q = true ->
  JsMap.get posEqb q (cells st) = Some n ->
  cid n = g ->
  In n (neighborsIn st g c).
Proof.
  intros Ha H E. unfold neighborsIn. rewrite filter_In, getAdjacentCells_In.
  split; [|now apply Z.eqb_eq].
  apply adjacent_iff in Ha. destruct Ha as [d [Hd ->]].
  exists d. split; [exact Hd|]. split; [exact H|].
  now destruct (Hstored _ _ H).
Qed.

Lemma NoDup_map_filter {A B : Type} (h : A -> B) (f : A -> bool)
    (l : list A) :
  NoDup (map h l) -> NoDup (map h (filter f l)).
Proof.
  induction l as [|a l IH]; simpl; intro Hnd; [constructor|].
  inversion Hnd as [|? ? Hnotin Hnd']; subst.
  destruct (f a); simpl; [|now apply IH].
  constructor; [|now apply IH].
  intro H. apply Hnotin. apply in_map_iff in H.
  destruct H as [b [E Hb]]. apply filter_In in Hb.
  rewrite <- E. apply in_map. tauto.
Qed.

Lemma adjacentOffsets_NoDup : NoDup adjacentOffsets.
Proof.
  unfold adjacentOffsets.
  repeat (constructor; [simpl; intuition congruence|]). constructor.
Qed.

Lemma NoDup_adjacent_positions (c : Cell.t) (offs : list (Z * Z)) :
  NoDup offs ->
  NoDup (map posOf
           (flat_map
              (fun d =>
                 match getCellAt st (Cell.x c + fst d) (Cell.y c + snd d) with
                 | Some neighbor =>
                     if Cell.isAlive neighbor then [neighbor] else []
                 | None => []
                 end)
              offs)).
Proof.
  induction offs as [|d offs IH]; simpl; intro Hnd; [constructor|].
  inversion Hnd as [|? ? Hnotin Hnd']; subst.
  rewrite map_app. apply NoDup_app.
  - destruct (getCellAt st _ _) as [m|]; [|constructor].
    destruct (Cell.isAlive m); simpl; [|constructor].
    constructor; [tauto | constructor].
  - now apply IH.
  - intros p H1 H2.
    destruct (getCellAt st (Cell.x c + fst d) (Cell.y c + snd d))
      as [m|] eqn:E; [|destruct H1].
    destruct (Cell.isAlive m); [|destruct H1].
    destruct H1 as [<-|[]].
    destruct (Hstored _ _ E) as [P _].
    apply in_map_iff in H2. destruct H2 as [n [En Hn]].
    apply in_flat_map in Hn. destruct Hn as [d' [Hd' Hn]].
    destruct (getCellAt st (Cell.x c + fst d') (Cell.y c + snd d'))
      as [m'|] eqn:E'; [|destruct Hn].
    destruct (Cell.isAlive m'); [|destruct Hn].
    destruct Hn as [<-|[]].
    destruct (Hstored _ _ E') as [P' _].
    rewrite P, P' in En. injection En as E1 E2.
    apply Hnotin. destruct d as [a b], d' as [a' b']; simpl in *.
    assert (a' = a) by lia. assert (b' = b) by lia. now subst.
Qed.

Lemma neighborsIn_NoDup (c : Cell.t) : NoDup (map posOf (neighborsIn st g c)).
Proof.
  unfold neighborsIn. apply NoDup_map_filter.
  unfold getAdjacentCells. apply NoDup_adjacent_positions.
  apply adjacentOffsets_NoDup.
Qed.

End Neighbors.

End NeighborFacts.

(** ** The flood fill *)

Module FloodFacts.
Import JsMapFacts JsMapMore Measures SimulationEngine Connectivity.
Import NeighborFacts.

Lemma visitedHas_iff (key : Pos) (visited : list Pos) :
  visitedHas key visited = true <-> In key visited.
Proof.
  unfold visitedHas. rewrite existsb_exists. split.
  - intros [k [Hk E]]. apply posEqb_eq in E. now subst.
  - intro H. exists key. split; [exact H | now apply posEqb_eq].
Qed.

Lemma visitNeighbors_spec (neighbors : list Cell.t) :
  forall (visited : list Pos) (queue : list Cell.t),
  NoDup (map posOf neighbors) ->
  exists fresh,
    visitNeighbors neighbors visited queue
    = (visited ++ map posOf fresh, queue ++ fresh) /\
    (forall n, In n fresh <->
               In n neighbors /\ ~ In (posOf n) visited) /\
    NoDup (map posOf fresh).
Proof.
  induction neighbors as [|n rest IH]; intros visited queue Hnd; simpl.
  - exists []. rewrite !app_nil_r. split; [reflexivity|].
    split; [simpl; tauto | constructor].
  - inversion Hnd as [|? ? Hnotin Hnd']; subst.
    fold (posOf n).
    destruct (visitedHas (posOf n) visited) eqn:E.
    + apply visitedHas_iff in E.
      destruct (IH visited queue Hnd') as (fresh & E1 & E2 & E3).
      exists fresh. split; [exact E1|]. split; [|exact E3].
      intro m. rewrite E2. split; [tauto|].
      intros [[<-|H] H']; [contradiction | tauto].
    + assert (E' : ~ In (posOf n) visited).
      { intro H. apply visitedHas_iff in H. congruence. }
      destruct (IH (visited ++ [posOf n]) (queue ++ [n]) Hnd')
        as (fresh & E1 & E2 & E3).
      exists (n :: fresh). split; [|split].
      * rewrite E1. simpl. now rewrite <- !app_assoc.
      * intro m. simpl. rewrite E2, in_app_iff. simpl. split.
        -- intros [<-|[H1 H2]]; [tauto|]. tauto.
        -- intros [[<-|H1] H2]; [now left|]. right. split; [exact H1|].
           intros [H|[H|[]]]; [contradiction|].
           apply Hnotin. rewrite H. now apply in_map.
      * simpl. constructor; [|exact E3].
        intro H. apply in_map_iff in H. destruct H as [m [Em Hm]].
        apply E2 in Hm. destruct Hm as [_ Hm]. apply Hm.
        rewrite Em. apply in_or_app. right. now left.
Qed.

Lemma Pos_eq_dec (a b : Pos) : {a = b} + {a <> b}.
Proof. decide equality; apply Z.eq_dec. Qed.

Lemma ownerAt_iff (st : SimulationEngine.t) (p : Pos) (g : Z) :
  ownerAt st p = Some g <->
  exists c, JsMap.get posEqb p (cells st) = Some c /\ cid c = g.
Proof.
  unfold ownerAt. destruct (JsMap.get posEqb p (cells st)) as [c|]; simpl.
  - split.
    + intros [= <-]. now exists c.
    + intros [c' [[= <-] <-]]. reflexivity.
  - split; [discriminate | intros [c' [H _]]; discriminate].
Qed.

Lemma connected_owner (st : SimulationEngine.t) (g : Z) (p q : Pos) :
  connected st g p q -> ownerAt st p = Some g /\ ownerAt st q = Some g.
Proof. induction 1; tauto. Qed.

Lemma connected_trans (st : SimulationEngine.t) (g : Z) (p q r : Pos) :
  connected st g p q -> connected st g q r -> connected st g p r.
Proof.
  intros Hpq Hqr. induction Hqr as [_|r' r'' _ IH Hr Ha].
  - exact Hpq.
  - now apply (connected_step st g p r' r'').
Qed.

Lemma connected_sym (st : SimulationEngine.t) (g : Z) (p q : Pos) :
  connected st g p q -> connected st g q p.
Proof.
  intro H. induction H as [Hp|q r Hpq IH Hr Ha].
  - now constructor.
  - apply (connected_trans st g r q p); [|exact IH].
    apply (connected_step st g r r q).
    + now constructor.
    + now destruct (connected_owner _ _ _ _ Hpq).
    + now apply adjacent_sym.
Qed.

(** A set of positions that is closed under adjacency within the fungus
    contains whatever is connected to one of its members. *)
Lemma closed_connected (st : SimulationEngine.t) (g : Z) (V : list Pos) :
  (forall p q, In p V -> ownerAt st q = Some g -> adjacent p q = true ->
               In q V) ->
  forall p q, In p V -> connected st g p q -> In q V.
Proof.
  intros Hclosed p q Hp Hc. induction Hc as [_|q r _ IH Hr Ha].
  - exact Hp.
  - now apply (Hclosed q r).
Qed.

Section Flood.

Variable st : SimulationEngine.t.
Hypothesis Hstored : storedAlive st.
Variable g : Z.
Variable s0 : Pos.
Variable V0 : list Pos.
Hypothesis V0_closed :
  forall p q, In p V0 -> ownerAt st q = Some g -> adjacent p q = true ->
              In q V0.

Lemma positions_bounded (l : list Cell.t) :
  NoDup (map posOf l) ->
  (forall c, In c l -> JsMap.get posEqb (posOf c) (cells st) = Some c) ->
  (length l <= length (cells st))%nat.
Proof.
  intros Hnd Hin.
  rewrite <- (length_map posOf l).
  rewrite <- (length_map fst (cells st)).
  apply NoDup_incl_length; [exact Hnd|].
  intros p Hp. apply in_map_iff in Hp. destruct Hp as [c [<- Hc]].
  apply (get_Some_keys _ _ posEqb posEqb_eq). exists c. now apply Hin.
Qed.

Let floodInv (queue : list Cell.t) (visited : list Pos)
    (group : list Cell.t) : Prop :=
  NoDup (map posOf (group ++ queue)) /\
  (forall c, In c (group ++ queue) ->
     JsMap.get posEqb (posOf c) (cells st) = Some c /\ cid c = g /\
     connected st g s0 (posOf c) /\ ~ In (posOf c) V0) /\
  (forall p, In p visited <->
             In p V0 \/ In p (map posOf (group ++ queue))) /\
  (forall c n, In c group -> In n (neighborsIn st g c) ->
               In (posOf n) visited) /\
  In s0 (map posOf (group ++ queue)).

Let floodPost (group : list Cell.t) (visited : list Pos) : Prop :=
  NoDup (map posOf group) /\
  (forall c, In c group ->
     JsMap.get posEqb (posOf c) (cells st) = Some c /\ cid c = g) /\
  (forall p, In p (map posOf group) <-> connected st g s0 p) /\
  (forall p, In p visited <-> In p V0 \/ connected st g s0 p).

Lemma floodInv_done (visited : list Pos) (group : list Cell.t) :
  floodInv [] visited group -> floodPost group visited.
Proof.
  unfold floodInv, floodPost. rewrite !app_nil_r.
  intros (I1 & I2 & I3 & I4 & I5).
  assert (Hsub : forall p, connected st g s0 p -> In p (map posOf group)).
  { intros p Hc. induction Hc as [Hp|q r Hpq IH Hr Ha].
    - exact I5.
    - apply in_map_iff in IH. destruct IH as [c [Ec Hc]].
      apply ownerAt_iff in Hr. destruct Hr as [n [Hn En]].
      destruct (Hstored _ _ Hn) as [Pn _].
      assert (Hnb : In n (neighborsIn st g c)).
      { apply (neighborsIn_complete st Hstored g c n r);
          [now rewrite Ec | exact Hn | exact En]. }
      pose proof (I4 c n Hc Hnb) as Hv. rewrite Pn in Hv.
      apply I3 in Hv. destruct Hv as [Hv|Hv]; [|exact Hv].
      exfalso. destruct (I2 c Hc) as (_ & _ & Hcon & Hnot).
      apply Hnot. rewrite Ec.
      apply (V0_closed r q Hv).
      + now destruct (connected_owner _ _ _ _ Hpq).
      + now apply adjacent_sym. }
  split; [exact I1|]. split; [|split].
  - intros c Hc. destruct (I2 c Hc) as (J1 & J2 & _). now split.
  - intro p. split; [|apply Hsub].
    intro Hp. apply in_map_iff in Hp. destruct Hp as [c [<- Hc]].
    now destruct (I2 c Hc) as (_ & _ & J3 & _).
  - intro p. rewrite I3. split.
    + intros [H|H]; [now left|]. right.
      apply in_map_iff in H. destruct H as [c [<- Hc]].
      now destruct (I2 c Hc) as (_ & _ & J3 & _).
    + intros [H|H]; [now left | right; now apply Hsub].
Qed.

Lemma floodInv_step (cell : Cell.t) (rest : list Cell.t)
    (visited : list Pos) (group fresh : list Cell.t) :
  floodInv (cell :: rest) visited group ->
  (forall n, In n fresh <->
             In n (neighborsIn st g cell) /\ ~ In (posOf n) visited) ->
  NoDup (map posOf fresh) ->
  floodInv (rest ++ fresh) (visited ++ map posOf fresh) (group ++ [cell]).
Proof.
  unfold floodInv. intros (I1 & I2 & I3 & I4 & I5) Hfresh Hnd.
  assert (Eq : (group ++ [cell]) ++ rest ++ fresh
               = (group ++ cell :: rest) ++ fresh).
  { rewrite <- !app_assoc. reflexivity. }
  rewrite Eq. clear Eq.
  assert (Hcell : In cell (group ++ cell :: rest))
    by (apply in_or_app; right; now left).
  destruct (I2 cell Hcell) as (C1 & C2 & C3 & C4).
  split; [|split; [|split; [|split]]].
  - rewrite map_app. apply NoDup_app; [exact I1 | exact Hnd|].
    intros p Hp Hp'. apply in_map_iff in Hp'. destruct Hp' as [n [<- Hn]].
    apply Hfresh in Hn. destruct Hn as [_ Hn]. apply Hn.
    apply I3. now right.
  - intros c Hc. apply in_app_or in Hc. destruct Hc as [Hc|Hc];
      [now apply I2|].
    apply Hfresh in Hc. destruct Hc as [Hc Hv].
    destruct (neighborsIn_sound st Hstored g cell c Hc) as (N1 & N2 & N3).
    split; [exact N1|]. split; [exact N2|]. split.
    + apply (connected_step st g s0 (posOf cell) (posOf c) C3);
        [|exact N3].
      apply ownerAt_iff. now exists c.
    + intro H. apply Hv. apply I3. now left.
  - intro p. pose proof (I3 p) as I3p.
    rewrite (map_app posOf (group ++ cell :: rest) fresh).
    rewrite !in_app_iff in *. tauto.
  - intros c n Hc Hn. apply in_or_app.
    apply in_app_or in Hc. destruct Hc as [Hc|[<-|[]]].
    + left. now apply (I4 c n).
    + destruct (in_dec Pos_eq_dec (posOf n) visited) as [Hv|Hv].
      * now left.
      * right. apply in_map. apply Hfresh. now split.
  - rewrite map_app. apply in_or_app. now left.
Qed.

Lemma floodFill_spec (fuel : nat) :
  forall (queue : list Cell.t) (visited : list Pos) (group : list Cell.t),
  floodInv queue visited group ->
  (length (cells st) <= fuel + length group)%nat ->
  exists G W,
    floodFill fuel st g queue visited group = Some (G, W) /\
    floodPost G W.
Proof.
  induction fuel as [|fuel IH]; intros queue visited group Hinv Hfuel.
  - destruct queue as [|cell rest].
    + exists group, visited. split; [reflexivity|].
      now apply floodInv_done.
    + exfalso. destruct Hinv as (I1 & I2 & _).
      pose proof (positions_bounded (group ++ cell :: rest) I1
                    (fun c Hc => proj1 (I2 c Hc))) as Hb.
      rewrite length_app in Hb. simpl in Hb, Hfuel. lia.
  - destruct queue as [|cell rest].
    + exists group, visited. split; [reflexivity|].
      now apply floodInv_done.
    + simpl floodFill. fold (neighborsIn st g cell).
      destruct (visitNeighbors_spec (neighborsIn st g cell) visited rest
                  (neighborsIn_NoDup st Hstored g cell))
        as (fresh & E & Hfresh & Hnd).
      rewrite E.
      apply IH.
      * now apply floodInv_step.
      * rewrite length_app. simpl. lia.
Qed.

End Flood.

Section Groups.

Variable st : SimulationEngine.t.
Hypothesis Hstored : storedAlive st.
Variable g : Z.

Let closed (V : list Pos) : Prop :=
  forall p q, In p V -> ownerAt st q = Some g -> adjacent p q = true ->
              In q V.

Let component (G : list Cell.t) : Prop :=
  G <> [] /\
  forall p q, In p (map posOf G) ->
              (In q (map posOf G) <-> connected st g p q).

Let groupsInv (V : list Pos) (Gs : list (list Cell.t)) : Prop :=
  closed V /\
  (forall p, In p V <-> In p (map posOf (concat Gs))) /\
  NoDup (map posOf (concat Gs)) /\
  (forall c, In c (concat Gs) ->
     JsMap.get posEqb (posOf c) (cells st) = Some c /\ cid c = g) /\
  (forall G, In G Gs -> component G).

Lemma groupsInv_grow (V : list Pos) (Gs : list (list Cell.t))
    (s : Cell.t) (G : list Cell.t) (W : list Pos) :
  groupsInv V Gs ->
  JsMap.get posEqb (posOf s) (cells st) = Some s -> cid s = g ->
  ~ In (posOf s) V ->
  NoDup (map posOf G) ->
  (forall c, In c G ->
     JsMap.get posEqb (posOf c) (cells st) = Some c /\ cid c = g) ->
  (forall p, In p (map posOf G) <-> connected st g (posOf s) p) ->
  (forall p, In p W <-> In p V \/ connected st g (posOf s) p) ->
  groupsInv W (Gs ++ [G]).
Proof.
  unfold groupsInv, closed, component.
  intros (Hcl & HV & Hnd & Hst & Hcomp) Hs Es Hnot HndG HstG HG HW.
  assert (Hown : ownerAt st (posOf s) = Some g)
    by (apply ownerAt_iff; now exists s).
  assert (Hconcat : concat (Gs ++ [G]) = concat Gs ++ G).
  { rewrite concat_app. simpl. now rewrite app_nil_r. }
  rewrite Hconcat, map_app.
  assert (Hdisj : forall p, In p (map posOf G) -> ~ In p V).
  { intros p Hp Hv. apply Hnot.
    apply (closed_connected st g V Hcl p (posOf s) Hv).
    apply connected_sym. now apply HG. }
  split; [|split; [|split; [|split]]].
  - intros p q Hp Hq Ha. apply HW. apply HW in Hp. destruct Hp as [Hp|Hp].
    + left. now apply (Hcl p q).
    + right. now apply (connected_step st g (posOf s) p q).
  - intro p. rewrite HW, in_app_iff, <- HV, <- HG. tauto.
  - apply NoDup_app; [exact Hnd | exact HndG|].
    intros p Hp Hp'. apply (Hdisj p Hp'). now apply HV.
  - intros c Hc. apply in_app_or in Hc. destruct Hc as [Hc|Hc];
      [now apply Hst | now apply HstG].
  - intros G' HG'. apply in_app_or in HG'. destruct HG' as [HG'|[<-|[]]].
    + now apply Hcomp.
    + split.
      * intro E. subst G.
        assert (In (posOf s) (map posOf [])) by (apply HG; now constructor).
        contradiction.
      * intros p q Hp. apply HG in Hp. rewrite HG. split.
        -- intro Hq. apply (connected_trans st g p (posOf s) q);
             [now apply connected_sym | exact Hq].
        -- intro Hq. now apply (connected_trans st g (posOf s) p q).
Qed.

Lemma findGroups_spec (fungusCells : list Cell.t) :
  forall (V : list Pos) (Gs : list (list Cell.t)),
  (forall c, In c fungusCells ->
     JsMap.get posEqb (posOf c) (cells st) = Some c /\ cid c = g) ->
  groupsInv V Gs ->
  exists Gs' V',
    findGroups (length (cells st)) st g fungusCells V Gs = Some Gs' /\
    groupsInv V' Gs' /\
    (forall p, In p V -> In p V') /\
    (forall c, In c fungusCells -> In (posOf c) V').
Proof.
  induction fungusCells as [|s rest IH]; intros V Gs Hcells Hinv.
  - exists Gs, V. simpl. split; [reflexivity|]. split; [exact Hinv|].
    split; [tauto | intros c []].
  - simpl findGroups. fold (posOf s).
    assert (Hrest : forall c, In c rest ->
              JsMap.get posEqb (posOf c) (cells st) = Some c /\ cid c = g)
      by (intros c Hc; apply Hcells; now right).
    destruct (Hcells s (or_introl eq_refl)) as [Hs Es].
    destruct (visitedHas (posOf s) V) eqn:E.
    + apply visitedHas_iff in E.
      destruct (IH V Gs Hrest Hinv) as (Gs' & V' & E1 & E2 & E3 & E4).
      exists Gs', V'. split; [exact E1|]. split; [exact E2|].
      split; [exact E3|].
      intros c [<-|Hc]; [now apply E3 | now apply E4].
    + assert (Hnot : ~ In (posOf s) V).
      { intro H. apply visitedHas_iff in H. congruence. }
      assert (Hown : ownerAt st (posOf s) = Some g)
        by (apply ownerAt_iff; now exists s).
      destruct Hinv as (Hcl & HV & Hnd & Hst & Hcomp).
      destruct (floodFill_spec st Hstored g (posOf s) V Hcl
                  (length (cells st)) [s] (V ++ [posOf s]) [])
        as (G & W & EF & P1 & P2 & P3 & P4).
      * simpl. split; [|split; [|split; [|split]]].
        -- constructor; [tauto | constructor].
        -- intros c [<-|[]]. split; [exact Hs|]. split; [exact Es|].
           split; [now constructor | exact Hnot].
        -- intro p. rewrite in_app_iff. simpl. tauto.
        -- intros c n [].
        -- now left.
      * simpl. lia.
      * rewrite EF.
        assert (Hinv' : groupsInv W (Gs ++ [G])).
        { apply (groupsInv_grow V Gs s G W); try assumption.
          unfold groupsInv. tauto. }
        destruct (IH W (Gs ++ [G]) Hrest Hinv')
          as (Gs' & V' & E1 & E2 & E3 & E4).
        exists Gs', V'. split; [exact E1|]. split; [exact E2|]. split.
        -- intros p Hp. apply E3, P4. now left.
        -- intros c [<-|Hc]; [|now apply E4].
           apply E3, P4. right. now constructor.
Qed.

End Groups.

End FloodFacts.

(** ** Sorting the groups *)

Module SortFacts.
Import SimulationEngine.

Lemma insertGroup_perm (g : list Cell.t) (l : list (list Cell.t)) :
  Permutation (insertGroup g l) (g :: l).
Proof.
  induction l as [|h l IH]; simpl.
  - reflexivity.
  - destruct (length h <? length g)%nat.
    + reflexivity.
    + rewrite IH. apply perm_swap.
Qed.

Lemma sortGroups_perm (l : list (list Cell.t)) :
  Permutation (sortGroups l) l.
Proof.
  unfold sortGroups.
  assert (H : forall acc, Permutation
            (fold_left (fun sorted g => insertGroup g sorted) l acc)
            (l ++ acc)).
  { induction l as [|a l IH]; intro acc; simpl.
    - reflexivity.
    - rewrite IH, insertGroup_perm. symmetry. apply Permutation_middle. }
  rewrite H. now rewrite app_nil_r.
Qed.

Lemma insertGroup_sorted (g : list Cell.t) (l : list (list Cell.t)) :
  StronglySorted (fun a b => (length b <= length a)%nat) l ->
  StronglySorted (fun a b => (length b <= length a)%nat) (insertGroup g l).
Proof.
  induction l as [|h l IH]; simpl; intro Hs.
  - constructor; constructor.
  - inversion Hs as [|? ? Hs' Hall]; subst.
    destruct (Nat.ltb_spec (length h) (length g)) as [Hlt|Hge].
    + constructor; [exact Hs|].
      constructor; [lia|].
      rewrite Forall_forall in *. intros x Hx. specialize (Hall x Hx). lia.
    + constructor; [now apply IH|].
      rewrite Forall_forall in *. intros x Hx.
      apply (Permutation_in _ (insertGroup_perm g l)) in Hx.
      destruct Hx as [<-|Hx]; [exact Hge | now apply Hall].
Qed.

Lemma sortGroups_sorted (l : list (list Cell.t)) :
  StronglySorted (fun a b => (length b <= length a)%nat) (sortGroups l).
Proof.
  unfold sortGroups.
  assert (H : forall acc,
            StronglySorted (fun a b => (length b <= length a)%nat) acc ->
            StronglySorted (fun a b => (length b <= length a)%nat)
              (fold_left (fun sorted g => insertGroup g sorted) l acc)).
  { induction l as [|a l IH]; intros acc Hacc; simpl.
    - exact Hacc.
    - apply IH. now apply insertGroup_sorted. }
  apply H. constructor.
Qed.

(** After the sort the first group is a longest one. *)
Lemma sortGroups_head (l : list (list Cell.t)) (first : list Cell.t)
    (others : list (list Cell.t)) :
  sortGroups l = first :: others ->
  forall G, In G others -> (length G <= length first)%nat.
Proof.
  intros E G HG. pose proof (sortGroups_sorted l) as Hs. rewrite E in Hs.
  inversion Hs as [|? ? _ Hall]; subst.
  rewrite Forall_forall in Hall. now apply Hall.
Qed.

End SortFacts.

(** ** Recreated cells *)

Module RecreateFacts.
Import JsMath JsMathFacts IntegerFacts JsMapFacts JsMapMore.
Import EnergyWalletHelper EnergyFacts CellFacts Measures.
Import SimulationEngine SporeFacts LineageFacts RehomeFacts Connectivity.

Lemma recreate_pos (newF : Fungus.t) (c : Cell.t) :
  posOf (recreate newF c) = posOf c.
Proof. unfold recreate. now destruct (Cell.hasMushroom c). Qed.

Lemma recreate_fungus (newF : Fungus.t) (c : Cell.t) :
  Cell.fungus (recreate newF c) = newF.
Proof. unfold recreate. now destruct (Cell.hasMushroom c). Qed.

Lemma recreate_alive (newF : Fungus.t) (c : Cell.t) :
  Cell.alive (recreate newF c) = true.
Proof. unfold recreate. now destruct (Cell.hasMushroom c). Qed.

Lemma recreate_capacity (newF : Fungus.t) (c : Cell.t) :
  Cell.maxEnergyCapacity (recreate newF c) = Cell.updateMaxEnergy newF.
Proof. unfold recreate. now destruct (Cell.hasMushroom c). Qed.

Lemma recreate_wallet (newF : Fungus.t) (c : Cell.t) :
  Cell.energyWallet (recreate newF c)
  = mkWallet 0 0
      (max 0 (floor (min (floor (Cell.getEnergy c))
                         (Cell.updateMaxEnergy newF)))).
Proof. unfold recreate. now destruct (Cell.hasMushroom c). Qed.

Lemma recreate_mushroom (newF : Fungus.t) (c : Cell.t) :
  Cell.hasMushroom (recreate newF c) = Cell.hasMushroom c /\
  (Cell.hasMushroom c = true ->
   Cell.mushroomGrowth (recreate newF c) = Cell.mushroomGrowth c).
Proof.
  unfold recreate. destruct (Cell.hasMushroom c); split; try reflexivity.
  discriminate.
Qed.

(** The wallet of the recreated cell: no Sun, no Soil, and as Nutrition
    the whole energy of the old cell cut to the new capacity. *)
Lemma recreate_kinds (newF : Fungus.t) (c : Cell.t) :
  Cell.getEnergyOfType (recreate newF c) SUN_UNIT = 0 /\
  Cell.getEnergyOfType (recreate newF c) SOIL_UNIT = 0 /\
  Cell.getEnergyOfType (recreate newF c) NUTRITION_UNIT
  = max 0 (floor (min (floor (Cell.getEnergy c))
                      (Cell.updateMaxEnergy newF))).
Proof.
  unfold Cell.getEnergyOfType. rewrite recreate_wallet. repeat split.
Qed.

Lemma recreate_collapse (newF : Fungus.t) (c : Cell.t) :
  nonNegative (Cell.energyWallet c) ->
  wholeUnits (Cell.energyWallet c) ->
  Cell.getEnergy c <= Cell.updateMaxEnergy newF ->
  Cell.getEnergyOfType (recreate newF c) NUTRITION_UNIT
  == Cell.getEnergyOfType c SUN_UNIT
     + Cell.getEnergyOfType c SOIL_UNIT
     + Cell.getEnergyOfType c NUTRITION_UNIT.
Proof.
  intros Hn Hi Hfit.
  destruct (recreate_kinds newF c) as (_ & _ & ->).
  pose proof (wholeUnits_total _ Hi) as Ht.
  fold (Cell.getEnergy c) in Ht.
  pose proof (floor_of_integer _ Ht) as Hf.
  destruct (nonNegative_fields _ Hn) as (N1 & N2 & N3).
  assert (Hpos : 0 <= Cell.getEnergy c)
    by (unfold Cell.getEnergy, getTotalUnits; lra).
  assert (Etot : Cell.getEnergy c
                 == Cell.getEnergyOfType c SUN_UNIT
                    + Cell.getEnergyOfType c SOIL_UNIT
                    + Cell.getEnergyOfType c NUTRITION_UNIT)
    by reflexivity.
  destruct (min_cases (floor (Cell.getEnergy c)) (Cell.updateMaxEnergy newF))
    as [[M E]|[M E]]; [|lra].
  rewrite E.
  assert (Hff : floor (floor (Cell.getEnergy c)) == Cell.getEnergy c).
  { transitivity (floor (Cell.getEnergy c)); [|exact Hf].
    apply floor_of_integer, isInteger_floor. }
  destruct (max_cases 0 (floor (floor (Cell.getEnergy c))))
    as [[X E']|[X E']]; rewrite E'; lra.
Qed.


(** *** The cell map after a cell is rehomed *)

Lemma cells_rehomeCell (newF : Fungus.t) (st : SimulationEngine.t)
    (c : Cell.t) (p : Pos) :
  JsMap.get posEqb p (cells (rehomeCell newF st c))
  = if posEqb p (posOf c)
    then Some (recreate newF c)
    else JsMap.get posEqb p (cells st).
Proof.
  unfold rehomeCell. rewrite cells_addCell, cells_removeCell.
  fold (posOf (recreate newF c)). fold (posOf c). rewrite recreate_pos.
  destruct (posEqb p (posOf c)) eqn:E.
  - apply posEqb_eq in E. subst p.
    apply (get_set_same _ _ posEqb posEqb_eq).
  - assert (Hne : p <> posOf c).
    { intro H. subst p. rewrite (keyEqb_refl _ posEqb posEqb_eq) in E.
      discriminate. }
    rewrite (get_set_other _ _ posEqb posEqb_eq) by exact Hne.
    now apply (get_delete_other _ _ posEqb posEqb_eq).
Qed.

Lemma keys_rehomeCell (newF : Fungus.t) (st : SimulationEngine.t)
    (c : Cell.t) :
  NoDup (JsMap.keys (cells st)) ->
  NoDup (JsMap.keys (cells (rehomeCell newF st c))).
Proof.
  intro H. unfold rehomeCell. rewrite cells_addCell, cells_removeCell.
  apply (NoDup_keys_set _ _ posEqb posEqb_eq).
  now apply (NoDup_keys_delete _ _ posEqb posEqb_eq).
Qed.

Lemma nextId_removeCell (st : SimulationEngine.t) (c : Cell.t) :
  nextId (removeCell st c) = nextId st.
Proof.
  cbv beta iota zeta delta [removeCell]. simpl nextId.
  now rewrite nextId_updateFungusCells.
Qed.

Lemma nextId_rehomeCell (newF : Fungus.t) (st : SimulationEngine.t)
    (c : Cell.t) :
  nextId (rehomeCell newF st c) = nextId st.
Proof. unfold rehomeCell. now rewrite nextId_addCell, nextId_removeCell. Qed.

(** *** The fungi of the map *)

Lemma headers_set_same_fungus (k : Z) (e e' : FungusEntry)
    (m : JsMap.t Z FungusEntry) :
  JsMap.get Z.eqb k m = Some e -> fungus e' = fungus e ->
  map (fun ke => (fst ke, fungus (snd ke))) (JsMap.set Z.eqb k e' m)
  = map (fun ke => (fst ke, fungus (snd ke))) m.
Proof.
  intros Hget Hf. induction m as [|[k0 e0] m IH]; simpl in *; [discriminate|].
  destruct (Z.eqb k k0) eqn:E; simpl.
  - apply Z.eqb_eq in E. subst k0. injection Hget as <-. now rewrite Hf.
  - f_equal. now apply IH.
Qed.

Lemma headers_updateFungusCells (st : SimulationEngine.t) (fid : Z)
    (f : list Pos -> list Pos) :
  headers (updateFungusCells st fid f) = headers st.
Proof.
  unfold headers, updateFungusCells.
  destruct (JsMap.get Z.eqb fid (fungi st)) as [e|] eqn:E; [|reflexivity].
  simpl. now apply (headers_set_same_fungus fid e).
Qed.

Lemma headers_addCell (st : SimulationEngine.t) (c : Cell.t) :
  headers (addCell st c) = headers st.
Proof.
  cbv beta iota zeta delta [addCell]. unfold headers at 1. simpl fungi.
  fold (headers
          (updateFungusCells
             (withCells st
                (JsMap.set posEqb (Cell.getPositionKey c) c (cells st)))
             (Fungus.id (Cell.fungus c)) (keyAdd (Cell.getPositionKey c)))).
  now rewrite headers_updateFungusCells.
Qed.

Lemma headers_removeCell (st : SimulationEngine.t) (c : Cell.t) :
  headers (removeCell st c) = headers st.
Proof.
  cbv beta iota zeta delta [removeCell]. unfold headers at 1. simpl fungi.
  fold (headers
          (updateFungusCells
             (withCells st
                (JsMap.delete posEqb (Cell.getPositionKey c) (cells st)))
             (Fungus.id (Cell.fungus c))
             (keyRemove (Cell.getPositionKey c)))).
  now rewrite headers_updateFungusCells.
Qed.

Lemma headers_rehomeCell (newF : Fungus.t) (st : SimulationEngine.t)
    (c : Cell.t) :
  headers (rehomeCell newF st c) = headers st.
Proof. unfold rehomeCell. now rewrite headers_addCell, headers_removeCell. Qed.

Lemma headers_keys (st : SimulationEngine.t) :
  map fst (headers st) = JsMap.keys (fungi st).
Proof.
  unfold headers, JsMap.keys. rewrite map_map. reflexivity.
Qed.

Lemma fungusAt_headers (st : SimulationEngine.t) (i : Z) :
  fungusAt st i = JsMap.get Z.eqb i (headers st).
Proof.
  unfold fungusAt, headers.
  induction (fungi st) as [|[k e] m IH]; simpl; [reflexivity|].
  destruct (Z.eqb i k); [reflexivity | exact IH].
Qed.

Lemma headers_registerFungus (st : SimulationEngine.t) (f : Fungus.t) :
  ~ In (Fungus.id f) (JsMap.keys (fungi st)) ->
  headers (registerFungus st f) = headers st ++ [(Fungus.id f, f)].
Proof.
  intro H. unfold headers, registerFungus. simpl.
  rewrite (set_new_key _ _ Z.eqb Zeqb_eq) by exact H.
  now rewrite map_app.
Qed.

End RecreateFacts.

(** ** Rehoming the groups *)

Module SplitFacts.
Import JsMath JsMathFacts JsMapFacts JsMapMore Measures.
Import SimulationEngine SporeFacts LineageFacts RehomeFacts Connectivity.
Import NeighborFacts FloodFacts SortFacts RecreateFacts.

Lemma rehome_group_effect (newF : Fungus.t) (G : list Cell.t) :
  forall st : SimulationEngine.t,
  NoDup (map posOf G) ->
  let st' := fold_left (rehomeCell newF) G st in
  (forall p, ~ In p (map posOf G) ->
     JsMap.get posEqb p (cells st') = JsMap.get posEqb p (cells st)) /\
  (forall c, In c G ->
     JsMap.get posEqb (posOf c) (cells st') = Some (recreate newF c)) /\
  (NoDup (JsMap.keys (cells st)) -> NoDup (JsMap.keys (cells st'))) /\
  nextId st' = nextId st /\
  headers st' = headers st.
Proof.
  induction G as [|c rest IH]; intros st Hnd; simpl.
  - repeat split; try tauto.
  - inversion Hnd as [|? ? Hnotin Hnd']; subst.
    destruct (IH (rehomeCell newF st c) Hnd') as (I1 & I2 & I3 & I4 & I5).
    assert (Hself : JsMap.get posEqb (posOf c)
                      (cells (rehomeCell newF st c))
                    = Some (recreate newF c)).
    { rewrite cells_rehomeCell.
      now rewrite (keyEqb_refl _ posEqb posEqb_eq). }
    split; [|split; [|split; [|split]]].
    + intros p Hp. rewrite I1 by tauto. rewrite cells_rehomeCell.
      rewrite (keyEqb_neq _ posEqb posEqb_eq); [reflexivity|].
      intro E. apply Hp. now left.
    + intros c' [<-|Hc'].
      * rewrite I1 by exact Hnotin. exact Hself.
      * now apply I2.
    + intro H. apply I3. now apply keys_rehomeCell.
    + rewrite I4. apply nextId_rehomeCell.
    + rewrite I5. apply headers_rehomeCell.
Qed.

Lemma newFungi_cons (T : Q) (f : Fungus.t) (n : Z) (k : nat) :
  newFungi T f n (S k)
  = (n, Fungus.mk n (DnaOps.clone T (Fungus.dna f)) (Fungus.generation f))
    :: newFungi T f (n + 1) k.
Proof.
  unfold newFungi. cbn [seq map]. rewrite <- seq_shift, map_map.
  change (Z.of_nat 0) with 0%Z. rewrite Z.add_0_r. f_equal.
  apply map_ext. intro j.
  replace (n + Z.of_nat (S j))%Z with (n + 1 + Z.of_nat j)%Z by lia.
  reflexivity.
Qed.

Lemma newFungi_keys (T : Q) (f : Fungus.t) (n : Z) (k : nat) (i : Z) :
  In i (map fst (newFungi T f n k)) <-> (n <= i < n + Z.of_nat k)%Z.
Proof.
  revert n. induction k as [|k IH]; intro n.
  - simpl. lia.
  - rewrite newFungi_cons. simpl. rewrite IH. lia.
Qed.

Lemma newFungi_In (T : Q) (f : Fungus.t) (n : Z) (k : nat) (i : Z)
    (h : Fungus.t) :
  In (i, h) (newFungi T f n k) ->
  (n <= i < n + Z.of_nat k)%Z /\
  h = Fungus.mk i (DnaOps.clone T (Fungus.dna f)) (Fungus.generation f).
Proof.
  unfold newFungi. rewrite in_map_iff. intros [j [E Hj]].
  apply in_seq in Hj. injection E as <- <-. split; [lia | reflexivity].
Qed.

Lemma newFungi_NoDup (T : Q) (f : Fungus.t) (n : Z) (k : nat) :
  NoDup (map fst (newFungi T f n k)).
Proof.
  revert n. induction k as [|k IH]; intro n.
  - constructor.
  - rewrite newFungi_cons. simpl. constructor; [|apply IH].
    rewrite newFungi_keys. lia.
Qed.

Lemma splitGroups_effect (T : Q) (f : Fungus.t) (Gs : list (list Cell.t)) :
  forall st : SimulationEngine.t,
  NoDup (map posOf (concat Gs)) ->
  (forall k, In k (map fst (headers st)) -> (k < nextId st)%Z) ->
  let st' := fold_left (splitGroup T f) Gs st in
  nextId st' = (nextId st + Z.of_nat (length Gs))%Z /\
  headers st' = headers st ++ newFungi T f (nextId st) (length Gs) /\
  (forall p, ~ In p (map posOf (concat Gs)) ->
     JsMap.get posEqb p (cells st') = JsMap.get posEqb p (cells st)) /\
  (forall j G c, nth_error Gs j = Some G -> In c G ->
     JsMap.get posEqb (posOf c) (cells st')
     = Some (recreate
               (Fungus.mk (nextId st + Z.of_nat j)
                  (DnaOps.clone T (Fungus.dna f)) (Fungus.generation f))
               c)) /\
  (NoDup (JsMap.keys (cells st)) -> NoDup (JsMap.keys (cells st'))).
Proof.
  induction Gs as [|G rest IH]; intros st Hnd Hfresh; simpl fold_left.
  - simpl. rewrite Z.add_0_r, app_nil_r. repeat split; try tauto.
    intros [|j] G c H; discriminate H.
  - simpl concat in Hnd. rewrite map_app in Hnd.
    assert (HndG : NoDup (map posOf G))
      by now apply NoDup_app_remove_r in Hnd.
    assert (HndR : NoDup (map posOf (concat rest)))
      by now apply NoDup_app_remove_l in Hnd.
    assert (Hdisj : forall p, In p (map posOf G) ->
                      ~ In p (map posOf (concat rest))).
    { intros p H1 H2. clear - Hnd H1 H2.
      induction (map posOf G) as [|a l IHl]; [destruct H1|].
      simpl in Hnd. inversion Hnd as [|? ? Hn Hnd']; subst.
      destruct H1 as [<-|H1].
      - apply Hn. apply in_or_app. now right.
      - now apply IHl. }
    set (n := nextId st).
    set (newF := Fungus.mk n (DnaOps.clone T (Fungus.dna f))
                   (Fungus.generation f)).
    set (st0 := registerFungus (withNextId st (n + 1)) newF).
    assert (E1 : splitGroup T f st G = fold_left (rehomeCell newF) G st0)
      by reflexivity.
    destruct (rehome_group_effect newF G st0 HndG)
      as (R1 & R2 & R3 & R4 & R5).
    rewrite <- E1 in R1, R2, R3, R4, R5.
    assert (Hh0 : headers st0 = headers st ++ [(n, newF)]).
    { unfold st0. rewrite headers_registerFungus.
      - reflexivity.
      - simpl. rewrite <- headers_keys. intro H.
        apply Hfresh in H. unfold n in H. lia. }
    assert (Hfresh1 : forall k,
              In k (map fst (headers (splitGroup T f st G))) ->
              (k < nextId (splitGroup T f st G))%Z).
    { intro k. rewrite R5, R4, Hh0, map_app, in_app_iff. simpl.
      intros [H|[<-|[]]]; [apply Hfresh in H; fold n in H; lia | lia]. }
    destruct (IH (splitGroup T f st G) HndR Hfresh1)
      as (I1 & I2 & I3 & I4 & I5).
    rewrite R4 in I1, I2, I4. simpl nextId in I1, I2, I4.
    split; [|split; [|split; [|split]]].
    + rewrite I1. simpl length. lia.
    + simpl length. fold n.
      rewrite I2, R5, Hh0, newFungi_cons, <- app_assoc. reflexivity.
    + intros p Hp. simpl concat in Hp. rewrite map_app, in_app_iff in Hp.
      rewrite I3 by tauto. rewrite R1 by tauto. reflexivity.
    + intros [|j] G' c Hnth Hc.
      * simpl in Hnth. injection Hnth as <-.
        rewrite I3 by (apply Hdisj; now apply in_map).
        rewrite (R2 c Hc). simpl. rewrite Z.add_0_r. reflexivity.
      * simpl in Hnth. rewrite (I4 j G' c Hnth Hc).
        replace (n + 1 + Z.of_nat j)%Z with (n + Z.of_nat (S j))%Z by lia.
        reflexivity.
    + intro H. apply I5, R3. exact H.
Qed.

End SplitFacts.

(** ** One round of the split *)

Module StepFacts.
Import JsMath JsMathFacts JsMapFacts JsMapMore Measures.
Import SimulationEngine SporeFacts LineageFacts RehomeFacts Connectivity.
Import NeighborFacts FloodFacts SortFacts RecreateFacts SplitFacts.

Lemma positions_of_values (l : list (Pos * Cell.t)) :
  (forall k c, In (k, c) l -> posOf c = k) ->
  map posOf (map snd l) = map fst l.
Proof.
  induction l as [|[k c] l IH]; intro H; simpl; [reflexivity|].
  rewrite (H k c) by now left. f_equal. apply IH.
  intros k' c' Hin. apply H. now right.
Qed.

Section WellFormed.

Variable st : SimulationEngine.t.
Hypothesis Hwf : wellFormed st.

Lemma wf_positions :
  map posOf (JsMap.values (cells st)) = JsMap.keys (cells st).
Proof.
  apply positions_of_values. intros k c H.
  now destruct (wf_cells st Hwf k c H).
Qed.

Lemma wf_stored (c : Cell.t) :
  In c (JsMap.values (cells st)) ->
  JsMap.get posEqb (posOf c) (cells st) = Some c.
Proof.
  intro H. apply in_map_iff in H. destruct H as [[k c'] [E H]].
  simpl in E. subst c'.
  destruct (wf_cells st Hwf k c H) as (P & _).
  unfold posOf. rewrite P.
  apply (In_get _ _ posEqb posEqb_eq); [apply (wf_cell_keys st Hwf) | exact H].
Qed.

Lemma fungusCellsOf_iff (g : Z) (c : Cell.t) :
  In c (fungusCellsOf st g) <->
  JsMap.get posEqb (posOf c) (cells st) = Some c /\ cid c = g.
Proof.
  unfold fungusCellsOf. rewrite filter_In, Z.eqb_eq. split.
  - intros [H E]. split; [now apply wf_stored | exact E].
  - intros [H E]. split; [|exact E].
    apply (get_In _ _ posEqb posEqb_eq) in H.
    apply in_map_iff. now exists (posOf c, c).
Qed.

Lemma fungusCellsOf_NoDup (g : Z) :
  NoDup (map posOf (fungusCellsOf st g)).
Proof.
  unfold fungusCellsOf. apply NoDup_map_filter.
  rewrite wf_positions. apply (wf_cell_keys st Hwf).
Qed.

Lemma fungusCellsOf_positions (g : Z) (p : Pos) :
  In p (map posOf (fungusCellsOf st g)) <-> ownerAt st p = Some g.
Proof.
  rewrite in_map_iff, ownerAt_iff. split.
  - intros [c [<- Hc]]. apply fungusCellsOf_iff in Hc. now exists c.
  - intros [c [Hc E]]. exists c.
    destruct (wellFormed_storedAlive st Hwf _ _ Hc) as [P _].
    split; [exact P|]. apply fungusCellsOf_iff. rewrite P. now split.
Qed.

(** The size of a fungus is the number of positions it owns. *)
Lemma sizeOf_positions (g : Z) (l : list Pos) :
  NoDup l ->
  (forall p, In p l <-> ownerAt st p = Some g) ->
  sizeOf st g = length l.
Proof.
  intros Hnd Hl. unfold sizeOf.
  rewrite <- (length_map posOf (fungusCellsOf st g)).
  apply Permutation_length, NoDup_Permutation.
  - apply fungusCellsOf_NoDup.
  - exact Hnd.
  - intro p. rewrite fungusCellsOf_positions, Hl. tauto.
Qed.

Lemma wf_header (g : Z) (f : Fungus.t) :
  In (g, f) (headers st) -> fungusAt st g = Some f.
Proof.
  intro H. rewrite fungusAt_headers.
  apply (In_get _ _ Z.eqb Zeqb_eq); [|exact H].
  apply (wf_fungus_keys st Hwf).
Qed.

Lemma wf_cell_header (p : Pos) (c : Cell.t) (f : Fungus.t) :
  JsMap.get posEqb p (cells st) = Some c ->
  In (cid c, f) (headers st) ->
  Cell.fungus c = f.
Proof.
  intros Hc Hf. apply (get_In _ _ posEqb posEqb_eq) in Hc.
  destruct (wf_cells st Hwf p c Hc) as (_ & _ & H).
  rewrite (wf_header _ _ Hf) in H. now injection H.
Qed.

Lemma wf_owner_registered (p : Pos) (g : Z) :
  ownerAt st p = Some g -> (g < nextId st)%Z.
Proof.
  intro H. apply ownerAt_iff in H. destruct H as [c [Hc <-]].
  apply (get_In _ _ posEqb posEqb_eq) in Hc.
  destruct (wf_cells st Hwf p c Hc) as (_ & _ & H).
  rewrite fungusAt_headers in H.
  apply (get_In _ _ Z.eqb Zeqb_eq) in H.
  now destruct (wf_fungi st Hwf _ _ H) as (_ & H').
Qed.

(** A round that changes nothing, for a fungus whose cells are all
    connected. *)
Lemma splitStep_same (T : Q) (f : Fungus.t) :
  (forall p q, ownerAt st p = Some (Fungus.id f) ->
     ownerAt st q = Some (Fungus.id f) ->
     connected st (Fungus.id f) p q) ->
  splitStep T st st f 0.
Proof.
  intro Hconn. constructor.
  - exact Hwf.
  - simpl. lia.
  - simpl. now rewrite app_nil_r.
  - tauto.
  - tauto.
  - intros p c Hc _. exists c. split; [exact Hc | now left].
  - intros p q Hp Hq. rewrite Hp, Hq. split; [intros _|reflexivity].
    now apply Hconn.
  - intros p q h Hp Hq _ Hh. rewrite Hq in Hh. injection Hh as <-. lia.
  - intros p Hp. now exists p.
  - intros n Hn. simpl in Hn. lia.
Qed.

End WellFormed.

End StepFacts.

(** ** Splitting one fungus into its groups *)

Module RegroupFacts.
Import JsMath JsMathFacts JsMapFacts JsMapMore Measures.
Import SimulationEngine SporeFacts LineageFacts RehomeFacts Connectivity.
Import NeighborFacts FloodFacts SortFacts RecreateFacts SplitFacts StepFacts.

Lemma NoDup_app_disjoint (A : Type) (l1 l2 : list A) (x : A) :
  NoDup (l1 ++ l2) -> In x l1 -> ~ In x l2.
Proof.
  induction l1 as [|a l1 IH]; simpl; intros H Hin; [contradiction|].
  inversion H as [|? ? Hn Hnd]; subst.
  destruct Hin as [->|Hin].
  - intro Hx. apply Hn, in_or_app. now right.
  - now apply IH.
Qed.

Lemma NoDup_concat_member (A B : Type) (f : A -> B) (Gs : list (list A))
    (G : list A) :
  NoDup (map f (concat Gs)) -> In G Gs -> NoDup (map f G).
Proof.
  induction Gs as [|H Gs IH]; simpl; intros Hnd Hin; [contradiction|].
  rewrite map_app in Hnd. destruct Hin as [->|Hin].
  - now apply NoDup_app_remove_r in Hnd.
  - apply IH; [|exact Hin]. now apply NoDup_app_remove_l in Hnd.
Qed.

Lemma get_app_Some (K V : Type) (keyEqb : K -> K -> bool) (k : K) (v : V)
    (l l' : JsMap.t K V) :
  JsMap.get keyEqb k l = Some v -> JsMap.get keyEqb k (l ++ l') = Some v.
Proof.
  induction l as [|[k' v'] l IH]; simpl; [discriminate|].
  destruct (keyEqb k k'); [tauto | exact IH].
Qed.

Lemma nonempty_In (A : Type) (l : list A) : l <> [] -> exists x, In x l.
Proof.
  destruct l as [|x l]; [congruence|]. intros _. exists x. now left.
Qed.

Section Regroup.

Variable T : Q.
Variable st : SimulationEngine.t.
Variable f : Fungus.t.
Variable first : list Cell.t.
Variable others : list (list Cell.t).

Let g : Z := Fungus.id f.
Let n : Z := nextId st.
Let st' : SimulationEngine.t := fold_left (splitGroup T f) others st.
Let offspring (j : nat) : Fungus.t :=
  Fungus.mk (n + Z.of_nat j) (DnaOps.clone T (Fungus.dna f))
            (Fungus.generation f).

Hypothesis Hwf : wellFormed st.
Hypothesis Hf : In (g, f) (headers st).
Hypothesis Hnd : NoDup (map posOf (concat (first :: others))).
Hypothesis Hst :
  forall c, In c (concat (first :: others)) ->
    JsMap.get posEqb (posOf c) (cells st) = Some c /\ cid c = g.
Hypothesis Hcomp :
  forall G, In G (first :: others) ->
    G <> [] /\
    forall p q, In p (map posOf G) ->
      (In q (map posOf G) <-> connected st g p q).
Hypothesis Hcov :
  forall p, ownerAt st p = Some g ->
    In p (map posOf (concat (first :: others))).
Hypothesis Hbig :
  forall G, In G others -> (length G <= length first)%nat.

(** The identifier that a group ends with. *)
Let ends (G : list Cell.t) (h : Z) : Prop :=
  (G = first /\ h = g) \/
  (exists j, nth_error others j = Some G /\ h = (n + Z.of_nat j)%Z).

Lemma regroup_registered : (g < n)%Z.
Proof. now destruct (wf_fungi st Hwf g f Hf). Qed.

Lemma regroup_keys_below :
  forall k, In k (map fst (headers st)) -> (k < nextId st)%Z.
Proof.
  intros k H. apply in_map_iff in H. destruct H as [[k' h] [<- H]].
  now destruct (wf_fungi st Hwf k' h H).
Qed.

Lemma regroup_others_NoDup : NoDup (map posOf (concat others)).
Proof.
  pose proof Hnd as H. simpl in H. rewrite map_app in H.
  now apply NoDup_app_remove_l in H.
Qed.

Lemma regroup_effect :
  nextId st' = (n + Z.of_nat (length others))%Z /\
  headers st' = headers st ++ newFungi T f n (length others) /\
  (forall p, ~ In p (map posOf (concat others)) ->
     JsMap.get posEqb p (cells st') = JsMap.get posEqb p (cells st)) /\
  (forall j G c, nth_error others j = Some G -> In c G ->
     JsMap.get posEqb (posOf c) (cells st') = Some (recreate (offspring j) c)) /\
  NoDup (JsMap.keys (cells st')).
Proof.
  destruct (splitGroups_effect T f others st regroup_others_NoDup
              regroup_keys_below) as (E1 & E2 & E3 & E4 & E5).
  repeat split; try assumption.
  apply E5, (wf_cell_keys st Hwf).
Qed.

Lemma regroup_first (c : Cell.t) :
  In c first -> JsMap.get posEqb (posOf c) (cells st') = Some c.
Proof.
  intro Hc. destruct regroup_effect as (_ & _ & E3 & _).
  rewrite E3.
  - apply Hst. simpl. apply in_or_app. now left.
  - pose proof Hnd as H. simpl in H. rewrite map_app in H.
    apply (NoDup_app_disjoint _ _ _ _ H). now apply in_map.
Qed.

Lemma regroup_outside (p : Pos) :
  ~ In p (map posOf (concat (first :: others))) ->
  JsMap.get posEqb p (cells st') = JsMap.get posEqb p (cells st).
Proof.
  intro Hp. destruct regroup_effect as (_ & _ & E3 & _).
  apply E3. intro H. apply Hp. simpl. rewrite map_app.
  apply in_or_app. now right.
Qed.

Lemma regroup_member (p : Pos) (c : Cell.t) :
  JsMap.get posEqb p (cells st) = Some c ->
  In p (map posOf (concat (first :: others))) ->
  In c (concat (first :: others)) /\ posOf c = p.
Proof.
  intros Hc Hp. apply in_map_iff in Hp. destruct Hp as [c' [E Hc']].
  destruct (Hst c' Hc') as [Hs _]. rewrite E, Hc in Hs.
  injection Hs as ->. now split.
Qed.

Lemma regroup_ends (G : list Cell.t) (h : Z) :
  ends G h -> In G (first :: others) /\
  forall r, In r (map posOf G) -> ownerAt st' r = Some h.
Proof.
  intros [[-> ->]|[j [Hj ->]]].
  - split; [now left|]. intros r Hr.
    apply in_map_iff in Hr. destruct Hr as [c [<- Hc]].
    apply ownerAt_iff. exists c. split; [now apply regroup_first|].
    apply Hst. simpl. apply in_or_app. now left.
  - split; [right; now apply nth_error_In in Hj|]. intros r Hr.
    apply in_map_iff in Hr. destruct Hr as [c [<- Hc]].
    destruct regroup_effect as (_ & _ & _ & E4 & _).
    apply ownerAt_iff. exists (recreate (offspring j) c).
    split; [now apply (E4 j G)|].
    unfold cid. now rewrite recreate_fungus.
Qed.

Lemma regroup_ends_inj (G G' : list Cell.t) (h : Z) :
  ends G h -> ends G' h -> G = G'.
Proof.
  pose proof regroup_registered as Hg.
  intros [[-> E]|[j [Hj E]]] [[-> E']|[j' [Hj' E']]].
  - reflexivity.
  - lia.
  - lia.
  - assert (j = j') by lia. subst j'. congruence.
Qed.

Lemma regroup_class (p : Pos) :
  ownerAt st p = Some g ->
  exists G h, ends G h /\ In p (map posOf G).
Proof.
  intro Hp. apply Hcov in Hp. apply in_map_iff in Hp.
  destruct Hp as [c [<- Hc]]. apply in_concat in Hc.
  destruct Hc as [G [HG Hc]]. destruct HG as [<-|HG].
  - exists first, g. split; [now left | now apply in_map].
  - apply In_nth_error in HG. destruct HG as [j Hj].
    exists G, (n + Z.of_nat j)%Z. split; [|now apply in_map].
    right. now exists j.
Qed.

Lemma regroup_owner_back (r : Pos) (G : list Cell.t) (h : Z) :
  ends G h -> ownerAt st' r = Some h -> ownerAt st r = Some g.
Proof.
  intros He Hr.
  destruct (in_dec Pos_eq_dec r (map posOf (concat (first :: others))))
    as [Hin|Hout].
  - apply in_map_iff in Hin. destruct Hin as [c [<- Hc]].
    apply ownerAt_iff. exists c. now apply Hst.
  - unfold ownerAt in *. rewrite regroup_outside in Hr by exact Hout.
    destruct He as [[_ ->]|[j [_ ->]]]; [exact Hr|].
    apply (wf_owner_registered st Hwf) in Hr. fold n in Hr. lia.
Qed.

Lemma regroup_positions (G : list Cell.t) (h : Z) (r : Pos) :
  ends G h -> (In r (map posOf G) <-> ownerAt st' r = Some h).
Proof.
  intro He. split.
  - now apply regroup_ends.
  - intro Hr. pose proof (regroup_owner_back r G h He Hr) as Hg.
    destruct (regroup_class r Hg) as (G' & h' & He' & Hin).
    destruct (regroup_ends G' h' He') as [_ Hown].
    rewrite (Hown r Hin) in Hr. injection Hr as ->.
    now rewrite (regroup_ends_inj _ _ _ He He').
Qed.

Lemma regroup_headers_NoDup : NoDup (map fst (headers st')).
Proof.
  destruct regroup_effect as (_ & E2 & _). rewrite E2, map_app.
  apply NoDup_app.
  - apply (wf_fungus_keys st Hwf).
  - apply newFungi_NoDup.
  - intros k Hk Hk'. apply regroup_keys_below in Hk.
    apply newFungi_keys in Hk'. fold n in Hk. lia.
Qed.

Lemma regroup_wf : wellFormed st'.
Proof.
  destruct regroup_effect as (E1 & E2 & E3 & E4 & E5).
  constructor.
  - exact E5.
  - intros k c' Hin.
    apply (In_get _ _ posEqb posEqb_eq _ _ _ E5) in Hin.
    destruct (in_dec Pos_eq_dec k (map posOf (concat others)))
      as [Hk|Hk].
    + apply in_map_iff in Hk. destruct Hk as [c [<- Hc]].
      apply in_concat in Hc. destruct Hc as [G [HG Hc]].
      apply In_nth_error in HG. destruct HG as [j Hj].
      rewrite (E4 j G c Hj Hc) in Hin. injection Hin as <-.
      split; [apply recreate_pos|]. split; [apply recreate_alive|].
      unfold cid. rewrite recreate_fungus, fungusAt_headers.
      apply (In_get _ _ Z.eqb Zeqb_eq); [apply regroup_headers_NoDup|].
      rewrite E2. apply in_or_app. right.
      unfold newFungi. apply in_map_iff. exists j. split; [reflexivity|].
      apply in_seq. split; [lia|]. simpl.
      apply nth_error_Some. congruence.
    + rewrite (E3 k Hk) in Hin.
      apply (get_In _ _ posEqb posEqb_eq) in Hin.
      destruct (wf_cells st Hwf k c' Hin) as (P1 & P2 & P3).
      split; [exact P1|]. split; [exact P2|].
      rewrite fungusAt_headers in *. rewrite E2.
      now apply get_app_Some.
  - apply regroup_headers_NoDup.
  - intros k h Hin. rewrite E2 in Hin. apply in_app_or in Hin.
    destruct Hin as [Hin|Hin].
    + destruct (wf_fungi st Hwf k h Hin) as [P1 P2].
      split; [exact P1|]. rewrite E1. fold n in P2. lia.
    + apply newFungi_In in Hin. destruct Hin as [Hk ->].
      split; [reflexivity|]. rewrite E1. lia.
Qed.

Lemma regroup_size (G : list Cell.t) (h : Z) :
  ends G h -> sizeOf st' h = length G.
Proof.
  intro He. rewrite <- (length_map posOf G).
  apply (sizeOf_positions st' regroup_wf).
  - apply (NoDup_concat_member _ _ posOf (first :: others)); [exact Hnd|].
    now apply regroup_ends in He.
  - intro p. now apply regroup_positions.
Qed.

Lemma regroup_step : splitStep T st st' f (length others).
Proof.
  destruct regroup_effect as (E1 & E2 & E3 & E4 & E5).
  constructor.
  - apply regroup_wf.
  - exact E1.
  - exact E2.
  - intros p c Hc Hne. rewrite regroup_outside; [exact Hc|].
    intro Hin. destruct (regroup_member p c Hc Hin) as [Hm _].
    now apply Hst in Hm.
  - intros p Hp. rewrite regroup_outside; [exact Hp|].
    intro Hin. apply in_map_iff in Hin. destruct Hin as [c [<- Hc]].
    apply Hst in Hc. destruct Hc as [Hc _]. congruence.
  - intros p c Hc Hg.
    assert (Hown : ownerAt st p = Some g)
      by (apply ownerAt_iff; now exists c).
    apply Hcov in Hown.
    destruct (regroup_member p c Hc Hown) as [Hm <-].
    apply in_concat in Hm. destruct Hm as [G [[<-|HG] Hin]].
    + exists c. split; [now apply regroup_first | now left].
    + apply In_nth_error in HG. destruct HG as [j Hj].
      exists (recreate (offspring j) c).
      split; [now apply (E4 j G)|]. right.
      exists (n + Z.of_nat j)%Z. split; [|reflexivity].
      rewrite E1. fold n.
      assert (j < length others)%nat by (apply nth_error_Some; congruence).
      lia.
  - intros p q Hp Hq.
    destruct (regroup_class p Hp) as (G & h & He & Hin).
    destruct (regroup_ends G h He) as [HG Hown].
    destruct (Hcomp G HG) as [_ Hc].
    rewrite (Hown p Hin). split.
    + intro E. symmetry in E. apply (regroup_positions G h q He) in E.
      now apply (Hc p q Hin).
    + intro Hconn. apply (Hc p q Hin) in Hconn.
      symmetry. now apply Hown.
  - intros p q h Hp Hq Hp' Hq'.
    destruct (regroup_class q Hq) as (G & h' & He & Hin).
    destruct (regroup_ends G h' He) as [HG Hown].
    rewrite (Hown q Hin) in Hq'. injection Hq' as <-.
    rewrite (regroup_size G h' He).
    assert (He0 : ends first g) by (now left).
    fold g. rewrite (regroup_size first g He0).
    destruct HG as [<-|HG]; [lia | now apply Hbig].
  - intros p Hp.
    destruct (Hcomp first (or_introl eq_refl)) as [Hne _].
    destruct (nonempty_In _ _ Hne) as [c Hin].
    exists (posOf c).
    assert (Hc : In c (concat (first :: others)))
      by (simpl; apply in_or_app; now left).
    split.
    + apply ownerAt_iff. exists c. now apply Hst.
    + apply ownerAt_iff. exists c. split; [|now apply Hst].
      now apply regroup_first.
  - intros m Hm. rewrite E1 in Hm. fold n in Hm.
    set (j := Z.to_nat (m - n)).
    assert (Hj : (j < length others)%nat) by (unfold j; lia).
    destruct (nth_error others j) as [G|] eqn:EG;
      [|apply nth_error_None in EG; lia].
    assert (HG : In G (first :: others))
      by (right; now apply nth_error_In in EG).
    destruct (Hcomp G HG) as [Hne _].
    destruct (nonempty_In _ _ Hne) as [c Hc].
    assert (He : ends G m).
    { right. exists j. split; [exact EG|]. unfold j. lia. }
    exists (posOf c).
    split.
    + apply ownerAt_iff. exists c. apply Hst.
      apply in_concat. exists G. now split.
    + apply (regroup_ends _ _ He). now apply in_map.
Qed.

End Regroup.

End RegroupFacts.

(** ** The split of one fungus *)

Module SplitFungusFacts.
Import JsMath JsMathFacts JsMapFacts JsMapMore Measures.
Import SimulationEngine SporeFacts LineageFacts RehomeFacts Connectivity.
Import NeighborFacts FloodFacts SortFacts RecreateFacts SplitFacts StepFacts.
Import RegroupFacts.

Lemma concat_perm (A : Type) (l l' : list (list A)) :
  Permutation l l' -> Permutation (concat l) (concat l').
Proof.
  induction 1 as [|x l l' _ IH|x y l|l l' l'' _ IH1 _ IH2]; simpl.
  - constructor.
  - now apply Permutation_app_head.
  - apply Permutation_app_swap_app.
  - now transitivity (concat l').
Qed.

Section SplitFungus.

Variable T : Q.
Variable st : SimulationEngine.t.
Variable f : Fungus.t.

Hypothesis Hwf : wellFormed st.
Hypothesis Hf : In (Fungus.id f, f) (headers st).

Lemma single_cell_connected :
  (length (fungusCellsOf st (Fungus.id f)) <= 1)%nat ->
  forall p q, ownerAt st p = Some (Fungus.id f) ->
    ownerAt st q = Some (Fungus.id f) ->
    connected st (Fungus.id f) p q.
Proof.
  intros Hlen p q Hp Hq.
  pose proof (proj2 (fungusCellsOf_positions st Hwf _ p) Hp) as Ip.
  pose proof (proj2 (fungusCellsOf_positions st Hwf _ q) Hq) as Iq.
  destruct (fungusCellsOf st (Fungus.id f)) as [|c [|c' l]];
    simpl in *; try lia; try contradiction.
  destruct Ip as [<-|[]]. destruct Iq as [<-|[]].
  now constructor.
Qed.

Lemma single_group_connected (Gs : list (list Cell.t)) :
  (length Gs <= 1)%nat ->
  (forall p, ownerAt st p = Some (Fungus.id f) ->
     In p (map posOf (concat Gs))) ->
  (forall G, In G Gs ->
     G <> [] /\
     forall p q, In p (map posOf G) ->
       (In q (map posOf G) <-> connected st (Fungus.id f) p q)) ->
  forall p q, ownerAt st p = Some (Fungus.id f) ->
    ownerAt st q = Some (Fungus.id f) ->
    connected st (Fungus.id f) p q.
Proof.
  intros Hlen Hcov Hcomp p q Hp Hq.
  apply Hcov in Hp. apply Hcov in Hq.
  destruct Gs as [|G [|G' l]]; simpl in *; try lia; try contradiction.
  rewrite app_nil_r in *.
  destruct (Hcomp G (or_introl eq_refl)) as [_ H].
  now apply (H p q Hp).
Qed.

Lemma splitFungus_spec :
  exists st' k,
    splitFungus T st f = Some st' /\ splitStep T st st' f k.
Proof.
  unfold splitFungus.
  destruct (Nat.leb_spec (length (fungusCellsOf st (Fungus.id f))) 1)
    as [Hle|Hgt].
  - exists st, 0%nat. split; [reflexivity|].
    apply splitStep_same; [exact Hwf|].
    now apply single_cell_connected.
  - destruct (findGroups_spec st (wellFormed_storedAlive st Hwf)
                (Fungus.id f) (fungusCellsOf st (Fungus.id f)) [] [])
      as (Gs & V & E & (Hcl & HV & Hnd & Hst & Hcomp) & _ & Hcover).
    + intros c Hc. now apply (fungusCellsOf_iff st Hwf).
    + simpl. repeat split; try tauto; try constructor.
    + rewrite E.
      assert (Hcov : forall p, ownerAt st p = Some (Fungus.id f) ->
                In p (map posOf (concat Gs))).
      { intros p Hp. apply (fungusCellsOf_positions st Hwf) in Hp.
        apply in_map_iff in Hp. destruct Hp as [c [<- Hc]].
        apply HV. now apply Hcover. }
      destruct (Nat.ltb_spec 1 (length Gs)) as [Hmany|Hfew].
      * pose proof (sortGroups_perm Gs) as Hperm.
        destruct (sortGroups Gs) as [|first others] eqn:Es.
        { apply Permutation_length in Hperm. simpl in Hperm. lia. }
        exists (fold_left (splitGroup T f) others st), (length others).
        split; [reflexivity|].
        pose proof (concat_perm _ _ _ Hperm) as Hcp.
        apply regroup_step with (first := first).
        -- exact Hwf.
        -- exact Hf.
        -- apply (Permutation_NoDup (l := map posOf (concat Gs)));
             [|exact Hnd].
           apply Permutation_map. now symmetry.
        -- intros c Hc. apply Hst. now apply (Permutation_in _ Hcp).
        -- intros G HG. apply Hcomp. now apply (Permutation_in _ Hperm).
        -- intros p Hp. apply Hcov in Hp.
           apply (Permutation_in (l := map posOf (concat Gs))); [|exact Hp].
           apply Permutation_map. now symmetry.
        -- now apply (sortGroups_head Gs first others Es).
      * exists st, 0%nat. split; [reflexivity|].
        apply splitStep_same; [exact Hwf|].
        now apply (single_group_connected Gs).
Qed.

End SplitFungus.

End SplitFungusFacts.

(** ** What one round leaves alone *)

Module FrameFacts.
Import JsMath JsMathFacts JsMapFacts JsMapMore Measures.
Import SimulationEngine SporeFacts LineageFacts RehomeFacts Connectivity.
Import NeighborFacts FloodFacts SortFacts RecreateFacts SplitFacts StepFacts.
Import RegroupFacts.

Lemma ownerAt_get (st : SimulationEngine.t) (p : Pos) (c : Cell.t) :
  JsMap.get posEqb p (cells st) = Some c -> ownerAt st p = Some (cid c).
Proof. intro H. unfold ownerAt. now rewrite H. Qed.

Lemma ownerAt_None (st : SimulationEngine.t) (p : Pos) :
  ownerAt st p = None <-> JsMap.get posEqb p (cells st) = None.
Proof.
  unfold ownerAt. destruct (JsMap.get posEqb p (cells st)); simpl;
    split; congruence.
Qed.

Lemma ownerAt_ext (st st' : SimulationEngine.t) (p : Pos) :
  JsMap.get posEqb p (cells st') = JsMap.get posEqb p (cells st) ->
  ownerAt st' p = ownerAt st p.
Proof. intro H. unfold ownerAt. now rewrite H. Qed.

(** A path stays a path when all that it reaches changes owner together. *)
Lemma connected_map (st st' : SimulationEngine.t) (g g' : Z) (p q : Pos) :
  (forall r, connected st g p r -> ownerAt st' r = Some g') ->
  connected st g p q -> connected st' g' p q.
Proof.
  intros Hmap Hc. induction Hc as [Hp|q r Hq IH Hr Hadj].
  - constructor. apply Hmap. now constructor.
  - apply connected_step with (q := q).
    + exact IH.
    + apply Hmap. now apply connected_step with (q := q).
    + exact Hadj.
Qed.

Lemma connected_ext (st st' : SimulationEngine.t) (g g' : Z) (p q : Pos) :
  (forall r, ownerAt st r = Some g -> ownerAt st' r = Some g') ->
  connected st g p q -> connected st' g' p q.
Proof.
  intros Hmap. apply connected_map.
  intros r Hr. apply Hmap. now apply connected_owner in Hr.
Qed.

Lemma newFungi_has (T : Q) (f : Fungus.t) (n : Z) (k : nat) (i : Z) :
  (n <= i < n + Z.of_nat k)%Z ->
  In (i, Fungus.mk i (DnaOps.clone T (Fungus.dna f)) (Fungus.generation f))
     (newFungi T f n k).
Proof.
  intro Hi. unfold newFungi. apply in_map_iff.
  exists (Z.to_nat (i - n)). cbv zeta.
  replace (n + Z.of_nat (Z.to_nat (i - n)))%Z with i by lia.
  split; [reflexivity|]. apply in_seq. lia.
Qed.

Section Frame.

Variable T : Q.
Variables st st' : SimulationEngine.t.
Variable f : Fungus.t.
Variable k : nat.

Hypothesis Hwf : wellFormed st.
Hypothesis Hf : In (Fungus.id f, f) (headers st).
Hypothesis Hstep : splitStep T st st' f k.

Lemma frame_registered : (Fungus.id f < nextId st)%Z.
Proof. now destruct (wf_fungi st Hwf _ _ Hf). Qed.

Lemma frame_next : (nextId st <= nextId st')%Z.
Proof. rewrite (ss_nextId _ _ _ _ _ Hstep). lia. Qed.

Lemma frame_none (p : Pos) :
  ownerAt st p = None -> JsMap.get posEqb p (cells st') = None.
Proof.
  intro H. apply ownerAt_None in H. now apply (ss_none _ _ _ _ _ Hstep).
Qed.

Lemma frame_other (p : Pos) (h : Z) :
  ownerAt st p = Some h -> h <> Fungus.id f ->
  JsMap.get posEqb p (cells st') = JsMap.get posEqb p (cells st).
Proof.
  intros H Hne. apply ownerAt_iff in H. destruct H as [c [Hc E]].
  rewrite Hc. apply (ss_other _ _ _ _ _ Hstep); congruence.
Qed.

Lemma frame_own (p : Pos) :
  ownerAt st p = Some (Fungus.id f) ->
  JsMap.get posEqb p (cells st') = JsMap.get posEqb p (cells st) \/
  exists n, (nextId st <= n < nextId st')%Z /\ ownerAt st' p = Some n.
Proof.
  intro H. apply ownerAt_iff in H. destruct H as [c [Hc E]].
  destruct (ss_own _ _ _ _ _ Hstep p c Hc E) as [c' [Hc' [->|[n [Hn ->]]]]].
  - left. congruence.
  - right. exists n. split; [exact Hn|].
    rewrite (ownerAt_get _ _ _ Hc'). unfold cid.
    now rewrite recreate_fungus.
Qed.

Lemma frame_back (p : Pos) (h : Z) :
  ownerAt st' p = Some h -> (h < nextId st)%Z ->
  ownerAt st p = Some h /\
  JsMap.get posEqb p (cells st') = JsMap.get posEqb p (cells st).
Proof.
  intros H Hlt. destruct (ownerAt st p) as [h0|] eqn:E.
  - destruct (Z.eq_dec h0 (Fungus.id f)) as [->|Hne].
    + destruct (frame_own p E) as [Hsame|[n [Hn Hown]]].
      * rewrite (ownerAt_ext _ _ _ Hsame), E in H. now split.
      * rewrite Hown in H. injection H as <-. lia.
    + pose proof (frame_other p h0 E Hne) as Hsame.
      rewrite (ownerAt_ext _ _ _ Hsame), E in H. now split.
  - apply frame_none in E. apply ownerAt_None in E. congruence.
Qed.

Lemma frame_back_new (p : Pos) (n : Z) :
  ownerAt st' p = Some n -> (nextId st <= n)%Z ->
  ownerAt st p = Some (Fungus.id f).
Proof.
  intros H Hge. destruct (ownerAt st p) as [h0|] eqn:E.
  - destruct (Z.eq_dec h0 (Fungus.id f)) as [->|Hne]; [reflexivity|].
    pose proof (frame_other p h0 E Hne) as Hsame.
    rewrite (ownerAt_ext _ _ _ Hsame), E in H. injection H as <-.
    apply (wf_owner_registered st Hwf) in E. lia.
  - apply frame_none in E. apply ownerAt_None in E. congruence.
Qed.

Lemma frame_keep (p : Pos) (h : Z) :
  ownerAt st p = Some h -> h <> Fungus.id f -> ownerAt st' p = Some h.
Proof.
  intros H Hne. now rewrite (ownerAt_ext _ _ _ (frame_other p h H Hne)).
Qed.

(** The size of a fungus that the round does not split. *)
Lemma frame_size (h : Z) :
  h <> Fungus.id f -> (h < nextId st)%Z -> sizeOf st' h = sizeOf st h.
Proof.
  intros Hne Hlt. unfold sizeOf at 2.
  rewrite <- (length_map posOf (fungusCellsOf st h)).
  apply (sizeOf_positions st' (ss_wf _ _ _ _ _ Hstep)).
  - apply (fungusCellsOf_NoDup st Hwf).
  - intro p. rewrite (fungusCellsOf_positions st Hwf). split.
    + intro H. now apply frame_keep.
    + intro H. now apply frame_back.
Qed.

Lemma frame_headers_get (n : Z) (h : Fungus.t) :
  fungusAt st n = Some h -> fungusAt st' n = Some h.
Proof.
  rewrite !fungusAt_headers, (ss_headers _ _ _ _ _ Hstep).
  apply get_app_Some.
Qed.

Lemma frame_new_header (n : Z) :
  (nextId st <= n < nextId st')%Z ->
  fungusAt st' n
  = Some (Fungus.mk n (DnaOps.clone T (Fungus.dna f)) (Fungus.generation f)).
Proof.
  intro Hn. rewrite fungusAt_headers.
  apply (In_get _ _ Z.eqb Zeqb_eq).
  - apply (wf_fungus_keys st' (ss_wf _ _ _ _ _ Hstep)).
  - rewrite (ss_headers _ _ _ _ _ Hstep). apply in_or_app. right.
    apply newFungi_has. rewrite (ss_nextId _ _ _ _ _ Hstep) in Hn. exact Hn.
Qed.

(** A round for a fungus whose cells are all connected changes nothing. *)
Lemma frame_connected :
  (forall p q, ownerAt st p = Some (Fungus.id f) ->
     ownerAt st q = Some (Fungus.id f) ->
     connected st (Fungus.id f) p q) ->
  (forall p, JsMap.get posEqb p (cells st')
             = JsMap.get posEqb p (cells st)) /\ k = 0%nat.
Proof.
  intro Hconn.
  assert (Hkeep : forall p, ownerAt st p = Some (Fungus.id f) ->
            ownerAt st' p = Some (Fungus.id f)).
  { intros p Hp.
    destruct (ss_keeps _ _ _ _ _ Hstep p Hp) as [q [Hq Hq']].
    rewrite <- Hq'.
    apply (ss_components _ _ _ _ _ Hstep p q Hp Hq). now apply Hconn. }
  split.
  - intro p. destruct (ownerAt st p) as [h|] eqn:E.
    + destruct (Z.eq_dec h (Fungus.id f)) as [->|Hne].
      * destruct (frame_own p E) as [Hsame|[n [Hn Hown]]]; [exact Hsame|].
        rewrite (Hkeep p E) in Hown. injection Hown as Hown.
        pose proof frame_registered. lia.
      * now apply (frame_other p h).
    + rewrite (frame_none p E). apply ownerAt_None in E. congruence.
  - destruct k as [|k']; [reflexivity|].
    destruct (ss_new _ _ _ _ _ Hstep (nextId st)) as [p [Hp Hp']].
    + rewrite (ss_nextId _ _ _ _ _ Hstep). lia.
    + rewrite (Hkeep p Hp) in Hp'. injection Hp' as Hp'.
      pose proof frame_registered. lia.
Qed.

End Frame.

End FrameFacts.

(** ** The loop over the fungi *)

Module LoopFacts.
Import JsMath JsMathFacts JsMapFacts JsMapMore Measures.
Import SimulationEngine SporeFacts LineageFacts RehomeFacts Connectivity.
Import NeighborFacts FloodFacts SortFacts RecreateFacts SplitFacts StepFacts.
Import RegroupFacts SplitFungusFacts FrameFacts.

Lemma sizeOf_ext (st st' : SimulationEngine.t) (h : Z) :
  wellFormed st -> wellFormed st' ->
  (forall p, ownerAt st' p = ownerAt st p) ->
  sizeOf st' h = sizeOf st h.
Proof.
  intros Hwf Hwf' Hsame. unfold sizeOf at 2.
  rewrite <- (length_map posOf (fungusCellsOf st h)).
  apply (sizeOf_positions st' Hwf').
  - apply (fungusCellsOf_NoDup st Hwf).
  - intro p. rewrite (fungusCellsOf_positions st Hwf), Hsame. tauto.
Qed.

Lemma headers_nth (st : SimulationEngine.t) (i : nat) (key : Z)
    (entry : FungusEntry) :
  nth_error (fungi st) i = Some (key, entry) ->
  nth_error (headers st) i = Some (key, fungus entry).
Proof.
  intro H. unfold headers. rewrite nth_error_map, H. reflexivity.
Qed.

Lemma headers_length (st : SimulationEngine.t) :
  length (headers st) = length (fungi st).
Proof. unfold headers. apply length_map. Qed.

Section Loop.

Variable T : Q.
Variable st0 : SimulationEngine.t.
Hypothesis Hwf0 : wellFormed st0.

(** The fungus that a cell of the starting state is moved to when it is
    split off under the identifier [n]. *)
Let offspringOf (n : Z) (c : Cell.t) : Fungus.t :=
  Fungus.mk n (DnaOps.clone T (Fungus.dna (Cell.fungus c)))
            (Fungus.generation (Cell.fungus c)).

(** The parts of the invariant of the loop, for the state [st] reached
    when the first [i] fungi of the map have had their round. *)
Let inv_heads (st : SimulationEngine.t) : Prop :=
  exists news, headers st = headers st0 ++ news /\
    forall k h, In (k, h) news ->
      (nextId st0 <= k)%Z /\ exists p, ownerAt st p = Some k.

Let inv_next (st : SimulationEngine.t) : Prop :=
  (nextId st0 <= nextId st)%Z.

Let inv_none (st : SimulationEngine.t) : Prop :=
  forall p, JsMap.get posEqb p (cells st0) = None ->
    JsMap.get posEqb p (cells st) = None.

Let inv_cells (st : SimulationEngine.t) : Prop :=
  forall p c, JsMap.get posEqb p (cells st0) = Some c ->
    exists c', JsMap.get posEqb p (cells st) = Some c' /\
      (c' = c \/
       exists n, (nextId st0 <= n < nextId st)%Z /\
         fungusAt st n = Some (offspringOf n c) /\
         c' = recreate (offspringOf n c) c).

Let inv_todo (st : SimulationEngine.t) (i : nat) : Prop :=
  forall j g f p c, nth_error (headers st0) j = Some (g, f) ->
    (i <= j)%nat ->
    JsMap.get posEqb p (cells st0) = Some c -> cid c = g ->
    JsMap.get posEqb p (cells st) = Some c.

Let inv_apart (st : SimulationEngine.t) : Prop :=
  forall p q h, ownerAt st p = Some h -> ownerAt st q = Some h ->
    ownerAt st0 p = ownerAt st0 q.

Let inv_done (st : SimulationEngine.t) (i : nat) : Prop :=
  forall j g f, nth_error (headers st0) j = Some (g, f) -> (j < i)%nat ->
    forall p q, ownerAt st0 p = Some g -> ownerAt st0 q = Some g ->
      (ownerAt st p = ownerAt st q <-> connected st0 g p q).

Let inv_new (st : SimulationEngine.t) : Prop :=
  forall n p q, (nextId st0 <= n)%Z ->
    ownerAt st p = Some n -> ownerAt st q = Some n ->
    connected st n p q.

Let inv_largest (st : SimulationEngine.t) (i : nat) : Prop :=
  forall j g f, nth_error (headers st0) j = Some (g, f) -> (j < i)%nat ->
    forall p, ownerAt st0 p = Some g ->
      exists q, ownerAt st0 q = Some g /\ ownerAt st q = Some g /\
        forall r h, ownerAt st0 r = Some g -> ownerAt st r = Some h ->
          (sizeOf st h <= sizeOf st g)%nat.

Let Inv (st : SimulationEngine.t) (i : nat) : Prop :=
  wellFormed st /\ inv_heads st /\ inv_next st /\ inv_none st /\
  inv_cells st /\ inv_todo st i /\ inv_apart st /\ inv_done st i /\
  inv_new st /\ inv_largest st i.

Lemma inv_init : Inv st0 0.
Proof.
  split; [exact Hwf0|].
  split; [exists []; split; [now rewrite app_nil_r | intros k h []]|].
  split; [unfold inv_next; lia|].
  split; [intros p Hp; exact Hp|].
  split; [intros p c Hc; exists c; split; [exact Hc | now left]|].
  split; [intros j g f p c _ _ Hc _; exact Hc|].
  split; [intros p q h Hp Hq; congruence|].
  split; [intros j g f _ Hj; lia|].
  split; [|intros j g f _ Hj; lia].
  intros n p q Hn Hp _.
  apply (wf_owner_registered st0 Hwf0) in Hp. lia.
Qed.

(** States with the same cells, fungi and counter satisfy the invariant
    together. *)
Lemma inv_same (st st' : SimulationEngine.t) (i : nat) :
  Inv st i -> wellFormed st' ->
  (forall p, JsMap.get posEqb p (cells st')
             = JsMap.get posEqb p (cells st)) ->
  headers st' = headers st -> nextId st' = nextId st ->
  Inv st' i.
Proof.
  intros (Hwf & Hheads & Hnext & Hnone & Hcells & Htodo & Hapart & Hdone
          & Hnew & Hlarge) Hwf' Hc Hh Hn.
  assert (Hown : forall p, ownerAt st' p = ownerAt st p)
    by (intro p; apply ownerAt_ext, Hc).
  assert (Hsize : forall h, sizeOf st' h = sizeOf st h)
    by (intro h; now apply sizeOf_ext).
  split; [exact Hwf'|].
  split.
  { destruct Hheads as [news [E Hk]]. exists news. rewrite Hh.
    split; [exact E|]. intros k h Hin.
    destruct (Hk k h Hin) as [H1 [p Hp]]. split; [exact H1|].
    exists p. now rewrite Hown. }
  split; [unfold inv_next in *; lia|].
  split; [intros p Hp; rewrite Hc; now apply Hnone|].
  split.
  { intros p c Hp. destruct (Hcells p c Hp) as [c' [Hc' Hor]].
    exists c'. rewrite Hc. split; [exact Hc'|].
    destruct Hor as [->|[n (H1 & H2 & H3)]]; [now left|].
    right. exists n. rewrite Hn. split; [exact H1|].
    split; [|exact H3]. rewrite fungusAt_headers in *. now rewrite Hh. }
  split; [intros j g f p c Hj Hle Hp Hg; rewrite Hc;
          now apply (Htodo j g f)|].
  split; [intros p q h; rewrite !Hown; apply Hapart|].
  split; [intros j g f Hj Hlt p q Hp Hq; rewrite !Hown;
          now apply (Hdone j g f)|].
  split.
  { intros n p q Hge Hp Hq. rewrite Hown in Hp, Hq.
    apply (connected_ext st st' n n).
    - intros r Hr. now rewrite Hown.
    - now apply Hnew. }
  intros j g f Hj Hlt p Hp.
  destruct (Hlarge j g f Hj Hlt p Hp) as [q (H1 & H2 & H3)].
  exists q. split; [exact H1|]. rewrite Hown. split; [exact H2|].
  intros r h Hr Hh'. rewrite Hown in Hh'. rewrite !Hsize.
  exact (H3 r h Hr Hh').
Qed.

(** Beyond the fungi of the starting state the index does not matter. *)
Lemma inv_skip (st : SimulationEngine.t) (i : nat) :
  Inv st i -> (length (headers st0) <= i)%nat -> Inv st (S i).
Proof.
  intros (Hwf & Hheads & Hnext & Hnone & Hcells & Htodo & Hapart & Hdone
          & Hnew & Hlarge) Hlen.
  assert (Hj : forall j g f, nth_error (headers st0) j = Some (g, f) ->
            (j < i)%nat).
  { intros j g f H.
    assert (j < length (headers st0))%nat
      by (apply nth_error_Some; congruence). lia. }
  repeat (split; [assumption|]).
  split.
  { intros j g f p c H Hle. apply (Htodo j g f p c H).
    specialize (Hj j g f H). lia. }
  split; [exact Hapart|].
  split; [intros j g f H _; apply (Hdone j g f H), (Hj j g f H)|].
  split; [exact Hnew|].
  intros j g f H _. apply (Hlarge j g f H), (Hj j g f H).
Qed.

(** *** The round of a fungus of the starting state *)

Section Round.

Variables st st' : SimulationEngine.t.
Variable i : nat.
Variable f : Fungus.t.
Variable k : nat.

Hypothesis Hwf : wellFormed st.
Hypothesis Hheads : inv_heads st.
Hypothesis Hnext : inv_next st.
Hypothesis Hnone : inv_none st.
Hypothesis Hcells : inv_cells st.
Hypothesis Htodo : inv_todo st i.
Hypothesis Hapart : inv_apart st.
Hypothesis Hdone : inv_done st i.
Hypothesis Hnew : inv_new st.
Hypothesis Hlarge : inv_largest st i.
Hypothesis Hi : nth_error (headers st0) i = Some (Fungus.id f, f).
Hypothesis Hstep : splitStep T st st' f k.

Lemma round_header : In (Fungus.id f, f) (headers st).
Proof.
  destruct Hheads as [news [E _]]. rewrite E. apply in_or_app. left.
  now apply nth_error_In in Hi.
Qed.

Lemma round_original : (Fungus.id f < nextId st0)%Z.
Proof.
  apply nth_error_In in Hi. now destruct (wf_fungi st0 Hwf0 _ _ Hi).
Qed.

Lemma round_old_owner (p : Pos) (h : Z) :
  ownerAt st p = Some h -> (h < nextId st0)%Z ->
  exists c, JsMap.get posEqb p (cells st0) = Some c /\
            JsMap.get posEqb p (cells st) = Some c /\ cid c = h.
Proof.
  intros Hp Hlt. apply ownerAt_iff in Hp. destruct Hp as [c' [Hc' E]].
  destruct (JsMap.get posEqb p (cells st0)) as [c|] eqn:E0.
  - destruct (Hcells p c E0) as [c'' [Hc'' Hor]].
    rewrite Hc' in Hc''. injection Hc'' as <-.
    destruct Hor as [->|[n (Hn & _ & ->)]].
    + now exists c.
    + unfold cid in E. rewrite recreate_fungus in E. simpl in E. lia.
  - apply Hnone in E0. congruence.
Qed.

Lemma round_own (p : Pos) :
  ownerAt st p = Some (Fungus.id f) <-> ownerAt st0 p = Some (Fungus.id f).
Proof.
  split.
  - intro Hp.
    destruct (round_old_owner p _ Hp round_original) as [c (H0 & _ & E)].
    rewrite (ownerAt_get _ _ _ H0). now f_equal.
  - intro Hp. apply ownerAt_iff in Hp. destruct Hp as [c [Hc E]].
    rewrite (ownerAt_get st p c); [now f_equal|].
    apply (Htodo i (Fungus.id f) f p c Hi (le_n i) Hc E).
Qed.

Lemma round_other_key (j : nat) (g : Z) (h : Fungus.t) :
  nth_error (headers st0) j = Some (g, h) -> j <> i -> g <> Fungus.id f.
Proof.
  intros Hj Hne E. apply Hne.
  pose proof (wf_fungus_keys st0 Hwf0) as Hnd.
  rewrite NoDup_nth_error in Hnd. apply Hnd.
  - rewrite length_map. apply nth_error_Some. congruence.
  - rewrite !nth_error_map, Hj, Hi. simpl. now f_equal.
Qed.

(** A cell that started under another fungus is not a cell of [f]. *)
Lemma round_stranger (p : Pos) (g : Z) :
  ownerAt st0 p = Some g -> g <> Fungus.id f ->
  JsMap.get posEqb p (cells st') = JsMap.get posEqb p (cells st) /\
  ownerAt st' p = ownerAt st p.
Proof.
  intros Hp Hne.
  assert (H : JsMap.get posEqb p (cells st')
              = JsMap.get posEqb p (cells st)).
  { destruct (ownerAt st p) as [h|] eqn:E.
    - apply (frame_other T st st' f k Hstep p h E).
      intros ->. apply round_own in E. congruence.
    - rewrite (frame_none T st st' f k Hstep p E).
      apply ownerAt_None in E. congruence. }
  split; [exact H | now apply ownerAt_ext].
Qed.

Lemma round_heads : inv_heads st'.
Proof.
  destruct Hheads as [news [E Hk]].
  exists (news ++ newFungi T f (nextId st) k).
  rewrite (ss_headers _ _ _ _ _ Hstep), E, app_assoc.
  split; [reflexivity|]. intros g h Hin. apply in_app_or in Hin.
  destruct Hin as [Hin|Hin].
  - destruct (Hk g h Hin) as [Hg [p Hp]]. split; [exact Hg|].
    exists p. apply (frame_keep T st st' f k Hstep p g Hp).
    pose proof round_original. lia.
  - apply newFungi_In in Hin. destruct Hin as [Hg _].
    unfold inv_next in Hnext. split; [lia|].
    destruct (ss_new _ _ _ _ _ Hstep g) as [p [_ Hp]].
    + rewrite (ss_nextId _ _ _ _ _ Hstep). exact Hg.
    + now exists p.
Qed.

Lemma round_next : inv_next st'.
Proof.
  unfold inv_next in *. rewrite (ss_nextId _ _ _ _ _ Hstep). lia.
Qed.

Lemma round_none : inv_none st'.
Proof.
  intros p Hp. apply (ss_none _ _ _ _ _ Hstep). now apply Hnone.
Qed.

Lemma round_cells : inv_cells st'.
Proof.
  intros p c Hp. destruct (Hcells p c Hp) as [c' [Hc' Hor]].
  pose proof (frame_next T st st' f k Hstep) as Hle.
  destruct (Z.eq_dec (cid c') (Fungus.id f)) as [E|Hne].
  - assert (c' = c) as ->.
    { destruct Hor as [->|[n (Hn & _ & ->)]]; [reflexivity|].
      unfold cid in E. rewrite recreate_fungus in E. simpl in E.
      pose proof round_original. lia. }
    destruct (ss_own _ _ _ _ _ Hstep p c Hc' E)
      as [c'' [Hc'' [->|[n [Hn ->]]]]].
    + exists c. split; [exact Hc'' | now left].
    + assert (Hfc : Cell.fungus c = f).
      { apply (wf_cell_header st0 Hwf0 p c f Hp).
        rewrite E. now apply nth_error_In in Hi. }
      exists (recreate (offspringOf n c) c).
      unfold offspringOf at 1. rewrite Hfc.
      split; [exact Hc''|]. right. exists n.
      unfold inv_next in Hnext. split; [lia|].
      split; [|reflexivity].
      unfold offspringOf. rewrite Hfc.
      apply (frame_new_header T st st' f k Hstep n Hn).
  - exists c'. split.
    + now apply (ss_other _ _ _ _ _ Hstep).
    + destruct Hor as [->|[n (Hn & Hfn & ->)]]; [now left|].
      right. exists n. split; [lia|]. split; [|reflexivity].
      now apply (frame_headers_get T st st' f k Hstep).
Qed.

Lemma round_todo : inv_todo st' (S i).
Proof.
  intros j g h p c Hj Hle Hp Hg.
  apply (ss_other _ _ _ _ _ Hstep).
  - apply (Htodo j g h p c Hj); [lia | exact Hp | exact Hg].
  - rewrite Hg. apply (round_other_key j g h Hj). lia.
Qed.

Lemma round_apart : inv_apart st'.
Proof.
  intros p q h Hp Hq.
  pose proof (frame_registered st f Hwf round_header) as Hreg.
  destruct (Z_lt_le_dec h (nextId st)) as [Hlt|Hge].
  - destruct (frame_back T st st' f k Hstep p h Hp Hlt) as [Hp0 _].
    destruct (frame_back T st st' f k Hstep q h Hq Hlt) as [Hq0 _].
    now apply (Hapart p q h).
  - pose proof (frame_back_new T st st' f k Hwf Hstep p h Hp Hge) as Hp0.
    pose proof (frame_back_new T st st' f k Hwf Hstep q h Hq Hge) as Hq0.
    now apply (Hapart p q (Fungus.id f)).
Qed.

Lemma round_done : inv_done st' (S i).
Proof.
  intros j g h Hj Hlt p q Hp Hq.
  destruct (Nat.eq_dec j i) as [->|Hne].
  - rewrite Hi in Hj. injection Hj as <- <-.
    rewrite (ss_components _ _ _ _ _ Hstep p q)
      by (now apply round_own).
    split; apply connected_ext; intros r Hr; now apply round_own.
  - pose proof (round_other_key j g h Hj Hne) as Hg.
    destruct (round_stranger p g Hp Hg) as [_ ->].
    destruct (round_stranger q g Hq Hg) as [_ ->].
    apply (Hdone j g h Hj); [lia | exact Hp | exact Hq].
Qed.

Lemma round_new : inv_new st'.
Proof.
  intros n p q Hn Hp Hq.
  pose proof round_original as Horig.
  destruct (Z_lt_le_dec n (nextId st)) as [Hlt|Hge].
  - destruct (frame_back T st st' f k Hstep p n Hp Hlt) as [Hp0 _].
    destruct (frame_back T st st' f k Hstep q n Hq Hlt) as [Hq0 _].
    apply (connected_ext st st' n n).
    + intros r Hr. apply (frame_keep T st st' f k Hstep r n Hr). lia.
    + now apply Hnew.
  - pose proof (frame_back_new T st st' f k Hwf Hstep p n Hp Hge) as Hp0.
    pose proof (frame_back_new T st st' f k Hwf Hstep q n Hq Hge) as Hq0.
    apply (connected_map st st' (Fungus.id f) n).
    + intros r Hr. rewrite <- Hp. symmetry.
      apply (ss_components _ _ _ _ _ Hstep p r Hp0); [|exact Hr].
      now apply connected_owner in Hr.
    + apply (ss_components _ _ _ _ _ Hstep p q Hp0 Hq0). congruence.
Qed.

Lemma round_largest : inv_largest st' (S i).
Proof.
  intros j g h Hj Hlt p Hp.
  destruct (Nat.eq_dec j i) as [->|Hne].
  - rewrite Hi in Hj. injection Hj as <- <-.
    apply round_own in Hp.
    destruct (ss_keeps _ _ _ _ _ Hstep p Hp) as [q [Hq Hq']].
    exists q. split; [now apply round_own|]. split; [exact Hq'|].
    intros r h Hr Hh. apply round_own in Hr.
    apply (ss_largest _ _ _ _ _ Hstep q r h Hq Hr Hq' Hh).
  - pose proof (round_other_key j g h Hj Hne) as Hg.
    destruct (Hlarge j g h Hj) with (p := p) as [q (H1 & H2 & H3)];
      [lia | exact Hp |].
    exists q. split; [exact H1|].
    destruct (round_stranger q g H1 Hg) as [_ Eq].
    split; [now rewrite Eq|].
    intros r h' Hr Hh'.
    destruct (round_stranger r g Hr Hg) as [_ Er].
    rewrite Er in Hh'.
    assert (Hh'f : h' <> Fungus.id f).
    { intros ->. apply round_own in Hh'. congruence. }
    rewrite (frame_size T st st' f k Hwf Hstep h' Hh'f)
      by (now apply (wf_owner_registered st Hwf r)).
    rewrite (frame_size T st st' f k Hwf Hstep g Hg)
      by (now apply (wf_owner_registered st Hwf q)).
    exact (H3 r h' Hr Hh').
Qed.

End Round.

(** *** Every round keeps the invariant *)

Lemma inv_round (st : SimulationEngine.t) (i : nat) (key : Z)
    (entry : FungusEntry) :
  Inv st i ->
  nth_error (fungi st) i = Some (key, entry) ->
  exists st', splitFungus T st (fungus entry) = Some st' /\ Inv st' (S i).
Proof.
  intros Hinv Hnth. apply headers_nth in Hnth.
  set (f := fungus entry) in *.
  pose proof Hinv as (Hwf & Hheads & Hnext & Hnone & Hcells & Htodo
                      & Hapart & Hdone & Hnew & Hlarge).
  assert (Hin : In (key, f) (headers st)) by (now apply nth_error_In in Hnth).
  destruct (wf_fungi st Hwf key f Hin) as [Hid _]. subst key.
  destruct (splitFungus_spec T st f Hwf Hin) as (st' & k & E & Hstep).
  exists st'. split; [exact E|].
  destruct Hheads as [news [Eh Hk]].
  destruct (Nat.lt_ge_cases i (length (headers st0))) as [Hlt|Hge].
  - assert (Hi : nth_error (headers st0) i = Some (Fungus.id f, f)).
    { rewrite Eh, nth_error_app1 in Hnth by exact Hlt. exact Hnth. }
    assert (Hheads : inv_heads st) by (now exists news).
    split; [apply (ss_wf _ _ _ _ _ Hstep)|].
    split; [now apply (round_heads st st' i f k)|].
    split; [now apply (round_next st st' f k)|].
    split; [now apply (round_none st st' f k)|].
    split; [now apply (round_cells st st' i f k)|].
    split; [now apply (round_todo st st' i f k)|].
    split; [now apply (round_apart st st' i f k)|].
    split; [now apply (round_done st st' i f k)|].
    split; [now apply (round_new st st' i f k)|].
    now apply (round_largest st st' i f k).
  - assert (Hfresh : (nextId st0 <= Fungus.id f)%Z).
    { rewrite Eh, nth_error_app2 in Hnth by exact Hge.
      apply nth_error_In in Hnth. now apply Hk in Hnth. }
    destruct (frame_connected T st st' f k Hwf Hin Hstep) as [Hsame ->].
    { intros p q Hp Hq. now apply Hnew. }
    apply inv_skip; [|exact Hge].
    apply (inv_same st st' i Hinv (ss_wf _ _ _ _ _ Hstep) Hsame).
    + rewrite (ss_headers _ _ _ _ _ Hstep). simpl. apply app_nil_r.
    + rewrite (ss_nextId _ _ _ _ _ Hstep). simpl. lia.
Qed.

(** The map never holds more fungi than the starting state has fungi
    and cells. *)
Lemma inv_bound (st : SimulationEngine.t) (i : nat) :
  Inv st i ->
  (length (headers st0) <= length (headers st)
   <= length (headers st0) + length (cells st0))%nat.
Proof.
  intros (Hwf & [news [Eh Hk]] & _ & Hnone & Hcells & _).
  rewrite Eh, length_app. split; [lia|].
  apply Nat.add_le_mono_l.
  assert (Hlen : length (cells st) = length (cells st0)).
  { rewrite <- (length_map fst (cells st)), <- (length_map fst (cells st0)).
    apply Permutation_length, NoDup_Permutation.
    - apply (wf_cell_keys st Hwf).
    - apply (wf_cell_keys st0 Hwf0).
    - intro p. fold (JsMap.keys (cells st)) (JsMap.keys (cells st0)).
      rewrite <- !(get_Some_keys _ _ posEqb posEqb_eq). split.
      + intros [c Hc].
        destruct (JsMap.get posEqb p (cells st0)) as [c0|] eqn:E0;
          [now exists c0|].
        apply Hnone in E0. congruence.
      + intros [c Hc]. destruct (Hcells p c Hc) as [c' [Hc' _]].
        now exists c'. }
  rewrite <- Hlen, <- (length_map snd (cells st)),
          <- (length_map cid (map snd (cells st))),
          <- (length_map fst news).
  apply NoDup_incl_length.
  - pose proof (wf_fungus_keys st Hwf) as Hnd.
    rewrite Eh, map_app in Hnd. now apply NoDup_app_remove_l in Hnd.
  - intros g Hg. apply in_map_iff in Hg. destruct Hg as [[g' h] [<- Hin]].
    destruct (Hk g' h Hin) as [_ [p Hp]].
    apply ownerAt_iff in Hp. destruct Hp as [c [Hc <-]].
    simpl. apply (in_map cid). apply in_map_iff.
    exists (p, c). split; [reflexivity|].
    now apply (get_In _ _ posEqb posEqb_eq).
Qed.

Lemma splitLoop_spec (fuel : nat) :
  forall st i, Inv st i ->
    (length (headers st0) + length (cells st0) <= fuel + i)%nat ->
    exists st' i',
      splitLoop T fuel st i = Some st' /\ Inv st' i' /\
      (length (headers st') <= i')%nat.
Proof.
  induction fuel as [|fuel IH]; intros st i Hinv Hfuel.
  - pose proof (inv_bound st i Hinv) as Hb.
    simpl. destruct (nth_error (fungi st) i) as [[key entry]|] eqn:E.
    + assert (i < length (fungi st))%nat
        by (apply nth_error_Some; congruence).
      rewrite <- headers_length in H. simpl in Hfuel. lia.
    + exists st, i. split; [reflexivity|]. split; [exact Hinv|].
      apply nth_error_None in E. now rewrite headers_length.
  - simpl. destruct (nth_error (fungi st) i) as [[key entry]|] eqn:E.
    + destruct (inv_round st i key entry Hinv E) as [st1 [E1 Hinv1]].
      rewrite E1. apply IH; [exact Hinv1 | lia].
    + exists st, i. split; [reflexivity|]. split; [exact Hinv|].
      apply nth_error_None in E. now rewrite headers_length.
Qed.

(** *** The whole pass *)

Lemma split_pass_outcome :
  exists st',
    splitDisconnectedFungi T st0 = Some st' /\ splitOutcome T st0 st'.
Proof.
  unfold splitDisconnectedFungi.
  destruct (splitLoop_spec (length (fungi st0) + length (cells st0)) st0 0
              inv_init) as (st' & i' & E & Hinv & Hi').
  { rewrite headers_length. lia. }
  exists st'. split; [exact E|].
  pose proof (inv_bound st' i' Hinv) as [Hlen _].
  destruct Hinv as (Hwf & Hheads & Hnext & Hnone & Hcells & Htodo & Hapart
                    & Hdone & Hnew & Hlarge).
  assert (Hreg : forall g p, ownerAt st0 p = Some g ->
            exists j f, nth_error (headers st0) j = Some (g, f) /\
                        (j < i')%nat).
  { intros g p Hp. apply ownerAt_iff in Hp. destruct Hp as [c [Hc <-]].
    apply (get_In _ _ posEqb posEqb_eq) in Hc.
    destruct (wf_cells st0 Hwf0 p c Hc) as (_ & _ & Hf).
    rewrite fungusAt_headers in Hf.
    apply (get_In _ _ Z.eqb Zeqb_eq) in Hf.
    apply In_nth_error in Hf. destruct Hf as [j Hj].
    exists j, (Cell.fungus c). split; [exact Hj|].
    assert (j < length (headers st0))%nat
      by (apply nth_error_Some; congruence). lia. }
  constructor.
  - exact Hwf.
  - exact Hnone.
  - intros p c Hc. destruct (Hcells p c Hc) as [c' [Hc' Hor]].
    exists c'. split; [exact Hc'|].
    destruct Hor as [->|[n (H1 & H2 & H3)]]; [now left|].
    right. now exists n.
  - exact Hapart.
  - intros g p q Hp Hq. destruct (Hreg g p Hp) as (j & f & Hj & Hlt).
    now apply (Hdone j g f).
  - intros g p Hp. destruct (Hreg g p Hp) as (j & f & Hj & Hlt).
    exact (Hlarge j g f Hj Hlt p Hp).
Qed.

End Loop.

Lemma colonyState_wellFormed : wellFormed Examples.colonyState.
Proof.
  constructor.
  - vm_compute. repeat (constructor; [simpl; intuition congruence|]).
    constructor.
  - intros k c Hin. vm_compute in Hin.
    repeat (destruct Hin as [Hin|Hin];
            [injection Hin as <- <-; repeat split; reflexivity|]).
    contradiction.
  - vm_compute. repeat (constructor; [simpl; intuition congruence|]).
    constructor.
  - intros k f Hin. vm_compute in Hin.
    destruct Hin as [Hin|[]]. injection Hin as <- <-.
    split; reflexivity.
Qed.

Lemma staleState_wellFormed : wellFormed Examples.staleState.
Proof.
  constructor.
  - vm_compute. repeat (constructor; [simpl; intuition congruence|]).
    constructor.
  - intros k c Hin. vm_compute in Hin.
    repeat (destruct Hin as [Hin|Hin];
            [injection Hin as <- <-; repeat split; reflexivity|]).
    contradiction.
  - vm_compute. repeat (constructor; [simpl; intuition congruence|]).
    constructor.
  - intros k f Hin. vm_compute in Hin.
    destruct Hin as [Hin|[]]. injection Hin as <- <-.
    split; reflexivity.
Qed.

(** From a well-formed state the split pass ends, and its outcome
    is [splitOutcome]: the cells of a fungus are divided by the connected
    components of its cells under the eight-neighbour adjacency, one
    fungus per component and no two fungi merged; a component that is at
    least as large as every other one keeps the identifier of the fungus,
    and its cells are left as they are; every other cell is recreated
    under a fungus made in the pass, held by the fungus map, with the
    clone of the trait vector and the generation of its old fungus, at
    the same position and with the same mushroom, and with the same total
    energy when the counts of the old cell are whole and non-negative and
    their sum is within the capacity of the new cell, which the cloned
    trait vector gives. *)
Theorem split_pass_one_fungus_per_component (T : Q)
    (st : SimulationEngine.t) :
  wellFormed st ->
  exists st',
    splitDisconnectedFungi T st = Some st' /\
    splitOutcome T st st' /\
    forall p c c',
      JsMap.get posEqb p (cells st) = Some c ->
      JsMap.get posEqb p (cells st') = Some c' ->
      (cid c' = cid c -> c' = c) /\
      (cid c' <> cid c ->
       (nextId st <= cid c' < nextId st')%Z /\
       fungusAt st' (cid c') = Some (Cell.fungus c') /\
       Fungus.dna (Cell.fungus c')
       = DnaOps.clone T (Fungus.dna (Cell.fungus c)) /\
       Fungus.generation (Cell.fungus c')
       = Fungus.generation (Cell.fungus c) /\
       Cell.getPositionKey c' = Cell.getPositionKey c /\
       Cell.hasMushroom c' = Cell.hasMushroom c /\
       (Cell.hasMushroom c = true ->
        Cell.mushroomGrowth c' = Cell.mushroomGrowth c) /\
       (EnergyWalletHelper.nonNegative (Cell.energyWallet c) ->
        EnergyWalletHelper.wholeUnits (Cell.energyWallet c) ->
        Cell.getEnergy c <= Cell.maxEnergyCapacity c' ->
        Cell.getEnergy c' == Cell.getEnergy c)).
Proof.
  intro Hwf.
  destruct (split_pass_outcome T st Hwf) as [st' [E Hout]].
  exists st'. split; [exact E|]. split; [exact Hout|].
  intros p c c' Hc Hc'.
  destruct (so_cells T st st' Hout p c Hc) as [c'' [Hc'' Hor]].
  rewrite Hc' in Hc''. injection Hc'' as <-.
  destruct Hor as [->|[n (Hn & Hf & ->)]].
  - split; [reflexivity | congruence].
  - cbv zeta in *.
    set (newF := Fungus.mk n (DnaOps.clone T (Fungus.dna (Cell.fungus c)))
                   (Fungus.generation (Cell.fungus c))) in *.
    assert (Hcid : cid (recreate newF c) = n)
      by (unfold cid; now rewrite recreate_fungus).
    split.
    + intro Heq. exfalso. rewrite Hcid in Heq.
      pose proof (wf_owner_registered st Hwf p (cid c)
                    (ownerAt_get st p c Hc)). lia.
    + intros _. rewrite Hcid, recreate_fungus.
      destruct (recreate_mushroom newF c) as [Hm1 Hm2].
      split; [exact Hn|]. split; [exact Hf|].
      split; [reflexivity|]. split; [reflexivity|].
      split; [apply recreate_pos|]. split; [exact Hm1|].
      split; [exact Hm2|].
      rewrite recreate_capacity. intros Hnn Hwhole Hfit.
      destruct (recreate_kinds newF c) as (K1 & K2 & _).
      transitivity
        (Cell.getEnergyOfType (recreate newF c) SUN_UNIT
         + Cell.getEnergyOfType (recreate newF c) SOIL_UNIT
         + Cell.getEnergyOfType (recreate newF c) NUTRITION_UNIT);
        [reflexivity|].
      rewrite K1, K2, (recreate_collapse newF c Hnn Hwhole Hfit).
      unfold Cell.getEnergy, EnergyWalletHelper.getTotalUnits,
        Cell.getEnergyOfType. simpl. lra.
Qed.

Lemma split_pass_one_fungus_per_component_witness :
  wellFormed Examples.colonyState /\
  exists st',
    splitDisconnectedFungi 250 Examples.colonyState = Some st' /\
    splitOutcome 250 Examples.colonyState st' /\
    JsMap.keys (fungi st') = [0; 1]%Z /\
    sizeOf st' 0 = 5%nat /\ sizeOf st' 1 = 2%nat.
Proof.
  split; [exact colonyState_wellFormed|].
  destruct (split_pass_one_fungus_per_component 250 Examples.colonyState
              colonyState_wellFormed) as (st' & E & Hout & _).
  exists st'. split; [exact E|]. split; [exact Hout|].
  vm_compute in E. injection E as <-.
  repeat split.
Defined.

(** C5.  The fungus of [staleState] got its trait vector, with pink 100,
    while the total was 250.  With the total at 100 the pass moves the
    cell at (5, 5) to the fungus 1, whose trait vector is no copy of the
    old one: [clone] scales it to the total of the day, pink becomes 40
    and the capacity 1380.  Of the 2000 units of the cell 1380 are left,
    where the pass is to keep the trait vector and the energy. *)
Lemma split_pass_stale_traits_counterexample :
  wellFormed Examples.staleState /\
  exists st' c c',
    splitDisconnectedFungi 100 Examples.staleState = Some st' /\
    JsMap.get posEqb (5, 5)%Z (cells Examples.staleState) = Some c /\
    JsMap.get posEqb (5, 5)%Z (cells st') = Some c' /\
    cid c = 0%Z /\ cid c' = 1%Z /\
    pink (Fungus.dna (Cell.fungus c)) == 100 /\
    pink (Fungus.dna (Cell.fungus c')) == 40 /\
    Fungus.dna (Cell.fungus c') <> Fungus.dna (Cell.fungus c) /\
    Cell.maxEnergyCapacity c' == 1380 /\
    Cell.getEnergy c == 2000 /\ Cell.getEnergy c' == 1380 /\
    ~ Cell.getEnergy c' == Cell.getEnergy c.
Proof.
  split; [exact staleState_wellFormed|].
  eexists. eexists. eexists.
  split; [vm_compute; reflexivity|].
  split; [vm_compute; reflexivity|].
  split; [vm_compute; reflexivity|].
  repeat split; vm_compute; discriminate.
Qed.


Lemma mixedState_wellFormed : wellFormed Examples.mixedState.
Proof.
  constructor.
  - vm_compute. repeat (constructor; [simpl; intuition congruence|]).
    constructor.
  - intros k c Hin. vm_compute in Hin.
    repeat (destruct Hin as [Hin|Hin];
            [injection Hin as <- <-; repeat split; reflexivity|]).
    contradiction.
  - vm_compute. repeat (constructor; [simpl; intuition congruence|]).
    constructor.
  - intros k f Hin. vm_compute in Hin.
    destruct Hin as [Hin|[]]. injection Hin as <- <-.
    split; reflexivity.
Qed.

(** C9.  From a well-formed state the split pass ends, and every cell
    that it moves to another fungus holds no Sun and no Soil, and holds as
    Nutrition the whole energy of the old cell, all kinds together, cut to
    the capacity of the new cell; when the counts of the old cell are
    whole and non-negative and their sum fits that capacity, the Nutrition
    of the new cell is the sum of the three counts of the old cell. *)
Theorem split_pass_rehomed_cell_holds_only_nutrition (T : Q)
    (st : SimulationEngine.t) :
  wellFormed st ->
  exists st',
    splitDisconnectedFungi T st = Some st' /\
    forall p c c',
      JsMap.get posEqb p (cells st) = Some c ->
      JsMap.get posEqb p (cells st') = Some c' ->
      cid c' <> cid c ->
      Cell.getEnergyOfType c' SUN_UNIT == 0 /\
      Cell.getEnergyOfType c' SOIL_UNIT == 0 /\
      Cell.getEnergyOfType c' NUTRITION_UNIT
      == max 0 (floor (min (floor (Cell.getEnergy c))
                           (Cell.maxEnergyCapacity c'))) /\
      (EnergyWalletHelper.nonNegative (Cell.energyWallet c) ->
       EnergyWalletHelper.wholeUnits (Cell.energyWallet c) ->
       Cell.getEnergy c <= Cell.maxEnergyCapacity c' ->
       Cell.getEnergyOfType c' NUTRITION_UNIT
       == Cell.getEnergyOfType c SUN_UNIT
          + Cell.getEnergyOfType c SOIL_UNIT
          + Cell.getEnergyOfType c NUTRITION_UNIT).
Proof.
  intro Hwf.
  destruct (split_pass_outcome T st Hwf) as [st' [E Hout]].
  exists st'. split; [exact E|].
  intros p c c' Hc Hc' Hmoved.
  destruct (so_cells T st st' Hout p c Hc) as [c'' [Hc'' Hor]].
  rewrite Hc' in Hc''. injection Hc'' as <-.
  destruct Hor as [->|[n (_ & _ & ->)]]; [congruence|].
  cbv zeta.
  set (newF := Fungus.mk n (DnaOps.clone T (Fungus.dna (Cell.fungus c)))
                 (Fungus.generation (Cell.fungus c))).
  rewrite recreate_capacity.
  destruct (recreate_kinds newF c) as (K1 & K2 & K3).
  rewrite K1, K2, K3.
  split; [reflexivity|]. split; [reflexivity|]. split; [reflexivity|].
  intros Hn Hi Hfit. rewrite <- K3. now apply recreate_collapse.
Qed.

Lemma split_pass_rehomed_cell_holds_only_nutrition_witness :
  wellFormed Examples.mixedState /\
  exists st' c',
    splitDisconnectedFungi 250 Examples.mixedState = Some st' /\
    JsMap.get posEqb (5, 5)%Z (cells st') = Some c' /\
    cid c' = 1%Z /\
    Cell.getEnergyOfType c' SUN_UNIT == 0 /\
    Cell.getEnergyOfType c' SOIL_UNIT == 0 /\
    Cell.getEnergyOfType c' NUTRITION_UNIT == 3 + 4 + 5.
Proof.
  split; [exact mixedState_wellFormed|].
  destruct (split_pass_rehomed_cell_holds_only_nutrition 250
              Examples.mixedState mixedState_wellFormed) as (st' & E & H).
  exists st'. vm_compute in E. injection E as <-.
  eexists. split; [reflexivity|]. split; [reflexivity|].
  split; [reflexivity|].
  edestruct H with (p := (5, 5)%Z) as (H1 & H2 & _ & H4).
  - reflexivity.
  - reflexivity.
  - vm_compute. discriminate.
  - split; [exact H1|]. split; [exact H2|]. apply H4.
    + intros []; vm_compute; discriminate.
    + intros []; reflexivity.
    + vm_compute. discriminate.
Defined.

End LoopFacts.
(** * Further properties *)

(** ** The wallet, kind by kind *)

Module WalletFacts.
Import JsMath JsMathFacts IntegerFacts EnergyWalletHelper EnergyFacts.

Lemma remove_bounds (w : EnergyWallet) (t : EnergyType)
    (amount : Q) :
  nonNegative w -> 0 <= amount ->
  let '(w', removed) := remove w t amount in
  0 <= removed /\ removed <= get w t /\ removed <= amount /\
  get w' t == get w t - removed /\
  (forall u, u <> t -> get w' u = get w u) /\
  getTotalUnits w' == getTotalUnits w - removed /\
  nonNegative w' /\
  (has w t amount = true -> removed == floor amount) /\
  (wholeUnits w -> wholeUnits w').
Proof.
  intros Hn Ha. unfold remove.
  pose proof (floor_nonneg amount Ha) as Hf.
  pose proof (floor_le amount) as Hfl.
  pose proof (Hn t) as Hc.
  set (removed := min (floor amount) (get w t)).
  assert (Hr : 0 <= removed /\ removed <= get w t /\ removed <= floor amount)
    by (unfold removed; split_min; lra).
  destruct Hr as (R0 & R1 & R2).
  split; [exact R0|]. split; [exact R1|]. split; [lra|].
  split; [now rewrite get_put_same|].
  split; [intros u Hu; apply get_put_other; congruence|].
  split; [rewrite total_put; lra|].
  split; [apply nonNegative_put; [exact Hn | lra]|].
  split.
  - unfold has. intro Hh. destruct (leb_spec (floor amount) (get w t)) as [H|H];
      [|discriminate].
    unfold removed. split_min; lra.
  - intros Hw u. destruct (EnergyType_eq_dec t u) as [<-|Hne].
    + rewrite get_put_same. apply isInteger_minus; [apply Hw|].
      apply isInteger_min; [apply isInteger_floor | apply Hw].
    + rewrite get_put_other by exact Hne. apply Hw.
Qed.

(** X2.  From a wallet without negative counts, [remove] with a request
    that is not negative takes a number of units between zero and the
    stock of the kind, never more than was asked; only the count of that
    kind changes, the total drops by what was taken, no count becomes
    negative, whole counts stay whole, and when [has] answers yes the
    whole floored request is taken. *)
Theorem remove_never_overdraws (w : EnergyWallet) (t : EnergyType)
    (amount : Q) :
  nonNegative w -> 0 <= amount ->
  let '(w', removed) := remove w t amount in
  0 <= removed /\ removed <= get w t /\ removed <= amount /\
  get w' t == get w t - removed /\
  (forall u, u <> t -> get w' u = get w u) /\
  getTotalUnits w' == getTotalUnits w - removed /\
  nonNegative w' /\
  (has w t amount = true -> removed == floor amount) /\
  (wholeUnits w -> wholeUnits w').
Proof. exact (remove_bounds w t amount). Qed.

Lemma remove_never_overdraws_witness :
  let '(w', removed) := remove (mkWallet 2 0 7) NUTRITION_UNIT (19 # 2) in
  removed <= 7 /\ getTotalUnits w' == 9 - removed /\ nonNegative w'.
Proof.
  pose proof (remove_never_overdraws (mkWallet 2 0 7) NUTRITION_UNIT (19 # 2))
    as H.
  cbv zeta in H.
  destruct (remove (mkWallet 2 0 7) NUTRITION_UNIT (19 # 2)) as [w' removed].
  destruct H as (_ & H2 & _ & _ & _ & H6 & H7 & _).
  - intros []; simpl; lra.
  - lra.
  - split; [exact H2|]. split; [|exact H7].
    rewrite H6. unfold getTotalUnits. simpl. lra.
Defined.

Lemma add_bounds (w : EnergyWallet) (t : EnergyType)
    (amount cap : Q) :
  nonNegative w -> getTotalUnits w <= cap -> 0 <= amount ->
  let '(w', added) := add w t amount (Some cap) in
  0 <= added /\ added <= amount /\
  get w' t == get w t + added /\
  (forall u, u <> t -> get w' u = get w u) /\
  getTotalUnits w' == getTotalUnits w + added /\
  getTotalUnits w' <= cap /\
  nonNegative w' /\
  (floor amount <= cap - getTotalUnits w -> added == floor amount) /\
  (wholeUnits w -> isInteger cap = true -> wholeUnits w').
Proof.
  intros Hn Hcap Ha. unfold add.
  pose proof (floor_nonneg amount Ha) as Hf.
  pose proof (floor_le amount) as Hfl.
  pose proof (Hn t) as Hc.
  set (added := min (floor amount) (cap - getTotalUnits w)).
  assert (Hr : 0 <= added /\ added <= floor amount /\
               added <= cap - getTotalUnits w)
    by (unfold added; split_min; lra).
  destruct Hr as (R0 & R1 & R2).
  split; [exact R0|]. split; [lra|].
  split; [now rewrite get_put_same|].
  split; [intros u Hu; apply get_put_other; congruence|].
  split; [rewrite total_put; lra|].
  split; [rewrite total_put; lra|].
  split; [apply nonNegative_put; [exact Hn | lra]|].
  split.
  - intro Hroom. unfold added. split_min; lra.
  - intros Hw Hci u. destruct (EnergyType_eq_dec t u) as [<-|Hne].
    + rewrite get_put_same. apply isInteger_plus; [apply Hw|].
      apply isInteger_min; [apply isInteger_floor|].
      apply isInteger_minus; [exact Hci | now apply wholeUnits_total].
    + rewrite get_put_other by exact Hne. apply Hw.
Qed.

(** X3.  Into a wallet without negative counts that holds no more than
    the capacity, [add] with a capacity and a request that is not negative
    puts a number of units between zero and the request; only the count
    of that kind changes, the total grows by what was put and stays
    within the capacity, and the whole floored request goes in when there
    is room for it.  With a whole capacity, whole counts stay whole. *)
Theorem add_respects_capacity (w : EnergyWallet) (t : EnergyType)
    (amount cap : Q) :
  nonNegative w -> getTotalUnits w <= cap -> 0 <= amount ->
  let '(w', added) := add w t amount (Some cap) in
  0 <= added /\ added <= amount /\
  get w' t == get w t + added /\
  (forall u, u <> t -> get w' u = get w u) /\
  getTotalUnits w' == getTotalUnits w + added /\
  getTotalUnits w' <= cap /\
  nonNegative w' /\
  (floor amount <= cap - getTotalUnits w -> added == floor amount) /\
  (wholeUnits w -> isInteger cap = true -> wholeUnits w').
Proof. exact (add_bounds w t amount cap). Qed.

Lemma add_respects_capacity_witness :
  let '(w', added) := add (mkWallet 2 0 7) SUN_UNIT (11 # 2) (Some 12) in
  added <= 11 # 2 /\ getTotalUnits w' <= 12 /\ nonNegative w'.
Proof.
  pose proof (add_respects_capacity (mkWallet 2 0 7) SUN_UNIT (11 # 2) 12)
    as H.
  cbv zeta in H.
  destruct (add (mkWallet 2 0 7) SUN_UNIT (11 # 2) (Some 12)) as [w' added].
  destruct H as (_ & H2 & _ & _ & _ & H6 & H7 & _).
  - intros []; simpl; lra.
  - unfold getTotalUnits. simpl. lra.
  - lra.
  - repeat split; assumption.
Defined.

End WalletFacts.

(** ** Wallets as plain objects *)

Module WalletObjectFacts.
Import JsMath JsMathFacts IntegerFacts EnergyWalletHelper EnergyFacts.
Import EnergyWalletObject.

Lemma typeOfName_typeName (t : EnergyType) : typeOfName (typeName t) = Some t.
Proof. now destruct t. Qed.

Lemma fromObject_whole (obj : PlainObject) :
  forall w, wholeUnits w ->
    wholeUnits
      (fold_left
         (fun wallet entry =>
            match typeOfName (fst entry) with
            | Some type => put wallet type (floor (snd entry))
            | None => wallet
            end) obj w).
Proof.
  induction obj as [|[k v] obj IH]; intros w Hw; simpl; [exact Hw|].
  apply IH. destruct (typeOfName k) as [t|]; [|exact Hw].
  intro u. destruct (EnergyType_eq_dec t u) as [<-|Hne].
  - rewrite get_put_same. apply isInteger_floor.
  - rewrite get_put_other by exact Hne. apply Hw.
Qed.

(** X4.  A wallet of whole counts written by [toObject] and read back by
    [fromObject] has the same three counts, negative ones included, and
    [clone] gives the same wallet; whatever the object, the wallet that
    [fromObject] reads has whole counts. *)
Theorem wallet_object_round_trip (w : EnergyWallet) :
  wholeUnits w ->
  (forall t, get (fromObject (toObject w)) t == get w t) /\
  clone w = w /\
  (forall obj, wholeUnits (fromObject obj)).
Proof.
  intro Hw. split; [|split].
  - intro t. pose proof (Hw t) as Ht. apply floor_of_integer in Ht.
    rewrite <- Ht. destruct w as [a b c]. destruct t; reflexivity.
  - now destruct w.
  - intro obj. apply fromObject_whole. intros []; reflexivity.
Qed.

Lemma wallet_object_round_trip_witness :
  get (fromObject (toObject (mkWallet 3 (-(2)) 5))) SOIL_UNIT == -(2).
Proof.
  apply (proj1 (wallet_object_round_trip (mkWallet 3 (-(2)) 5)
                  (fun t => match t with
                            | SUN_UNIT => eq_refl
                            | SOIL_UNIT => eq_refl
                            | NUTRITION_UNIT => eq_refl
                            end)) SOIL_UNIT).
Defined.

End WalletObjectFacts.

(** ** Cells in good order *)

Module CellOrderFacts.
Import JsMath JsMathFacts IntegerFacts EnergyWalletHelper EnergyFacts.
Import CellFacts RehomeFacts WalletFacts CellUse.

Lemma capacity_whole (f : Fungus.t) :
  isInteger (pink (Fungus.dna f)) = true ->
  isInteger (Cell.updateMaxEnergy f) = true.
Proof.
  intro H. apply isInteger_iff in H. destruct H as [z Hz].
  apply isInteger_iff. exists (300 + 27 * z)%Z.
  unfold Cell.updateMaxEnergy. cbv zeta.
  rewrite inject_Z_plus, inject_Z_mult, Hz.
  change (inject_Z 300) with 300. change (inject_Z 27) with 27. field.
Qed.

Lemma create_in_order (x y : Z) (f : Fungus.t) (initialEnergy : Q) :
  0 <= pink (Fungus.dna f) ->
  isInteger (pink (Fungus.dna f)) = true ->
  let c := Cell.create x y f initialEnergy in
  inOrder c /\
  Cell.alive c = true /\ Cell.hasMushroom c = false /\
  Cell.getEnergyOfType c SUN_UNIT == 0 /\
  Cell.getEnergyOfType c SOIL_UNIT == 0 /\
  Cell.getEnergyOfType c NUTRITION_UNIT
  == max 0 (min (floor initialEnergy) (Cell.maxEnergyCapacity c)) /\
  300 <= Cell.maxEnergyCapacity c /\
  (pink (Fungus.dna f) <= 100 -> Cell.maxEnergyCapacity c <= 3000).
Proof.
  intros Hp Hi c.
  pose proof (capacity_whole f Hi) as Hcap.
  assert (Hc300 : 300 <= Cell.updateMaxEnergy f).
  { unfold Cell.updateMaxEnergy. cbv zeta.
    assert (0 <= pink (Fungus.dna f) / 100 * 2700); [|lra].
    apply Qmult_le_0_compat; [|lra].
    apply Qle_shift_div_l; lra. }
  set (cap := Cell.updateMaxEnergy f) in *.
  assert (Hm : isInteger (min (floor initialEnergy) cap) = true)
    by (apply isInteger_min; [apply isInteger_floor | exact Hcap]).
  pose proof (floor_of_integer _ Hm) as Hfl.
  assert (Hn : Cell.getEnergyOfType c NUTRITION_UNIT
               == max 0 (min (floor initialEnergy) cap)).
  { unfold c, Cell.create, Cell.getEnergyOfType, set. simpl. fold cap.
    destruct (max_cases 0 (floor (min (floor initialEnergy) cap)))
      as [[A ->]|[A ->]];
      destruct (max_cases 0 (min (floor initialEnergy) cap))
        as [[B ->]|[B ->]]; lra. }
  assert (Hn0 : 0 <= max 0 (min (floor initialEnergy) cap) <= cap).
  { destruct (max_cases 0 (min (floor initialEnergy) cap))
      as [[B ->]|[B ->]]; split; try lra. split_min; lra. }
  assert (Hni : isInteger (Cell.getEnergyOfType c NUTRITION_UNIT) = true).
  { unfold c, Cell.create, Cell.getEnergyOfType, set. simpl.
    destruct (max_cases 0 (floor (min (floor initialEnergy)
                                      (Cell.updateMaxEnergy f))))
      as [[A ->]|[A ->]]; [reflexivity | apply isInteger_floor]. }
  split; [|repeat split; try reflexivity; try exact Hn; try exact Hc300].
  - split; [|split; [|split]].
    + intros []; try (simpl; lra).
      change (0 <= Cell.getEnergyOfType c NUTRITION_UNIT). lra.
    + intros []; try reflexivity. exact Hni.
    + exact Hcap.
    + change (Cell.getEnergyOfType c SUN_UNIT
              + Cell.getEnergyOfType c SOIL_UNIT
              + Cell.getEnergyOfType c NUTRITION_UNIT <= cap).
      rewrite Hn. change (Cell.getEnergyOfType c SUN_UNIT) with 0.
      change (Cell.getEnergyOfType c SOIL_UNIT) with 0. lra.
  - intro H100. change (Cell.maxEnergyCapacity c) with cap.
    unfold cap, Cell.updateMaxEnergy. cbv zeta.
    assert (pink (Fungus.dna f) / 100 * 2700 <= 2700); [|lra].
    assert (pink (Fungus.dna f) / 100 <= 1)
      by (apply Qle_shift_div_r; lra).
    nra.
Qed.

(** X5.  A cell made by the constructor for a fungus whose pink trait is
    not negative is alive and without a mushroom; it holds no Sun and no
    Soil, and as Nutrition the floored initial energy, cut to its
    capacity, floored again and raised to zero.  Its counts are whole and
    not negative and sum to no more than its capacity, which is at least
    300, and at most 3000 when pink is at most 100.  When the capacity is
    a whole number the cell is in good order and the second floor changes
    nothing. *)
Theorem new_cell_in_order (x y : Z) (f : Fungus.t) (initialEnergy : Q) :
  0 <= pink (Fungus.dna f) ->
  let c := Cell.create x y f initialEnergy in
  Cell.alive c = true /\ Cell.hasMushroom c = false /\
  Cell.getEnergyOfType c SUN_UNIT == 0 /\
  Cell.getEnergyOfType c SOIL_UNIT == 0 /\
  Cell.getEnergyOfType c NUTRITION_UNIT
  == max 0 (floor (min (floor initialEnergy) (Cell.maxEnergyCapacity c))) /\
  nonNegative (Cell.energyWallet c) /\
  wholeUnits (Cell.energyWallet c) /\
  Cell.getEnergy c <= Cell.maxEnergyCapacity c /\
  300 <= Cell.maxEnergyCapacity c /\
  (pink (Fungus.dna f) <= 100 -> Cell.maxEnergyCapacity c <= 3000) /\
  (isInteger (Cell.maxEnergyCapacity c) = true ->
   inOrder c /\
   Cell.getEnergyOfType c NUTRITION_UNIT
   == max 0 (min (floor initialEnergy) (Cell.maxEnergyCapacity c))).
Proof.
  intros Hp c.
  assert (Hc300 : 300 <= Cell.updateMaxEnergy f).
  { unfold Cell.updateMaxEnergy. cbv zeta.
    assert (0 <= pink (Fungus.dna f) / 100 * 2700); [|lra].
    apply Qmult_le_0_compat; [|lra].
    apply Qle_shift_div_l; lra. }
  change (Cell.maxEnergyCapacity c) with (Cell.updateMaxEnergy f).
  set (cap := Cell.updateMaxEnergy f) in *.
  set (m := min (floor initialEnergy) cap).
  assert (Hn : Cell.getEnergyOfType c NUTRITION_UNIT == max 0 (floor m))
    by reflexivity.
  pose proof (floor_le m) as Hfl.
  assert (Hm : m <= cap) by (unfold m; split_min; lra).
  assert (Hn0 : 0 <= max 0 (floor m) <= cap).
  { destruct (max_cases 0 (floor m)) as [[B ->]|[B ->]]; split; lra. }
  assert (Hni : isInteger (Cell.getEnergyOfType c NUTRITION_UNIT) = true).
  { unfold c, Cell.create, Cell.getEnergyOfType, set. simpl.
    fold cap. fold m.
    destruct (max_cases 0 (floor m)) as [[A ->]|[A ->]];
      [reflexivity | apply isInteger_floor]. }
  assert (Hnn : nonNegative (Cell.energyWallet c)).
  { intros []; try (simpl; lra).
    change (0 <= Cell.getEnergyOfType c NUTRITION_UNIT). lra. }
  assert (Hw : wholeUnits (Cell.energyWallet c)).
  { intros []; try reflexivity. exact Hni. }
  assert (Ht : Cell.getEnergy c <= cap).
  { change (Cell.getEnergyOfType c SUN_UNIT
            + Cell.getEnergyOfType c SOIL_UNIT
            + Cell.getEnergyOfType c NUTRITION_UNIT <= cap).
    rewrite Hn. change (Cell.getEnergyOfType c SUN_UNIT) with 0.
    change (Cell.getEnergyOfType c SOIL_UNIT) with 0. lra. }
  split; [reflexivity|]. split; [reflexivity|].
  split; [reflexivity|]. split; [reflexivity|].
  split; [exact Hn|]. split; [exact Hnn|]. split; [exact Hw|].
  split; [exact Ht|]. split; [exact Hc300|]. split.
  - intro H100. unfold cap, Cell.updateMaxEnergy. cbv zeta.
    assert (pink (Fungus.dna f) / 100 * 2700 <= 2700); [|lra].
    assert (pink (Fungus.dna f) / 100 <= 1)
      by (apply Qle_shift_div_r; lra).
    nra.
  - intro Hcap. split.
    + split; [exact Hnn|]. split; [exact Hw|]. split; [exact Hcap|exact Ht].
    + rewrite Hn.
      assert (Hmi : isInteger m = true)
        by (apply isInteger_min; [apply isInteger_floor | exact Hcap]).
      pose proof (floor_of_integer _ Hmi) as Hfm.
      destruct (max_cases 0 (floor m)) as [[A ->]|[A ->]];
        destruct (max_cases 0 m) as [[B ->]|[B ->]]; lra.
Qed.

Lemma new_cell_in_order_witness :
  let c := Cell.create 4 7 (Fungus.mk 0 (mkDna 50 50 50 50 10 40 0) 0) 650 in
  inOrder c /\ Cell.getEnergyOfType c NUTRITION_UNIT == 570 /\
  Cell.getEnergy c <= Cell.maxEnergyCapacity c.
Proof.
  intro c.
  destruct (new_cell_in_order 4 7 (Fungus.mk 0 (mkDna 50 50 50 50 10 40 0) 0)
              650) as (_ & _ & _ & _ & _ & _ & _ & H8 & _ & _ & H11).
  - simpl. lra.
  - fold c in H8, H11. destruct (H11 eq_refl) as [H1 H6].
    split; [exact H1|]. split; [rewrite H6; reflexivity | exact H8].
Defined.

Lemma addEnergy_order (c : Cell.t) (amount : Q) (t : EnergyType) :
  inOrder c -> 0 <= amount ->
  let '(c', added) := Cell.addEnergy c amount t in
  inOrder c' /\ 0 <= added /\ added <= amount /\
  (floor amount <= Cell.maxEnergyCapacity c - Cell.getEnergy c ->
   added == floor amount) /\
  Cell.getEnergy c' == Cell.getEnergy c + added /\
  Cell.getEnergyOfType c' t == Cell.getEnergyOfType c t + added /\
  (forall u, u <> t -> Cell.getEnergyOfType c' u = Cell.getEnergyOfType c u) /\
  Cell.alive c' = Cell.alive c /\
  Cell.maxEnergyCapacity c' = Cell.maxEnergyCapacity c /\
  Cell.getPositionKey c' = Cell.getPositionKey c /\
  Cell.fungus c' = Cell.fungus c.
Proof.
  intros (Hn & Hw & Hci & Hcap) Ha. unfold Cell.addEnergy.
  pose proof (add_bounds (Cell.energyWallet c) t amount
                (Cell.maxEnergyCapacity c) Hn Hcap Ha) as H.
  cbv zeta in H.
  destruct (add (Cell.energyWallet c) t amount
              (Some (Cell.maxEnergyCapacity c))) as [w' added].
  destruct H as (A1 & A2 & A3 & A4 & A5 & A6 & A7 & A8 & A9).
  split; [|repeat split; try assumption].
  repeat split; try assumption. now apply A9.
Qed.

(** X6.  [addEnergy] with an amount that is not negative keeps a cell
    that is in good order so: it adds between zero and the amount (the
    whole floored amount when there is room), the energy of the cell
    grows by what was added, only in the kind named, and stays within the
    capacity, and the cell is alive after the call exactly when it was
    before: energy does not revive a dead cell. *)
Theorem addEnergy_keeps_order (c : Cell.t) (amount : Q) (t : EnergyType) :
  inOrder c -> 0 <= amount ->
  let '(c', added) := Cell.addEnergy c amount t in
  inOrder c' /\ 0 <= added /\ added <= amount /\
  (floor amount <= Cell.maxEnergyCapacity c - Cell.getEnergy c ->
   added == floor amount) /\
  Cell.getEnergy c' == Cell.getEnergy c + added /\
  Cell.getEnergyOfType c' t == Cell.getEnergyOfType c t + added /\
  (forall u, u <> t -> Cell.getEnergyOfType c' u = Cell.getEnergyOfType c u) /\
  Cell.alive c' = Cell.alive c /\
  Cell.maxEnergyCapacity c' = Cell.maxEnergyCapacity c /\
  Cell.getPositionKey c' = Cell.getPositionKey c /\
  Cell.fungus c' = Cell.fungus c.
Proof. exact (addEnergy_order c amount t). Qed.

Lemma addEnergy_keeps_order_witness :
  let c := Cell.mk 2 3 (Fungus.mk 0 (mkDna 50 50 50 50 0 50 0) 0)
             (mkWallet 3 4 290) 300 0 0 0 0 false false 0 in
  let '(c', added) := Cell.addEnergy c 10 SUN_UNIT in
  Cell.getEnergy c' <= 300 /\ Cell.alive c' = false.
Proof.
  intro c.
  pose proof (addEnergy_keeps_order c 10 SUN_UNIT) as H. cbv zeta in H.
  destruct (Cell.addEnergy c 10 SUN_UNIT) as [c' added].
  destruct H as ((_ & _ & _ & H1) & _ & _ & _ & _ & _ & _ & H5 & H6 & _).
  - split; [intros []; simpl; lra|].
    split; [intros []; reflexivity|].
    split; [reflexivity|]. unfold Cell.getEnergy, getTotalUnits. simpl. lra.
  - lra.
  - rewrite H6 in H1. split; [exact H1 | exact H5].
Defined.

Lemma removeEnergy_order (c : Cell.t) (amount : Q) (t : EnergyType) :
  inOrder c -> 0 <= amount ->
  let '(c', removed) := Cell.removeEnergy c amount t in
  inOrder c' /\ 0 <= removed /\ removed <= Cell.getEnergyOfType c t /\
  removed <= amount /\
  (floor amount <= Cell.getEnergyOfType c t -> removed == floor amount) /\
  Cell.getEnergy c' == Cell.getEnergy c - removed /\
  (Cell.getEnergy c == removed -> Cell.alive c' = false) /\
  (removed < Cell.getEnergy c ->
   Cell.alive c' = Cell.alive c /\
   Cell.getEnergyOfType c' t == Cell.getEnergyOfType c t - removed /\
   forall u, u <> t ->
     Cell.getEnergyOfType c' u = Cell.getEnergyOfType c u) /\
  Cell.maxEnergyCapacity c' = Cell.maxEnergyCapacity c /\
  Cell.getPositionKey c' = Cell.getPositionKey c /\
  Cell.fungus c' = Cell.fungus c.
Proof.
  intros (Hn & Hw & Hci & Hcap) Ha. unfold Cell.removeEnergy.
  pose proof (remove_bounds (Cell.energyWallet c) t amount Hn Ha)
    as H.
  cbv zeta in H.
  destruct (remove (Cell.energyWallet c) t amount) as [w' removed].
  destruct H as (R1 & R2 & R3 & R4 & R5 & R6 & R7 & R8 & R9).
  specialize (R9 Hw).
  assert (Hpos : 0 <= getTotalUnits (Cell.energyWallet c)).
  { destruct (nonNegative_fields _ Hn) as (N1 & N2 & N3).
    unfold getTotalUnits. lra. }
  assert (Hall : floor amount <= Cell.getEnergyOfType c t ->
                 removed == floor amount).
  { intro Hle. apply R8. unfold has.
    destruct (leb_spec (floor amount) (get (Cell.energyWallet c) t));
      [reflexivity | contradiction]. }
  unfold Cell.getEnergy in *. simpl.
  destruct (eqb_spec (getTotalUnits w') 0) as [E|E]; simpl.
  - split; [|repeat split; try assumption; try lra].
    + repeat split; try assumption.
      * intros []; simpl; lra.
      * intros []; reflexivity.
      * unfold Cell.getEnergy, getTotalUnits in *. simpl in *. lra.
    + unfold Cell.getEnergy, getTotalUnits in *. simpl in *. lra.
  - split; [|repeat split; try assumption; try lra].
    + repeat split; try assumption.
      unfold Cell.getEnergy in *. simpl. lra.
Qed.

(** X7.  [removeEnergy] with an amount that is not negative keeps a cell
    that is in good order so, and takes between zero and the stock of
    the kind (the whole floored amount when the stock allows).  When that
    leaves the cell with no energy of any kind the cell is dead after the
    call; otherwise only the count of that kind has dropped, by what was
    taken, and the cell is alive exactly when it was before. *)
Theorem removeEnergy_kills_at_zero (c : Cell.t) (amount : Q)
    (t : EnergyType) :
  inOrder c -> 0 <= amount ->
  let '(c', removed) := Cell.removeEnergy c amount t in
  inOrder c' /\ 0 <= removed /\ removed <= Cell.getEnergyOfType c t /\
  removed <= amount /\
  (floor amount <= Cell.getEnergyOfType c t -> removed == floor amount) /\
  Cell.getEnergy c' == Cell.getEnergy c - removed /\
  (Cell.getEnergy c == removed -> Cell.alive c' = false) /\
  (removed < Cell.getEnergy c ->
   Cell.alive c' = Cell.alive c /\
   Cell.getEnergyOfType c' t == Cell.getEnergyOfType c t - removed /\
   forall u, u <> t ->
     Cell.getEnergyOfType c' u = Cell.getEnergyOfType c u) /\
  Cell.maxEnergyCapacity c' = Cell.maxEnergyCapacity c /\
  Cell.getPositionKey c' = Cell.getPositionKey c /\
  Cell.fungus c' = Cell.fungus c.
Proof. exact (removeEnergy_order c amount t). Qed.

Lemma removeEnergy_kills_at_zero_witness :
  let c := Cell.mk 2 3 (Fungus.mk 0 (mkDna 50 50 50 50 0 50 0) 0)
             (mkWallet 0 0 6) 300 0 0 0 0 true false 0 in
  let '(c', removed) := Cell.removeEnergy c (13 # 2) NUTRITION_UNIT in
  removed == 6 /\ Cell.alive c' = false.
Proof.
  intro c.
  pose proof (removeEnergy_kills_at_zero c (13 # 2) NUTRITION_UNIT) as H.
  cbv zeta in H.
  assert (E : snd (Cell.removeEnergy c (13 # 2) NUTRITION_UNIT) == 6)
    by reflexivity.
  destruct (Cell.removeEnergy c (13 # 2) NUTRITION_UNIT) as [c' removed].
  simpl in E.
  destruct H as (_ & _ & _ & _ & _ & _ & H6 & _).
  - split; [intros []; simpl; lra|].
    split; [intros []; reflexivity|].
    split; [reflexivity|]. unfold Cell.getEnergy, getTotalUnits. simpl. lra.
  - lra.
  - split; [exact E|]. apply H6. rewrite E. reflexivity.
Defined.

(** X8.  The energy conversion keeps a cell that is in good order so,
    and does not change how much energy it holds.  It kills a cell all of
    whose energy is Sun, and a cell without Sun all of whose energy is
    Soil: the last unit of the converted kind is removed before it is
    added as Nutrition.  In every other case the cell is alive after the
    conversion exactly when it was before. *)
Theorem conversion_keeps_energy_but_may_kill (c : Cell.t) :
  inOrder c ->
  let sun := Cell.getEnergyOfType c SUN_UNIT in
  let soil := Cell.getEnergyOfType c SOIL_UNIT in
  let nutrition := Cell.getEnergyOfType c NUTRITION_UNIT in
  let c' := SimulationEngine.applyEnergyConversion c in
  inOrder c' /\
  Cell.getEnergy c' == Cell.getEnergy c /\
  (0 < sun -> soil + nutrition == 0 -> Cell.alive c' = false) /\
  (sun == 0 -> 0 < soil -> nutrition == 0 -> Cell.alive c' = false) /\
  (0 < nutrition \/ (0 < sun /\ 0 < soil) \/ (sun == 0 /\ soil == 0) ->
   Cell.alive c' = Cell.alive c).
Proof.
  intros Hord sun soil nutrition c'.
  pose proof Hord as (Hn & Hw & Hci & Hcap).
  destruct (nonNegative_fields _ Hn) as (N1 & N2 & N3).
  destruct (wholeUnits_fields _ Hw) as (W1 & W2 & W3).
  assert (Etot : Cell.getEnergy c == sun + soil + nutrition) by reflexivity.
  change (0 <= sun) in N1. change (0 <= soil) in N2.
  change (0 <= nutrition) in N3.
  change (floor sun == sun) in W1. change (floor soil == soil) in W2.
  pose proof W1 as F1. pose proof W2 as F2.
  unfold c', SimulationEngine.applyEnergyConversion. cbv zeta.
  fold (Cell.getEnergyOfType c SUN_UNIT) (Cell.getEnergyOfType c SOIL_UNIT).
  fold sun soil.
  assert (Hstep : forall (t : EnergyType) (v : Q),
            v = Cell.getEnergyOfType c t -> 0 < v -> floor v == v ->
            t <> NUTRITION_UNIT ->
            let r := fst (Cell.addEnergy (fst (Cell.removeEnergy c v t)) v
                            NUTRITION_UNIT) in
            inOrder r /\ Cell.getEnergy r == Cell.getEnergy c /\
            (Cell.getEnergy c == v -> Cell.alive r = false) /\
            (v < Cell.getEnergy c -> Cell.alive r = Cell.alive c)).
  { intros t v Ev Hv Fv Ht r.
    pose proof (removeEnergy_order c v t Hord (Qlt_le_weak _ _ Hv)) as HR.
    cbv zeta in HR. unfold r.
    destruct (Cell.removeEnergy c v t) as [c1 removed]. cbn [fst].
    destruct HR as (O1 & R1 & R2 & R3 & R4 & R5 & R6 & R7 & R8 & _).
    assert (Er : removed == v) by (rewrite <- Ev in R4; rewrite R4; lra).
    pose proof (addEnergy_order c1 v NUTRITION_UNIT O1 (Qlt_le_weak _ _ Hv))
      as HA.
    cbv zeta in HA.
    destruct (Cell.addEnergy c1 v NUTRITION_UNIT) as [c2 added]. cbn [fst].
    destruct HA as (O2 & A1 & A2 & A3 & A4 & _ & _ & A7 & _).
    assert (Ea : added == v).
    { rewrite A3; [exact Fv|]. rewrite R8, R5. lra. }
    split; [exact O2|]. split; [rewrite A4, R5; lra|].
    split.
    - intro H. rewrite A7. apply R6. lra.
    - intro H. rewrite A7. apply R7. lra. }
  destruct (ltb_spec 0 sun) as [Hs|Hs].
  - destruct (Hstep SUN_UNIT sun eq_refl Hs F1) as (S1 & S2 & S3 & S4);
      [discriminate|].
    split; [exact S1|]. split; [exact S2|].
    split; [intros _ H; apply S3; lra|].
    split; [intros H; lra|].
    intros [H|[[_ H]|[H _]]]; try lra; apply S4; lra.
  - destruct (ltb_spec 0 soil) as [Hl|Hl].
    + destruct (Hstep SOIL_UNIT soil eq_refl Hl F2) as (S1 & S2 & S3 & S4);
        [discriminate|].
      split; [exact S1|]. split; [exact S2|].
      split; [intros H; lra|].
      split; [intros _ _ H; apply S3; lra|].
      intros [H|[[H _]|[_ H]]]; try lra; apply S4; lra.
    + split; [exact Hord|]. split; [reflexivity|].
      split; [intros H; lra|]. split; [intros _ H; lra|]. reflexivity.
Qed.

Lemma conversion_keeps_energy_but_may_kill_witness :
  let c := Cell.mk 2 3 (Fungus.mk 0 (mkDna 50 50 50 50 0 50 0) 0)
             (mkWallet 4 0 0) 300 0 0 0 0 true false 0 in
  let c' := SimulationEngine.applyEnergyConversion c in
  Cell.alive c = true /\ Cell.alive c' = false /\ Cell.getEnergy c' == 4.
Proof.
  intros c c'.
  destruct (conversion_keeps_energy_but_may_kill c) as (_ & H2 & H3 & _).
  - split; [intros []; simpl; lra|].
    split; [intros []; reflexivity|].
    split; [reflexivity|]. unfold Cell.getEnergy, getTotalUnits. simpl. lra.
  - split; [reflexivity|]. split.
    + apply H3; simpl; lra.
    + fold c' in H2. rewrite H2. reflexivity.
Defined.

Lemma growMushroom_step (amount : Q) (c : Cell.t) :
  0 <= amount -> Cell.mushroomGrowth c <= 1 ->
  Cell.hasMushroom c = true ->
  let c' := Cell.growMushroom c amount in
  Cell.hasMushroom c' = true /\
  Cell.mushroomGrowth c <= Cell.mushroomGrowth c' /\
  Cell.mushroomGrowth c' <= 1 /\
  (1 <= Cell.mushroomGrowth c + amount -> Cell.mushroomGrowth c' == 1) /\
  Cell.energyWallet c' = Cell.energyWallet c /\
  Cell.alive c' = Cell.alive c.
Proof.
  intros Ha Hg Hm. unfold Cell.growMushroom. rewrite Hm.
  cbn [Cell.hasMushroom Cell.mushroomGrowth Cell.withMushroom
       Cell.energyWallet Cell.alive].
  split; [reflexivity|]. split; [split_min; lra|].
  split; [split_min; lra|]. split; [intro H; split_min; lra|].
  split; reflexivity.
Qed.

(** X9.  The growth of a mushroom never recedes.  For a cell with a
    mushroom grown to at most 1, [n] calls of [growMushroom] with an
    amount that is not negative keep the mushroom, leave its growth
    between what it was and 1, and cost the cell no energy.  The mushroom
    is mature exactly when its growth is 1, a mature mushroom stays
    mature, and one call or more with an amount that fills the growth to
    1 at once makes it mature.  A cell without a mushroom is left as it
    is. *)
Theorem mushroom_growth_over_frames (n : nat) (amount : Q) (c : Cell.t) :
  0 <= amount -> Cell.mushroomGrowth c <= 1 ->
  let c' := growFrames n amount c in
  (Cell.hasMushroom c = true ->
   Cell.hasMushroom c' = true /\
   Cell.mushroomGrowth c <= Cell.mushroomGrowth c' /\
   Cell.mushroomGrowth c' <= 1 /\
   (Cell.isMushroomMature c' = true <-> Cell.mushroomGrowth c' == 1) /\
   (Cell.isMushroomMature c = true -> Cell.isMushroomMature c' = true) /\
   ((1 <= n)%nat -> 1 <= Cell.mushroomGrowth c + amount ->
    Cell.isMushroomMature c' = true) /\
   Cell.energyWallet c' = Cell.energyWallet c /\
   Cell.alive c' = Cell.alive c) /\
  (Cell.hasMushroom c = false -> c' = c).
Proof.
  intros Ha Hg. cbv zeta. split.
  - intro Hm.
    assert (H : Cell.hasMushroom (growFrames n amount c) = true /\
                Cell.mushroomGrowth c
                <= Cell.mushroomGrowth (growFrames n amount c) /\
                Cell.mushroomGrowth (growFrames n amount c) <= 1 /\
                ((1 <= n)%nat -> 1 <= Cell.mushroomGrowth c + amount ->
                 Cell.mushroomGrowth (growFrames n amount c) == 1) /\
                Cell.energyWallet (growFrames n amount c)
                = Cell.energyWallet c /\
                Cell.alive (growFrames n amount c) = Cell.alive c).
    { induction n as [|n IH].
      - simpl. repeat split; try lra; try exact Hm; try exact Hg.
        intro H. lia.
      - destruct IH as (I1 & I2 & I3 & I4 & I5 & I6).
        unfold growFrames in *. simpl Nat.iter.
        set (prev := Nat.iter n (fun cell => Cell.growMushroom cell amount) c)
          in *.
        destruct (growMushroom_step amount prev Ha I3 I1)
          as (S1 & S2 & S3 & S4 & S5 & S6).
        split; [exact S1|]. split; [lra|]. split; [exact S3|].
        split; [|split; congruence].
        intros _ Hone. apply S4. lra. }
    destruct H as (H1 & H2 & H3 & H4 & H5 & H6).
    assert (Hmat : forall d, Cell.hasMushroom d = true ->
              Cell.mushroomGrowth d <= 1 ->
              (Cell.isMushroomMature d = true <-> Cell.mushroomGrowth d == 1)).
    { intros d Hd Hd1. unfold Cell.isMushroomMature. rewrite Hd. simpl.
      destruct (leb_spec 1 (Cell.mushroomGrowth d)) as [L|L]; split; intro H;
        try discriminate; try reflexivity; lra. }
    split; [exact H1|]. split; [exact H2|]. split; [exact H3|].
    split; [apply Hmat; assumption|].
    split.
    { intro Hc. apply (Hmat _ H1 H3).
      apply (Hmat _ Hm Hg) in Hc. lra. }
    split; [|split; assumption].
    intros Hn Hone. apply (Hmat _ H1 H3). now apply H4.
  - intro Hm. induction n as [|n IH]; [reflexivity|].
    unfold growFrames in *. simpl. rewrite IH.
    unfold Cell.growMushroom. now rewrite Hm.
Qed.

Lemma mushroom_growth_over_frames_witness :
  let c := Cell.startMushroom
             (Cell.create 2 3 (Fungus.mk 0 (mkDna 50 50 50 50 0 50 0) 0) 50) in
  Cell.isMushroomMature c = false /\
  Cell.isMushroomMature (growFrames 3 1 c) = true /\
  Cell.getEnergy (growFrames 3 1 c) == 50.
Proof.
  intro c.
  destruct (mushroom_growth_over_frames 3 1 c) as [H _];
    [lra | simpl; lra |].
  destruct (H eq_refl) as (_ & _ & _ & _ & _ & H6 & H7 & _).
  split; [reflexivity|]. split.
  - apply H6; [lia | simpl; lra].
  - unfold Cell.getEnergy. rewrite H7. reflexivity.
Defined.

End CellOrderFacts.

(** ** Trait vectors within bounds *)

Module DnaBoundsFacts.
Import JsMath JsMathFacts IntegerFacts DnaOps DnaFacts DnaUse.

(** X10.  While [TOTAL_POINTS] is a whole number and the cap leaves room
    for it, the traits of the vector that the constructor returns sum to
    [TOTAL_POINTS] for every seven numbers that are not negative and not
    all zero; so do those of the clone of a vector without negative
    traits that is not all zero, and those of the default vector. *)
Theorem constructor_sums_to_total (T : Q) :
  isInteger T = true -> T + 7 <= 7 * MAX_TRAIT_VALUE ->
  (forall g r b y p bl pu,
     0 <= g -> 0 <= r -> 0 <= b -> 0 <= y -> 0 <= p -> 0 <= bl -> 0 <= pu ->
     0 < g + r + b + y + p + bl + pu ->
     getTotal (create T g r b y p bl pu) == T) /\
  (forall d, (forall name, 0 <= getTraitValue d name) -> 0 < getTotal d ->
     getTotal (clone T d) == T) /\
  getTotal (createDefault T) == T.
Proof.
  intros _ H. split; [|split].
  - intros. unfold create. now apply normalize_total.
  - intros d _ _. unfold clone, create. now apply normalize_total.
  - unfold createDefault, create. now apply normalize_total.
Qed.

Lemma constructor_sums_to_total_witness :
  getTotal (create 250 1 1 1 1 0 0 0) == 250 /\
  getTotal (clone 100 (mkDna 25 25 25 25 100 25 25)) == 100 /\
  getTotal (createDefault 250) == 250.
Proof.
  destruct (constructor_sums_to_total 250 eq_refl) as (H1 & _ & H3).
  { unfold MAX_TRAIT_VALUE. lra. }
  destruct (constructor_sums_to_total 100 eq_refl) as (_ & H2 & _).
  { unfold MAX_TRAIT_VALUE. lra. }
  split; [apply H1; lra|]. split; [|exact H3].
  apply H2.
  - intros []; simpl; lra.
  - unfold getTotal. simpl. lra.
Defined.

Lemma normalize_fixed (T : Q) (d : Dna) :
  getTotal d == T -> ~ T == 0 -> normalize T d = d.
Proof.
  intros Ht Hz. unfold normalize.
  destruct (eqb_spec (getTotal d) 0) as [E|E]; [exfalso; apply Hz; lra|].
  destruct (eqb_spec (getTotal d) T) as [E'|E']; [reflexivity | contradiction].
Qed.

(** X11.  [clone] returns the very same traits when they sum to
    [TOTAL_POINTS] and that total is not zero; while the cap leaves room
    for the total, a clone is such a vector, so the clone of a clone is
    the clone. *)
Theorem clone_is_exact_on_normalised (T : Q) (d : Dna) :
  ~ T == 0 ->
  (getTotal d == T -> clone T d = d) /\
  (T + 7 <= 7 * MAX_TRAIT_VALUE -> clone T (clone T d) = clone T d).
Proof.
  intro Hz.
  assert (H : forall e, getTotal e == T -> clone T e = e).
  { intros e He. unfold clone, create.
    rewrite normalize_fixed; [now destruct e | | exact Hz].
    rewrite <- He. unfold getTotal. simpl. reflexivity. }
  split; [apply H|]. intro Hfit. apply H.
  unfold clone, create. now apply normalize_total.
Qed.

Lemma clone_is_exact_on_normalised_witness :
  clone 250 (mkDna 50 50 50 50 0 50 0) = mkDna 50 50 50 50 0 50 0 /\
  clone 100 (clone 100 (mkDna 25 25 25 25 100 25 25))
  = clone 100 (mkDna 25 25 25 25 100 25 25).
Proof.
  split.
  - apply (proj1 (clone_is_exact_on_normalised 250 (mkDna 50 50 50 50 0 50 0)
                    ltac:(lra))). reflexivity.
  - apply (proj2 (clone_is_exact_on_normalised 100
                    (mkDna 25 25 25 25 100 25 25) ltac:(lra))).
    unfold MAX_TRAIT_VALUE. lra.
Defined.

(** *** The array of [mutate] *)

Lemma length_writeTrait (l : list Q) :
  forall i v, length (writeTrait l i v) = length l.
Proof.
  induction l as [|a l IH]; intros [|i] v; simpl; try reflexivity.
  now rewrite IH.
Qed.

Lemma readTrait_write_same (l : list Q) :
  forall i v, (i < length l)%nat -> readTrait (writeTrait l i v) i = v.
Proof.
  unfold readTrait.
  induction l as [|a l IH]; intros [|i] v H; simpl in *; try lia.
  - reflexivity.
  - apply IH. lia.
Qed.

Lemma readTrait_write_other (l : list Q) :
  forall i j v, i <> j -> readTrait (writeTrait l i v) j = readTrait l j.
Proof.
  unfold readTrait.
  induction l as [|a l IH]; intros [|i] [|j] v H; simpl; try reflexivity;
    try congruence.
  apply IH. congruence.
Qed.

Lemma sumTraits_write (l : list Q) :
  forall i v, (i < length l)%nat ->
    sumTraits (writeTrait l i v) == sumTraits l - readTrait l i + v.
Proof.
  unfold readTrait, sumTraits.
  induction l as [|a l IH]; intros [|i] v H; simpl in *; try lia.
  - lra.
  - rewrite IH by lia. lra.
Qed.

Lemma okTrait_write (l : list Q) :
  forall i v, Forall okTrait l -> okTrait v ->
    Forall okTrait (writeTrait l i v).
Proof.
  induction l as [|a l IH]; intros [|i] v Hl Hv; simpl; try constructor;
    inversion Hl; subst; auto.
Qed.

Lemma okTrait_read (l : list Q) (i : nat) :
  Forall okTrait l -> (i < length l)%nat -> okTrait (readTrait l i).
Proof.
  intros Hl Hi. rewrite Forall_forall in Hl. apply Hl.
  unfold readTrait. now apply nth_In.
Qed.

Lemma redrawTarget_differs (tape : Random.Tape) :
  forall fromIndex toIndex toIndex' tape',
    (toIndex < 7)%nat ->
    redrawTarget fromIndex toIndex tape = Some (toIndex', tape') ->
    toIndex' <> fromIndex /\ (toIndex' < 7)%nat.
Proof.
  induction tape as [|r rest IH]; intros f t t' tape' Ht E; simpl in E.
  - destruct (Nat.eqb_spec t f) as [->|Hne]; [discriminate|].
    injection E as <- _. now split.
  - destruct (Nat.eqb_spec t f) as [->|Hne].
    + destruct (Random.unit_interval r) eqn:V; [|discriminate].
      apply (IH f (Random.index r 7) t' tape'); [|exact E].
      now apply (index_below r 7 V).
    + injection E as <- _. now split.
Qed.

Lemma random_unit (tape : Random.Tape) (r : Q) (tape' : Random.Tape) :
  Random.random tape = Some (r, tape') -> Random.unit_interval r = true.
Proof.
  destruct tape as [|r0 rest]; simpl; [discriminate|].
  destruct (Random.unit_interval r0) eqn:V; [|discriminate].
  intros [= <- _]. exact V.
Qed.

Lemma min3_cases (x y z : Q) :
  min3 x y z <= x /\ min3 x y z <= y /\ min3 x y z <= z /\
  (min3 x y z = x \/ min3 x y z = y \/ min3 x y z = z).
Proof.
  unfold min3. fold (min x y). fold (min (min x y) z).
  destruct (min_cases (min x y) z) as [[H1 E1]|[H1 E1]];
    destruct (min_cases x y) as [[H2 E2]|[H2 E2]];
    rewrite E1; try rewrite E2 in *; repeat split; try lra; tauto.
Qed.

Lemma mutationRound_keeps (maxChange : Q) (traits : list Q)
    (tape : Random.Tape) (traits' : list Q) (tape' : Random.Tape) :
  length traits = 7%nat -> Forall okTrait traits -> 0 <= maxChange ->
  mutationRound maxChange traits tape = Some (traits', tape') ->
  length traits' = 7%nat /\ Forall okTrait traits' /\
  sumTraits traits' == sumTraits traits.
Proof.
  intros Hlen Hok Hmax E. unfold mutationRound in E.
  destruct (Random.random tape) as [[r1 tape1]|] eqn:E1; [|discriminate].
  destruct (Random.random tape1) as [[r2 tape2]|] eqn:E2; [|discriminate].
  destruct (redrawTarget (Random.index r1 7) (Random.index r2 7) tape2)
    as [[toIndex tape3]|] eqn:E3; [|discriminate].
  pose proof (index_below r1 7 (random_unit _ _ _ E1) eq_refl) as Hfrom.
  pose proof (index_below r2 7 (random_unit _ _ _ E2) eq_refl) as Hto0.
  change (Z.to_nat 7) with 7%nat in Hfrom, Hto0.
  destruct (redrawTarget_differs _ _ _ _ _ Hto0 E3) as [Hne Hto].
  set (from := Random.index r1 7) in *.
  destruct (leb_spec MAX_TRAIT_VALUE (readTrait traits toIndex)) as [Hfull|Hroom].
  - injection E as <- _. repeat split; try assumption; try reflexivity.
  - destruct (Random.random tape3) as [[r3 tape4]|] eqn:E4; [|discriminate].
    injection E as <- _.
    pose proof (random_unit _ _ _ E4) as V3.
    unfold Random.unit_interval in V3. apply andb_true_iff in V3.
    destruct V3 as [V3 _]. destruct (leb_spec 0 r3) as [Hr3|]; [|discriminate].
    destruct (okTrait_read traits from Hok ltac:(lia)) as (F0 & F1 & F2).
    destruct (okTrait_read traits toIndex Hok ltac:(lia)) as (T0 & T1 & T2).
    set (a := min3 (Random.scaled r3 maxChange + 1) (readTrait traits from)
                (MAX_TRAIT_VALUE - readTrait traits toIndex)).
    assert (Hs : 0 <= Random.scaled r3 maxChange).
    { unfold Random.scaled. apply floor_nonneg.
      now apply Qmult_le_0_compat. }
    assert (Ha : 0 <= a /\ a <= readTrait traits from /\
                 a <= MAX_TRAIT_VALUE - readTrait traits toIndex /\
                 isInteger a = true).
    { destruct (min3_cases (Random.scaled r3 maxChange + 1)
                  (readTrait traits from)
                  (MAX_TRAIT_VALUE - readTrait traits toIndex))
        as (M1 & M2 & M3 & M4).
      fold a in M1, M2, M3, M4.
      repeat split; try assumption.
      - destruct M4 as [->|[->| ->]]; lra.
      - destruct M4 as [->|[->| ->]].
        + apply isInteger_plus; [apply isInteger_floor | reflexivity].
        + exact F2.
        + apply isInteger_minus; [reflexivity | exact T2]. }
    destruct Ha as (A0 & A1 & A2 & A3).
    rewrite (readTrait_write_other traits from toIndex) by congruence.
    split; [now rewrite !length_writeTrait|]. split.
    + apply okTrait_write; [apply okTrait_write; [exact Hok|]|].
      * unfold okTrait in *. repeat split; try lra.
        now apply isInteger_minus.
      * unfold okTrait in *. repeat split; try lra.
        now apply isInteger_plus.
    + rewrite sumTraits_write by (rewrite length_writeTrait; lia).
      rewrite (readTrait_write_other traits from toIndex) by congruence.
      rewrite sumTraits_write by lia. lra.
Qed.

Lemma mutationRounds_keeps (n : nat) (maxChange : Q) :
  forall traits tape traits' tape',
    length traits = 7%nat -> Forall okTrait traits -> 0 <= maxChange ->
    mutationRounds n maxChange traits tape = Some (traits', tape') ->
    length traits' = 7%nat /\ Forall okTrait traits' /\
    sumTraits traits' == sumTraits traits.
Proof.
  induction n as [|n IH]; intros traits tape traits' tape' Hl Hok Hm E;
    simpl in E.
  - injection E as <- _. repeat split; try assumption; try reflexivity.
  - destruct (mutationRound maxChange traits tape) as [[t1 tape1]|] eqn:E1;
      [|discriminate].
    destruct (mutationRound_keeps _ _ _ _ _ Hl Hok Hm E1) as (L1 & O1 & S1).
    destruct (IH _ _ _ _ L1 O1 Hm E) as (L2 & O2 & S2).
    repeat split; try assumption. now rewrite S2.
Qed.

(** X12.  From a parent whose traits are whole numbers from 0 to the cap
    that sum to [TOTAL_POINTS], with a mutation strength that is not
    negative, every result of [mutate] again has whole traits from 0 to
    the cap that sum to [TOTAL_POINTS]: the transfers never take a trait
    below zero or above the cap, and the constructor leaves the result
    as it is. *)
Theorem mutate_keeps_bounds (T : Q) (d : Dna) (s : Q)
    (tape : Random.Tape) (d' : Dna) (tape' : Random.Tape) :
  withinBounds d -> getTotal d == T -> 0 <= s ->
  mutate T d s tape = Some (d', tape') ->
  withinBounds d' /\ getTotal d' == T.
Proof.
  intros Hb Ht Hs E. unfold mutate in E.
  destruct (Random.random tape) as [[r0 tape0]|]; [|discriminate].
  destruct (mutationRounds _ _ _ tape0) as [[traits1 tape1]|] eqn:ER;
    [|discriminate].
  injection E as <- _.
  assert (Hok : Forall okTrait (traitArray d)).
  { unfold traitArray.
    repeat (constructor;
            [first [exact (Hb Tgreen) | exact (Hb Tred) | exact (Hb Tbrown)
                   | exact (Hb Tyellow) | exact (Hb Tpink) | exact (Hb Tblue)
                   | exact (Hb Tpurple)]|]).
    constructor. }
  assert (HT : 0 <= T).
  { rewrite <- Ht. unfold getTotal.
    pose proof (proj1 (Hb Tgreen)). pose proof (proj1 (Hb Tred)).
    pose proof (proj1 (Hb Tbrown)). pose proof (proj1 (Hb Tyellow)).
    pose proof (proj1 (Hb Tpink)). pose proof (proj1 (Hb Tblue)).
    pose proof (proj1 (Hb Tpurple)). simpl in *. lra. }
  assert (Hmax : 0 <= floor (T * s))
    by (apply floor_nonneg; now apply Qmult_le_0_compat).
  destruct (mutationRounds_keeps _ _ (traitArray d) _ _ _ eq_refl Hok Hmax ER)
    as (L & O & S).
  destruct traits1 as [|a0 [|a1 [|a2 [|a3 [|a4 [|a5 [|a6 [|]]]]]]]];
    simpl in L; try discriminate.
  unfold readTrait. simpl nth.
  assert (Hsum : getTotal (mkDna a0 a1 a2 a3 a4 a5 a6) == T).
  { rewrite <- Ht. unfold getTotal. simpl.
    unfold sumTraits, traitArray in S. simpl in S. lra. }
  inversion O as [|? ? O0 O']; subst. inversion O' as [|? ? O1 O'']; subst.
  inversion O'' as [|? ? O2 O3']; subst. inversion O3' as [|? ? O3 O4']; subst.
  inversion O4' as [|? ? O4 O5']; subst. inversion O5' as [|? ? O5 O6']; subst.
  inversion O6' as [|? ? O6 _]; subst.
  unfold create, normalize.
  destruct (eqb_spec (getTotal (mkDna a0 a1 a2 a3 a4 a5 a6)) 0) as [Ez|Ez].
  - assert (Ep : min (T / 7) MAX_TRAIT_VALUE == 0).
    { assert (T == 0) by lra.
      assert (T / 7 == 0) by (rewrite H; reflexivity).
      unfold MAX_TRAIT_VALUE. split_min; lra. }
    cbv zeta. set (p := min (T / 7) MAX_TRAIT_VALUE) in *.
    split.
    + intros []; simpl; unfold MAX_TRAIT_VALUE;
        (split; [lra|]); (split; [lra|]);
        apply (isInteger_ext 0); solve [symmetry; exact Ep | reflexivity].
    + unfold getTotal. simpl. lra.
  - destruct (eqb_spec (getTotal (mkDna a0 a1 a2 a3 a4 a5 a6)) T)
      as [Et|Et]; [|contradiction].
    simpl. split; [|exact Hsum].
    intros []; simpl; assumption.
Qed.

Lemma mutate_keeps_bounds_witness :
  let d := mkDna 50 50 50 50 0 50 0 in
  let tape := [1 # 2; 0; 1 # 7; 1 # 2; 6 # 7; 3 # 7; 1 # 3; 0; 1 # 2; 0] in
  withinBounds d /\
  exists d' tape',
    mutate 250 d (1 # 10) tape = Some (d', tape') /\
    withinBounds d' /\ getTotal d' == 250.
Proof.
  intros d tape.
  assert (Hb : withinBounds d).
  { intros []; simpl; unfold MAX_TRAIT_VALUE;
      (split; [lra|]); (split; [lra | reflexivity]). }
  split; [exact Hb|].
  destruct (mutate 250 d (1 # 10) tape) as [[d' tape']|] eqn:E;
    [|vm_compute in E; discriminate].
  exists d', tape'. split; [reflexivity|].
  apply (mutate_keeps_bounds 250 d (1 # 10) tape d' tape' Hb);
    [reflexivity | lra | exact E].
Defined.

(** ** The colour of a trait vector *)

(** X13.  For a trait vector without negative traits, not all zero, the
    three components of [getDominantColor] are whole numbers of 255ths,
    each from 0 to 255, and the three numerators sum to at least 252 and
    at most 255. *)
Theorem dominant_color_is_normalised (d : Dna) :
  (forall name, 0 <= getTraitValue d name) -> 0 < getTotal d ->
  exists kr kg kb : Z,
    getDominantColor d
    = Some (inject_Z kr / 255, inject_Z kg / 255, inject_Z kb / 255) /\
    (0 <= kr <= 255)%Z /\ (0 <= kg <= 255)%Z /\ (0 <= kb <= 255)%Z /\
    (252 <= kr + kg + kb <= 255)%Z.
Proof.
  intros Hn Ht.
  pose proof (Hn Tgreen) as N1. pose proof (Hn Tred) as N2.
  pose proof (Hn Tbrown) as N3. pose proof (Hn Tyellow) as N4.
  pose proof (Hn Tpink) as N5. pose proof (Hn Tblue) as N6.
  pose proof (Hn Tpurple) as N7.
  unfold getTotal in Ht. simpl in N1, N2, N3, N4, N5, N6, N7.
  unfold getDominantColor. cbv zeta.
  set (r := (red d + pink d) / 2).
  set (g := (green d + yellow d) / 2).
  set (b := (blue d + purple d + brown d) / 3).
  assert (Er : r == (red d + pink d) * (1 # 2)) by (unfold r; field).
  assert (Eg : g == (green d + yellow d) * (1 # 2)) by (unfold g; field).
  assert (Eb : b == (blue d + purple d + brown d) * (1 # 3))
    by (unfold b; field).
  assert (Hr : 0 <= r) by lra.
  assert (Hg : 0 <= g) by lra.
  assert (Hb : 0 <= b) by lra.
  assert (Hpos : 0 < r + g + b) by lra.
  destruct (eqb_spec (r + g + b) 0) as [E|_]; [lra|].
  set (scale := 255 / (r + g + b)).
  assert (Hs : 0 <= scale).
  { unfold scale. apply Qle_shift_div_l; [exact Hpos | lra]. }
  assert (Hsum : r * scale + g * scale + b * scale == 255).
  { unfold scale. field. lra. }
  pose proof (Qmult_le_0_compat _ _ Hr Hs) as Xr.
  pose proof (Qmult_le_0_compat _ _ Hg Hs) as Xg.
  pose proof (Qmult_le_0_compat _ _ Hb Hs) as Xb.
  pose proof (floor_le (r * scale)). pose proof (floor_gt (r * scale)).
  pose proof (floor_le (g * scale)). pose proof (floor_gt (g * scale)).
  pose proof (floor_le (b * scale)). pose proof (floor_gt (b * scale)).
  pose proof (floor_nonneg _ Xr). pose proof (floor_nonneg _ Xg).
  pose proof (floor_nonneg _ Xb).
  exists (Qfloor (r * scale)), (Qfloor (g * scale)), (Qfloor (b * scale)).
  split; [reflexivity|].
  unfold floor in *.
  set (kr := Qfloor (r * scale)) in *.
  set (kg := Qfloor (g * scale)) in *.
  set (kb := Qfloor (b * scale)) in *.
  assert (B : forall z : Z, 0 <= inject_Z z -> (0 <= z)%Z).
  { intros z Hz. change 0 with (inject_Z 0) in Hz. now rewrite <- Zle_Qle in Hz. }
  assert (U : forall z : Z, inject_Z z < 256 -> (z <= 255)%Z).
  { intros z Hz. change 256 with (inject_Z 256) in Hz.
    rewrite <- Zlt_Qlt in Hz. lia. }
  assert (L : forall z : Z, 251 < inject_Z z -> (252 <= z)%Z).
  { intros z Hz. change 251 with (inject_Z 251) in Hz.
    rewrite <- Zlt_Qlt in Hz. lia. }
  split; [split; [apply B; assumption | apply U; lra]|].
  split; [split; [apply B; assumption | apply U; lra]|].
  split; [split; [apply B; assumption | apply U; lra]|].
  split.
  - apply L. rewrite !inject_Z_plus. lra.
  - apply U. rewrite !inject_Z_plus. lra.
Qed.

Lemma dominant_color_is_normalised_witness :
  exists kr kg kb : Z,
    getDominantColor (mkDna 100 10 10 32 32 32 34)
    = Some (inject_Z kr / 255, inject_Z kg / 255, inject_Z kb / 255) /\
    (252 <= kr + kg + kb <= 255)%Z /\
    getDominantColor (mkDna 100 10 10 32 32 32 34)
    = Some (47 / 255, 149 / 255, 57 / 255).
Proof.
  destruct (dominant_color_is_normalised (mkDna 100 10 10 32 32 32 34))
    as (kr & kg & kb & E & _ & _ & _ & H).
  - intros []; simpl; lra.
  - unfold getTotal. simpl. lra.
  - exists kr, kg, kb. split; [exact E|]. split; [exact H|]. reflexivity.
Defined.

End DnaBoundsFacts.

(** ** The shuffle of the growth pass *)

Module ShuffleFacts.
Import JsMath JsMathFacts SimulationEngine DnaFacts DnaBoundsFacts.

Lemma put_at (A : Type) (l1 l2 : list A) (x v : A) (k : nat) :
  length l1 = k ->
  firstn k (l1 ++ x :: l2) ++ v :: skipn (S k) (l1 ++ x :: l2)
  = l1 ++ v :: l2.
Proof.
  intros <-. induction l1 as [|a l1 IH]; simpl; [reflexivity|].
  f_equal. exact IH.
Qed.

Lemma perm_ends (A : Type) (a b : A) (l l' : list A) :
  Permutation (a :: l ++ b :: l') (b :: l ++ a :: l').
Proof.
  transitivity (a :: b :: l ++ l').
  { apply perm_skip. symmetry. apply Permutation_middle. }
  transitivity (b :: a :: l ++ l'); [apply perm_swap|].
  apply perm_skip. apply Permutation_middle.
Qed.

Lemma swap_perm (arr : list Pos) (i j : nat) :
  Permutation (swap arr i j) arr.
Proof.
  unfold swap.
  destruct (nth_error arr i) as [a|] eqn:Ei; [|reflexivity].
  destruct (nth_error arr j) as [b|] eqn:Ej; [|reflexivity].
  destruct (nth_error_split arr i Ei) as (l1 & l2 & -> & Hl1).
  rewrite (put_at _ l1 l2 a b i Hl1).
  destruct (Nat.lt_trichotomy j i) as [Hlt|[->|Hgt]].
  - rewrite nth_error_app1 in Ej by lia.
    destruct (nth_error_split l1 j Ej) as (l3 & l4 & -> & Hl3).
    rewrite <- !app_assoc. cbn [app].
    rewrite (put_at _ l3 (l4 ++ b :: l2) b a j Hl3).
    apply Permutation_app_head. apply perm_ends.
  - rewrite nth_error_app2, Hl1, Nat.sub_diag in Ej by lia.
    simpl in Ej. injection Ej as ->.
    now rewrite (put_at _ l1 l2 b b i Hl1).
  - rewrite nth_error_app2 in Ej by lia.
    destruct (j - length l1)%nat as [|m] eqn:Em; [lia|].
    simpl in Ej.
    destruct (nth_error_split l2 m Ej) as (l3 & l4 & -> & Hl3).
    replace (l1 ++ b :: l3 ++ b :: l4)
      with ((l1 ++ b :: l3) ++ b :: l4)
      by (rewrite <- app_assoc; reflexivity).
    rewrite (put_at _ (l1 ++ b :: l3) l4 b a j)
      by (rewrite length_app; simpl; lia).
    rewrite <- !app_assoc. cbn [app].
    apply Permutation_app_head. apply perm_ends.
Qed.

Lemma shuffle_permutes (i : nat) :
  forall arr tape,
    (forall order tape',
       shuffleFrom i arr tape = Some (order, tape') ->
       Permutation order arr /\ (NoDup arr -> NoDup order)) /\
    (Random.validTape tape = true -> (i <= length tape)%nat ->
     exists order, shuffleFrom i arr tape = Some (order, skipn i tape)).
Proof.
  induction i as [|i IH]; intros arr tape.
  - split.
    + intros order tape' E. simpl in E. injection E as <- _.
      split; [reflexivity | tauto].
    + intros _ _. exists arr. reflexivity.
  - split.
    + intros order tape' E. simpl in E.
      destruct (Random.random tape) as [[r tape1]|]; [|discriminate].
      destruct (proj1 (IH _ _) _ _ E) as [P _].
      assert (Hp : Permutation order arr)
        by (etransitivity; [exact P | apply swap_perm]).
      split; [exact Hp|]. intro Hnd.
      apply (Permutation_NoDup (l := arr)); [now symmetry | exact Hnd].
    + intros Hv Hlen. destruct tape as [|r rest]; simpl in Hlen; [lia|].
      simpl in Hv. apply andb_true_iff in Hv. destruct Hv as [V Hv].
      cbn [shuffleFrom Random.random]. rewrite V.
      destruct (proj2 (IH (swap arr (S i) (Random.index r
                                            (Z.of_nat (S i + 1)))) rest)
                  Hv ltac:(lia)) as [order E].
      exists order. exact E.
Qed.

(** X14.  The order in which the growth pass visits the cells is a
    permutation of the cells of the map: whatever the random draws, the
    shuffle loses no cell and repeats none.  It returns on every tape of
    outcomes of [Math.random] that is long enough, and reads one outcome
    for each index from the last down to 1. *)
Theorem shuffle_is_a_permutation (i : nat) :
  forall arr tape,
    (forall order tape',
       shuffleFrom i arr tape = Some (order, tape') ->
       Permutation order arr /\ (NoDup arr -> NoDup order)) /\
    (Random.validTape tape = true -> (i <= length tape)%nat ->
     exists order, shuffleFrom i arr tape = Some (order, skipn i tape)).
Proof. exact (shuffle_permutes i). Qed.

Lemma shuffle_is_a_permutation_witness :
  exists order,
    shuffleFrom 3 [(0, 0); (1, 0); (2, 0); (3, 0)]%Z [1 # 2; 0; 9 # 10]
    = Some (order, []) /\
    Permutation order [(0, 0); (1, 0); (2, 0); (3, 0)]%Z.
Proof.
  destruct (proj2 (shuffle_is_a_permutation 3
                     [(0, 0); (1, 0); (2, 0); (3, 0)]%Z [1 # 2; 0; 9 # 10])
              eq_refl ltac:(simpl; lia)) as [order E].
  exists order. split; [exact E|].
  exact (proj1 (proj1 (shuffle_is_a_permutation 3 _ _) _ _ E)).
Defined.

End ShuffleFacts.

(** ** Neighbours *)

Module AdjacencyFacts.
Import JsMapFacts JsMapMore Measures SimulationEngine Connectivity.
Import NeighborFacts EngineUse Examples.

(** X15.  Being neighbours is mutual.  When every cell is stored under its
    own position, a neighbour that [getAdjacentCells] finds for a live
    cell of the map is itself a live cell of the map, exactly one step
    away in the eight-neighbourhood, and it finds the first cell among
    its own neighbours. *)
Theorem neighbours_are_mutual (st : SimulationEngine.t) (c n : Cell.t) :
  storedAtOwnKey st ->
  JsMap.get posEqb (posOf c) (cells st) = Some c ->
  Cell.alive c = true ->
  In n (getAdjacentCells st c) ->
  JsMap.get posEqb (posOf n) (cells st) = Some n /\
  Cell.alive n = true /\
  chebyshev (posOf c) (posOf n) = 1%Z /\
  In c (getAdjacentCells st n).
Proof.
  intros Hown Hc Ha Hn.
  apply getAdjacentCells_In in Hn. destruct Hn as [d [Hd [Hget Hal]]].
  unfold getCellAt in Hget. pose proof (Hown _ _ Hget) as Hp.
  split; [now rewrite Hp|]. split; [exact Hal|]. split.
  - rewrite Hp. unfold chebyshev, posOf, Cell.getPositionKey. simpl fst.
    simpl snd. simpl in Hd.
    repeat (destruct Hd as [<-|Hd]; [simpl; lia|]). destruct Hd.
  - apply getAdjacentCells_In. exists (- fst d, - snd d)%Z. split.
    + simpl in Hd.
      repeat (destruct Hd as [<-|Hd]; [simpl; tauto|]). destruct Hd.
    + split; [|exact Ha]. unfold getCellAt.
      unfold posOf, Cell.getPositionKey in Hp. injection Hp as Hx Hy.
      rewrite Hx, Hy. simpl fst. simpl snd.
      replace (Cell.x c + fst d + - fst d)%Z with (Cell.x c) by lia.
      replace (Cell.y c + snd d + - snd d)%Z with (Cell.y c) by lia.
      exact Hc.
Qed.

Lemma neighbours_are_mutual_witness :
  In hostCell (getAdjacentCells (parasiteState 100) (parasiteCell 100)) /\
  In (parasiteCell 100) (getAdjacentCells (parasiteState 100) hostCell).
Proof.
  assert (H : In hostCell
                (getAdjacentCells (parasiteState 100) (parasiteCell 100)))
    by (vm_compute; tauto).
  split; [exact H|].
  apply (neighbours_are_mutual (parasiteState 100) (parasiteCell 100)
           hostCell).
  - intros k c Hk. apply (get_In _ _ posEqb posEqb_eq) in Hk.
    vm_compute in Hk. destruct Hk as [E|[E|[]]]; injection E as <- <-;
      reflexivity.
  - reflexivity.
  - reflexivity.
  - exact H.
Defined.

End AdjacencyFacts.

(** ** The books of the engine *)

Module OrderFacts.
Import JsMapFacts JsMapMore Measures SimulationEngine Connectivity.
Import SporeFacts LineageFacts RehomeFacts RecreateFacts FrameFacts.
Import NeighborFacts EngineUse.

Lemma posEqb_refl (p : Pos) : posEqb p p = true.
Proof. now apply posEqb_eq. Qed.

Lemma posEqb_false (p q : Pos) : posEqb p q = false -> p <> q.
Proof. intros E ->. rewrite posEqb_refl in E. discriminate. Qed.

(** *** The parts of a state after the elementary steps *)

Lemma get_fungi_update (st : SimulationEngine.t) (fid : Z)
    (f : list Pos -> list Pos) (k : Z) :
  JsMap.get Z.eqb k (fungi (updateFungusCells st fid f))
  = option_map
      (fun e => if Z.eqb k fid then mkEntry (fungus e) (f (cellKeys e)) else e)
      (JsMap.get Z.eqb k (fungi st)).
Proof.
  unfold updateFungusCells.
  destruct (JsMap.get Z.eqb fid (fungi st)) as [e|] eqn:E.
  - simpl. destruct (Z.eqb k fid) eqn:Ek.
    + apply Z.eqb_eq in Ek. subst k.
      rewrite (get_set_same _ _ Z.eqb Zeqb_eq), E. reflexivity.
    + apply Z.eqb_neq in Ek.
      rewrite (get_set_other _ _ Z.eqb Zeqb_eq) by exact Ek.
      now destruct (JsMap.get Z.eqb k (fungi st)).
  - destruct (Z.eqb k fid) eqn:Ek.
    + apply Z.eqb_eq in Ek. subst k. now rewrite E.
    + now destruct (JsMap.get Z.eqb k (fungi st)).
Qed.

Lemma keys_fungi_update (st : SimulationEngine.t) (fid : Z)
    (f : list Pos -> list Pos) :
  JsMap.keys (fungi (updateFungusCells st fid f)) = JsMap.keys (fungi st).
Proof.
  unfold updateFungusCells.
  destruct (JsMap.get Z.eqb fid (fungi st)) as [e|] eqn:E; [|reflexivity].
  simpl. apply (keys_set_old _ _ Z.eqb Zeqb_eq).
  apply (get_Some_keys _ _ Z.eqb Zeqb_eq). now exists e.
Qed.

Lemma garden_update (st : SimulationEngine.t) (fid : Z)
    (f : list Pos -> list Pos) :
  garden (updateFungusCells st fid f) = garden st.
Proof.
  unfold updateFungusCells. now destruct (JsMap.get Z.eqb fid (fungi st)).
Qed.

Lemma hasTile_set (g : Garden.t) (x y : Z) (b : bool) (x' y' : Z) :
  Garden.hasTile (Garden.setIsEmpty g x y b) x' y' = Garden.hasTile g x' y'.
Proof.
  unfold Garden.setIsEmpty. now destruct (Garden.hasTile g x y).
Qed.

Lemma isEmpty_set (g : Garden.t) (x y : Z) (b : bool) (p : Pos) :
  Garden.isEmpty (Garden.setIsEmpty g x y b) p
  = if Garden.hasTile g x y && posEqb p (x, y) then b
    else Garden.isEmpty g p.
Proof.
  unfold Garden.setIsEmpty. destruct (Garden.hasTile g x y); reflexivity.
Qed.

Lemma size_set (g : Garden.t) (x y : Z) (b : bool) :
  Garden.size (Garden.setIsEmpty g x y b) = Garden.size g.
Proof.
  unfold Garden.setIsEmpty. now destruct (Garden.hasTile g x y).
Qed.

Lemma garden_addCell (st : SimulationEngine.t) (c : Cell.t) :
  garden (addCell st c)
  = Garden.setIsEmpty (garden st) (Cell.x c) (Cell.y c) false.
Proof.
  cbv beta iota zeta delta [addCell]. simpl garden.
  now rewrite garden_update.
Qed.

Lemma garden_removeCell (st : SimulationEngine.t) (c : Cell.t) :
  garden (removeCell st c)
  = Garden.setIsEmpty (garden st) (Cell.x c) (Cell.y c) true.
Proof.
  cbv beta iota zeta delta [removeCell]. simpl garden.
  now rewrite garden_update.
Qed.

Lemma get_fungi_addCell (st : SimulationEngine.t) (c : Cell.t) (k : Z) :
  JsMap.get Z.eqb k (fungi (addCell st c))
  = option_map
      (fun e => if Z.eqb k (cid c)
                then mkEntry (fungus e) (keyAdd (posOf c) (cellKeys e))
                else e)
      (JsMap.get Z.eqb k (fungi st)).
Proof.
  cbv beta iota zeta delta [addCell]. simpl fungi.
  now rewrite get_fungi_update.
Qed.

Lemma get_fungi_removeCell (st : SimulationEngine.t) (c : Cell.t) (k : Z) :
  JsMap.get Z.eqb k (fungi (removeCell st c))
  = option_map
      (fun e => if Z.eqb k (cid c)
                then mkEntry (fungus e) (keyRemove (posOf c) (cellKeys e))
                else e)
      (JsMap.get Z.eqb k (fungi st)).
Proof.
  cbv beta iota zeta delta [removeCell]. simpl fungi.
  now rewrite get_fungi_update.
Qed.

Lemma keys_fungi_addCell (st : SimulationEngine.t) (c : Cell.t) :
  JsMap.keys (fungi (addCell st c)) = JsMap.keys (fungi st).
Proof.
  cbv beta iota zeta delta [addCell]. simpl fungi.
  now rewrite keys_fungi_update.
Qed.

Lemma keys_fungi_removeCell (st : SimulationEngine.t) (c : Cell.t) :
  JsMap.keys (fungi (removeCell st c)) = JsMap.keys (fungi st).
Proof.
  cbv beta iota zeta delta [removeCell]. simpl fungi.
  now rewrite keys_fungi_update.
Qed.

Lemma ownerAt_set (st : SimulationEngine.t) (c : Cell.t) (p : Pos) :
  option_map cid
    (JsMap.get posEqb p (JsMap.set posEqb (posOf c) c (cells st)))
  = if posEqb p (posOf c) then Some (cid c) else ownerAt st p.
Proof.
  destruct (posEqb p (posOf c)) eqn:E.
  - apply posEqb_eq in E. subst p.
    now rewrite (get_set_same _ _ posEqb posEqb_eq).
  - rewrite (get_set_other _ _ posEqb posEqb_eq)
      by now apply posEqb_false.
    reflexivity.
Qed.

Lemma ownerAt_addCell (st : SimulationEngine.t) (c : Cell.t) (p : Pos) :
  ownerAt (addCell st c) p
  = if posEqb p (posOf c) then Some (cid c) else ownerAt st p.
Proof.
  unfold ownerAt at 1. rewrite cells_addCell. apply ownerAt_set.
Qed.

Lemma ownerAt_removeCell (st : SimulationEngine.t) (c : Cell.t) (p : Pos) :
  NoDup (JsMap.keys (cells st)) ->
  ownerAt (removeCell st c) p
  = if posEqb p (posOf c) then None else ownerAt st p.
Proof.
  intro Hnd. unfold ownerAt at 1. rewrite cells_removeCell.
  destruct (posEqb p (posOf c)) eqn:E.
  - apply posEqb_eq in E. subst p.
    now rewrite (get_delete_same _ _ posEqb posEqb_eq) by exact Hnd.
  - rewrite (get_delete_other _ _ posEqb posEqb_eq)
      by now apply posEqb_false.
    reflexivity.
Qed.

(** *** The private map of a fungus *)

Lemma keyAdd_In (key : Pos) (keys : list Pos) (p : Pos) :
  In p (keyAdd key keys) <-> p = key \/ In p keys.
Proof.
  unfold keyAdd. destruct (existsb (posEqb key) keys) eqn:E.
  - split; [tauto|]. intros [->|H]; [|exact H].
    apply existsb_exists in E. destruct E as [q [Hq E]].
    apply posEqb_eq in E. now subst q.
  - rewrite in_app_iff. simpl. intuition.
Qed.

Lemma keyAdd_NoDup (key : Pos) (keys : list Pos) :
  NoDup keys -> NoDup (keyAdd key keys).
Proof.
  intro Hnd. unfold keyAdd.
  destruct (existsb (posEqb key) keys) eqn:E; [exact Hnd|].
  apply NoDup_app; [exact Hnd | constructor; [tauto | constructor] |].
  intros p Hp [<-|[]].
  assert (existsb (posEqb key) keys = true)
    by (apply existsb_exists; exists key; split;
        [exact Hp | apply posEqb_refl]).
  congruence.
Qed.

Lemma keyRemove_In (key : Pos) (keys : list Pos) (p : Pos) :
  In p (keyRemove key keys) <-> p <> key /\ In p keys.
Proof.
  unfold keyRemove. rewrite filter_In. split.
  - intros [H E]. split; [|exact H]. intros ->.
    rewrite posEqb_refl in E. discriminate.
  - intros [Hne H]. split; [exact H|].
    destruct (posEqb key p) eqn:E; [|reflexivity].
    apply posEqb_eq in E. congruence.
Qed.

Lemma keyRemove_NoDup (key : Pos) (keys : list Pos) :
  NoDup keys -> NoDup (keyRemove key keys).
Proof. intro H. unfold keyRemove. now apply NoDup_filter. Qed.

(** *** The elementary steps keep the books *)

Lemma fungusAt_get (st : SimulationEngine.t) (k : Z) (f : Fungus.t) :
  fungusAt st k = Some f ->
  exists e, JsMap.get Z.eqb k (fungi st) = Some e /\ fungus e = f.
Proof.
  unfold fungusAt. destruct (JsMap.get Z.eqb k (fungi st)) as [e|];
    simpl; [|discriminate].
  intros [= <-]. now exists e.
Qed.

Lemma storeCell_orderly (st : SimulationEngine.t) (c c' : Cell.t) :
  orderly st ->
  JsMap.get posEqb (posOf c) (cells st) = Some c ->
  posOf c' = posOf c -> Cell.fungus c' = Cell.fungus c ->
  orderly (storeCell st c').
Proof.
  intros Ho Hc Hp Hf.
  assert (Hown : forall p, ownerAt (storeCell st c') p = ownerAt st p).
  { intro p. unfold ownerAt at 1, storeCell. simpl cells.
    fold (posOf c'). rewrite ownerAt_set.
    destruct (posEqb p (posOf c')) eqn:E; [|reflexivity].
    apply posEqb_eq in E. subst p. rewrite Hp.
    unfold ownerAt. rewrite Hc. simpl. unfold cid. now rewrite Hf. }
  constructor.
  - unfold storeCell. simpl cells.
    apply (NoDup_keys_set _ _ posEqb posEqb_eq), (ord_cell_keys _ Ho).
  - intros k d H. unfold storeCell in H. simpl cells in H. fold (posOf c') in H.
    change (garden (storeCell st c')) with (garden st).
    change (fungusAt (storeCell st c') (cid d)) with (fungusAt st (cid d)).
    destruct (posEqb k (posOf c')) eqn:E.
    + apply posEqb_eq in E. subst k.
      rewrite (get_set_same _ _ posEqb posEqb_eq) in H. injection H as <-.
      destruct (ord_cells _ Ho _ _ Hc) as (_ & Ht & Hr).
      split; [reflexivity|]. rewrite Hp. split; [exact Ht|].
      unfold cid in *. now rewrite Hf.
    + rewrite (get_set_other _ _ posEqb posEqb_eq) in H
        by now apply posEqb_false.
      exact (ord_cells _ Ho _ _ H).
  - intros p Ht. change (garden (storeCell st c')) with (garden st) in *.
    rewrite (ord_tiles _ Ho p Ht). f_equal.
    unfold JsMap.has, storeCell. simpl cells. fold (posOf c').
    destruct (posEqb p (posOf c')) eqn:E.
    + apply posEqb_eq in E. subst p.
      rewrite (get_set_same _ _ posEqb posEqb_eq). now rewrite Hp, Hc.
    + rewrite (get_set_other _ _ posEqb posEqb_eq)
        by now apply posEqb_false.
      reflexivity.
  - exact (ord_fungus_keys _ Ho).
  - intros k e H. change (fungi (storeCell st c')) with (fungi st) in H.
    destruct (ord_fungi _ Ho _ _ H) as (I & L & N & M).
    split; [exact I|]. split; [exact L|]. split; [exact N|].
    intro p. now rewrite Hown.
Qed.

Lemma addCell_orderly (st : SimulationEngine.t) (c : Cell.t) :
  orderly st ->
  JsMap.get posEqb (posOf c) (cells st) = None ->
  Garden.hasTile (garden st) (Cell.x c) (Cell.y c) = true ->
  fungusAt st (cid c) = Some (Cell.fungus c) ->
  orderly (addCell st c).
Proof.
  intros Ho Hfree Htile Hreg.
  constructor.
  - rewrite cells_addCell.
    apply (NoDup_keys_set _ _ posEqb posEqb_eq), (ord_cell_keys _ Ho).
  - intros k d H. rewrite cells_addCell in H. fold (posOf c) in H.
    rewrite garden_addCell, hasTile_set, fungusAt_addCell.
    destruct (posEqb k (posOf c)) eqn:E.
    + apply posEqb_eq in E. subst k.
      rewrite (get_set_same _ _ posEqb posEqb_eq) in H. injection H as <-.
      split; [reflexivity|]. split; [exact Htile | exact Hreg].
    + rewrite (get_set_other _ _ posEqb posEqb_eq) in H
        by now apply posEqb_false.
      exact (ord_cells _ Ho _ _ H).
  - intros p Ht. rewrite garden_addCell, hasTile_set in Ht.
    rewrite garden_addCell, isEmpty_set, Htile, cells_addCell.
    fold (posOf c). unfold JsMap.has. cbn [andb].
    change (Cell.x c, Cell.y c) with (posOf c).
    destruct (posEqb p (posOf c)) eqn:E.
    + apply posEqb_eq in E. subst p.
      now rewrite (get_set_same _ _ posEqb posEqb_eq).
    + rewrite (get_set_other _ _ posEqb posEqb_eq)
        by now apply posEqb_false.
      exact (ord_tiles _ Ho p Ht).
  - rewrite keys_fungi_addCell. exact (ord_fungus_keys _ Ho).
  - intros k e H. rewrite get_fungi_addCell in H.
    destruct (JsMap.get Z.eqb k (fungi st)) as [e0|] eqn:E0;
      [|discriminate].
    simpl in H. injection H as <-.
    destruct (ord_fungi _ Ho _ _ E0) as (I & L & N & M).
    rewrite nextId_addCell.
    assert (Hnone : ownerAt st (posOf c) = None)
      by (unfold ownerAt; now rewrite Hfree).
    destruct (Z.eqb k (cid c)) eqn:Ek.
    + apply Z.eqb_eq in Ek. cbn [fungus cellKeys].
      split; [exact I|]. split; [exact L|].
      split; [now apply keyAdd_NoDup|].
      intro p. rewrite keyAdd_In, ownerAt_addCell.
      destruct (posEqb p (posOf c)) eqn:Ep.
      * apply posEqb_eq in Ep. subst p. split; [intros _; now rewrite Ek | tauto].
      * apply posEqb_false in Ep. rewrite M. tauto.
    + apply Z.eqb_neq in Ek.
      split; [exact I|]. split; [exact L|]. split; [exact N|].
      intro p. rewrite ownerAt_addCell.
      destruct (posEqb p (posOf c)) eqn:Ep; [|apply M].
      apply posEqb_eq in Ep. subst p. rewrite M, Hnone.
      split; [discriminate | intros [= E]; congruence].
Qed.

Lemma removeCell_orderly (st : SimulationEngine.t) (c : Cell.t) :
  orderly st ->
  JsMap.get posEqb (posOf c) (cells st) = Some c ->
  orderly (removeCell st c).
Proof.
  intros Ho Hc.
  pose proof (ord_cell_keys _ Ho) as Hnd.
  destruct (ord_cells _ Ho _ _ Hc) as (_ & Htile & Hreg).
  constructor.
  - rewrite cells_removeCell.
    now apply (NoDup_keys_delete _ _ posEqb posEqb_eq).
  - intros k d H. rewrite cells_removeCell in H. fold (posOf c) in H.
    rewrite garden_removeCell, hasTile_set, fungusAt_removeCell.
    destruct (posEqb k (posOf c)) eqn:E.
    + apply posEqb_eq in E. subst k.
      rewrite (get_delete_same _ _ posEqb posEqb_eq) in H by exact Hnd.
      discriminate.
    + rewrite (get_delete_other _ _ posEqb posEqb_eq) in H
        by now apply posEqb_false.
      exact (ord_cells _ Ho _ _ H).
  - intros p Ht. rewrite garden_removeCell, hasTile_set in Ht.
    rewrite garden_removeCell, isEmpty_set, cells_removeCell.
    fold (posOf c). unfold JsMap.has.
    change (Cell.x c, Cell.y c) with (posOf c).
    change (Garden.hasTile (garden st) (Cell.x c) (Cell.y c))
      with (Garden.hasTile (garden st) (fst (posOf c)) (snd (posOf c))).
    rewrite Htile. cbn [andb].
    destruct (posEqb p (posOf c)) eqn:E.
    + apply posEqb_eq in E. subst p.
      now rewrite (get_delete_same _ _ posEqb posEqb_eq) by exact Hnd.
    + rewrite (get_delete_other _ _ posEqb posEqb_eq)
        by now apply posEqb_false.
      exact (ord_tiles _ Ho p Ht).
  - rewrite keys_fungi_removeCell. exact (ord_fungus_keys _ Ho).
  - intros k e H. rewrite get_fungi_removeCell in H.
    destruct (JsMap.get Z.eqb k (fungi st)) as [e0|] eqn:E0;
      [|discriminate].
    simpl in H. injection H as <-.
    destruct (ord_fungi _ Ho _ _ E0) as (I & L & N & M).
    rewrite nextId_removeCell.
    assert (Hown : ownerAt st (posOf c) = Some (cid c))
      by (unfold ownerAt; now rewrite Hc).
    destruct (Z.eqb k (cid c)) eqn:Ek.
    + apply Z.eqb_eq in Ek. cbn [fungus cellKeys].
      split; [exact I|]. split; [exact L|].
      split; [now apply keyRemove_NoDup|].
      intro p. rewrite keyRemove_In, ownerAt_removeCell by exact Hnd.
      destruct (posEqb p (posOf c)) eqn:Ep.
      * apply posEqb_eq in Ep. subst p. split; [tauto | discriminate].
      * apply posEqb_false in Ep. rewrite M. tauto.
    + apply Z.eqb_neq in Ek.
      split; [exact I|]. split; [exact L|]. split; [exact N|].
      intro p. rewrite ownerAt_removeCell by exact Hnd.
      destruct (posEqb p (posOf c)) eqn:Ep; [|apply M].
      apply posEqb_eq in Ep. subst p. rewrite M, Hown.
      split; [intros [= E]; congruence | discriminate].
Qed.

Lemma owner_registered (st : SimulationEngine.t) (p : Pos) (k : Z) :
  orderly st -> ownerAt st p = Some k -> (k < nextId st)%Z.
Proof.
  intros Ho H. unfold ownerAt in H.
  destruct (JsMap.get posEqb p (cells st)) as [c|] eqn:E; [|discriminate].
  simpl in H. injection H as <-.
  destruct (ord_cells _ Ho _ _ E) as (_ & _ & Hr).
  destruct (fungusAt_get _ _ _ Hr) as [e [He _]].
  now destruct (ord_fungi _ Ho _ _ He) as (_ & L & _).
Qed.

Lemma register_orderly (st : SimulationEngine.t) (dna : Dna) (gen : Z) :
  orderly st ->
  orderly (registerFungus (fst (newFungus st dna gen))
             (snd (newFungus st dna gen))).
Proof.
  intro Ho. unfold newFungus. cbn [fst snd].
  assert (Hfresh : ~ In (nextId st) (JsMap.keys (fungi st))).
  { intro H. apply (get_Some_keys _ _ Z.eqb Zeqb_eq) in H.
    destruct H as [e He].
    destruct (ord_fungi _ Ho _ _ He) as (_ & L & _). lia. }
  constructor.
  - exact (ord_cell_keys _ Ho).
  - intros k c H. destruct (ord_cells _ Ho _ _ H) as (P & Ht & Hr).
    split; [exact P|]. split; [exact Ht|].
    rewrite fungusAt_registerFungus. cbn [Fungus.id].
    destruct (Z.eqb (cid c) (nextId st)) eqn:E; [|exact Hr].
    apply Z.eqb_eq in E.
    assert (cid c < nextId st)%Z; [|lia].
    apply (owner_registered st k _ Ho). unfold ownerAt.
    change (JsMap.get posEqb k (cells st) = Some c) in H.
    now rewrite H.
  - exact (ord_tiles _ Ho).
  - unfold registerFungus. simpl fungi.
    apply (NoDup_keys_set _ _ Z.eqb Zeqb_eq), (ord_fungus_keys _ Ho).
  - intros k e H. unfold registerFungus in H. simpl fungi in H.
    simpl nextId.
    change (ownerAt (registerFungus (withNextId st (nextId st + 1))
                       (Fungus.mk (nextId st) dna gen)))
      with (ownerAt st).
    destruct (Z.eqb k (nextId st)) eqn:E.
    + apply Z.eqb_eq in E. subst k.
      rewrite (get_set_same _ _ Z.eqb Zeqb_eq) in H. injection H as <-.
      cbn [fungus cellKeys Fungus.id].
      split; [reflexivity|]. split; [lia|]. split; [constructor|].
      intro p. split; [intros []|]. intro Hp.
      pose proof (owner_registered st p _ Ho Hp). lia.
    + apply Z.eqb_neq in E.
      rewrite (get_set_other _ _ Z.eqb Zeqb_eq) in H by exact E.
      destruct (ord_fungi _ Ho _ _ H) as (I & L & N & M).
      split; [exact I|]. split; [lia|]. split; [exact N | exact M].
Qed.

End OrderFacts.

(** ** New colonies *)

Module ColonyFacts.
Import JsMath JsMathFacts JsMapFacts JsMapMore Measures SimulationEngine.
Import Connectivity SporeFacts LineageFacts RehomeFacts RecreateFacts.
Import FrameFacts NeighborFacts EngineUse OrderFacts Examples.
Import EngineExamples.

Lemma has_false_get {V : Type} (p : Pos) (m : JsMap.t Pos V) :
  JsMap.has posEqb p m = false -> JsMap.get posEqb p m = None.
Proof. unfold JsMap.has. now destruct (JsMap.get posEqb p m). Qed.

(** A first cell for a fungus made just now, on a free tile. *)
Lemma found_orderly (st : SimulationEngine.t) (x y : Z) (dna : Dna) :
  orderly st ->
  Garden.hasTile (garden st) x y = true ->
  JsMap.has posEqb (x, y) (cells st) = false ->
  orderly
    (addCell (registerFungus (withNextId st (nextId st + 1))
                (Fungus.mk (nextId st) dna 0))
       (Cell.create x y (Fungus.mk (nextId st) dna 0) 50)).
Proof.
  intros Ho Ht Hfree.
  apply addCell_orderly.
  - exact (register_orderly st dna 0 Ho).
  - apply has_false_get in Hfree. exact Hfree.
  - exact Ht.
  - rewrite fungusAt_registerFungus. unfold cid. simpl.
    now rewrite Z.eqb_refl.
Qed.

(** X16.  [createFungus] on a state whose books agree: it refuses a
    position outside the garden and a position that holds a cell, and
    changes nothing then; otherwise it registers a fungus of generation 0
    under the next identifier, with the trait vector given, and puts its
    first cell at the position, leaving every other cell and fungus as
    it was, and the books still agree. *)
Theorem createFungus_founds_or_refuses (st : SimulationEngine.t) (x y : Z)
    (dna : Dna) :
  orderly st ->
  (Garden.hasTile (garden st) x y = false \/
   JsMap.has posEqb (x, y) (cells st) = true ->
   createFungus st x y dna = (st, None)) /\
  (Garden.hasTile (garden st) x y = true ->
   JsMap.has posEqb (x, y) (cells st) = false ->
   let f := Fungus.mk (nextId st) dna 0 in
   let st' := fst (createFungus st x y dna) in
   snd (createFungus st x y dna) = Some f /\
   fungusAt st' (nextId st) = Some f /\
   getCellAt st' x y = Some (Cell.create x y f 50) /\
   (forall p, p <> (x, y) ->
      JsMap.get posEqb p (cells st') = JsMap.get posEqb p (cells st)) /\
   (forall k, k <> nextId st -> fungusAt st' k = fungusAt st k) /\
   nextId st' = (nextId st + 1)%Z /\
   orderly st').
Proof.
  intro Ho. split.
  - intros H. unfold createFungus.
    destruct (Garden.hasTile (garden st) x y) eqn:Ht; [|reflexivity].
    destruct H as [H|H]; [discriminate|].
    rewrite (ord_tiles _ Ho (x, y) Ht), H. reflexivity.
  - intros Ht Hfree f st'.
    assert (E : createFungus st x y dna
                = (addCell (registerFungus (withNextId st (nextId st + 1)) f)
                     (Cell.create x y f 50), Some f)).
    { unfold createFungus.
      rewrite Ht, (ord_tiles _ Ho (x, y) Ht), Hfree. reflexivity. }
    subst st'. rewrite E. cbn [fst snd].
    split; [reflexivity|]. split.
    { rewrite fungusAt_addCell, fungusAt_registerFungus. simpl.
      now rewrite Z.eqb_refl. }
    split.
    { unfold getCellAt. rewrite cells_addCell.
      apply (get_set_same _ _ posEqb posEqb_eq). }
    split.
    { intros p Hp. rewrite cells_addCell.
      now rewrite (get_set_other _ _ posEqb posEqb_eq) by exact Hp. }
    split.
    { intros k Hk. rewrite fungusAt_addCell, fungusAt_registerFungus.
      simpl. apply Z.eqb_neq in Hk. now rewrite Hk. }
    split; [now rewrite nextId_addCell|].
    now apply found_orderly.
Qed.

Lemma create_orderly (size : Z) : orderly (SimulationEngine.create size).
Proof.
  constructor; simpl.
  - constructor.
  - discriminate.
  - reflexivity.
  - constructor.
  - discriminate.
Qed.

Lemma createFungus_founds_or_refuses_witness :
  let st := fst (createFungus (SimulationEngine.create 20) 5 5 growerDna) in
  createFungus st 5 5 hostDna = (st, None) /\
  createFungus st 20 5 hostDna = (st, None) /\
  snd (createFungus st 6 5 hostDna) = Some (Fungus.mk 1 hostDna 0) /\
  orderly (fst (createFungus st 6 5 hostDna)).
Proof.
  intro st.
  assert (Ho : orderly st).
  { apply (proj2 (createFungus_founds_or_refuses
                    (SimulationEngine.create 20) 5 5 growerDna
                    (create_orderly 20)));
      reflexivity. }
  pose proof (createFungus_founds_or_refuses st 5 5 hostDna Ho) as [R _].
  pose proof (createFungus_founds_or_refuses st 20 5 hostDna Ho) as [R' _].
  pose proof (createFungus_founds_or_refuses st 6 5 hostDna Ho) as [_ F].
  split; [apply R; right; reflexivity|].
  split; [apply R'; left; reflexivity|].
  destruct (F eq_refl eq_refl) as (F1 & _ & _ & _ & _ & _ & F7).
  split; [exact F1 | exact F7].
Defined.

(** *** Germination *)

Lemma germinates_spec (st : SimulationEngine.t) (s : Spore.t) :
  germinates st s = true <->
  Garden.hasTile (garden st) (Spore.x s) (Spore.y s) = true /\
  JsMap.has posEqb (Spore.x s, Spore.y s) (cells st) = false /\
  0 < Spore.lifetime s.
Proof.
  unfold germinates. rewrite !andb_true_iff, negb_true_iff.
  destruct (ltb_spec 0 (Spore.lifetime s));
    intuition (try discriminate; try lra).
Qed.

Lemma germinateSpore_orderly (st : SimulationEngine.t) (s : Spore.t) :
  orderly st -> germinates st s = true -> orderly (germinateSpore st s).
Proof.
  intros Ho Hg. apply germinates_spec in Hg. destruct Hg as (Ht & Hf & _).
  now apply found_orderly.
Qed.

Lemma length_set_new {V : Type} (p : Pos) (v : V) (m : JsMap.t Pos V) :
  JsMap.get posEqb p m = None ->
  length (JsMap.set posEqb p v m) = S (length m).
Proof.
  intro H. apply (get_None_keys _ _ posEqb posEqb_eq) in H.
  rewrite (set_new_key _ _ posEqb posEqb_eq) by exact H.
  rewrite length_app. simpl. lia.
Qed.

Lemma sporeLoop_books (deltaTime : Q) (pending : list Spore.t) :
  forall (st : SimulationEngine.t) (remaining : list Spore.t),
  orderly st ->
  let st' := fst (sporeLoop pending deltaTime st remaining) in
  orderly st' /\
  (forall p c, JsMap.get posEqb p (cells st) = Some c ->
     JsMap.get posEqb p (cells st') = Some c) /\
  (forall p c, JsMap.get posEqb p (cells st') = Some c ->
     JsMap.get posEqb p (cells st) = Some c \/
     exists s, In s pending /\ p = (Spore.x s, Spore.y s) /\
       0 < Spore.lifetime s - deltaTime /\
       (nextId st <= cid c < nextId st')%Z /\
       c = Cell.create (Spore.x s) (Spore.y s)
             (Fungus.mk (cid c) (Spore.dna s) 0) 50) /\
  (nextId st <= nextId st')%Z /\
  Z.of_nat (length (cells st'))
  = (Z.of_nat (length (cells st)) + (nextId st' - nextId st))%Z.
Proof.
  induction pending as [|s rest IH]; intros st remaining Ho; cbn zeta.
  - simpl. split; [exact Ho|]. split; [tauto|]. split; [tauto|].
    split; lia.
  - cbn [sporeLoop].
    destruct (germinates st (Spore.age deltaTime s)) eqn:Hg.
    + pose proof (germinateSpore_orderly _ _ Ho Hg) as Ho1.
      apply germinates_spec in Hg. destruct Hg as (Ht & Hf & Hl).
      simpl in Ht, Hf, Hl. apply has_false_get in Hf.
      specialize (IH (germinateSpore st (Spore.age deltaTime s)) remaining
                    Ho1).
      cbn zeta in IH. destruct IH as (I1 & I2 & I3 & I4 & I5).
      rewrite nextId_germinateSpore in I3, I4, I5.
      rewrite cells_germinateSpore in I2, I3, I5. simpl in I2, I3, I5.
      split; [exact I1|]. split.
      { intros p c H. apply I2.
        rewrite (get_set_other _ _ posEqb posEqb_eq); [exact H|].
        intros ->. congruence. }
      split.
      { intros p c H.
        destruct (I3 p c H) as [H1|[s' (Hs & Hp & Hl' & Hn & Hc)]].
        - destruct (posEqb p (Spore.x s, Spore.y s)) eqn:Ep.
          + apply posEqb_eq in Ep. subst p.
            rewrite (get_set_same _ _ posEqb posEqb_eq) in H1.
            injection H1 as <-. right. exists s.
            split; [now left|]. split; [reflexivity|].
            split; [exact Hl|]. split; [unfold cid; simpl; lia|].
            reflexivity.
          + rewrite (get_set_other _ _ posEqb posEqb_eq) in H1
              by now apply posEqb_false.
            now left.
        - right. exists s'. split; [now right|]. split; [exact Hp|].
          split; [exact Hl'|]. split; [lia | exact Hc]. }
      split; [lia|].
      rewrite length_set_new in I5 by exact Hf. lia.
    + destruct (ltb 0 (Spore.lifetime (Spore.age deltaTime s)));
        (specialize (IH st) with (1 := Ho); cbn zeta in IH;
         match goal with
         | |- context [sporeLoop rest deltaTime st ?r] =>
             destruct (IH r) as (I1 & I2 & I3 & I4 & I5)
         end;
         split; [exact I1|]; split; [exact I2|]; split;
         [|split; [exact I4 | exact I5]];
         intros p c H; destruct (I3 p c H)
           as [H1|[s' (Hs & Hp & Hl' & Hn & Hc)]];
         [now left|];
         right; exists s'; split; [now right|]; tauto).
Qed.

Lemma updateSpores_books (st : SimulationEngine.t)
    (deltaTime : Q) :
  orderly st ->
  let st' := updateSpores st deltaTime in
  orderly st' /\
  (forall p c, JsMap.get posEqb p (cells st) = Some c ->
     JsMap.get posEqb p (cells st') = Some c) /\
  (forall p c, JsMap.get posEqb p (cells st') = Some c ->
     JsMap.get posEqb p (cells st) = Some c \/
     exists s, In s (spores st) /\ p = (Spore.x s, Spore.y s) /\
       0 < Spore.lifetime s - deltaTime /\
       (nextId st <= cid c < nextId st')%Z /\
       c = Cell.create (Spore.x s) (Spore.y s)
             (Fungus.mk (cid c) (Spore.dna s) 0) 50) /\
  Z.of_nat (length (cells st'))
  = (Z.of_nat (length (cells st)) + (nextId st' - nextId st))%Z.
Proof.
  intros Ho st'.
  destruct (sporeLoop_books deltaTime (spores st) st [] Ho)
    as (I1 & I2 & I3 & I4 & I5).
  subst st'. unfold updateSpores.
  destruct (sporeLoop (spores st) deltaTime st []) as [st1 rem].
  cbn [fst] in *.
  split.
  { destruct I1 as [A B C D E]. constructor; assumption. }
  split; [exact I2|]. split; [exact I3 | exact I5].
Qed.

(** X17.  [updateSpores] on a state whose books agree leaves every cell
    of the map in place and unchanged.  Every cell that it adds is the
    first cell, made with 50 units, of a fungus of generation 0 with a
    fresh identifier, at the position of a spore that had lifetime left;
    the cell map grows by exactly as many cells as identifiers were
    taken, and the books still agree. *)
Theorem germination_adds_single_cell_colonies (st : SimulationEngine.t)
    (deltaTime : Q) :
  orderly st ->
  let st' := updateSpores st deltaTime in
  orderly st' /\
  (forall p c, JsMap.get posEqb p (cells st) = Some c ->
     JsMap.get posEqb p (cells st') = Some c) /\
  (forall p c, JsMap.get posEqb p (cells st') = Some c ->
     JsMap.get posEqb p (cells st) = Some c \/
     exists s, In s (spores st) /\ p = (Spore.x s, Spore.y s) /\
       0 < Spore.lifetime s - deltaTime /\
       (nextId st <= cid c < nextId st')%Z /\
       c = Cell.create (Spore.x s) (Spore.y s)
             (Fungus.mk (cid c) (Spore.dna s) 0) 50) /\
  Z.of_nat (length (cells st'))
  = (Z.of_nat (length (cells st)) + (nextId st' - nextId st))%Z.
Proof. exact (updateSpores_books st deltaTime). Qed.

Lemma foundedState_orderly : orderly foundedState.
Proof.
  unfold foundedState.
  apply (found_orderly (SimulationEngine.create 20) 5 5 growerDna
           (create_orderly 20)); reflexivity.
Qed.

Lemma germination_adds_single_cell_colonies_witness :
  orderly (updateSpores sporeField 1) /\
  Z.of_nat (length (cells (updateSpores sporeField 1))) = 2%Z.
Proof.
  assert (Ho : orderly sporeField).
  { destruct foundedState_orderly as [A B C D E]. constructor; assumption. }
  destruct (germination_adds_single_cell_colonies sporeField 1 Ho)
    as (H1 & _ & _ & H4).
  split; [exact H1 | exact H4].
Defined.

End ColonyFacts.

(** ** Growth *)

Module ExpansionFacts.
Import JsMath JsMathFacts IntegerFacts JsMapFacts JsMapMore.
Import EnergyWalletHelper Measures SimulationEngine Connectivity.
Import DnaFacts SporeFacts LineageFacts RehomeFacts RecreateFacts FrameFacts.
Import CellUse CellOrderFacts EngineUse OrderFacts ColonyFacts Examples.
Import EngineExamples.

Lemma emptyPositions_In (st : SimulationEngine.t) (cell : Cell.t)
    (pos : Pos) :
  In pos (getEmptyAdjacentPositions st cell) <->
  manhattan (posOf cell) pos = 1%Z /\
  (0 <= fst pos < gridSize st)%Z /\ (0 <= snd pos < gridSize st)%Z /\
  Garden.hasTile (garden st) (fst pos) (snd pos) = true /\
  Garden.isEmpty (garden st) pos = true /\
  JsMap.has posEqb pos (cells st) = false.
Proof.
  unfold getEmptyAdjacentPositions. rewrite in_flat_map. split.
  - intros [d [Hd H]]. cbv zeta in H.
    destruct ((Cell.x cell + fst d <? 0)%Z || (Cell.y cell + snd d <? 0)%Z
              || (Cell.x cell + fst d >=? gridSize st)%Z
              || (Cell.y cell + snd d >=? gridSize st)%Z) eqn:Eb;
      [destruct H|].
    destruct (Garden.hasTile (garden st) (Cell.x cell + fst d)
                (Cell.y cell + snd d)) eqn:Et; [|destruct H].
    destruct (Garden.isEmpty (garden st)
                (Cell.x cell + fst d, Cell.y cell + snd d)%Z) eqn:Ee;
      [|destruct H].
    destruct (JsMap.has posEqb (Cell.x cell + fst d, Cell.y cell + snd d)%Z
                (cells st)) eqn:Eh; [destruct H|].
    destruct H as [<-|[]]. cbn [fst snd].
    apply orb_false_iff in Eb. destruct Eb as [Eb E4].
    apply orb_false_iff in Eb. destruct Eb as [Eb E3].
    apply orb_false_iff in Eb. destruct Eb as [E1 E2].
    split.
    { unfold manhattan, posOf, Cell.getPositionKey. cbn [fst snd].
      simpl in Hd.
      repeat (destruct Hd as [<-|Hd]; [simpl; lia|]). destruct Hd. }
    repeat split; try assumption; lia.
  - intros (Hm & Hx & Hy & Ht & He & Hh).
    destruct pos as [px py]. cbn [fst snd] in *.
    unfold manhattan, posOf, Cell.getPositionKey in Hm. cbn [fst snd] in Hm.
    exists (px - Cell.x cell, py - Cell.y cell)%Z. split.
    { unfold cardinalOffsets.
      assert (H : ((px - Cell.x cell = -1 /\ py - Cell.y cell = 0) \/
                  (px - Cell.x cell = 1 /\ py - Cell.y cell = 0) \/
                  (px - Cell.x cell = 0 /\ py - Cell.y cell = -1) \/
                  (px - Cell.x cell = 0 /\ py - Cell.y cell = 1))%Z) by lia.
      destruct H as [[-> ->]|[[-> ->]|[[-> ->]|[-> ->]]]]; simpl; tauto. }
    cbv zeta. cbn [fst snd].
    replace (Cell.x cell + (px - Cell.x cell))%Z with px by lia.
    replace (Cell.y cell + (py - Cell.y cell))%Z with py by lia.
    replace ((px <? 0)%Z || (py <? 0)%Z || (px >=? gridSize st)%Z
             || (py >=? gridSize st)%Z) with false
      by (symmetry; rewrite !orb_false_iff; repeat split; lia).
    rewrite Ht, He, Hh. now left.
Qed.

Lemma removeEnergy_same_place (c : Cell.t) (amount : Q) (t : EnergyType) :
  posOf (fst (Cell.removeEnergy c amount t)) = posOf c /\
  Cell.fungus (fst (Cell.removeEnergy c amount t)) = Cell.fungus c /\
  Cell.hasMushroom (fst (Cell.removeEnergy c amount t)) = Cell.hasMushroom c.
Proof.
  unfold Cell.removeEnergy.
  destruct (remove (Cell.energyWallet c) t amount) as [w r]. cbn [fst].
  destruct (eqb (Cell.getEnergy (Cell.withWallet c w)) 0); now repeat split.
Qed.

Lemma expansion_returns (st : SimulationEngine.t) (cell : Cell.t)
    (tape : Random.Tape) :
  Random.validTape tape = true -> (1 <= length tape)%nat ->
  exists st' ok tape',
    attemptExpansion st cell tape = Some (st', ok, tape') /\
    (length tape <= length tape' + 1)%nat /\
    Random.validTape tape' = true.
Proof.
  intros Hv Hl. unfold attemptExpansion. cbv zeta.
  destruct (ltb _ _); [exists st, false, tape; repeat split; [lia|exact Hv]|].
  destruct (getEmptyAdjacentPositions st cell) as [|p ps];
    [exists st, false, tape; repeat split; [lia|exact Hv]|].
  destruct tape as [|r rest]; [simpl in Hl; lia|].
  simpl in Hv. apply andb_true_iff in Hv. destruct Hv as [V Hv].
  cbn [Random.random]. rewrite V.
  eexists _, true, rest. split; [reflexivity|]. split; [simpl; lia|exact Hv].
Qed.

Lemma expansion_effect (st : SimulationEngine.t) (cell : Cell.t)
    (tape : Random.Tape) (st' : SimulationEngine.t) (ok : bool)
    (tape' : Random.Tape) :
  orderly st ->
  JsMap.get posEqb (posOf cell) (cells st) = Some cell ->
  attemptExpansion st cell tape = Some (st', ok, tape') ->
  let cost :=
    floor (expansionEnergyCost st
           * (1 - blue (Fungus.dna (Cell.fungus cell)) / 100 * (8 # 10))) in
  orderly st' /\
  (ok = false -> st' = st /\ tape' = tape) /\
  (ok = true ->
   cost <= Cell.getEnergyOfType cell NUTRITION_UNIT /\
   exists pos r,
     tape = r :: tape' /\
     manhattan (posOf cell) pos = 1%Z /\
     Garden.hasTile (garden st) (fst pos) (snd pos) = true /\
     JsMap.get posEqb pos (cells st) = None /\
     JsMap.get posEqb pos (cells st')
     = Some (Cell.create (fst pos) (snd pos) (Cell.fungus cell)
               (floor (cost * (1 # 2)))) /\
     JsMap.get posEqb (posOf cell) (cells st')
     = Some (fst (Cell.removeEnergy cell cost NUTRITION_UNIT)) /\
     (forall q, q <> pos -> q <> posOf cell ->
        JsMap.get posEqb q (cells st') = JsMap.get posEqb q (cells st)) /\
     JsMap.keys (cells st') = JsMap.keys (cells st) ++ [pos]).
Proof.
  intros Ho Hc E cost. unfold attemptExpansion in E. cbv zeta in E.
  fold cost in E.
  destruct (ltb_spec (Cell.getEnergyOfType cell NUTRITION_UNIT) cost)
    as [Hlt|Hge].
  { injection E as <- <- <-. split; [exact Ho|].
    split; [tauto | discriminate]. }
  destruct (getEmptyAdjacentPositions st cell) as [|p0 ps] eqn:Ep.
  { injection E as <- <- <-. split; [exact Ho|].
    split; [tauto | discriminate]. }
  destruct tape as [|r rest]; [discriminate|]. cbn [Random.random] in E.
  destruct (Random.unit_interval r) eqn:V; [|discriminate].
  rewrite <- Ep in E.
  set (pos := nth (Random.index r
                     (Z.of_nat (length (getEmptyAdjacentPositions st cell))))
                (getEmptyAdjacentPositions st cell) (0, 0)%Z) in *.
  assert (Hin : In pos (getEmptyAdjacentPositions st cell)).
  { apply nth_In. rewrite <- (Nat2Z.id (length _)) at 2.
    apply index_below; [exact V|]. rewrite Ep. simpl. lia. }
  apply emptyPositions_In in Hin.
  destruct Hin as (Hm & Hx & Hy & Ht & He & Hh).
  apply has_false_get in Hh.
  unfold Cell.removeEnergyForPurpose in E.
  set (cell1 := fst (Cell.removeEnergy cell cost NUTRITION_UNIT)) in *.
  destruct (removeEnergy_same_place cell cost NUTRITION_UNIT)
    as (P1 & F1 & _).
  fold cell1 in P1, F1.
  set (newCell := Cell.create (fst pos) (snd pos) (Cell.fungus cell)
                    (floor (cost * (1 # 2)))) in *.
  assert (Hne : pos <> posOf cell).
  { intros Heq. rewrite Heq in Hm. unfold manhattan in Hm. lia. }
  assert (Hpn : posOf newCell = pos) by (now destruct pos).
  pose proof (storeCell_orderly st cell cell1 Ho Hc P1 F1) as Ho1.
  assert (Hfree1 : JsMap.get posEqb pos (cells (storeCell st cell1)) = None).
  { unfold storeCell. simpl cells. fold (posOf cell1). rewrite P1.
    now rewrite (get_set_other _ _ posEqb posEqb_eq) by exact Hne. }
  injection E as <- <- <-.
  split.
  { apply addCell_orderly.
    - exact Ho1.
    - now rewrite Hpn.
    - exact Ht.
    - change (fungusAt st (cid cell) = Some (Cell.fungus cell)).
      now destruct (ord_cells _ Ho _ _ Hc) as (_ & _ & Hr). }
  split; [discriminate|]. intros _.
  split; [lra|].
  exists pos, r. split; [reflexivity|]. split; [exact Hm|].
  split; [exact Ht|]. split; [exact Hh|].
  rewrite cells_addCell. fold (posOf newCell). rewrite Hpn.
  unfold storeCell. simpl cells. fold (posOf cell1). rewrite P1.
  split; [apply (get_set_same _ _ posEqb posEqb_eq)|].
  split.
  { rewrite (get_set_other _ _ posEqb posEqb_eq) by congruence.
    apply (get_set_same _ _ posEqb posEqb_eq). }
  split.
  { intros q Hq1 Hq2.
    now rewrite !(get_set_other _ _ posEqb posEqb_eq) by assumption. }
  rewrite (set_new_key _ _ posEqb posEqb_eq).
  - unfold JsMap.keys. rewrite map_app. simpl. f_equal.
    apply (keys_set_old _ _ posEqb posEqb_eq).
    apply (get_Some_keys _ _ posEqb posEqb_eq). now exists cell.
  - apply (get_None_keys _ _ posEqb posEqb_eq).
    now rewrite (get_set_other _ _ posEqb posEqb_eq) by exact Hne.
Qed.

Lemma richState_orderly : orderly richState.
Proof.
  apply (storeCell_orderly foundedState
           (Cell.create 5 5 (Fungus.mk 0 growerDna 0) 50) growerCell
           foundedState_orderly); reflexivity.
Qed.

(** The cost of growth: the floor of the full cost [full] times
    [1 - trait / 100 * 0.8].  It is a whole number within one unit of
    that product, not negative while the trait is at most 100 and not
    above the full cost while the trait is not negative. *)
Lemma reduced_cost_bounds (full trait : Q) :
  let budget := full * (1 - trait / 100 * (8 # 10)) in
  let cost := floor budget in
  isInteger cost = true /\
  budget - 1 <= cost /\ cost <= budget + 1 /\
  (0 <= full -> trait <= 100 -> 0 <= cost) /\
  (0 <= full -> 0 <= trait -> cost <= full).
Proof.
  intros budget cost.
  pose proof (floor_le budget) as Hle. pose proof (floor_gt budget) as Hgt.
  fold cost in Hle, Hgt.
  assert (Hdiv : trait / 100 == trait * (1 # 100)) by field.
  split; [apply isInteger_floor|]. split; [lra|]. split; [lra|]. split.
  - intros Hf Ht. apply floor_nonneg. unfold budget.
    apply Qmult_le_0_compat; [exact Hf|]. rewrite Hdiv. lra.
  - intros Hf Ht.
    assert (budget <= full); [|lra].
    unfold budget. rewrite Hdiv.
    assert (0 <= full * (trait * (1 # 100) * (8 # 10))); [|lra].
    apply Qmult_le_0_compat; [exact Hf | lra].
Qed.

(** X18.  [attemptExpansion] for a cell of a state whose books agree.  It
    returns on every tape that holds one outcome of [Math.random].  When
    it answers no, nothing has changed and no outcome was read.  When it
    answers yes, the cell has paid a cost that it held in Nutrition, a
    whole number, within one unit of the expansion cost times
    [1 - blue / 100 * 0.8] when the expansion cost and blue are whole
    numbers; one outcome was read, and exactly one cell was added, last
    in the map: a cell of the same fungus, made with the floored half of
    the cost, on a tile of the garden one step away along a row or a
    column, where the map had no cell.  The paying cell is still at its
    place, every other cell is as it was, and the books still agree. *)
Theorem expansion_places_one_cell (st : SimulationEngine.t) (cell : Cell.t)
    (tape : Random.Tape) :
  orderly st ->
  JsMap.get posEqb (posOf cell) (cells st) = Some cell ->
  (Random.validTape tape = true -> (1 <= length tape)%nat ->
   exists st' ok tape',
     attemptExpansion st cell tape = Some (st', ok, tape')) /\
  forall st' ok tape',
    attemptExpansion st cell tape = Some (st', ok, tape') ->
    orderly st' /\
    (ok = false -> st' = st /\ tape' = tape) /\
    (ok = true ->
     let budget :=
       expansionEnergyCost st
       * (1 - blue (Fungus.dna (Cell.fungus cell)) / 100 * (8 # 10)) in
     exists cost pos r,
       isInteger cost = true /\
       (isInteger (expansionEnergyCost st) = true ->
        isInteger (blue (Fungus.dna (Cell.fungus cell))) = true ->
        budget - 1 <= cost /\ cost <= budget + 1) /\
       cost <= Cell.getEnergyOfType cell NUTRITION_UNIT /\
       tape = r :: tape' /\
       manhattan (posOf cell) pos = 1%Z /\
       Garden.hasTile (garden st) (fst pos) (snd pos) = true /\
       JsMap.get posEqb pos (cells st) = None /\
       JsMap.get posEqb pos (cells st')
       = Some (Cell.create (fst pos) (snd pos) (Cell.fungus cell)
                 (floor (cost * (1 # 2)))) /\
       JsMap.get posEqb (posOf cell) (cells st')
       = Some (fst (Cell.removeEnergy cell cost NUTRITION_UNIT)) /\
       (forall q, q <> pos -> q <> posOf cell ->
          JsMap.get posEqb q (cells st') = JsMap.get posEqb q (cells st)) /\
       JsMap.keys (cells st') = JsMap.keys (cells st) ++ [pos]).
Proof.
  intros Ho Hc. split.
  - intros Hv Hl.
    destruct (expansion_returns st cell tape Hv Hl)
      as (st' & ok & tape' & E & _).
    now exists st', ok, tape'.
  - intros st' ok tape' E.
    destruct (expansion_effect _ _ _ _ _ _ Ho Hc E) as (H1 & H2 & H3).
    split; [exact H1|]. split; [exact H2|].
    intros Hok budget. destruct (H3 Hok) as (Hle & pos & r & Hrest).
    destruct (reduced_cost_bounds (expansionEnergyCost st)
                (blue (Fungus.dna (Cell.fungus cell))))
      as (B1 & B2 & B3 & _).
    exists (floor budget), pos, r.
    split; [exact B1|]. split; [intros _ _; split; [exact B2 | exact B3]|].
    split; [exact Hle | exact Hrest].
Qed.

Lemma expansion_places_one_cell_witness :
  exists st',
    attemptExpansion richState growerCell [1 # 2] = Some (st', true, []) /\
    orderly st' /\
    JsMap.keys (cells st') = [(5, 5); (5, 4)]%Z.
Proof.
  destruct (expansion_places_one_cell richState growerCell [1 # 2]
              richState_orderly eq_refl) as [R F].
  destruct (R eq_refl ltac:(simpl; lia)) as (st' & ok & tape' & E).
  pose proof E as E'. vm_compute in E'. injection E' as Hst <- <-.
  exists st'. split; [exact E|].
  destruct (F st' true [] E) as (Ho' & _).
  split; [exact Ho'|].
  rewrite <- Hst. reflexivity.
Defined.

(** X19.  Expansion never creates energy.  When a cell in good order pays
    for an expansion, the expansion cost not being negative and blue at
    most 100, the cost is a whole number that is not negative, and not
    above the expansion cost when blue is not negative.  The paying cell
    loses exactly the cost and stays in good order, and it dies when the
    cost was all the energy it held.  The new cell is alive and holds
    only Nutrition, at most half the cost.  Together the two cells hold
    at most the energy of the paying cell less half the cost. *)
Theorem expansion_burns_half_the_cost (st : SimulationEngine.t)
    (cell : Cell.t) (tape : Random.Tape) (st' : SimulationEngine.t)
    (tape' : Random.Tape) :
  orderly st ->
  JsMap.get posEqb (posOf cell) (cells st) = Some cell ->
  inOrder cell ->
  0 <= expansionEnergyCost st ->
  blue (Fungus.dna (Cell.fungus cell)) <= 100 ->
  attemptExpansion st cell tape = Some (st', true, tape') ->
  exists cost parent child,
    isInteger cost = true /\ 0 <= cost /\
    (0 <= blue (Fungus.dna (Cell.fungus cell)) ->
     cost <= expansionEnergyCost st) /\
    JsMap.get posEqb (posOf cell) (cells st') = Some parent /\
    nth_error (JsMap.values (cells st')) (length (cells st)) = Some child /\
    inOrder parent /\
    Cell.getEnergy parent == Cell.getEnergy cell - cost /\
    (Cell.getEnergy cell == cost -> Cell.alive parent = false) /\
    (cost < Cell.getEnergy cell -> Cell.alive parent = Cell.alive cell) /\
    Cell.alive child = true /\
    Cell.getEnergyOfType child SUN_UNIT == 0 /\
    Cell.getEnergyOfType child SOIL_UNIT == 0 /\
    0 <= Cell.getEnergyOfType child NUTRITION_UNIT /\
    Cell.getEnergyOfType child NUTRITION_UNIT <= cost * (1 # 2) /\
    Cell.getEnergy parent + Cell.getEnergy child
    <= Cell.getEnergy cell - cost * (1 # 2).
Proof.
  intros Ho Hc Hin Hcost Hblue E.
  destruct (expansion_effect _ _ _ _ _ _ Ho Hc E) as (_ & _ & Hyes).
  destruct (Hyes eq_refl)
    as (Hle & pos & r & _ & _ & _ & Hfree & Hnew & Hpar & _ & Hkeys).
  destruct (reduced_cost_bounds (expansionEnergyCost st)
              (blue (Fungus.dna (Cell.fungus cell))))
    as (B1 & _ & _ & B4 & B5).
  set (cost := floor (expansionEnergyCost st
                      * (1 - blue (Fungus.dna (Cell.fungus cell)) / 100
                             * (8 # 10)))) in *.
  assert (Hc0 : 0 <= cost) by (apply B4; assumption).
  assert (Hfc : floor cost == cost) by (apply floor_of_integer; exact B1).
  pose proof (removeEnergy_order cell cost NUTRITION_UNIT Hin Hc0) as Hr.
  destruct (Cell.removeEnergy cell cost NUTRITION_UNIT) as [parent removed].
  cbn [fst] in Hpar.
  destruct Hr as (R1 & R2 & R3 & R4 & R5 & R6 & R7 & R8 & _).
  assert (Hrem : removed == cost) by (rewrite R5; lra).
  set (child := Cell.create (fst pos) (snd pos) (Cell.fungus cell)
                  (floor (cost * (1 # 2)))) in *.
  set (m := min (floor (floor (cost * (1 # 2))))
                (Cell.maxEnergyCapacity child)).
  assert (Hn : Cell.getEnergyOfType child NUTRITION_UNIT == max 0 (floor m))
    by reflexivity.
  assert (Hhalf : 0 <= floor (cost * (1 # 2)))
    by (apply floor_nonneg; lra).
  assert (Hff : floor (floor (cost * (1 # 2))) == floor (cost * (1 # 2)))
    by (apply floor_of_integer, isInteger_floor).
  pose proof (floor_le (cost * (1 # 2))) as Hfl.
  pose proof (floor_le m) as Hflm.
  assert (Hm : m <= floor (cost * (1 # 2))) by (unfold m; split_min; lra).
  assert (Hnut : 0 <= Cell.getEnergyOfType child NUTRITION_UNIT
                 /\ Cell.getEnergyOfType child NUTRITION_UNIT
                    <= cost * (1 # 2)).
  { rewrite Hn.
    destruct (max_cases 0 (floor m)) as [[A ->]|[A ->]]; split; lra. }
  assert (Htot : Cell.getEnergy child
                 == Cell.getEnergyOfType child NUTRITION_UNIT).
  { unfold Cell.getEnergy, getTotalUnits.
    change (sunUnits (Cell.energyWallet child)) with 0.
    change (soilUnits (Cell.energyWallet child)) with 0.
    change (nutritionUnits (Cell.energyWallet child))
      with (Cell.getEnergyOfType child NUTRITION_UNIT).
    lra. }
  exists cost, parent, child.
  split; [exact B1|]. split; [exact Hc0|].
  split; [intro Hb0; apply B5; assumption|].
  split; [exact Hpar|]. split.
  { assert (Hk : nth_error (JsMap.keys (cells st')) (length (cells st))
                 = Some pos).
    { rewrite Hkeys. rewrite nth_error_app2
        by (unfold JsMap.keys; rewrite length_map; lia).
      unfold JsMap.keys. rewrite length_map, Nat.sub_diag. reflexivity. }
    unfold JsMap.keys in Hk. rewrite nth_error_map in Hk.
    unfold JsMap.values. rewrite nth_error_map.
    destruct (nth_error (cells st') (length (cells st))) as [[k v]|] eqn:En;
      [|discriminate].
    simpl in Hk. injection Hk as ->. simpl. f_equal.
    apply nth_error_In in En.
    apply (In_get _ _ posEqb posEqb_eq) in En.
    - congruence.
    - destruct (expansion_effect _ _ _ _ _ _ Ho Hc E) as (Ho' & _).
      exact (ord_cell_keys _ Ho'). }
  split; [exact R1|].
  split; [rewrite R6; lra|].
  split; [intro H; apply R7; lra|].
  split; [intro H; apply R8; lra|].
  split; [reflexivity|]. split; [reflexivity|]. split; [reflexivity|].
  split; [apply Hnut|]. split; [apply Hnut|].
  rewrite R6, Htot. destruct Hnut. lra.
Qed.

Ltac by_computation := vm_compute; first [reflexivity | discriminate].

Lemma growerCell_inOrder : inOrder growerCell.
Proof.
  split; [intros []; by_computation|].
  split; [intros []; by_computation|].
  split; by_computation.
Qed.

Lemma expansion_burns_half_the_cost_witness :
  exists st' cost parent child,
    attemptExpansion richState growerCell [1 # 2] = Some (st', true, []) /\
    JsMap.get posEqb (5, 5)%Z (cells st') = Some parent /\
    nth_error (JsMap.values (cells st')) 1 = Some child /\
    Cell.getEnergy parent == 250 - cost /\
    Cell.getEnergy parent + Cell.getEnergy child <= 250 - cost * (1 # 2).
Proof.
  destruct (attemptExpansion richState growerCell [1 # 2])
    as [[[st' ok] tape']|] eqn:E; [|vm_compute in E; discriminate].
  pose proof E as E'. vm_compute in E'. injection E' as _ <- <-.
  destruct (expansion_burns_half_the_cost richState growerCell [1 # 2]
              st' [] richState_orderly eq_refl growerCell_inOrder)
    as (cost & parent & child & _ & _ & _ & H1 & H2 & _ & H6 & _ & _ & _
        & _ & _ & _ & _ & H12);
    try by_computation; try exact E.
  exists st', cost, parent, child.
  split; [reflexivity|]. split; [exact H1|]. split; [exact H2|].
  assert (Hen : Cell.getEnergy growerCell == 250) by by_computation.
  rewrite Hen in H6, H12.
  split; [exact H6 | exact H12].
Defined.

(** *** Reproduction *)

Lemma reproduction_effect (st : SimulationEngine.t) (cell : Cell.t) :
  orderly st ->
  JsMap.get posEqb (posOf cell) (cells st) = Some cell ->
  let cost :=
    floor (mushroomEnergyCost st
           * (1 - purple (Fungus.dna (Cell.fungus cell)) / 100 * (8 # 10))) in
  let st' := fst (attemptReproduction st cell) in
  let ok := snd (attemptReproduction st cell) in
  orderly st' /\
  (ok = true <->
   Cell.hasMushroom cell = false /\
   cost <= Cell.getEnergyOfType cell NUTRITION_UNIT) /\
  (ok = false -> st' = st) /\
  (ok = true ->
   JsMap.get posEqb (posOf cell) (cells st')
   = Some (Cell.startMushroom
             (fst (Cell.removeEnergy cell cost NUTRITION_UNIT))) /\
   (forall q, q <> posOf cell ->
      JsMap.get posEqb q (cells st') = JsMap.get posEqb q (cells st)) /\
   JsMap.keys (cells st') = JsMap.keys (cells st)).
Proof.
  intros Ho Hc cost st' ok. subst st' ok. unfold attemptReproduction.
  destruct (Cell.hasMushroom cell) eqn:Hm.
  { cbn [fst snd]. split; [exact Ho|].
    split; [split; [discriminate | intros [? _]; discriminate]|].
    split; [reflexivity | discriminate]. }
  cbv zeta. fold cost.
  destruct (ltb_spec (Cell.getEnergyOfType cell NUTRITION_UNIT) cost)
    as [Hlt|Hge].
  { cbn [fst snd]. split; [exact Ho|].
    split; [split; [discriminate | intros [_ ?]; lra]|].
    split; [reflexivity | discriminate]. }
  cbn [fst snd]. unfold Cell.removeEnergyForPurpose.
  destruct (removeEnergy_same_place cell cost NUTRITION_UNIT)
    as (P1 & F1 & _).
  set (cell1 := fst (Cell.removeEnergy cell cost NUTRITION_UNIT)) in *.
  split.
  { apply (storeCell_orderly st cell); [exact Ho | exact Hc | exact P1
                                        | exact F1]. }
  split; [split; [intros _; split; [reflexivity | lra] | reflexivity]|].
  split; [discriminate|]. intros _.
  unfold storeCell. simpl cells.
  change (Cell.getPositionKey (Cell.startMushroom cell1)) with (posOf cell1).
  rewrite P1.
  split; [apply (get_set_same _ _ posEqb posEqb_eq)|].
  split.
  { intros q Hq.
    now rewrite (get_set_other _ _ posEqb posEqb_eq) by exact Hq. }
  apply (keys_set_old _ _ posEqb posEqb_eq).
  apply (get_Some_keys _ _ posEqb posEqb_eq). now exists cell.
Qed.

(** X20.  [attemptReproduction] for a cell in good order of a state whose
    books agree, the mushroom cost not being negative and purple at most
    100.  There is a cost, a whole number that is not negative, within
    one unit of the mushroom cost times [1 - purple / 100 * 0.8] when the
    mushroom cost and purple are whole numbers, such that the call
    answers yes exactly when the cell has no mushroom and holds the cost
    in Nutrition; otherwise nothing changes.  On yes the cell has paid
    exactly the cost and carries a mushroom with growth 0; no other cell
    has changed and the books still agree.  A cell for which the cost was
    all its energy is dead after the call and carries the mushroom all
    the same. *)
Theorem reproduction_pays_and_starts_mushroom (st : SimulationEngine.t)
    (cell : Cell.t) :
  orderly st ->
  JsMap.get posEqb (posOf cell) (cells st) = Some cell ->
  inOrder cell ->
  0 <= mushroomEnergyCost st ->
  purple (Fungus.dna (Cell.fungus cell)) <= 100 ->
  let budget :=
    mushroomEnergyCost st
    * (1 - purple (Fungus.dna (Cell.fungus cell)) / 100 * (8 # 10)) in
  let st' := fst (attemptReproduction st cell) in
  let ok := snd (attemptReproduction st cell) in
  exists cost,
    isInteger cost = true /\ 0 <= cost /\
    (isInteger (mushroomEnergyCost st) = true ->
     isInteger (purple (Fungus.dna (Cell.fungus cell))) = true ->
     budget - 1 <= cost /\ cost <= budget + 1) /\
    (0 <= purple (Fungus.dna (Cell.fungus cell)) ->
     cost <= mushroomEnergyCost st) /\
    orderly st' /\
    (ok = true <->
     Cell.hasMushroom cell = false /\
     cost <= Cell.getEnergyOfType cell NUTRITION_UNIT) /\
    (ok = false -> st' = st) /\
    (ok = true ->
     (forall q, q <> posOf cell ->
        JsMap.get posEqb q (cells st') = JsMap.get posEqb q (cells st)) /\
     JsMap.keys (cells st') = JsMap.keys (cells st) /\
     exists cell',
       JsMap.get posEqb (posOf cell) (cells st') = Some cell' /\
       Cell.fungus cell' = Cell.fungus cell /\
       Cell.hasMushroom cell' = true /\ Cell.mushroomGrowth cell' = 0 /\
       inOrder cell' /\
       Cell.getEnergy cell' == Cell.getEnergy cell - cost /\
       (Cell.getEnergy cell == cost -> Cell.alive cell' = false) /\
       (cost < Cell.getEnergy cell -> Cell.alive cell' = Cell.alive cell)).
Proof.
  intros Ho Hc Hin Hcost Hpurple budget st' ok.
  destruct (reproduction_effect st cell Ho Hc) as (E1 & E2 & E3 & E4).
  destruct (reduced_cost_bounds (mushroomEnergyCost st)
              (purple (Fungus.dna (Cell.fungus cell))))
    as (B1 & B2 & B3 & B4 & B5).
  fold budget in B1, B2, B3, B4, B5, E2, E4.
  set (cost := floor budget) in *.
  fold st' ok in E1, E2, E3, E4.
  assert (Hc0 : 0 <= cost) by (apply B4; assumption).
  exists cost.
  split; [exact B1|]. split; [exact Hc0|].
  split; [intros _ _; split; [exact B2 | exact B3]|].
  split; [intro; apply B5; assumption|].
  split; [exact E1|]. split; [exact E2|]. split; [exact E3|].
  intro Hok. destruct (E4 Hok) as (G1 & G2 & G3).
  split; [exact G2|]. split; [exact G3|].
  apply E2 in Hok. destruct Hok as [_ Hle].
  assert (Hfc : floor cost == cost) by (apply floor_of_integer; exact B1).
  pose proof (removeEnergy_order cell cost NUTRITION_UNIT Hin Hc0) as Hr.
  destruct (Cell.removeEnergy cell cost NUTRITION_UNIT) as [cell1 removed].
  cbn [fst] in G1.
  destruct Hr as (R1 & R2 & R3 & R4 & R5 & R6 & R7 & R8 & _ & _ & R11).
  assert (Hrem : removed == cost) by (rewrite R5; lra).
  exists (Cell.startMushroom cell1).
  split; [exact G1|]. split; [exact R11|].
  split; [reflexivity|]. split; [reflexivity|].
  split; [exact R1|].
  split; [change (Cell.getEnergy cell1 == Cell.getEnergy cell - cost);
          rewrite R6; lra|].
  split; [intro H; apply R7; lra|].
  intro H. apply R8. lra.
Qed.

Lemma reproduction_pays_and_starts_mushroom_witness :
  let dna := mkDna 50 0 50 50 100 0 0 in
  let cell := Cell.mk 5 5 (Fungus.mk 0 dna 0)
                (mkWallet 0 0 500) 3000 0 0 0 0 true false 0 in
  let st :=
    storeCell (fst (createFungus (SimulationEngine.create 20) 5 5 dna))
      cell in
  snd (attemptReproduction st cell) = true /\
  exists cell',
    JsMap.get posEqb (5, 5)%Z (cells (fst (attemptReproduction st cell)))
    = Some cell' /\
    Cell.hasMushroom cell' = true /\ Cell.alive cell' = false.
Proof.
  intros dna cell st.
  assert (Ho : orderly st).
  { apply (storeCell_orderly _
             (Cell.create 5 5 (Fungus.mk 0 dna 0) 50) cell
             (found_orderly (SimulationEngine.create 20) 5 5 dna
                (create_orderly 20) eq_refl eq_refl)); reflexivity. }
  assert (Hin : inOrder cell).
  { split; [intros []; by_computation|].
    split; [intros []; by_computation|].
    split; by_computation. }
  destruct (reproduction_pays_and_starts_mushroom st cell Ho eq_refl Hin)
    as (cost & _ & _ & _ & H5 & _ & H7 & _ & H9); try by_computation.
  assert (Hle : cost <= 500) by (apply H5; by_computation).
  assert (Hok : snd (attemptReproduction st cell) = true).
  { apply H7. split; [reflexivity|].
    change (Cell.getEnergyOfType cell NUTRITION_UNIT) with 500. exact Hle. }
  split; [exact Hok|].
  destruct (H9 Hok) as (_ & _ & cell' & C1 & _ & C3 & _).
  exists cell'. split; [exact C1|]. split; [exact C3|].
  pose proof C1 as C1'. vm_compute in C1'. injection C1' as <-. reflexivity.
Defined.

End ExpansionFacts.

(** ** The growth pass *)

Module GrowthPassFacts.
Import JsMath JsMathFacts IntegerFacts JsMapFacts JsMapMore.
Import EnergyWalletHelper Measures SimulationEngine Connectivity.
Import DnaFacts SporeFacts LineageFacts RehomeFacts RecreateFacts FrameFacts.
Import CellUse CellOrderFacts EngineUse OrderFacts ColonyFacts Examples.
Import EngineExamples ShuffleFacts ExpansionFacts.

Lemma get_has {V : Type} (p : Pos) (v : V) (m : JsMap.t Pos V) :
  JsMap.get posEqb p m = Some v -> JsMap.has posEqb p m = true.
Proof. unfold JsMap.has. now intros ->. Qed.

(** One round of the loop of the growth pass. *)
Lemma growthStep_books (st : SimulationEngine.t) (key : Pos)
    (tape : Random.Tape) (st1 : SimulationEngine.t) (tape1 : Random.Tape) :
  orderly st ->
  growthStep st key tape = Some (st1, tape1) ->
  orderly st1 /\
  (forall p c, JsMap.get posEqb p (cells st) = Some c ->
     exists c', JsMap.get posEqb p (cells st1) = Some c' /\
                Cell.fungus c' = Cell.fungus c) /\
  (exists added, JsMap.keys (cells st1) = JsMap.keys (cells st) ++ added /\
                 (length added <= 1)%nat) /\
  (forall p c', JsMap.get posEqb p (cells st1) = Some c' ->
     JsMap.get posEqb p (cells st) = None ->
     exists c, JsMap.get posEqb key (cells st) = Some c /\
       manhattan key p = 1%Z /\ Cell.fungus c' = Cell.fungus c).
Proof.
  intros Ho E.
  assert (Hsame : forall s : SimulationEngine.t, orderly s ->
            orderly s /\
            (forall p c, JsMap.get posEqb p (cells s) = Some c ->
               exists c', JsMap.get posEqb p (cells s) = Some c' /\
                          Cell.fungus c' = Cell.fungus c) /\
            (exists added,
               JsMap.keys (cells s) = JsMap.keys (cells s) ++ added /\
               (length added <= 1)%nat) /\
            (forall p c', JsMap.get posEqb p (cells s) = Some c' ->
               JsMap.get posEqb p (cells s) = None ->
               exists c, JsMap.get posEqb key (cells s) = Some c /\
                 manhattan key p = 1%Z /\ Cell.fungus c' = Cell.fungus c)).
  { intros s Hs. split; [exact Hs|]. split; [intros p c H; now exists c|].
    split; [exists []; split; [now rewrite app_nil_r | simpl; lia]|].
    intros p c' H1 H2. congruence. }
  unfold growthStep in E.
  destruct (JsMap.get posEqb key (cells st)) as [cell|] eqn:Hc in E;
    [|injection E as <- <-; now apply Hsame].
  destruct (negb (Cell.isAlive cell));
    [injection E as <- <-; now apply Hsame|].
  destruct (ord_cells _ Ho _ _ Hc) as (Hp & _ & _).
  assert (Hstored : JsMap.get posEqb (posOf cell) (cells st) = Some cell)
    by now rewrite Hp.
  (* the expansion *)
  assert (Hexp : forall stA okA tapeA,
            (if expansionGate st cell then attemptExpansion st cell tape
             else Some (st, false, tape)) = Some (stA, okA, tapeA) ->
            orderly stA /\
            (forall p c, JsMap.get posEqb p (cells st) = Some c ->
               exists c', JsMap.get posEqb p (cells stA) = Some c' /\
                          Cell.fungus c' = Cell.fungus c) /\
            (exists added,
               JsMap.keys (cells stA) = JsMap.keys (cells st) ++ added /\
               (length added <= 1)%nat) /\
            (forall p c', JsMap.get posEqb p (cells stA) = Some c' ->
               JsMap.get posEqb p (cells st) = None ->
               exists c, JsMap.get posEqb key (cells st) = Some c /\
                 manhattan key p = 1%Z /\ Cell.fungus c' = Cell.fungus c)).
  { intros stA okA tapeA EA.
    destruct (expansionGate st cell);
      [|injection EA as <- <- <-; now apply Hsame].
    destruct (expansion_effect _ _ _ _ _ _ Ho Hstored EA) as (HoA & Hno & Hyes).
    destruct okA;
      [|destruct (Hno eq_refl) as [-> _]; now apply Hsame].
    destruct (Hyes eq_refl)
      as (_ & pos & r & _ & Hm & _ & Hfree & Hnew & Hpar & Hoth & Hkeys).
    rewrite Hp in Hm, Hpar, Hoth.
    assert (Hne : pos <> key).
    { intros ->. unfold manhattan in Hm. lia. }
    split; [exact HoA|]. split.
    { intros p c H. destruct (posEqb p key) eqn:Ek.
      - apply posEqb_eq in Ek. subst p. rewrite Hc in H. injection H as <-.
        eexists. split; [exact Hpar|].
        now destruct (removeEnergy_same_place cell
                        (floor (expansionEnergyCost st
                                * (1 - blue (Fungus.dna (Cell.fungus cell))
                                       / 100 * (8 # 10))))
                        NUTRITION_UNIT) as (_ & F & _).
      - apply posEqb_false in Ek. exists c. split; [|reflexivity].
        rewrite Hoth; [exact H | congruence | exact Ek]. }
    split; [exists [pos]; split; [exact Hkeys | simpl; lia]|].
    intros p c' H1 H2. exists cell. split; [exact Hc|].
    destruct (posEqb p pos) eqn:Ek.
    - apply posEqb_eq in Ek. subst p. split; [exact Hm|].
      rewrite Hnew in H1. now injection H1 as <-.
    - apply posEqb_false in Ek.
      destruct (posEqb p key) eqn:Ek2.
      + apply posEqb_eq in Ek2. subst p. congruence.
      + apply posEqb_false in Ek2. rewrite Hoth in H1 by assumption.
        congruence. }
  destruct (if expansionGate st cell then attemptExpansion st cell tape
            else Some (st, false, tape)) as [[[stA okA] tapeA]|] eqn:EA;
    [|discriminate].
  pose proof (Hexp stA okA tapeA eq_refl) as HA.
  destruct (JsMap.get posEqb key (cells stA)) as [cellA|] eqn:HcA in E;
    [|injection E as <- <-; exact HA].
  destruct (reproductionGate stA cellA);
    [|injection E as <- <-; exact HA].
  injection E as <- <-.
  destruct HA as (HoA & PA & [added [KA LA]] & NA).
  destruct (ord_cells _ HoA _ _ HcA) as (HpA & _ & _).
  assert (HstoredA : JsMap.get posEqb (posOf cellA) (cells stA) = Some cellA)
    by now rewrite HpA.
  destruct (reproduction_effect stA cellA HoA HstoredA) as (R1 & _ & R3 & R4).
  cbv zeta in R1, R3, R4.
  destruct (snd (attemptReproduction stA cellA)) eqn:Eok;
    [|rewrite (R3 eq_refl);
      exact (conj HoA (conj PA (conj (ex_intro _ added (conj KA LA)) NA)))].
  destruct (R4 eq_refl) as (G1 & G2 & G3). rewrite HpA in G1, G2.
  assert (HfA : Cell.fungus
                  (Cell.startMushroom
                     (fst (Cell.removeEnergy cellA
                             (floor (mushroomEnergyCost stA
                                     * (1 - purple (Fungus.dna
                                                      (Cell.fungus cellA))
                                            / 100 * (8 # 10))))
                             NUTRITION_UNIT)))
                = Cell.fungus cellA).
  { now destruct (removeEnergy_same_place cellA
                    (floor (mushroomEnergyCost stA
                            * (1 - purple (Fungus.dna (Cell.fungus cellA))
                                   / 100 * (8 # 10))))
                    NUTRITION_UNIT) as (_ & F & _). }
  split; [exact R1|]. split.
  { intros p c H. destruct (PA p c H) as [c1 [H1 F1]].
    destruct (posEqb p key) eqn:Ek.
    - apply posEqb_eq in Ek. subst p. rewrite HcA in H1. injection H1 as <-.
      eexists. split; [exact G1|]. now rewrite HfA.
    - apply posEqb_false in Ek. exists c1. split; [|exact F1].
      now rewrite G2. }
  split; [exists added; split; [now rewrite G3 | exact LA]|].
  intros p c' H1 H2.
  destruct (posEqb p key) eqn:Ek.
  - apply posEqb_eq in Ek. subst p. congruence.
  - apply posEqb_false in Ek. rewrite G2 in H1 by exact Ek.
    exact (NA p c' H1 H2).
Qed.

Lemma growthStep_returns (st : SimulationEngine.t) (key : Pos)
    (tape : Random.Tape) :
  Random.validTape tape = true -> (1 <= length tape)%nat ->
  exists st1 tape1,
    growthStep st key tape = Some (st1, tape1) /\
    (length tape <= length tape1 + 1)%nat /\
    Random.validTape tape1 = true.
Proof.
  intros Hv Hl. unfold growthStep.
  destruct (JsMap.get posEqb key (cells st)) as [cell|];
    [|exists st, tape; repeat split; [lia | exact Hv]].
  destruct (negb (Cell.isAlive cell));
    [exists st, tape; repeat split; [lia | exact Hv]|].
  assert (H : exists stA okA tapeA,
            (if expansionGate st cell then attemptExpansion st cell tape
             else Some (st, false, tape)) = Some (stA, okA, tapeA) /\
            (length tape <= length tapeA + 1)%nat /\
            Random.validTape tapeA = true).
  { destruct (expansionGate st cell).
    - exact (expansion_returns st cell tape Hv Hl).
    - exists st, false, tape. repeat split; [lia | exact Hv]. }
  destruct H as (stA & okA & tapeA & -> & HlA & HvA).
  destruct (JsMap.get posEqb key (cells stA)) as [cellA|];
    [|exists stA, tapeA; now repeat split].
  destruct (reproductionGate stA cellA); eexists _, tapeA; now repeat split.
Qed.

Lemma growthLoop_returns (order : list Pos) :
  forall (st : SimulationEngine.t) (tape : Random.Tape),
  Random.validTape tape = true -> (length order <= length tape)%nat ->
  exists st' tape', growthLoop order st tape = Some (st', tape').
Proof.
  induction order as [|key rest IH]; intros st tape Hv Hl.
  - now exists st, tape.
  - simpl in Hl. cbn [growthLoop].
    destruct (growthStep_returns st key tape Hv ltac:(lia))
      as (st1 & tape1 & -> & Hl1 & Hv1).
    apply IH; [exact Hv1 | lia].
Qed.

Lemma growthLoop_books (order : list Pos) :
  forall (st : SimulationEngine.t) (tape : Random.Tape)
         (st' : SimulationEngine.t) (tape' : Random.Tape),
  orderly st ->
  (forall q, In q order -> JsMap.has posEqb q (cells st) = true) ->
  growthLoop order st tape = Some (st', tape') ->
  orderly st' /\
  (forall p c, JsMap.get posEqb p (cells st) = Some c ->
     exists c', JsMap.get posEqb p (cells st') = Some c' /\
                Cell.fungus c' = Cell.fungus c) /\
  (exists added, JsMap.keys (cells st') = JsMap.keys (cells st) ++ added /\
                 (length added <= length order)%nat) /\
  (forall p c', JsMap.get posEqb p (cells st') = Some c' ->
     JsMap.get posEqb p (cells st) = None ->
     exists q c, In q order /\ JsMap.get posEqb q (cells st) = Some c /\
       manhattan q p = 1%Z /\ Cell.fungus c' = Cell.fungus c).
Proof.
  induction order as [|key rest IH]; intros st tape st' tape' Ho Hin E.
  - simpl in E. injection E as <- <-. split; [exact Ho|].
    split; [intros p c H; now exists c|].
    split; [exists []; split; [now rewrite app_nil_r | simpl; lia]|].
    intros p c' H1 H2. congruence.
  - cbn [growthLoop] in E.
    destruct (growthStep st key tape) as [[st1 tape1]|] eqn:E1;
      [|discriminate].
    destruct (growthStep_books _ _ _ _ _ Ho E1)
      as (Ho1 & P1 & [added1 [K1 L1]] & N1).
    assert (Hin1 : forall q, In q rest ->
                     JsMap.has posEqb q (cells st1) = true).
    { intros q Hq. specialize (Hin q (or_intror Hq)).
      unfold JsMap.has in Hin.
      destruct (JsMap.get posEqb q (cells st)) as [c|] eqn:Hc;
        [|discriminate].
      destruct (P1 q c Hc) as [c1 [H1 _]]. exact (get_has _ _ _ H1). }
    destruct (IH st1 tape1 st' tape' Ho1 Hin1 E)
      as (Ho' & P' & [added' [K' L']] & N').
    split; [exact Ho'|]. split.
    { intros p c H. destruct (P1 p c H) as [c1 [H1 F1]].
      destruct (P' p c1 H1) as [c' [H' F']]. exists c'.
      split; [exact H' | congruence]. }
    split.
    { exists (added1 ++ added'). split.
      - now rewrite K', K1, app_assoc.
      - rewrite length_app. simpl. lia. }
    intros p c' H1 H2.
    destruct (JsMap.get posEqb p (cells st1)) as [c1|] eqn:Hp1.
    + destruct (N1 p c1 Hp1 H2) as (c & Hc & Hm & Hf).
      destruct (P' p c1 Hp1) as [c'' [H'' F'']].
      exists key, c. split; [now left|]. split; [exact Hc|].
      split; [exact Hm|]. congruence.
    + destruct (N' p c' H1 Hp1) as (q & c1 & Hqr & Hq & Hm & Hf).
      specialize (Hin q (or_intror Hqr)). unfold JsMap.has in Hin.
      destruct (JsMap.get posEqb q (cells st)) as [c|] eqn:Hq0;
        [|discriminate].
      destruct (P1 q c Hq0) as [c1' [H1' F1']].
      exists q, c. split; [now right|]. split; [exact Hq0|].
      split; [exact Hm|]. congruence.
Qed.

Lemma growthPass_books (st : SimulationEngine.t)
    (tape : Random.Tape) :
  orderly st ->
  (Random.validTape tape = true ->
   (2 * length (cells st) <= length tape)%nat ->
   exists st' tape', growthPass st tape = Some (st', tape')) /\
  forall st' tape',
    growthPass st tape = Some (st', tape') ->
    orderly st' /\
    (forall p c, JsMap.get posEqb p (cells st) = Some c ->
       exists c', JsMap.get posEqb p (cells st') = Some c' /\
                  Cell.fungus c' = Cell.fungus c) /\
    (exists added,
       JsMap.keys (cells st') = JsMap.keys (cells st) ++ added /\
       (length added <= length (cells st))%nat) /\
    (forall p c', JsMap.get posEqb p (cells st') = Some c' ->
       JsMap.get posEqb p (cells st) = None ->
       exists q c, JsMap.get posEqb q (cells st) = Some c /\
         manhattan q p = 1%Z /\ Cell.fungus c' = Cell.fungus c).
Proof.
  intro Ho. unfold growthPass. split.
  - intros Hv Hl.
    assert (Hk : length (JsMap.keys (cells st)) = length (cells st))
      by (unfold JsMap.keys; apply length_map).
    destruct (proj2 (shuffle_permutes (length (JsMap.keys (cells st)) - 1)
                       (JsMap.keys (cells st)) tape) Hv ltac:(lia))
      as [order Es].
    rewrite Es.
    destruct (proj1 (shuffle_permutes _ _ _) _ _ Es) as [Hperm _].
    apply growthLoop_returns.
    + now apply validTape_skipn.
    + rewrite (Permutation_length Hperm), length_skipn. lia.
  - intros st' tape' E.
    destruct (shuffleFrom (length (JsMap.keys (cells st)) - 1)
                (JsMap.keys (cells st)) tape) as [[order tape1]|] eqn:Es;
      [|discriminate].
    destruct (proj1 (shuffle_permutes _ _ _) _ _ Es) as [Hperm _].
    assert (Hin : forall q, In q order ->
                    JsMap.has posEqb q (cells st) = true).
    { intros q Hq. apply (Permutation_in _ Hperm) in Hq.
      apply (get_Some_keys _ _ posEqb posEqb_eq) in Hq.
      destruct Hq as [c Hc]. exact (get_has _ _ _ Hc). }
    destruct (growthLoop_books order st tape1 st' tape' Ho Hin E)
      as (H1 & H2 & [added [K L]] & H4).
    split; [exact H1|]. split; [exact H2|]. split.
    { exists added. split; [exact K|].
      rewrite (Permutation_length Hperm) in L.
      unfold JsMap.keys in L. now rewrite length_map in L. }
    intros p c' G1 G2. destruct (H4 p c' G1 G2) as (q & c & _ & R).
    now exists q, c.
Qed.

(** X21.  The growth pass on a state whose books agree returns on every
    tape that holds two outcomes of [Math.random] for each cell.  It
    removes no cell, moves none and gives none to another fungus; the
    cells that it adds come last in the map, at most one for each cell
    that was there, and each of them was born one step along a row or a
    column from a cell of the same fungus that was there before the pass:
    a fungus never jumps.  The books still agree after the pass. *)
Theorem growth_pass_grows_in_place (st : SimulationEngine.t)
    (tape : Random.Tape) :
  orderly st ->
  (Random.validTape tape = true ->
   (2 * length (cells st) <= length tape)%nat ->
   exists st' tape', growthPass st tape = Some (st', tape')) /\
  forall st' tape',
    growthPass st tape = Some (st', tape') ->
    orderly st' /\
    (forall p c, JsMap.get posEqb p (cells st) = Some c ->
       exists c', JsMap.get posEqb p (cells st') = Some c' /\
                  Cell.fungus c' = Cell.fungus c) /\
    (exists added,
       JsMap.keys (cells st') = JsMap.keys (cells st) ++ added /\
       (length added <= length (cells st))%nat) /\
    (forall p c', JsMap.get posEqb p (cells st') = Some c' ->
       JsMap.get posEqb p (cells st) = None ->
       exists q c, JsMap.get posEqb q (cells st) = Some c /\
         manhattan q p = 1%Z /\ Cell.fungus c' = Cell.fungus c).
Proof. exact (growthPass_books st tape). Qed.

Lemma growth_pass_grows_in_place_witness :
  exists st' tape',
    growthPass richState [1 # 2; 1 # 2] = Some (st', tape') /\
    orderly st' /\
    exists added,
      JsMap.keys (cells st') = JsMap.keys (cells richState) ++ added /\
      (length added <= length (cells richState))%nat.
Proof.
  destruct (growth_pass_grows_in_place richState [1 # 2; 1 # 2]
              richState_orderly) as [R F].
  destruct (R eq_refl ltac:(simpl; lia)) as (st' & tape' & E).
  exists st', tape'. split; [exact E|].
  destruct (F st' tape' E) as (H1 & _ & H3 & _).
  split; [exact H1 | exact H3].
Defined.

End GrowthPassFacts.

(** ** Removing the dead *)

Module DeadCellFacts.
Import JsMath JsMathFacts JsMapFacts JsMapMore.
Import Measures SimulationEngine Connectivity.
Import SporeFacts LineageFacts RehomeFacts RecreateFacts FrameFacts.
Import NeighborFacts EngineUse OrderFacts ColonyFacts Examples EngineExamples.

Lemma filter_twice {A : Type} (f g : A -> bool) (l : list A) :
  filter f (filter g l) = filter (fun x => g x && f x) l.
Proof.
  induction l as [|a l IH]; simpl; [reflexivity|].
  destruct (g a); simpl; [|exact IH].
  destruct (f a); now rewrite IH.
Qed.

Section WithKey.

Variables K V : Type.
Variable keyEqb : K -> K -> bool.
Hypothesis keyEqb_eq : forall a b, keyEqb a b = true <-> a = b.

Lemma delete_filter (k : K) (m : JsMap.t K V) :
  NoDup (JsMap.keys m) ->
  JsMap.delete keyEqb k m = filter (fun kv => negb (keyEqb k (fst kv))) m.
Proof.
  induction m as [|[k0 v0] m IH]; simpl; intro Hnd; [reflexivity|].
  inversion Hnd as [|? ? Hnotin Hnd']; subst.
  destruct (keyEqb k k0) eqn:E; simpl.
  - apply keyEqb_eq in E. subst k0.
    symmetry. apply forallb_filter_id. apply forallb_forall.
    intros [k1 v1] H1. simpl.
    destruct (keyEqb k k1) eqn:E1; [|reflexivity].
    apply keyEqb_eq in E1. subst k1.
    exfalso. apply Hnotin. now apply (in_map fst) in H1.
  - now rewrite IH.
Qed.

Lemma fold_delete_filter (ids : list K) :
  forall m : JsMap.t K V,
  NoDup (JsMap.keys m) ->
  fold_left (fun m k => JsMap.delete keyEqb k m) ids m
  = filter (fun kv => negb (existsb (fun k => keyEqb k (fst kv)) ids)) m.
Proof.
  induction ids as [|k ids IH]; intros m Hnd; simpl.
  - symmetry. apply forallb_filter_id. now apply forallb_forall.
  - rewrite IH by now apply (NoDup_keys_delete _ _ keyEqb keyEqb_eq).
    rewrite delete_filter by exact Hnd. rewrite filter_twice.
    apply filter_ext. intros [k1 v1]. simpl. now rewrite negb_orb.
Qed.

(** Deleting the keys that a test selects leaves the entries that fail
    the test, in their order. *)
Lemma delete_selected (P : K * V -> bool) (m : JsMap.t K V) :
  NoDup (JsMap.keys m) ->
  fold_left (fun m k => JsMap.delete keyEqb k m) (map fst (filter P m)) m
  = filter (fun kv => negb (P kv)) m.
Proof.
  intro Hnd. rewrite fold_delete_filter by exact Hnd.
  apply filter_ext_in. intros [k v] Hin. simpl. f_equal.
  destruct (P (k, v)) eqn:E.
  - apply existsb_exists. exists k. split.
    + apply in_map_iff. exists (k, v). split; [reflexivity|].
      apply filter_In. now split.
    + now apply keyEqb_eq.
  - destruct (existsb (fun k0 => keyEqb k0 k) (map fst (filter P m)))
      eqn:Ex; [|reflexivity].
    apply existsb_exists in Ex. destruct Ex as [k' [Hk' Ek]].
    apply keyEqb_eq in Ek. subst k'.
    apply in_map_iff in Hk'. destruct Hk' as [[k1 v1] [E1 H1]].
    simpl in E1. subst k1. apply filter_In in H1. destruct H1 as [H1 P1].
    assert (v1 = v).
    { apply (In_get _ _ keyEqb keyEqb_eq) in H1; [|exact Hnd].
      apply (In_get _ _ keyEqb keyEqb_eq) in Hin; [|exact Hnd].
      congruence. }
    subst v1. congruence.
Qed.

Lemma get_filter_keep (P : K * V -> bool) (k : K) (v : V)
    (m : JsMap.t K V) :
  JsMap.get keyEqb k m = Some v -> P (k, v) = true ->
  JsMap.get keyEqb k (filter P m) = Some v.
Proof.
  induction m as [|[k0 v0] m IH]; simpl; [discriminate|].
  destruct (keyEqb k k0) eqn:E.
  - apply keyEqb_eq in E. subst k0. intros [= ->] HP. rewrite HP. simpl.
    now rewrite (keyEqb_refl _ keyEqb keyEqb_eq).
  - intros H HP. destruct (P (k0, v0)); simpl; [rewrite E|]; now apply IH.
Qed.

Lemma get_filter_Some (P : K * V -> bool) (k : K) (v : V)
    (m : JsMap.t K V) :
  NoDup (JsMap.keys m) ->
  JsMap.get keyEqb k (filter P m) = Some v ->
  JsMap.get keyEqb k m = Some v /\ P (k, v) = true.
Proof.
  intros Hnd H. apply (get_In _ _ keyEqb keyEqb_eq) in H.
  apply filter_In in H. destruct H as [H HP].
  split; [|exact HP]. now apply (In_get _ _ keyEqb keyEqb_eq).
Qed.

End WithKey.

Lemma cells_removeAll (dead : list Cell.t) :
  forall st : SimulationEngine.t,
  cells (fold_left removeCell dead st)
  = fold_left (fun m k => JsMap.delete posEqb k m) (map posOf dead)
      (cells st).
Proof.
  induction dead as [|c dead IH]; intro st; simpl; [reflexivity|].
  now rewrite IH, cells_removeCell.
Qed.

Lemma fungusAt_removeAll (dead : list Cell.t) :
  forall (st : SimulationEngine.t) (k : Z),
  fungusAt (fold_left removeCell dead st) k = fungusAt st k.
Proof.
  induction dead as [|c dead IH]; intros st k; simpl; [reflexivity|].
  now rewrite IH, fungusAt_removeCell.
Qed.

Lemma removeAll_orderly (dead : list Cell.t) :
  forall st : SimulationEngine.t,
  orderly st ->
  NoDup (map posOf dead) ->
  (forall c, In c dead ->
     JsMap.get posEqb (posOf c) (cells st) = Some c) ->
  orderly (fold_left removeCell dead st) /\
  nextId (fold_left removeCell dead st) = nextId st /\
  spores (fold_left removeCell dead st) = spores st.
Proof.
  induction dead as [|c dead IH]; intros st Ho Hnd Hin; simpl.
  - split; [exact Ho|]. split; reflexivity.
  - inversion Hnd as [|? ? Hnotin Hnd']; subst.
    assert (Hc : JsMap.get posEqb (posOf c) (cells st) = Some c)
      by (apply Hin; now left).
    destruct (IH (removeCell st c)) as (I1 & I2 & I3).
    + now apply removeCell_orderly.
    + exact Hnd'.
    + intros d Hd. rewrite cells_removeCell.
      rewrite (get_delete_other _ _ posEqb posEqb_eq).
      * apply Hin. now right.
      * intro E. apply Hnotin. change (Cell.getPositionKey c) with (posOf c) in E.
        rewrite <- E. now apply in_map.
    + split; [exact I1|]. split.
      * now rewrite I2, nextId_removeCell.
      * rewrite I3. cbv beta iota zeta delta [removeCell]. simpl spores.
        unfold updateFungusCells.
        now destruct (JsMap.get Z.eqb _ _).
Qed.

(** All cells alive: the state that the split pass starts from. *)
Lemma orderly_wellFormed (st : SimulationEngine.t) :
  orderly st ->
  (forall k c, JsMap.get posEqb k (cells st) = Some c ->
     Cell.alive c = true) ->
  wellFormed st.
Proof.
  intros Ho Hal. constructor.
  - exact (ord_cell_keys _ Ho).
  - intros k c H.
    apply (In_get _ _ posEqb posEqb_eq) in H; [|exact (ord_cell_keys _ Ho)].
    destruct (ord_cells _ Ho _ _ H) as (P & _ & R).
    split; [exact P|]. split; [exact (Hal _ _ H) | exact R].
  - rewrite headers_keys. exact (ord_fungus_keys _ Ho).
  - intros k f H. unfold headers in H. apply in_map_iff in H.
    destruct H as [[k0 e] [E H]]. simpl in E. injection E as <- <-.
    apply (In_get _ _ Z.eqb Zeqb_eq) in H; [|exact (ord_fungus_keys _ Ho)].
    destruct (ord_fungi _ Ho _ _ H) as (I & L & _). now split.
Qed.

Lemma removeDeadCells_effect (st : SimulationEngine.t) :
  orderly st ->
  let st' := removeDeadCells st in
  orderly st' /\
  cells st' = filter (fun kc => Cell.isAlive (snd kc)) (cells st) /\
  (forall k e, JsMap.get Z.eqb k (fungi st') = Some e ->
     exists p c, JsMap.get posEqb p (cells st') = Some c /\ cid c = k) /\
  (forall k f, fungusAt st' k = Some f ->  fungusAt st k = Some f) /\
  nextId st' = nextId st /\ spores st' = spores st.
Proof.
  intros Ho st'.
  pose proof (ord_cell_keys _ Ho) as Hnd.
  set (dead := filter (fun cell => negb (Cell.isAlive cell))
                 (JsMap.values (cells st))).
  assert (Hdead : map posOf dead
                  = map fst (filter (fun kc => negb (Cell.isAlive (snd kc)))
                               (cells st))).
  { unfold dead, JsMap.values.
    assert (G : forall m : JsMap.t Pos Cell.t,
              (forall k c, In (k, c) m -> posOf c = k) ->
              map posOf (filter (fun cell => negb (Cell.isAlive cell))
                           (map snd m))
              = map fst (filter (fun kc => negb (Cell.isAlive (snd kc))) m)).
    { induction m as [|[k c] m IH]; intro Hm; simpl; [reflexivity|].
      destruct (negb (Cell.isAlive c)); simpl.
      - rewrite (Hm k c) by now left. f_equal. apply IH.
        intros k' c' H. apply Hm. now right.
      - apply IH. intros k' c' H. apply Hm. now right. }
    apply G. intros k c H.
    apply (In_get _ _ posEqb posEqb_eq) in H; [|exact Hnd].
    now destruct (ord_cells _ Ho _ _ H). }
  assert (Hdnd : NoDup (map posOf dead)).
  { rewrite Hdead. apply NoDup_map_filter. exact Hnd. }
  assert (Hdin : forall c, In c dead ->
                   JsMap.get posEqb (posOf c) (cells st) = Some c).
  { intros c Hc. unfold dead in Hc. apply filter_In in Hc.
    destruct Hc as [Hc _]. unfold JsMap.values in Hc.
    apply in_map_iff in Hc. destruct Hc as [[k c'] [E Hc]]. simpl in E.
    subst c'. apply (In_get _ _ posEqb posEqb_eq) in Hc; [|exact Hnd].
    destruct (ord_cells _ Ho _ _ Hc) as (P & _). now rewrite P. }
  destruct (removeAll_orderly dead st Ho Hdnd Hdin) as (Ho1 & Hn1 & Hs1).
  assert (Hcells1 : cells (fold_left removeCell dead st)
                    = filter (fun kc => Cell.isAlive (snd kc)) (cells st)).
  { rewrite cells_removeAll, Hdead.
    rewrite (delete_selected _ _ posEqb posEqb_eq) by exact Hnd.
    apply filter_ext. intros [k c]. simpl. apply negb_involutive. }
  set (st1 := fold_left removeCell dead st) in *.
  assert (Hst' : st' = withFungi st1
                         (filter (fun ke => negb (Nat.eqb (getCellCount
                                                             (snd ke)) 0))
                            (fungi st1))).
  { subst st'. unfold removeDeadCells. fold dead. fold st1. cbv zeta.
    f_equal.
    apply (delete_selected _ _ Z.eqb Zeqb_eq
             (fun ke => Nat.eqb (getCellCount (snd ke)) 0)).
    exact (ord_fungus_keys _ Ho1). }
  set (keep := fun ke : Z * FungusEntry =>
                 negb (Nat.eqb (getCellCount (snd ke)) 0)) in *.
  assert (Hkept : forall k e, JsMap.get Z.eqb k (fungi st1) = Some e ->
                    (exists p, ownerAt st1 p = Some k) ->
                    JsMap.get Z.eqb k (filter keep (fungi st1)) = Some e).
  { intros k e He [p Hp].
    apply (get_filter_keep _ _ Z.eqb Zeqb_eq); [exact He|].
    destruct (ord_fungi _ Ho1 _ _ He) as (_ & _ & _ & M).
    apply M in Hp. unfold keep, getCellCount. simpl.
    destruct (cellKeys e); [destruct Hp | reflexivity]. }
  rewrite Hst'.
  split.
  { constructor.
    - exact (ord_cell_keys _ Ho1).
    - intros k c H. change (JsMap.get posEqb k (cells st1) = Some c) in H.
      destruct (ord_cells _ Ho1 _ _ H) as (P & T & R).
      split; [exact P|]. split; [exact T|].
      destruct (fungusAt_get _ _ _ R) as [e [He Hf]].
      unfold fungusAt. simpl fungi.
      rewrite (Hkept _ e He); [simpl; now rewrite Hf|].
      exists k. unfold ownerAt. now rewrite H.
    - exact (ord_tiles _ Ho1).
    - simpl fungi. unfold JsMap.keys. apply NoDup_map_filter.
      exact (ord_fungus_keys _ Ho1).
    - intros k e H. simpl fungi in H.
      apply (get_filter_Some _ _ Z.eqb Zeqb_eq) in H;
        [|exact (ord_fungus_keys _ Ho1)].
      destruct H as [H _]. exact (ord_fungi _ Ho1 _ _ H). }
  split; [exact Hcells1|]. split.
  { intros k e H. simpl fungi in H.
    apply (get_filter_Some _ _ Z.eqb Zeqb_eq) in H;
      [|exact (ord_fungus_keys _ Ho1)].
    destruct H as [H Hk]. unfold keep, getCellCount in Hk. simpl in Hk.
    destruct (ord_fungi _ Ho1 _ _ H) as (_ & _ & _ & M).
    destruct (cellKeys e) as [|p ps] eqn:Ek; [discriminate|].
    assert (Hp : ownerAt st1 p = Some k) by (apply M; now left).
    unfold ownerAt in Hp. simpl cells.
    destruct (JsMap.get posEqb p (cells st1)) as [c|] eqn:Hc;
      [|discriminate].
    simpl in Hp. injection Hp as Hp. now exists p, c. }
  split.
  { intros k f H. unfold fungusAt in H. simpl fungi in H.
    destruct (JsMap.get Z.eqb k (filter keep (fungi st1))) as [e|] eqn:He;
      [|discriminate].
    simpl in H. injection H as <-.
    apply (get_filter_Some _ _ Z.eqb Zeqb_eq) in He;
      [|exact (ord_fungus_keys _ Ho1)].
    destruct He as [He _].
    assert (Hf : fungusAt st1 k = Some (fungus e))
      by (unfold fungusAt; now rewrite He).
    unfold st1 in Hf. now rewrite fungusAt_removeAll in Hf. }
  split; [exact Hn1 | exact Hs1].
Qed.

(** X22.  [removeDeadCells] on a state whose books agree leaves exactly
    the live cells, in their order and unchanged, and keeps exactly the
    fungi that still own a cell; no fungus is left without cells and no
    cell without its fungus.  The books still agree, and the state is one
    that the split pass can start from: every cell of the map is alive. *)
Theorem dead_cells_and_empty_fungi_go (st : SimulationEngine.t) :
  orderly st ->
  let st' := removeDeadCells st in
  cells st' = filter (fun kc => Cell.isAlive (snd kc)) (cells st) /\
  (forall k f,
     fungusAt st' k = Some f <->
     fungusAt st k = Some f /\
     exists p c, JsMap.get posEqb p (cells st) = Some c /\
                 Cell.alive c = true /\ cid c = k) /\
  nextId st' = nextId st /\ spores st' = spores st /\
  orderly st' /\ wellFormed st'.
Proof.
  intros Ho st'.
  destruct (removeDeadCells_effect st Ho) as (Ho' & Hc & Hown & Hsub & Hn & Hs).
  fold st' in Ho', Hc, Hown, Hsub, Hn, Hs.
  pose proof (ord_cell_keys _ Ho) as Hnd.
  assert (Hlive : forall p c, JsMap.get posEqb p (cells st') = Some c ->
                    JsMap.get posEqb p (cells st) = Some c /\
                    Cell.alive c = true).
  { intros p c H. rewrite Hc in H.
    now apply (get_filter_Some _ _ posEqb posEqb_eq) in H. }
  split; [exact Hc|]. split.
  { intros k f. split.
    - intro H. split; [now apply Hsub|].
      unfold fungusAt in H.
      destruct (JsMap.get Z.eqb k (fungi st')) as [e|] eqn:He;
        [|discriminate].
      destruct (Hown k e He) as (p & c & Hp & Hk).
      destruct (Hlive p c Hp) as [Hp0 Ha]. now exists p, c.
    - intros [H (p & c & Hp & Ha & Hk)].
      assert (Hp' : JsMap.get posEqb p (cells st') = Some c).
      { rewrite Hc. now apply (get_filter_keep _ _ posEqb posEqb_eq). }
      destruct (ord_cells _ Ho' _ _ Hp') as (_ & _ & R').
      destruct (ord_cells _ Ho _ _ Hp) as (_ & _ & R).
      rewrite Hk in R, R'. congruence. }
  split; [exact Hn|]. split; [exact Hs|]. split; [exact Ho'|].
  apply orderly_wellFormed; [exact Ho'|].
  intros k c H. now destruct (Hlive k c H).
Qed.

Lemma dead_cells_and_empty_fungi_go_witness :
  let dead := Cell.die growerCell in
  let st := storeCell foundedState dead in
  cells (removeDeadCells st) = [] /\
  fungusAt (removeDeadCells st) 0 = None /\
  wellFormed (removeDeadCells st).
Proof.
  intros dead st.
  assert (Ho : orderly st).
  { apply (storeCell_orderly foundedState
             (Cell.create 5 5 (Fungus.mk 0 growerDna 0) 50) dead
             foundedState_orderly); reflexivity. }
  destruct (dead_cells_and_empty_fungi_go st Ho) as (H1 & H2 & _ & _ & _ & H6).
  split; [rewrite H1; reflexivity|]. split; [|exact H6].
  destruct (fungusAt (removeDeadCells st) 0) as [f|] eqn:E; [|reflexivity].
  apply H2 in E. destruct E as (_ & p & c & Hp & Ha & _).
  apply (get_In _ _ posEqb posEqb_eq) in Hp.
  destruct Hp as [Hp|[]]. injection Hp as <- <-. discriminate.
Defined.

End DeadCellFacts.

(** ** A second split pass *)

Module SplitAgainFacts.
Import JsMath JsMathFacts JsMapFacts JsMapMore Measures.
Import SimulationEngine SporeFacts LineageFacts RehomeFacts Connectivity.
Import NeighborFacts FloodFacts SortFacts RecreateFacts SplitFacts StepFacts.
Import RegroupFacts SplitFungusFacts FrameFacts LoopFacts Examples.

Lemma NoDup_app_apart {A : Type} (l1 l2 : list A) (x : A) :
  NoDup (l1 ++ l2) -> In x l1 -> In x l2 -> False.
Proof.
  induction l1 as [|a l1 IH]; simpl; intros Hnd H1 H2; [exact H1|].
  inversion Hnd as [|? ? Hnotin Hnd']; subst.
  destruct H1 as [->|H1].
  - apply Hnotin. apply in_or_app. now right.
  - now apply IH.
Qed.

(** A fungus whose cells are all joined is left as it is. *)
Lemma splitFungus_connected (T : Q) (st : SimulationEngine.t)
    (f : Fungus.t) :
  wellFormed st ->
  (forall p q, ownerAt st p = Some (Fungus.id f) ->
     ownerAt st q = Some (Fungus.id f) ->
     connected st (Fungus.id f) p q) ->
  splitFungus T st f = Some st.
Proof.
  intros Hwf Hconn. unfold splitFungus.
  destruct (Nat.leb_spec (length (fungusCellsOf st (Fungus.id f))) 1)
    as [Hle|Hgt]; [reflexivity|].
  destruct (findGroups_spec st (wellFormed_storedAlive st Hwf)
              (Fungus.id f) (fungusCellsOf st (Fungus.id f)) [] [])
    as (Gs & V & E & (Hcl & HV & Hnd & Hst & Hcomp) & _ & Hcover).
  - intros c Hc. now apply (fungusCellsOf_iff st Hwf).
  - simpl. repeat split; try tauto; try constructor.
  - rewrite E.
    destruct (Nat.ltb_spec 1 (length Gs)) as [Hmany|Hfew]; [|reflexivity].
    exfalso.
    destruct Gs as [|G1 [|G2 l]]; simpl in Hmany; try lia.
    destruct (Hcomp G1 (or_introl eq_refl)) as [Hne1 Hc1].
    destruct (Hcomp G2 (or_intror (or_introl eq_refl))) as [Hne2 _].
    destruct G1 as [|c1 G1]; [congruence|].
    destruct G2 as [|c2 G2]; [congruence|].
    assert (Ho1 : ownerAt st (posOf c1) = Some (Fungus.id f)).
    { apply ownerAt_iff. exists c1. apply Hst. simpl. now left. }
    assert (Ho2 : ownerAt st (posOf c2) = Some (Fungus.id f)).
    { apply ownerAt_iff. exists c2. apply Hst. simpl.
      right. apply in_or_app. right. now left. }
    pose proof (Hconn _ _ Ho1 Ho2) as Hpath.
    apply (Hc1 (posOf c1) (posOf c2)) in Hpath; [|simpl; now left].
    change (concat ((c1 :: G1) :: (c2 :: G2) :: l))
      with ((c1 :: G1) ++ ((c2 :: G2) ++ concat l)) in Hnd.
    rewrite map_app in Hnd.
    apply (NoDup_app_apart _ _ (posOf c2) Hnd Hpath).
    rewrite map_app. apply in_or_app. left. simpl. now left.
Qed.

Lemma splitLoop_connected (T : Q) (st : SimulationEngine.t) :
  wellFormed st ->
  (forall h p q, ownerAt st p = Some h -> ownerAt st q = Some h ->
     connected st h p q) ->
  forall (fuel i : nat),
  (length (fungi st) <= fuel + i)%nat ->
  splitLoop T fuel st i = Some st.
Proof.
  intros Hwf Hconn fuel. induction fuel as [|fuel IH]; intros i Hlen.
  - simpl. destruct (nth_error (fungi st) i) as [[k e]|] eqn:E;
      [|reflexivity].
    assert (i < length (fungi st))%nat
      by (apply nth_error_Some; congruence).
    lia.
  - simpl. destruct (nth_error (fungi st) i) as [[k e]|] eqn:E;
      [|reflexivity].
    rewrite (splitFungus_connected T st (fungus e) Hwf).
    + apply IH. lia.
    + intros p q. apply Hconn.
Qed.

Lemma settled_after_pass (T : Q) (st st' : SimulationEngine.t) :
  splitOutcome T st st' ->
  forall h p q, ownerAt st' p = Some h -> ownerAt st' q = Some h ->
    connected st' h p q.
Proof.
  intros Hout h p q Hp Hq.
  pose proof (so_apart T st st' Hout p q h Hp Hq) as Hsame.
  destruct (ownerAt st p) as [g|] eqn:Hg.
  - symmetry in Hsame.
    pose proof (proj1 (so_components T st st' Hout g p q Hg Hsame)
                  ltac:(congruence)) as Hpath.
    apply (connected_map st st' g h p q); [|exact Hpath].
    intros r Hr.
    destruct (connected_owner _ _ _ _ Hr) as [_ Hor].
    pose proof (proj2 (so_components T st st' Hout g p r Hg Hor) Hr).
    congruence.
  - apply ownerAt_None in Hg.
    apply (so_empty T st st' Hout) in Hg.
    apply ownerAt_None in Hg. congruence.
Qed.

(** X23.  The split pass settles the colony map.  From a state with one
    live cell per position, each with its fungus in the fungus map, the
    pass returns, every fungus of the result is in one piece, and a
    second pass returns the very same state: it makes no fungus and
    changes no cell. *)
Theorem split_pass_settles (T : Q) (st : SimulationEngine.t) :
  wellFormed st ->
  exists st',
    splitDisconnectedFungi T st = Some st' /\
    (forall h p q, ownerAt st' p = Some h -> ownerAt st' q = Some h ->
       connected st' h p q) /\
    splitDisconnectedFungi T st' = Some st'.
Proof.
  intro Hwf. destruct (split_pass_outcome T st Hwf) as (st' & E & Hout).
  exists st'. split; [exact E|].
  pose proof (settled_after_pass T st st' Hout) as Hconn.
  split; [exact Hconn|].
  unfold splitDisconnectedFungi.
  apply splitLoop_connected; [exact (so_wf T st st' Hout) | exact Hconn | lia].
Qed.

Lemma split_pass_settles_witness :
  exists st',
    splitDisconnectedFungi 250 colonyState = Some st' /\
    splitDisconnectedFungi 250 st' = Some st'.
Proof.
  destruct (split_pass_settles 250 colonyState colonyState_wellFormed)
    as (st' & E & _ & E').
  exists st'. split; [exact E | exact E'].
Defined.

End SplitAgainFacts.

(** ** The split pass and the books *)

Module SplitOrderFacts.
Import JsMath JsMathFacts JsMapFacts JsMapMore Measures.
Import SimulationEngine SporeFacts LineageFacts RehomeFacts Connectivity.
Import NeighborFacts FloodFacts SortFacts RecreateFacts SplitFacts StepFacts.
Import RegroupFacts SplitFungusFacts FrameFacts LoopFacts Examples.
Import EngineUse OrderFacts ColonyFacts DeadCellFacts SplitAgainFacts.
Import EngineExamples.

Lemma rehome_orderly (newF : Fungus.t) (st : SimulationEngine.t)
    (c : Cell.t) :
  orderly st ->
  JsMap.get posEqb (posOf c) (cells st) = Some c ->
  fungusAt st (Fungus.id newF) = Some newF ->
  orderly (rehomeCell newF st c).
Proof.
  intros Ho Hc Hreg. unfold rehomeCell.
  pose proof (recreate_pos newF c) as Hp.
  destruct (ord_cells _ Ho _ _ Hc) as (_ & Ht & _).
  apply addCell_orderly.
  - now apply removeCell_orderly.
  - rewrite Hp, cells_removeCell.
    apply (get_delete_same _ _ posEqb posEqb_eq), (ord_cell_keys _ Ho).
  - rewrite garden_removeCell, hasTile_set.
    unfold posOf, Cell.getPositionKey in Hp. injection Hp as -> ->.
    exact Ht.
  - rewrite fungusAt_removeCell. unfold cid. now rewrite recreate_fungus.
Qed.

Lemma rehomeAll_orderly (newF : Fungus.t) (group : list Cell.t) :
  forall st : SimulationEngine.t,
  orderly st ->
  NoDup (map posOf group) ->
  (forall c, In c group -> JsMap.get posEqb (posOf c) (cells st) = Some c) ->
  fungusAt st (Fungus.id newF) = Some newF ->
  orderly (fold_left (rehomeCell newF) group st) /\
  forall p, ~ In p (map posOf group) ->
    JsMap.get posEqb p (cells (fold_left (rehomeCell newF) group st))
    = JsMap.get posEqb p (cells st).
Proof.
  induction group as [|c group IH]; intros st Ho Hnd Hin Hreg; simpl.
  - split; [exact Ho | reflexivity].
  - inversion Hnd as [|? ? Hnotin Hnd']; subst.
    destruct (IH (rehomeCell newF st c)) as [I1 I2].
    + apply rehome_orderly; [exact Ho | apply Hin; now left | exact Hreg].
    + exact Hnd'.
    + intros d Hd. rewrite cells_rehomeCell.
      destruct (posEqb (posOf d) (posOf c)) eqn:E.
      * apply posEqb_eq in E. exfalso. apply Hnotin. rewrite <- E.
        now apply in_map.
      * apply Hin. now right.
    + now rewrite fungusAt_rehomeCell.
    + split; [exact I1|]. intros p Hp. simpl in Hp.
      rewrite I2 by tauto.
      rewrite cells_rehomeCell.
      destruct (posEqb p (posOf c)) eqn:E; [|reflexivity].
      apply posEqb_eq in E. subst p. tauto.
Qed.

Lemma splitGroup_orderly (T : Q) (f : Fungus.t) (st : SimulationEngine.t)
    (group : list Cell.t) :
  orderly st ->
  NoDup (map posOf group) ->
  (forall c, In c group -> JsMap.get posEqb (posOf c) (cells st) = Some c) ->
  orderly (splitGroup T f st group) /\
  forall p, ~ In p (map posOf group) ->
    JsMap.get posEqb p (cells (splitGroup T f st group))
    = JsMap.get posEqb p (cells st).
Proof.
  intros Ho Hnd Hin. unfold splitGroup, newFungus.
  apply (rehomeAll_orderly _ group
           (registerFungus (withNextId st (nextId st + 1))
              (Fungus.mk (nextId st) (DnaOps.clone T (Fungus.dna f))
                 (Fungus.generation f)))).
  - exact (register_orderly st (DnaOps.clone T (Fungus.dna f))
             (Fungus.generation f) Ho).
  - exact Hnd.
  - exact Hin.
  - rewrite fungusAt_registerFungus. simpl. now rewrite Z.eqb_refl.
Qed.

Lemma splitGroups_orderly (T : Q) (f : Fungus.t)
    (others : list (list Cell.t)) :
  forall st : SimulationEngine.t,
  orderly st ->
  NoDup (map posOf (concat others)) ->
  (forall c, In c (concat others) ->
     JsMap.get posEqb (posOf c) (cells st) = Some c) ->
  orderly (fold_left (splitGroup T f) others st).
Proof.
  induction others as [|G others IH]; intros st Ho Hnd Hin; simpl.
  - exact Ho.
  - simpl in Hnd, Hin. rewrite map_app in Hnd.
    destruct (splitGroup_orderly T f st G Ho) as [I1 I2].
    + now apply NoDup_app_remove_r in Hnd.
    + intros c Hc. apply Hin. apply in_or_app. now left.
    + apply IH.
      * exact I1.
      * now apply NoDup_app_remove_l in Hnd.
      * intros c Hc. rewrite I2.
        -- apply Hin. apply in_or_app. now right.
        -- intro Hp. apply (NoDup_app_apart _ _ (posOf c) Hnd Hp).
           now apply in_map.
Qed.

Lemma splitFungus_orderly (T : Q) (st : SimulationEngine.t) (f : Fungus.t)
    (st' : SimulationEngine.t) :
  orderly st -> wellFormed st ->
  splitFungus T st f = Some st' -> orderly st'.
Proof.
  intros Ho Hwf E. unfold splitFungus in E.
  destruct (Nat.leb_spec (length (fungusCellsOf st (Fungus.id f))) 1)
    as [Hle|Hgt]; [now injection E as <-|].
  destruct (findGroups_spec st (wellFormed_storedAlive st Hwf)
              (Fungus.id f) (fungusCellsOf st (Fungus.id f)) [] [])
    as (Gs & V & EG & (Hcl & HV & Hnd & Hst & Hcomp) & _ & Hcover).
  - intros c Hc. now apply (fungusCellsOf_iff st Hwf).
  - simpl. repeat split; try tauto; try constructor.
  - rewrite EG in E.
    destruct (Nat.ltb_spec 1 (length Gs)) as [Hmany|Hfew];
      [|now injection E as <-].
    injection E as <-.
    pose proof (sortGroups_perm Gs) as Hperm.
    destruct (sortGroups Gs) as [|first others] eqn:Es.
    { apply Permutation_length in Hperm. simpl in Hperm. lia. }
    pose proof (concat_perm _ _ _ Hperm) as Hcp. simpl in Hcp.
    simpl tl. apply splitGroups_orderly.
    + exact Ho.
    + assert (Hnd' : NoDup (map posOf (first ++ concat others))).
      { apply (Permutation_NoDup (l := map posOf (concat Gs)));
          [|exact Hnd].
        apply Permutation_map. now symmetry. }
      rewrite map_app in Hnd'. now apply NoDup_app_remove_l in Hnd'.
    + intros c Hc. apply Hst. apply (Permutation_in _ Hcp).
      apply in_or_app. now right.
Qed.

Lemma splitLoop_orderly (T : Q) (fuel : nat) :
  forall (st : SimulationEngine.t) (i : nat) (st' : SimulationEngine.t),
  orderly st -> wellFormed st ->
  splitLoop T fuel st i = Some st' -> orderly st'.
Proof.
  induction fuel as [|fuel IH]; intros st i st' Ho Hwf E; simpl in E.
  - destruct (nth_error (fungi st) i) as [[k e]|]; [discriminate|].
    now injection E as <-.
  - destruct (nth_error (fungi st) i) as [[k e]|] eqn:En;
      [|now injection E as <-].
    destruct (splitFungus T st (fungus e)) as [st1|] eqn:E1; [|discriminate].
    assert (Hf : In (Fungus.id (fungus e), fungus e) (headers st)).
    { apply nth_error_In in En.
      assert (Hh : In (k, fungus e) (headers st)).
      { unfold headers. apply in_map_iff. now exists (k, e). }
      destruct (wf_fungi st Hwf _ _ Hh) as [-> _]. exact Hh. }
    destruct (splitFungus_spec T st (fungus e) Hwf Hf)
      as (st1' & n & E1' & Hstep).
    assert (st1' = st1) by congruence. subst st1'.
    apply (IH st1 (S i) st').
    + exact (splitFungus_orderly T st (fungus e) st1 Ho Hwf E1).
    + exact (ss_wf _ _ _ _ _ Hstep).
    + exact E.
Qed.

(** [getCellCount] of a fungus is the number of its cells. *)
Lemma count_is_size (st : SimulationEngine.t) (k : Z) (e : FungusEntry) :
  orderly st -> wellFormed st ->
  JsMap.get Z.eqb k (fungi st) = Some e ->
  getCellCount e = sizeOf st k.
Proof.
  intros Ho Hwf H.
  destruct (ord_fungi _ Ho _ _ H) as (_ & _ & N & M).
  unfold getCellCount, sizeOf.
  rewrite <- (length_map posOf (fungusCellsOf st k)).
  apply Permutation_length. apply NoDup_Permutation.
  - exact N.
  - exact (fungusCellsOf_NoDup st Hwf k).
  - intro p. rewrite M. symmetry.
    exact (fungusCellsOf_positions st Hwf k p).
Qed.

(** X24.  The split pass keeps the books.  From a state whose books
    agree and whose cells are all alive, the pass returns a state whose
    books agree: every tile that holds a cell is marked occupied and no
    other, and the private map of every fungus, the new ones included,
    has exactly the positions of its cells, so that [getCellCount] is the
    number of cells that the fungus owns.  All cells are still alive. *)
Theorem split_pass_keeps_the_books (T : Q) (st : SimulationEngine.t) :
  orderly st ->
  (forall k c, JsMap.get posEqb k (cells st) = Some c ->
     Cell.alive c = true) ->
  exists st',
    splitDisconnectedFungi T st = Some st' /\
    orderly st' /\
    (forall k c, JsMap.get posEqb k (cells st') = Some c ->
       Cell.alive c = true) /\
    (forall k e, JsMap.get Z.eqb k (fungi st') = Some e ->
       getCellCount e = sizeOf st' k).
Proof.
  intros Ho Hal.
  pose proof (orderly_wellFormed st Ho Hal) as Hwf.
  destruct (split_pass_outcome T st Hwf) as (st' & E & Hout).
  exists st'. split; [exact E|].
  pose proof (splitLoop_orderly T _ st 0 st' Ho Hwf E) as Ho'.
  split; [exact Ho'|]. split.
  - intros k c H. apply (get_In _ _ posEqb posEqb_eq) in H.
    now destruct (wf_cells st' (so_wf T st st' Hout) k c H) as (_ & A & _).
  - intros k e H.
    exact (count_is_size st' k e Ho' (so_wf T st st' Hout) H).
Qed.

Lemma colonyState_orderly : orderly colonyState.
Proof.
  unfold colonyState. cbn [fold_left].
  repeat (apply addCell_orderly; [|reflexivity|reflexivity|reflexivity]).
  exact (register_orderly (SimulationEngine.create 20) colonyDna 0
           (create_orderly 20)).
Qed.

Lemma split_pass_keeps_the_books_witness :
  exists st',
    splitDisconnectedFungi 250 colonyState = Some st' /\ orderly st'.
Proof.
  destruct (split_pass_keeps_the_books 250 colonyState colonyState_orderly)
    as (st' & E & Ho' & _).
  - intros k c H. apply (get_In _ _ posEqb posEqb_eq) in H.
    now destruct (wf_cells _ colonyState_wellFormed k c H) as (_ & A & _).
  - exists st'. split; [exact E | exact Ho'].
Defined.

End SplitOrderFacts.

(** ** Energy sharing *)

Module SharingFacts.
Import JsMath JsMathFacts IntegerFacts JsMapFacts JsMapMore.
Import EnergyWalletHelper Measures SimulationEngine Connectivity.
Import SporeFacts LineageFacts RehomeFacts RecreateFacts FrameFacts.
Import CellUse CellOrderFacts EngineUse OrderFacts ColonyFacts Examples.
Import EngineExamples ExpansionFacts GrowthPassFacts Sharing CellFacts.
Import SharingExamples.

Lemma addEnergy_same_place (c : Cell.t) (amount : Q) (t : EnergyType) :
  Cell.hasMushroom (fst (Cell.addEnergy c amount t)) = Cell.hasMushroom c.
Proof.
  unfold Cell.addEnergy.
  now destruct (add (Cell.energyWallet c) t amount
                  (Some (Cell.maxEnergyCapacity c))).
Qed.

Lemma keepsUp_refl (c : Cell.t) : inOrder c -> keepsUp c c.
Proof.
  intro H. repeat split; try reflexivity; try apply H.
  split_min; lra.
Qed.

Lemma keepsUp_trans (a b c : Cell.t) :
  keepsUp a b -> keepsUp b c -> keepsUp a c.
Proof.
  intros (A1 & A2 & A3 & A4 & A5 & A6 & A7)
         (B1 & B2 & B3 & B4 & B5 & B6 & B7).
  split; [congruence|]. split; [congruence|]. split; [congruence|].
  split; [congruence|]. split; [congruence|]. split; [exact B6|].
  rewrite A3 in B7. revert A7 B7.
  set (m := (9 # 20) * Cell.maxEnergyCapacity a).
  intros A7 B7. revert A7 B7. split_min; intros; lra.
Qed.

(** A cell that gains energy keeps up. *)
Lemma gain_keepsUp (c : Cell.t) (amount : Q) :
  inOrder c -> 0 <= amount ->
  keepsUp c (fst (Cell.addEnergy c amount NUTRITION_UNIT)).
Proof.
  intros Hin Ha.
  pose proof (addEnergy_order c amount NUTRITION_UNIT Hin Ha) as H.
  pose proof (addEnergy_same_place c amount NUTRITION_UNIT) as Hm.
  destruct (Cell.addEnergy c amount NUTRITION_UNIT) as [c' added].
  cbn [fst] in *.
  destruct H as (H1 & H2 & _ & _ & H5 & _ & _ & H8 & H9 & H10 & H11).
  split; [exact H10|]. split; [exact H11|]. split; [exact H9|].
  split; [exact Hm|]. split; [exact H8|]. split; [exact H1|].
  rewrite H5. split_min; lra.
Qed.

(** A donor that is more than half full keeps up. *)
Lemma donor_keepsUp (n : Cell.t) (pullPerNeighbor : Q) :
  inOrder n -> 0 < Cell.maxEnergyCapacity n ->
  ltb (1 # 2) (Cell.getEnergyRatio n) = true ->
  0 <= pullPerNeighbor ->
  keepsUp n
    (fst (Cell.removeEnergy n
            (min pullPerNeighbor (Cell.getEnergy n * (1 # 10)))
            NUTRITION_UNIT)).
Proof.
  intros Hin Hcap Hr Hp.
  destruct (ltb_spec (1 # 2) (Cell.getEnergyRatio n)) as [Hr'|];
    [|discriminate].
  unfold Cell.getEnergyRatio in Hr'.
  assert (HE : (1 # 2) * Cell.maxEnergyCapacity n < Cell.getEnergy n).
  { assert (Heq : Cell.getEnergy n
                  == Cell.getEnergy n / Cell.maxEnergyCapacity n
                     * Cell.maxEnergyCapacity n) by (field; lra).
    set (r := Cell.getEnergy n / Cell.maxEnergyCapacity n) in *.
    rewrite Heq. nra. }
  set (t := min pullPerNeighbor (Cell.getEnergy n * (1 # 10))).
  assert (Ht : 0 <= t /\ t <= Cell.getEnergy n * (1 # 10))
    by (unfold t; split_min; lra).
  pose proof (removeEnergy_order n t NUTRITION_UNIT Hin (proj1 Ht)) as H.
  pose proof (removeEnergy_same_place n t NUTRITION_UNIT) as (_ & _ & Hm).
  destruct (Cell.removeEnergy n t NUTRITION_UNIT) as [n' removed].
  cbn [fst] in *.
  destruct H as (H1 & H2 & _ & H4 & _ & H6 & _ & H8 & H9 & H10 & H11).
  assert (Hlt : removed < Cell.getEnergy n) by lra.
  destruct (H8 Hlt) as (Hal & _).
  split; [exact H10|]. split; [exact H11|]. split; [exact H9|].
  split; [exact Hm|]. split; [exact Hal|]. split; [exact H1|].
  rewrite H6. split_min; lra.
Qed.

(** *** One cell changed in place *)

Lemma get_updateAt (st : SimulationEngine.t) (key : Pos)
    (f : Cell.t -> Cell.t) (p : Pos) :
  JsMap.get posEqb p (cells (updateAt st key f))
  = if posEqb p key
    then option_map f (JsMap.get posEqb key (cells st))
    else JsMap.get posEqb p (cells st).
Proof.
  unfold updateAt.
  destruct (JsMap.get posEqb key (cells st)) as [c|] eqn:E; simpl.
  - destruct (posEqb p key) eqn:Ep.
    + apply posEqb_eq in Ep. subst p.
      apply (get_set_same _ _ posEqb posEqb_eq).
    + apply (get_set_other _ _ posEqb posEqb_eq). now apply posEqb_false.
  - destruct (posEqb p key) eqn:Ep; [|reflexivity].
    apply posEqb_eq in Ep. now subst p.
Qed.

Lemma keys_updateAt (st : SimulationEngine.t) (key : Pos)
    (f : Cell.t -> Cell.t) :
  JsMap.keys (cells (updateAt st key f)) = JsMap.keys (cells st).
Proof.
  unfold updateAt.
  destruct (JsMap.get posEqb key (cells st)) as [c|] eqn:E; [|reflexivity].
  simpl. apply (keys_set_old _ _ posEqb posEqb_eq).
  apply (get_Some_keys _ _ posEqb posEqb_eq). now exists c.
Qed.

Lemma follows_refl (st : SimulationEngine.t) : allInOrder st -> follows st st.
Proof.
  intro Hin. split; [reflexivity|]. intros k c H. exists c.
  split; [exact H|]. apply keepsUp_refl. now destruct (Hin k c H).
Qed.

Lemma follows_trans (a b c : SimulationEngine.t) :
  follows a b -> follows b c -> follows a c.
Proof.
  intros [K1 F1] [K2 F2]. split; [congruence|].
  intros k x H. destruct (F1 k x H) as [y [Hy Ky]].
  destruct (F2 k y Hy) as [z [Hz Kz]]. exists z.
  split; [exact Hz|]. now apply (keepsUp_trans x y z).
Qed.

Lemma follows_allInOrder (st st' : SimulationEngine.t) :
  allInOrder st -> follows st st' -> allInOrder st'.
Proof.
  intros Hin [K F] k c' H'.
  assert (Hk : In k (JsMap.keys (cells st))).
  { rewrite <- K. apply (get_Some_keys _ _ posEqb posEqb_eq). now exists c'. }
  apply (get_Some_keys _ _ posEqb posEqb_eq) in Hk. destruct Hk as [c Hc].
  destruct (F k c Hc) as [c'' [H'' (_ & _ & Hcap & _ & _ & Ho & _)]].
  assert (c'' = c') by congruence. subst c''.
  split; [exact Ho|]. rewrite Hcap. now destruct (Hin k c Hc).
Qed.

Lemma updateAt_keeps (st : SimulationEngine.t) (key : Pos)
    (f : Cell.t -> Cell.t) :
  orderly st -> allInOrder st ->
  (forall c, JsMap.get posEqb key (cells st) = Some c -> keepsUp c (f c)) ->
  orderly (updateAt st key f) /\ follows st (updateAt st key f).
Proof.
  intros Ho Hin Hf. split; [|split; [apply keys_updateAt|]].
  - unfold updateAt.
    destruct (JsMap.get posEqb key (cells st)) as [c|] eqn:E; [|exact Ho].
    destruct (Hf c eq_refl) as (P & F & _).
    destruct (ord_cells _ Ho _ _ E) as (Pk & _).
    assert (Es : withCells st (JsMap.set posEqb key (f c) (cells st))
                 = storeCell st (f c)).
    { unfold storeCell. rewrite P. unfold posOf in Pk. now rewrite Pk. }
    rewrite Es. apply (storeCell_orderly st c (f c) Ho).
    + now rewrite Pk.
    + exact P.
    + exact F.
  - intros k c H. rewrite get_updateAt.
    destruct (posEqb k key) eqn:Ek.
    + apply posEqb_eq in Ek. subst k. rewrite H. simpl.
      exists (f c). split; [reflexivity | now apply Hf].
    + exists c. split; [exact H|]. apply keepsUp_refl.
      now destruct (Hin k c H).
Qed.

Lemma pullOne_keeps (key : Pos) (pullPerNeighbor : Q)
    (st : SimulationEngine.t) (nk : Pos) :
  orderly st -> allInOrder st -> 0 <= pullPerNeighbor ->
  orderly (pullOne key pullPerNeighbor st nk) /\
  follows st (pullOne key pullPerNeighbor st nk).
Proof.
  intros Ho Hin Hp. unfold pullOne.
  destruct (JsMap.get posEqb nk (cells st)) as [n|] eqn:En;
    [|split; [exact Ho | now apply follows_refl]].
  destruct (ltb (1 # 2) (Cell.getEnergyRatio n)) eqn:Hr;
    [|split; [exact Ho | now apply follows_refl]].
  cbv zeta.
  set (t := min pullPerNeighbor (Cell.getEnergy n * (1 # 10))).
  destruct (Hin nk n En) as [Hn Hcap].
  assert (Ht : 0 <= t).
  { destruct Hn as (Hnn & _).
    assert (0 <= Cell.getEnergy n).
    { destruct (nonNegative_fields _ Hnn) as (N1 & N2 & N3).
      unfold Cell.getEnergy, getTotalUnits. lra. }
    unfold t. split_min; lra. }
  destruct (updateAt_keeps st nk
              (fun n0 => fst (Cell.removeEnergy n0 t NUTRITION_UNIT))
              Ho Hin) as [Ho1 F1].
  { intros c Hc. assert (c = n) by congruence. subst c.
    now apply donor_keepsUp. }
  pose proof (follows_allInOrder _ _ Hin F1) as Hin1.
  destruct (updateAt_keeps _ key
              (fun cell => fst (Cell.addEnergy cell t NUTRITION_UNIT))
              Ho1 Hin1) as [Ho2 F2].
  { intros c Hc. apply gain_keepsUp; [|exact Ht].
    now destruct (Hin1 key c Hc). }
  split; [exact Ho2|]. exact (follows_trans _ _ _ F1 F2).
Qed.

Lemma pullAll_keeps (key : Pos) (pullPerNeighbor : Q)
    (neighbors : list Pos) :
  forall st : SimulationEngine.t,
  orderly st -> allInOrder st -> 0 <= pullPerNeighbor ->
  orderly (fold_left (pullOne key pullPerNeighbor) neighbors st) /\
  follows st (fold_left (pullOne key pullPerNeighbor) neighbors st).
Proof.
  induction neighbors as [|nk rest IH]; intros st Ho Hin Hp; simpl.
  - split; [exact Ho | now apply follows_refl].
  - destruct (pullOne_keeps key pullPerNeighbor st nk Ho Hin Hp) as [Ho1 F1].
    destruct (IH _ Ho1 (follows_allInOrder _ _ Hin F1) Hp) as [Ho2 F2].
    split; [exact Ho2|]. exact (follows_trans _ _ _ F1 F2).
Qed.

(** A cell that holds no more than its capacity has no surplus. *)
Lemma no_surplus (c : Cell.t) :
  Cell.getEnergy c <= Cell.maxEnergyCapacity c ->
  ltb 0 (Cell.isFull c) = false.
Proof.
  intro H. unfold Cell.isFull.
  destruct (leb_spec (Cell.maxEnergyCapacity c) (Cell.getEnergy c));
    [|reflexivity].
  destruct (ltb_spec 0 (Cell.getEnergy c - Cell.maxEnergyCapacity c));
    [lra | reflexivity].
Qed.

Lemma shareStep_keeps (rate deltaTime : Q) (st : SimulationEngine.t)
    (key : Pos) :
  orderly st -> allInOrder st -> 0 <= rate -> 0 <= deltaTime ->
  orderly (shareStep rate deltaTime st key) /\
  follows st (shareStep rate deltaTime st key).
Proof.
  intros Ho Hin Hr Hd.
  assert (Hsame : orderly st /\ follows st st)
    by (split; [exact Ho | now apply follows_refl]).
  unfold shareStep.
  destruct (JsMap.get posEqb key (cells st)) as [cell|] eqn:Hc;
    [|exact Hsame].
  destruct (negb (Cell.isAlive cell)); [exact Hsame|].
  destruct (neighborKeys st cell) as [|n0 ns] eqn:En; [exact Hsame|].
  rewrite <- En. cbv zeta.
  destruct (Hin key cell Hc) as [Hcin Hcap].
  assert (Hnopush :
            (if ltb (9 # 10) (Cell.getEnergyRatio cell)
             then if ltb 0 (Cell.isFull cell)
                  then fold_left
                         (pushOne key
                            (Cell.isFull cell * (1 # 2)
                             / inject_Z (Z.of_nat
                                           (length (neighborKeys st cell)))))
                         (neighborKeys st cell) st
                  else st
             else st) = st).
  { rewrite (no_surplus cell) by apply Hcin.
    now destruct (ltb (9 # 10) (Cell.getEnergyRatio cell)). }
  rewrite Hnopush.
  destruct (ltb (Cell.getEnergyRatio cell) (2 # 10)); [|exact Hsame].
  rewrite Hc.
  apply pullAll_keeps; [exact Ho | exact Hin|].
  assert (Hcount : 0 < inject_Z (Z.of_nat (length (neighborKeys st cell)))).
  { rewrite En. change 0 with (inject_Z 0). rewrite <- Zlt_Qlt.
    simpl length. lia. }
  apply Qle_shift_div_l; [exact Hcount|].
  assert (0 <= rate * deltaTime) by now apply Qmult_le_0_compat.
  assert (0 <= Cell.getEnergyDeficit cell).
  { unfold Cell.getEnergyDeficit. destruct Hcin as (_ & _ & _ & Hfit).
    lra. }
  split_min; lra.
Qed.

Lemma sharing_keeps (rate deltaTime : Q) (keys : list Pos) :
  forall st : SimulationEngine.t,
  orderly st -> allInOrder st -> 0 <= rate -> 0 <= deltaTime ->
  orderly (fold_left (shareStep rate deltaTime) keys st) /\
  follows st (fold_left (shareStep rate deltaTime) keys st).
Proof.
  induction keys as [|key rest IH]; intros st Ho Hin Hr Hd; simpl.
  - split; [exact Ho | now apply follows_refl].
  - destruct (shareStep_keeps rate deltaTime st key Ho Hin Hr Hd)
      as [Ho1 F1].
    destruct (IH _ Ho1 (follows_allInOrder _ _ Hin F1) Hr Hd) as [Ho2 F2].
    split; [exact Ho2|]. exact (follows_trans _ _ _ F1 F2).
Qed.

(** X25.  Energy sharing never kills.  On a state whose books agree and
    whose cells are all in good order, with a sharing rate and a time
    step that are not negative, the pass leaves every cell at its place,
    in its fungus and alive or dead as it was, in good order, and with
    the energy it had or at least nine twentieths of its capacity.  No
    cell has a surplus for the pass to push, before it or after it:
    [isFull] is not above 0 for a cell that holds no more than its
    capacity.  The books still agree. *)
Theorem sharing_never_kills (rate deltaTime : Q)
    (st : SimulationEngine.t) :
  orderly st -> allInOrder st -> 0 <= rate -> 0 <= deltaTime ->
  let st' := performEnergySharing rate deltaTime st in
  orderly st' /\ allInOrder st' /\
  JsMap.keys (cells st') = JsMap.keys (cells st) /\
  (forall k c, JsMap.get posEqb k (cells st) = Some c ->
     ltb 0 (Cell.isFull c) = false /\
     exists c', JsMap.get posEqb k (cells st') = Some c' /\
       Cell.fungus c' = Cell.fungus c /\
       Cell.maxEnergyCapacity c' = Cell.maxEnergyCapacity c /\
       Cell.hasMushroom c' = Cell.hasMushroom c /\
       Cell.alive c' = Cell.alive c /\
       ltb 0 (Cell.isFull c') = false /\
       min (Cell.getEnergy c) ((9 # 20) * Cell.maxEnergyCapacity c)
       <= Cell.getEnergy c').
Proof.
  intros Ho Hin Hr Hd st'.
  destruct (sharing_keeps rate deltaTime (JsMap.keys (cells st)) st
              Ho Hin Hr Hd) as [Ho' F].
  fold (performEnergySharing rate deltaTime st) in Ho', F. fold st' in Ho', F.
  split; [exact Ho'|]. split; [exact (follows_allInOrder _ _ Hin F)|].
  destruct F as [K F]. split; [exact K|].
  intros k c H. split; [apply no_surplus; apply (Hin k c H)|].
  destruct (F k c H) as [c' [H' (_ & A & B & C & D & O & E)]].
  exists c'. split; [exact H'|]. split; [exact A|]. split; [exact B|].
  split; [exact C|]. split; [exact D|].
  split; [apply no_surplus; apply O | exact E].
Qed.

Lemma sharingState_orderly : orderly sharingState.
Proof.
  apply addCell_orderly; [exact foundedState_orderly | reflexivity ..].
Qed.

Lemma sharingState_inOrder : allInOrder sharingState.
Proof.
  intros k c H. apply (get_In _ _ posEqb posEqb_eq) in H.
  destruct H as [H|[H|[]]]; injection H as <- <-.
  - destruct (create_in_order 5 5 (Fungus.mk 0 growerDna 0) 50)
      as (H1 & _ & _ & _ & _ & _ & H7 & _); try by_computation.
    split; [exact H1 | lra].
  - destruct (create_in_order 6 5 (Fungus.mk 0 growerDna 0) 1000)
      as (H1 & _ & _ & _ & _ & _ & H7 & _); try by_computation.
    split; [exact H1 | lra].
Qed.

Lemma sharing_never_kills_witness :
  let st' := performEnergySharing 100 (1 # 10) sharingState in
  orderly st' /\
  exists c', JsMap.get posEqb (6, 5)%Z (cells st') = Some c' /\
    Cell.alive c' = true /\ (1485 # 2) <= Cell.getEnergy c'.
Proof.
  intro st'.
  destruct (sharing_never_kills 100 (1 # 10) sharingState
              sharingState_orderly sharingState_inOrder)
    as (H1 & _ & _ & H4); try by_computation.
  split; [exact H1|].
  destruct (H4 (6, 5)%Z (Cell.create 6 5 (Fungus.mk 0 growerDna 0) 1000)
              eq_refl) as (_ & c' & G1 & _ & _ & _ & G5 & _ & G6).
  exists c'. split; [exact G1|]. split; [exact G5|].
  eapply Qle_trans; [|exact G6]. by_computation.
Defined.

(** X26.  A pull can make energy.  When the cell at [key] pulls from a
    neighbour that is more than half full, both in good order, the
    neighbour gives the floored amount only as far as it holds
    Nutrition, while the puller receives the whole floored amount when it
    has room for it.  So the two cells together never lose energy in a
    pull, and they gain energy whenever the neighbour holds less
    Nutrition than the floored amount.  The neighbour stays alive. *)
Theorem pull_never_loses_energy (key nk : Pos) (pullPerNeighbor : Q)
    (st : SimulationEngine.t) (c n : Cell.t) :
  key <> nk ->
  JsMap.get posEqb key (cells st) = Some c ->
  JsMap.get posEqb nk (cells st) = Some n ->
  inOrder c -> inOrder n -> 0 < Cell.maxEnergyCapacity n ->
  ltb (1 # 2) (Cell.getEnergyRatio n) = true ->
  0 <= pullPerNeighbor ->
  let amount :=
    floor (min pullPerNeighbor (Cell.getEnergy n * (1 # 10))) in
  amount <= Cell.maxEnergyCapacity c - Cell.getEnergy c ->
  let st' := pullOne key pullPerNeighbor st nk in
  exists c' n',
    JsMap.get posEqb key (cells st') = Some c' /\
    JsMap.get posEqb nk (cells st') = Some n' /\
    Cell.getEnergy c' == Cell.getEnergy c + amount /\
    Cell.getEnergy n'
    == Cell.getEnergy n
       - min amount (Cell.getEnergyOfType n NUTRITION_UNIT) /\
    Cell.alive n' = Cell.alive n /\
    Cell.getEnergy c + Cell.getEnergy n
    <= Cell.getEnergy c' + Cell.getEnergy n' /\
    (Cell.getEnergyOfType n NUTRITION_UNIT < amount ->
     Cell.getEnergy c + Cell.getEnergy n
     < Cell.getEnergy c' + Cell.getEnergy n').
Proof.
  intros Hne Hc Hn Hcin Hnin Hcap Hr Hp amount Hroom st'.
  subst st'. unfold pullOne. rewrite Hn, Hr. cbv zeta.
  set (t := min pullPerNeighbor (Cell.getEnergy n * (1 # 10))) in *.
  assert (HEn : 0 <= Cell.getEnergy n).
  { destruct Hnin as (Hnn & _).
    destruct (nonNegative_fields _ Hnn) as (N1 & N2 & N3).
    unfold Cell.getEnergy, getTotalUnits. lra. }
  assert (Ht : 0 <= t) by (unfold t; split_min; lra).
  pose proof (donor_keepsUp n pullPerNeighbor Hnin Hcap Hr Hp) as Kn.
  fold t in Kn.
  pose proof (removeEnergy_order n t NUTRITION_UNIT Hnin Ht) as Rn.
  pose proof (addEnergy_order c t NUTRITION_UNIT Hcin Ht) as Ac.
  assert (Hrem : snd (Cell.removeEnergy n t NUTRITION_UNIT)
                 = min amount (Cell.getEnergyOfType n NUTRITION_UNIT))
    by reflexivity.
  destruct (Cell.removeEnergy n t NUTRITION_UNIT) as [n' removed] eqn:En'.
  destruct (Cell.addEnergy c t NUTRITION_UNIT) as [c' added] eqn:Ec'.
  cbn [snd] in Hrem.
  destruct Rn as (_ & _ & _ & _ & _ & R6 & _).
  destruct Ac as (_ & _ & _ & A4 & A5 & _).
  destruct Kn as (_ & _ & _ & _ & Kal & _). cbn [fst] in Kal.
  fold amount in A4. specialize (A4 Hroom).
  exists c', n'.
  assert (G1 : JsMap.get posEqb key
                 (cells (updateAt st nk
                           (fun n0 => fst (Cell.removeEnergy n0 t
                                             NUTRITION_UNIT)))) = Some c).
  { rewrite get_updateAt.
    destruct (posEqb key nk) eqn:E; [|exact Hc].
    apply posEqb_eq in E. contradiction. }
  split.
  { rewrite get_updateAt, posEqb_refl, G1. cbn [option_map].
    now rewrite Ec'. }
  split.
  { rewrite get_updateAt.
    destruct (posEqb nk key) eqn:E;
      [apply posEqb_eq in E; congruence|].
    rewrite get_updateAt, posEqb_refl, Hn. cbn [option_map].
    now rewrite En'. }
  split; [rewrite A5, A4; reflexivity|].
  split; [rewrite R6, Hrem; reflexivity|].
  split; [exact Kal|].
  rewrite A5, A4, R6, Hrem.
  split; [split_min; lra|].
  intro Hshort. split_min; lra.
Qed.

Lemma pull_never_loses_energy_witness :
  let st' := pullOne (5, 5)%Z 10 soilRichState (6, 5)%Z in
  exists c' n',
    JsMap.get posEqb (5, 5)%Z (cells st') = Some c' /\
    JsMap.get posEqb (6, 5)%Z (cells st') = Some n' /\
    Cell.getEnergy starvingCell + Cell.getEnergy soilRichCell
    < Cell.getEnergy c' + Cell.getEnergy n'.
Proof.
  intro st'.
  assert (Hc : inOrder starvingCell).
  { split; [intros []; by_computation|].
    split; [intros []; by_computation|].
    split; by_computation. }
  assert (Hn : inOrder soilRichCell).
  { split; [intros []; by_computation|].
    split; [intros []; by_computation|].
    split; by_computation. }
  destruct (pull_never_loses_energy (5, 5)%Z (6, 5)%Z 10 soilRichState
              starvingCell soilRichCell)
    as (c' & n' & G1 & G2 & _ & _ & _ & _ & G7);
    try by_computation; try assumption; try reflexivity.
  exists c', n'. split; [exact G1|]. split; [exact G2|].
  apply G7. by_computation.
Defined.

End SharingFacts.

(** ** The second half of a frame *)

Module FrameTailFacts.
Import JsMath JsMathFacts IntegerFacts JsMapFacts JsMapMore.
Import EnergyWalletHelper Measures SimulationEngine Connectivity.
Import SporeFacts LineageFacts RehomeFacts RecreateFacts FrameFacts LoopFacts.
Import CellUse CellOrderFacts EngineUse OrderFacts ColonyFacts Examples.
Import EngineExamples ExpansionFacts GrowthPassFacts DeadCellFacts.
Import SplitAgainFacts SplitOrderFacts Sharing SharingFacts FrameTail.
Import NeighborFacts FloodFacts SplitFacts StepFacts.

Lemma addEnergy_place (c : Cell.t) (amount : Q) (t : EnergyType) :
  posOf (fst (Cell.addEnergy c amount t)) = posOf c /\
  Cell.fungus (fst (Cell.addEnergy c amount t)) = Cell.fungus c.
Proof.
  unfold Cell.addEnergy.
  now destruct (add (Cell.energyWallet c) t amount
                  (Some (Cell.maxEnergyCapacity c))).
Qed.

Lemma updateAt_orderly (st : SimulationEngine.t) (key : Pos)
    (f : Cell.t -> Cell.t) :
  orderly st ->
  (forall c, posOf (f c) = posOf c /\ Cell.fungus (f c) = Cell.fungus c) ->
  orderly (updateAt st key f).
Proof.
  intros Ho Hf. unfold updateAt.
  destruct (JsMap.get posEqb key (cells st)) as [c|] eqn:E; [|exact Ho].
  destruct (Hf c) as (P & F).
  destruct (ord_cells _ Ho _ _ E) as (Pk & _).
  assert (Es : withCells st (JsMap.set posEqb key (f c) (cells st))
               = storeCell st (f c)).
  { unfold storeCell. unfold posOf in P, Pk. now rewrite P, Pk. }
  rewrite Es. apply (storeCell_orderly st c (f c) Ho).
  - now rewrite Pk.
  - exact P.
  - exact F.
Qed.

Lemma take_orderly (st : SimulationEngine.t) (key : Pos) (amount : Q) :
  orderly st ->
  orderly (updateAt st key
             (fun c => fst (Cell.removeEnergy c amount NUTRITION_UNIT))).
Proof.
  intro Ho. apply updateAt_orderly; [exact Ho|]. intro c.
  now destruct (removeEnergy_same_place c amount NUTRITION_UNIT)
    as (P & F & _).
Qed.

Lemma give_orderly (st : SimulationEngine.t) (key : Pos) (amount : Q) :
  orderly st ->
  orderly (updateAt st key
             (fun c => fst (Cell.addEnergy c amount NUTRITION_UNIT))).
Proof.
  intro Ho. apply updateAt_orderly; [exact Ho|]. intro c.
  apply addEnergy_place.
Qed.

Lemma pushOne_orderly (key : Pos) (share : Q) (st : SimulationEngine.t)
    (nk : Pos) :
  orderly st -> orderly (pushOne key share st nk).
Proof.
  intro Ho. unfold pushOne.
  destruct (JsMap.get posEqb nk (cells st)) as [n|]; [|exact Ho].
  cbv zeta. apply give_orderly. now apply take_orderly.
Qed.

Lemma pullOne_orderly (key : Pos) (pull : Q) (st : SimulationEngine.t)
    (nk : Pos) :
  orderly st -> orderly (pullOne key pull st nk).
Proof.
  intro Ho. unfold pullOne.
  destruct (JsMap.get posEqb nk (cells st)) as [n|]; [|exact Ho].
  destruct (ltb (1 # 2) (Cell.getEnergyRatio n)); [|exact Ho].
  cbv zeta. apply give_orderly. now apply take_orderly.
Qed.

Lemma fold_orderly {A : Type} (f : SimulationEngine.t -> A ->
                                    SimulationEngine.t) (l : list A) :
  (forall st a, orderly st -> orderly (f st a)) ->
  forall st, orderly st -> orderly (fold_left f l st).
Proof.
  intro Hf. induction l as [|a l IH]; intros st Ho; simpl; [exact Ho|].
  apply IH. now apply Hf.
Qed.

Lemma shareStep_orderly (rate deltaTime : Q) (st : SimulationEngine.t)
    (key : Pos) :
  orderly st -> orderly (shareStep rate deltaTime st key).
Proof.
  intro Ho. unfold shareStep.
  destruct (JsMap.get posEqb key (cells st)) as [cell|]; [|exact Ho].
  destruct (negb (Cell.isAlive cell)); [exact Ho|].
  destruct (neighborKeys st cell) as [|n0 ns]; [exact Ho|].
  cbv zeta.
  set (st1 := if ltb (9 # 10) (Cell.getEnergyRatio cell)
              then if ltb 0 (Cell.isFull cell)
                   then fold_left _ (n0 :: ns) st
                   else st
              else st).
  assert (Ho1 : orderly st1).
  { unfold st1. destruct (ltb (9 # 10) (Cell.getEnergyRatio cell));
      [|exact Ho].
    destruct (ltb 0 (Cell.isFull cell)); [|exact Ho].
    apply fold_orderly; [|exact Ho].
    intros s a. apply pushOne_orderly. }
  destruct (ltb (Cell.getEnergyRatio cell) (2 # 10)); [|exact Ho1].
  destruct (JsMap.get posEqb key (cells st1)) as [cell1|]; [|exact Ho1].
  apply fold_orderly; [|exact Ho1].
  intros s a. apply pullOne_orderly.
Qed.

Lemma sharing_orderly (rate deltaTime : Q) (st : SimulationEngine.t) :
  orderly st -> orderly (performEnergySharing rate deltaTime st).
Proof.
  intro Ho. unfold performEnergySharing.
  apply fold_orderly; [|exact Ho].
  intros s a. apply shareStep_orderly.
Qed.

(** No fungus is left without cells by the split pass. *)
Lemma split_pass_no_empty_fungus (T : Q) (st st' : SimulationEngine.t) :
  wellFormed st ->
  (forall k e, JsMap.get Z.eqb k (fungi st) = Some e ->
     exists p, ownerAt st p = Some k) ->
  splitDisconnectedFungi T st = Some st' ->
  forall k e, JsMap.get Z.eqb k (fungi st') = Some e ->
    exists p, ownerAt st' p = Some k.
Proof.
  intros Hwf Hown E k e He.
  destruct (split_pass_outcome T st Hwf) as (st1 & E1 & Hout).
  assert (st1 = st') by congruence. subst st1.
  unfold splitDisconnectedFungi in E.
  destruct (splitLoop_spec T st Hwf (length (fungi st) + length (cells st))
              st 0 (inv_init T st Hwf)) as (st2 & i' & E2 & Hinv & _).
  { rewrite headers_length. lia. }
  assert (st2 = st') by congruence. subst st2.
  destruct Hinv as (_ & [news [Hh Hnews]] & _).
  assert (Hin : In (k, fungus e) (headers st')).
  { unfold headers. apply in_map_iff. exists (k, e). split; [reflexivity|].
    now apply (get_In _ _ Z.eqb Zeqb_eq). }
  rewrite Hh in Hin. apply in_app_or in Hin. destruct Hin as [Hin|Hin].
  - assert (Hf : fungusAt st k = Some (fungus e)).
    { rewrite fungusAt_headers.
      apply (In_get _ _ Z.eqb Zeqb_eq); [|exact Hin].
      exact (wf_fungus_keys st Hwf). }
    destruct (fungusAt_get _ _ _ Hf) as [e0 [He0 _]].
    destruct (Hown k e0 He0) as [p Hp].
    destruct (so_largest T st st' Hout k p Hp) as (q & _ & Hq & _).
    now exists q.
  - now destruct (Hnews k (fungus e) Hin) as [_ Hp].
Qed.

Lemma owner_has_size (st : SimulationEngine.t) (k : Z) (p : Pos) :
  wellFormed st -> ownerAt st p = Some k -> (1 <= sizeOf st k)%nat.
Proof.
  intros Hwf Hp. apply (fungusCellsOf_positions st Hwf) in Hp.
  unfold sizeOf. rewrite <- (length_map posOf).
  destruct (map posOf (fungusCellsOf st k)); [destruct Hp | simpl; lia].
Qed.

(** X27.  The second half of a frame restores the colony map.  From any
    state whose books agree, whatever the energies of the cells, steps 4
    to 8 of [update] return on every tape that holds two outcomes of
    [Math.random] for each cell, and they end in a state whose books
    agree, in which every cell is alive, every fungus owns at least one
    cell and is in one piece, and [getCellCount] of every fungus is the
    number of its cells. *)
Theorem second_half_of_frame_restores_order (T rate deltaTime : Q)
    (st : SimulationEngine.t) (tape : Random.Tape) :
  orderly st ->
  Random.validTape tape = true ->
  (2 * length (cells st) <= length tape)%nat ->
  exists st' tape',
    updateFromGrowth T rate deltaTime st tape = Some (st', tape') /\
    orderly st' /\
    (forall k c, JsMap.get posEqb k (cells st') = Some c ->
       Cell.alive c = true) /\
    (forall h p q, ownerAt st' p = Some h -> ownerAt st' q = Some h ->
       connected st' h p q) /\
    (forall k e, JsMap.get Z.eqb k (fungi st') = Some e ->
       getCellCount e = sizeOf st' k /\ (1 <= sizeOf st' k)%nat).
Proof.
  intros Ho Hv Hl. unfold updateFromGrowth.
  destruct (growthPass_books st tape Ho) as [R F].
  destruct (R Hv Hl) as (st1 & tape1 & E1). rewrite E1.
  destruct (F st1 tape1 E1) as (Ho1 & _).
  pose proof (sharing_orderly rate deltaTime st1 Ho1) as Ho2.
  destruct (updateSpores_books _ deltaTime Ho2) as (Ho3 & _).
  destruct (removeDeadCells_effect _ Ho3) as (Ho4 & Hc4 & Hown4 & _).
  cbv zeta in Ho4, Hc4, Hown4. cbv zeta.
  set (st4 := removeDeadCells
                (updateSpores (performEnergySharing rate deltaTime st1)
                   deltaTime)) in *.
  assert (Hal4 : forall k c, JsMap.get posEqb k (cells st4) = Some c ->
                   Cell.alive c = true).
  { intros k c H. rewrite Hc4 in H.
    apply (get_filter_Some _ _ posEqb posEqb_eq) in H;
      [now destruct H | exact (ord_cell_keys _ Ho3)]. }
  pose proof (orderly_wellFormed st4 Ho4 Hal4) as Hwf4.
  destruct (split_pass_outcome T st4 Hwf4) as (st5 & E5 & Hout).
  rewrite E5. exists st5, tape1. split; [reflexivity|].
  pose proof (splitLoop_orderly T _ st4 0 st5 Ho4 Hwf4 E5) as Ho5.
  pose proof (so_wf T st4 st5 Hout) as Hwf5.
  split; [exact Ho5|]. split.
  { intros k c H. apply (get_In _ _ posEqb posEqb_eq) in H.
    now destruct (wf_cells st5 Hwf5 k c H) as (_ & A & _). }
  split; [exact (settled_after_pass T st4 st5 Hout)|].
  intros k e H.
  split; [exact (count_is_size st5 k e Ho5 Hwf5 H)|].
  destruct (split_pass_no_empty_fungus T st4 st5 Hwf4) with (k := k) (e := e)
    as [p Hp]; [|exact E5 | exact H|].
  - intros k0 e0 H0. destruct (Hown4 k0 e0 H0) as (p & c & Hpc & Hk).
    exists p. unfold ownerAt. rewrite Hpc. simpl. now rewrite Hk.
  - exact (owner_has_size st5 k p Hwf5 Hp).
Qed.

Lemma second_half_of_frame_restores_order_witness :
  exists st' tape',
    updateFromGrowth 250 100 (1 # 10) richState [1 # 2; 1 # 2]
    = Some (st', tape') /\
    orderly st' /\
    forall k c, JsMap.get posEqb k (cells st') = Some c ->
      Cell.alive c = true.
Proof.
  destruct (second_half_of_frame_restores_order 250 100 (1 # 10) richState
              [1 # 2; 1 # 2] richState_orderly eq_refl ltac:(simpl; lia))
    as (st' & tape' & E & H1 & H2 & _).
  exists st', tape'. split; [exact E|]. split; [exact H1 | exact H2].
Defined.

End FrameTailFacts.

(** ** What a cell takes in *)

Module IntakeFacts.
Import JsMath JsMathFacts IntegerFacts EnergyWalletHelper EnergyFacts.
Import CellFacts RehomeFacts WalletFacts CellUse CellOrderFacts.
Import Intake ExpansionFacts ParasitismFacts Examples.

Lemma total_nonneg (w : EnergyWallet) : nonNegative w -> 0 <= getTotalUnits w.
Proof.
  intro H. destruct (nonNegative_fields _ H) as (N1 & N2 & N3).
  unfold getTotalUnits. lra.
Qed.

(** X28.  Soil absorption never creates energy.  For a cell in good
    order over a tile without negative counts, [applySoilAbsorption]
    changes only the Soil of the tile and the Soil of the cell: the tile
    loses some, the cell gains at most what the tile lost, and exactly
    that when the cell has room for it; what a full cell cannot hold is
    lost.  The cell stays in good order and alive or dead as it was, and
    the tile keeps counts that are not negative.  Without a tile, or over
    a tile without energy, nothing changes at all. *)
Theorem soil_absorption_never_creates_energy (rate deltaTime : Q)
    (tile : Tile.t) (cell : Cell.t) :
  nonNegative (Tile.energyWallet tile) -> inOrder cell ->
  applySoilAbsorption rate None cell deltaTime = (None, cell) /\
  (Tile.getTotalEnergy tile <= 0 ->
   applySoilAbsorption rate (Some tile) cell deltaTime = (Some tile, cell)) /\
  exists tile' cell',
    applySoilAbsorption rate (Some tile) cell deltaTime
    = (Some tile', cell') /\
    let lost := get (Tile.energyWallet tile) SOIL_UNIT
                - get (Tile.energyWallet tile') SOIL_UNIT in
    let gained := Cell.getEnergyOfType cell' SOIL_UNIT
                  - Cell.getEnergyOfType cell SOIL_UNIT in
    0 <= gained /\ gained <= lost /\
    (lost <= Cell.maxEnergyCapacity cell - Cell.getEnergy cell ->
     gained == floor lost) /\
    Tile.getTotalEnergy tile' == Tile.getTotalEnergy tile - lost /\
    Cell.getEnergy cell' == Cell.getEnergy cell + gained /\
    (forall u, u <> SOIL_UNIT ->
       get (Tile.energyWallet tile') u = get (Tile.energyWallet tile) u /\
       Cell.getEnergyOfType cell' u = Cell.getEnergyOfType cell u) /\
    nonNegative (Tile.energyWallet tile') /\
    inOrder cell' /\ Cell.alive cell' = Cell.alive cell.
Proof.
  intros Hn Hin. split; [reflexivity|]. split.
  { intro H. unfold applySoilAbsorption.
    destruct (leb_spec (Tile.getTotalEnergy tile) 0); [reflexivity|lra]. }
  assert (Hsame : forall c1 : Cell.t,
            Cell.energyWallet c1 = Cell.energyWallet cell ->
            Cell.maxEnergyCapacity c1 = Cell.maxEnergyCapacity cell ->
            Cell.alive c1 = Cell.alive cell ->
            let lost := get (Tile.energyWallet tile) SOIL_UNIT
                        - get (Tile.energyWallet tile) SOIL_UNIT in
            let gained := Cell.getEnergyOfType c1 SOIL_UNIT
                          - Cell.getEnergyOfType cell SOIL_UNIT in
            0 <= gained /\ gained <= lost /\
            (lost <= Cell.maxEnergyCapacity cell - Cell.getEnergy cell ->
             gained == floor lost) /\
            Tile.getTotalEnergy tile == Tile.getTotalEnergy tile - lost /\
            Cell.getEnergy c1 == Cell.getEnergy cell + gained /\
            (forall u, u <> SOIL_UNIT ->
               get (Tile.energyWallet tile) u = get (Tile.energyWallet tile) u
               /\ Cell.getEnergyOfType c1 u = Cell.getEnergyOfType cell u) /\
            nonNegative (Tile.energyWallet tile) /\
            inOrder c1 /\ Cell.alive c1 = Cell.alive cell).
  { intros c1 Hw Hc Ha lost gained. subst lost gained.
    assert (Hz : floor (get (Tile.energyWallet tile) SOIL_UNIT
                        - get (Tile.energyWallet tile) SOIL_UNIT) == 0).
    { rewrite (floor_comp _ 0) by lra. reflexivity. }
    assert (Hin1 : inOrder c1).
    { unfold inOrder, Cell.getEnergy. rewrite Hw, Hc. exact Hin. }
    unfold Cell.getEnergyOfType, Cell.getEnergy. rewrite Hw.
    split; [lra|]. split; [lra|].
    split; [intros _; rewrite Hz; lra|].
    split; [lra|]. split; [lra|].
    split; [intros u _; split; reflexivity|].
    split; [exact Hn|]. split; [exact Hin1 | exact Ha]. }
  unfold applySoilAbsorption.
  destruct (leb_spec (Tile.getTotalEnergy tile) 0) as [Hle|Hgt].
  { exists tile, cell. split; [reflexivity|]. now apply Hsame. }
  cbv zeta. unfold EnergyAccumulator.extractUnits. cbv zeta.
  set (acc := EnergyAccumulator.add (Cell.soilAbsorptionAccumulator cell)
                (brown (Fungus.dna (Cell.fungus cell)) / 100 * rate
                 * deltaTime)).
  set (cell1 := withSoilAbsorptionAccumulator cell (acc - floor acc)).
  destruct (ltb_spec 0 (floor acc)) as [Hu|Hu];
    [|exists tile, cell1; split; [reflexivity | now apply Hsame]].
  unfold Tile.removeEnergy.
  pose proof (remove_bounds (Tile.energyWallet tile) SOIL_UNIT (floor acc)
                Hn ltac:(lra)) as Hr.
  destruct (remove (Tile.energyWallet tile) SOIL_UNIT (floor acc))
    as [w' taken].
  destruct Hr as (R1 & R2 & R3 & R4 & R5 & R6 & R7 & _).
  destruct (ltb_spec 0 taken) as [Ht|Ht].
  - unfold Cell.addEnergyFromSource.
    assert (Hin1 : inOrder cell1) by exact Hin.
    pose proof (addEnergy_order cell1 taken SOIL_UNIT Hin1 R1) as Ha.
    destruct (Cell.addEnergy cell1 taken SOIL_UNIT) as [cell' added].
    destruct Ha as (A1 & A2 & A3 & A4 & A5 & A6 & A7 & A8 & _).
    eexists _, cell'. split; [reflexivity|]. cbn [fst Tile.energyWallet
                                                 Tile.withWallet].
    change (Cell.getEnergyOfType cell1 SOIL_UNIT)
      with (Cell.getEnergyOfType cell SOIL_UNIT) in A6.
    change (Cell.getEnergy cell1) with (Cell.getEnergy cell) in A4, A5.
    change (Cell.maxEnergyCapacity cell1)
      with (Cell.maxEnergyCapacity cell) in A4.
    assert (Hlost : get (Tile.energyWallet tile) SOIL_UNIT - get w' SOIL_UNIT
                    == taken) by (rewrite R4; lra).
    assert (Hgain : Cell.getEnergyOfType cell' SOIL_UNIT
                    - Cell.getEnergyOfType cell SOIL_UNIT == added)
      by (rewrite A6; lra).
    split; [rewrite Hgain; exact A2|].
    split; [rewrite Hgain, Hlost; exact A3|].
    split.
    { intro Hroom. rewrite Hgain, (floor_comp _ taken) by exact Hlost.
      apply A4. pose proof (floor_le taken). lra. }
    split; [unfold Tile.getTotalEnergy;
            cbn [Tile.energyWallet Tile.withWallet]; rewrite R6; lra|].
    split; [rewrite A5; lra|].
    split.
    { intros u Hu'. split; [now apply R5 | now apply A7]. }
    split; [exact R7|]. split; [exact A1 | exact A8].
  - assert (Htz : taken == 0) by lra.
    eexists _, cell1. split; [reflexivity|].
    cbn [Tile.energyWallet Tile.withWallet].
    assert (Hlost : get (Tile.energyWallet tile) SOIL_UNIT - get w' SOIL_UNIT
                    == 0) by (rewrite R4; lra).
    change (Cell.getEnergyOfType cell1 SOIL_UNIT)
      with (Cell.getEnergyOfType cell SOIL_UNIT).
    change (Cell.getEnergy cell1) with (Cell.getEnergy cell).
    split; [lra|]. split; [lra|].
    split; [intros _; rewrite (floor_comp _ 0) by exact Hlost;
            change (floor 0) with 0; lra|].
    split; [unfold Tile.getTotalEnergy;
            cbn [Tile.energyWallet Tile.withWallet]; rewrite R6; lra|].
    split; [lra|].
    split; [intros u Hu'; split; [now apply R5 | reflexivity]|].
    split; [exact R7|]. split; [exact Hin | reflexivity].
Qed.

Lemma soil_absorption_never_creates_energy_witness :
  let tile := Tile.mk 2 3 (mkWallet 0 30 0) 0 false None in
  let cell := Cell.mk 2 3 colonyFungus (mkWallet 0 0 300) 300
                0 0 0 0 true false 0 in
  exists tile' cell',
    applySoilAbsorption 20 (Some tile) cell 1 = (Some tile', cell') /\
    Tile.getTotalEnergy tile' == 20 /\ Cell.getEnergy cell' == 300.
Proof.
  intros tile cell.
  destruct (soil_absorption_never_creates_energy 20 1 tile cell)
    as (_ & _ & tile' & cell' & E & _ & _ & _ & G4 & G5 & _).
  - intros []; by_computation.
  - split; [intros []; by_computation|].
    split; [intros []; by_computation|].
    split; by_computation.
  - exists tile', cell'. split; [exact E|].
    pose proof E as E'. vm_compute in E'. injection E' as <- <-.
    split; by_computation.
Defined.

(** X29.  Photosynthesis takes no more than fits.  For a cell in good
    order whose accumulator is between 0 and 1, with a green trait, a
    rate and a time step that are not negative: without sun nothing
    changes; otherwise the cell gains a whole number of Sun units, not
    negative and no more than the room that is left, and no other kind
    of its energy changes.  With green, the rate or the time step at zero
    it gains nothing and the accumulator stays as it is.  The accumulator
    is again between 0 and 1 after the call, whether the units fitted or
    not, and the cell stays in good order and alive or dead as it was. *)
Theorem photosynthesis_takes_what_fits (rate deltaTime sun : Q)
    (cell : Cell.t) :
  inOrder cell ->
  0 <= Cell.photosynthesisAccumulator cell ->
  Cell.photosynthesisAccumulator cell < 1 ->
  0 <= green (Fungus.dna (Cell.fungus cell)) ->
  0 <= rate -> 0 <= deltaTime ->
  let cell' := applyPhotosynthesis rate cell deltaTime sun in
  let gained :=
    Cell.getEnergyOfType cell' SUN_UNIT - Cell.getEnergyOfType cell SUN_UNIT in
  (sun <= 0 -> cell' = cell) /\
  0 <= gained /\ isInteger gained = true /\
  gained <= Cell.maxEnergyCapacity cell - Cell.getEnergy cell /\
  Cell.getEnergy cell' == Cell.getEnergy cell + gained /\
  (green (Fungus.dna (Cell.fungus cell)) == 0 \/ rate == 0
   \/ deltaTime == 0 ->
   gained == 0 /\
   Cell.photosynthesisAccumulator cell'
   == Cell.photosynthesisAccumulator cell) /\
  0 <= Cell.photosynthesisAccumulator cell' /\
  Cell.photosynthesisAccumulator cell' < 1 /\
  (forall u, u <> SUN_UNIT ->
     Cell.getEnergyOfType cell' u = Cell.getEnergyOfType cell u) /\
  inOrder cell' /\ Cell.alive cell' = Cell.alive cell.
Proof.
  intros Hin Ha0 Ha1 Hg Hr Hd cell' gained. subst gained cell'.
  assert (Hroom : 0 <= Cell.maxEnergyCapacity cell - Cell.getEnergy cell).
  { destruct Hin as (_ & _ & _ & H). lra. }
  unfold applyPhotosynthesis.
  destruct (leb_spec sun 0) as [Hs|Hs].
  { split; [reflexivity|]. split; [lra|].
    split; [apply (isInteger_ext 0); [ring | reflexivity]|].
    split; [lra|]. split; [lra|].
    split; [intros _; split; [ring | reflexivity]|].
    split; [exact Ha0|]. split; [exact Ha1|].
    split; [reflexivity|]. split; [exact Hin | reflexivity]. }
  cbv zeta. unfold EnergyAccumulator.extractUnits, EnergyAccumulator.add.
  cbv zeta.
  set (offered := min (green (Fungus.dna (Cell.fungus cell)) / 100 * rate) sun
                  * deltaTime).
  set (acc := Cell.photosynthesisAccumulator cell + offered).
  assert (Hdiv : green (Fungus.dna (Cell.fungus cell)) / 100
                 == green (Fungus.dna (Cell.fungus cell)) * (1 # 100))
    by field.
  assert (Hgr : 0 <= green (Fungus.dna (Cell.fungus cell)) / 100 * rate).
  { apply Qmult_le_0_compat; [|exact Hr]. rewrite Hdiv. lra. }
  assert (Hoff : 0 <= offered).
  { unfold offered. apply Qmult_le_0_compat; [|exact Hd]. split_min; lra. }
  assert (Hzero : green (Fungus.dna (Cell.fungus cell)) == 0 \/ rate == 0
                  \/ deltaTime == 0 -> offered == 0).
  { intros [H|[H|H]]; unfold offered.
    - assert (E : green (Fungus.dna (Cell.fungus cell)) / 100 * rate == 0)
        by (rewrite Hdiv, H; ring).
      destruct (min_cases (green (Fungus.dna (Cell.fungus cell)) / 100 * rate)
                  sun) as [[_ ->]|[M ->]]; [rewrite E; ring|].
      assert (sun == 0) by lra. lra.
    - assert (E : green (Fungus.dna (Cell.fungus cell)) / 100 * rate == 0)
        by (rewrite H; ring).
      destruct (min_cases (green (Fungus.dna (Cell.fungus cell)) / 100 * rate)
                  sun) as [[_ ->]|[M ->]]; [rewrite E; ring|].
      assert (sun == 0) by lra. lra.
    - rewrite H. ring. }
  assert (Hu : 0 <= floor acc) by (apply floor_nonneg; unfold acc; lra).
  pose proof (floor_le acc) as Hfl. pose proof (floor_gt acc) as Hfg.
  assert (Hz0 : offered == 0 -> floor acc == 0).
  { intro H0. unfold floor in *. set (k := Qfloor acc) in *.
    assert (Hlo : inject_Z (-1) < inject_Z k)
      by (change (inject_Z (-1)) with (-(1)); unfold acc in *; lra).
    assert (Hhi : inject_Z k < inject_Z 1)
      by (change (inject_Z 1) with 1; unfold acc in *; lra).
    rewrite <- Zlt_Qlt in Hlo, Hhi.
    assert (E : k = 0%Z) by lia. rewrite E. reflexivity. }
  set (cell1 := withPhotosynthesisAccumulator cell (acc - floor acc)).
  assert (Hin1 : inOrder cell1) by exact Hin.
  destruct (ltb_spec 0 (floor acc)) as [Hpos|Hzero'].
  - unfold Cell.addEnergyFromSource.
    pose proof (addEnergy_order cell1 (floor acc) SUN_UNIT Hin1 Hu) as Ha.
    assert (Hacc : Cell.photosynthesisAccumulator
                     (fst (Cell.addEnergy cell1 (floor acc) SUN_UNIT))
                   = acc - floor acc) by reflexivity.
    destruct (Cell.addEnergy cell1 (floor acc) SUN_UNIT) as [cell' added].
    cbn [fst snd] in *.
    destruct Ha as (A1 & A2 & A3 & _ & A5 & A6 & A7 & A8 & A9 & _).
    change (Cell.getEnergyOfType cell1 SUN_UNIT)
      with (Cell.getEnergyOfType cell SUN_UNIT) in A6.
    change (Cell.getEnergy cell1) with (Cell.getEnergy cell) in A5.
    assert (Eg : Cell.getEnergyOfType cell' SUN_UNIT
                 - Cell.getEnergyOfType cell SUN_UNIT == added)
      by (rewrite A6; ring).
    assert (Hai : isInteger added = true).
    { apply (isInteger_ext (Cell.getEnergyOfType cell' SUN_UNIT
                            - Cell.getEnergyOfType cell SUN_UNIT));
        [exact Eg|].
      destruct A1 as (_ & W' & _). destruct Hin as (_ & W & _).
      apply isInteger_minus; [apply W' | apply W]. }
    destruct A1 as (N' & W' & C' & T').
    split; [intro; lra|]. split; [lra|].
    split; [apply (isInteger_ext added); [now symmetry | exact Hai]|].
    split.
    { rewrite Eg.
      change (Cell.maxEnergyCapacity cell1)
        with (Cell.maxEnergyCapacity cell) in A9.
      rewrite A9 in T'. lra. }
    split; [lra|].
    split.
    { intro H. pose proof (Hz0 (Hzero H)). lra. }
    rewrite Hacc.
    split; [lra|]. split; [lra|].
    split; [exact A7|].
    split; [repeat split; assumption | exact A8].
  - assert (Hz : floor acc == 0) by lra.
    change (Cell.getEnergyOfType cell1 SUN_UNIT)
      with (Cell.getEnergyOfType cell SUN_UNIT).
    change (Cell.getEnergy cell1) with (Cell.getEnergy cell).
    change (Cell.photosynthesisAccumulator cell1) with (acc - floor acc).
    split; [intro; lra|]. split; [lra|].
    split; [apply (isInteger_ext 0); [ring | reflexivity]|].
    split; [lra|]. split; [lra|].
    split.
    { intro H. split; [ring|]. pose proof (Hzero H) as H0.
      unfold acc in *. lra. }
    split; [lra|]. split; [lra|].
    split; [reflexivity|]. split; [exact Hin1 | reflexivity].
Qed.

Lemma photosynthesis_takes_what_fits_witness :
  let cell := Cell.mk 2 3 colonyFungus (mkWallet 0 0 295) 300
                0 0 (1 # 2) 0 true false 0 in
  let cell' := applyPhotosynthesis 20 cell 1 15 in
  inOrder cell' /\
  Cell.getEnergyOfType cell' SUN_UNIT == 5 /\
  Cell.getEnergy cell' == 300 /\
  Cell.photosynthesisAccumulator cell' == (1 # 2).
Proof.
  intros cell cell'.
  destruct (photosynthesis_takes_what_fits 20 1 15 cell)
    as (_ & _ & _ & _ & _ & _ & _ & _ & _ & H10 & _); try by_computation.
  - split; [intros []; by_computation|].
    split; [intros []; by_computation|].
    split; by_computation.
  - split; [exact H10|]. repeat split; by_computation.
Defined.

End IntakeFacts.

(** ** Tiles *)

Module TileFacts.
Import JsMath JsMathFacts IntegerFacts EnergyWalletHelper EnergyFacts.
Import CellFacts RehomeFacts WalletFacts ExpansionFacts IntakeFacts.
Import ParasitismFacts.

(** X30.  [Tile.addEnergy] never overfills a tile.  On a tile without
    negative counts, with an amount that is not negative: when the tile
    holds no more than the capacity, the call returns the floored amount
    cut to the room that is left, adds the floor of that to the kind
    named and to no other, and the tile still holds no more than the
    capacity; with whole counts and a whole capacity what it returns is
    what it added.  When the tile already holds more than the capacity,
    the tile is left as it is and the value returned is negative. *)
Theorem tile_addEnergy_never_overfills (tile : Tile.t)
    (amount maxCapacity : Q) (type : EnergyType) :
  nonNegative (Tile.energyWallet tile) -> 0 <= amount ->
  let tile' := fst (Tile.addEnergy tile amount maxCapacity type) in
  let returned := snd (Tile.addEnergy tile amount maxCapacity type) in
  (Tile.getTotalEnergy tile <= maxCapacity ->
   returned == min (floor amount) (maxCapacity - Tile.getTotalEnergy tile) /\
   0 <= returned /\ returned <= amount /\
   get (Tile.energyWallet tile') type
   == get (Tile.energyWallet tile) type + floor returned /\
   (forall u, u <> type ->
      get (Tile.energyWallet tile') u = get (Tile.energyWallet tile) u) /\
   Tile.getTotalEnergy tile' == Tile.getTotalEnergy tile + floor returned /\
   Tile.getTotalEnergy tile' <= maxCapacity /\
   nonNegative (Tile.energyWallet tile') /\
   (wholeUnits (Tile.energyWallet tile) -> isInteger maxCapacity = true ->
    floor returned == returned /\ wholeUnits (Tile.energyWallet tile'))) /\
  (maxCapacity < Tile.getTotalEnergy tile ->
   tile' = tile /\ returned < 0).
Proof.
  intros Hn Ha tile' returned. subst tile' returned. unfold Tile.addEnergy.
  cbv zeta. unfold Tile.getTotalEnergy.
  set (total := getTotalUnits (Tile.energyWallet tile)).
  set (actual := min (floor amount) (maxCapacity - total)).
  pose proof (floor_nonneg amount Ha) as Hf.
  pose proof (floor_le amount) as Hfl.
  pose proof (Hn type) as Hc.
  assert (Hwhole : wholeUnits (Tile.energyWallet tile) ->
                   isInteger maxCapacity = true ->
                   isInteger actual = true).
  { intros Hw Hi. unfold actual.
    apply isInteger_min; [apply isInteger_floor|].
    apply isInteger_minus; [exact Hi | now apply wholeUnits_total]. }
  split.
  - intro Hfit.
    assert (H0 : 0 <= actual /\ actual <= floor amount /\
                 actual <= maxCapacity - total)
      by (unfold actual; split_min; lra).
    destruct H0 as (H0 & H1 & H2).
    pose proof (floor_le actual) as Hfa.
    pose proof (floor_nonneg actual H0) as Hfa0.
    destruct (ltb_spec 0 actual) as [Hpos|Hzero]; cbn [fst snd].
    + unfold add. cbn [fst Tile.energyWallet Tile.withWallet].
      split; [reflexivity|]. split; [exact H0|]. split; [lra|].
      split; [now rewrite get_put_same|].
      split; [intros u Hu; apply get_put_other; congruence|].
      split; [rewrite total_put; fold total; lra|].
      split; [rewrite total_put; fold total; lra|].
      split; [apply nonNegative_put; [exact Hn | lra]|].
      intros Hw Hi. split; [apply floor_of_integer; now apply Hwhole|].
      intro u. destruct (EnergyType_eq_dec type u) as [<-|Hne].
      * rewrite get_put_same. apply isInteger_plus; [apply Hw|].
        apply isInteger_floor.
      * rewrite get_put_other by exact Hne. apply Hw.
    + assert (Hz : actual == 0) by lra.
      assert (Hfz : floor actual == 0).
      { rewrite (floor_comp _ 0) by exact Hz. reflexivity. }
      split; [reflexivity|]. split; [lra|]. split; [lra|].
      split; [lra|]. split; [reflexivity|]. fold total.
      split; [lra|]. split; [lra|].
      split; [exact Hn|].
      intros Hw Hi. split; [lra | exact Hw].
  - intro Hover.
    assert (Hneg : actual < 0) by (unfold actual; split_min; lra).
    destruct (ltb_spec 0 actual) as [Hpos|_]; [lra|].
    cbn [fst snd]. split; [reflexivity | exact Hneg].
Qed.

Lemma tile_addEnergy_never_overfills_witness :
  let tile := Tile.mk 2 3 (mkWallet 0 995 0) 0 true None in
  Tile.getTotalEnergy (fst (Tile.addEnergy tile 8 1000 SOIL_UNIT)) <= 1000 /\
  snd (Tile.addEnergy tile 8 990 SOIL_UNIT) < 0.
Proof.
  intro tile.
  assert (Hn : nonNegative (Tile.energyWallet tile))
    by (intros []; by_computation).
  destruct (tile_addEnergy_never_overfills tile 8 1000 SOIL_UNIT Hn)
    as [H1 _]; [by_computation|].
  destruct (tile_addEnergy_never_overfills tile 8 990 SOIL_UNIT Hn)
    as [_ H2]; [by_computation|].
  split.
  - now destruct (H1 ltac:(by_computation)) as (_ & _ & _ & _ & _ & _ & G & _).
  - now destruct (H2 ltac:(by_computation)) as [_ G].
Defined.

End TileFacts.
